(** * Auto-File-Ingest: the device ingest pipeline

    A shallow embedding of the filename classifier (package [parser]), the
    transfer engine (package [transfer]), the device inclusion policy
    (package [device]) and the configuration validation (package [config]),
    with the properties of the pipeline stated and proved over it; then
    what stands around them: the log files (package [logger]), the
    detectors of devices on Linux and on Windows, and the monitor
    (package [monitor]).

    Go strings are byte sequences: they are modelled as [string], whose
    characters are the 8-bit [ascii].  The standard-library functions the
    program calls ([path/filepath], [strings], [regexp], [fmt]) are modelled
    first, for a Unix target (separator [/], no volume names). *)

From Stdlib Require Import ZArith Ascii String List Lia Bool Arith DecimalString.
From stdpp Require Import base tactics option list strings gmap.

Local Open Scope string_scope.

(* Let [simpl] compute the append of strings. *)
Arguments String.append !_ _ / : simpl nomatch.

(** ** Package [strings] *)

Module strings.

(** [s[i:]] *)
Fixpoint drop (i : nat) (s : string) : string :=
  match i, s with
  | O, _ => s
  | S i', String _ s' => drop i' s'
  | S _, EmptyString => EmptyString
  end.

(** [s[:i]] *)
Fixpoint take (i : nat) (s : string) : string :=
  match i, s with
  | O, _ => EmptyString
  | S i', String c s' => String c (take i' s')
  | S _, EmptyString => EmptyString
  end.

(** [len(s) >= len(prefix) && s[:len(prefix)] == prefix] *)
Definition HasPrefix (s prefix : string) : bool :=
  (String.length prefix <=? String.length s)%nat
  && String.eqb (take (String.length prefix) s) prefix.

(** [len(s) >= len(suffix) && s[len(s)-len(suffix):] == suffix] *)
Definition HasSuffix (s suffix : string) : bool :=
  (String.length suffix <=? String.length s)%nat
  && String.eqb (drop (String.length s - String.length suffix) s) suffix.

Definition TrimSuffix (s suffix : string) : string :=
  if HasSuffix s suffix
  then take (String.length s - String.length suffix) s
  else s.

(** [Contains(s, substr)]: [substr] occurs in [s] at some offset. *)
Fixpoint Contains (s substr : string) : bool :=
  HasPrefix s substr
  || match s with
     | EmptyString => false
     | String _ s' => Contains s' substr
     end.

(** [ReplaceAll(s, old, new)] for a non-empty [old]: the non-overlapping
    occurrences of [old] are replaced from left to right.  [fuel] bounds
    the number of bytes still to scan. *)
Fixpoint replaceFrom (fuel : nat) (s old new : string) : string :=
  match fuel with
  | O => s
  | S fuel' =>
      if HasPrefix s old
      then new +:+ replaceFrom fuel' (drop (String.length old) s) old new
      else match s with
           | EmptyString => EmptyString
           | String c s' => String c (replaceFrom fuel' s' old new)
           end
  end.

Definition ReplaceAll (s old new : string) : string :=
  replaceFrom (S (String.length s)) s old new.

(** [Join(elems, sep)] *)
Fixpoint Join (elems : list string) (sep : string) : string :=
  match elems with
  | [] => EmptyString
  | [e] => e
  | e :: es => e +:+ sep +:+ Join es sep
  end.

(** ASCII case folding of one byte. *)
Definition lower (c : ascii) : ascii :=
  let n := nat_of_ascii c in
  if ((65 <=? n) && (n <=? 90))%nat then ascii_of_nat (n + 32) else c.

(** [EqualFold] on ASCII text: equality up to the case of the letters
    [A-Z]/[a-z].  (On text outside ASCII the library folds by Unicode simple
    case folding; the policy below is stated for an arbitrary folding
    comparison and this one is used to evaluate it on ASCII names.) *)
Fixpoint EqualFoldASCII (s t : string) : bool :=
  match s, t with
  | EmptyString, EmptyString => true
  | String a s', String b t' => Ascii.eqb (lower a) (lower b) && EqualFoldASCII s' t'
  | _, _ => false
  end.

End strings.

(** ** Package [fmt] *)

Module fmt.
(** The verb [%d] on a non-negative integer. *)
Definition decimal (n : nat) : string := NilZero.string_of_uint (Nat.to_uint n).
End fmt.

(** ** Package [path/filepath] (Unix) *)

Module filepath.

Definition Separator : ascii := "/"%char.
Definition IsPathSeparator (c : ascii) : bool := Ascii.eqb c Separator.

(** Does the string contain a separator? *)
Fixpoint hasSep (s : string) : bool :=
  match s with
  | EmptyString => false
  | String c s' => IsPathSeparator c || hasSep s'
  end.

(** [Ext]: the suffix beginning at the final dot in the final element of the
    path, empty if there is no dot.  The library scans backwards from the
    end and stops at a separator; read from the front, the byte at the head
    is that final dot when it is a dot and neither a later dot in the final
    element nor a separator follows. *)
Fixpoint Ext (path : string) : string :=
  match path with
  | EmptyString => EmptyString
  | String c rest =>
      match Ext rest with
      | EmptyString =>
          if Ascii.eqb c "."%char && negb (hasSep rest) then path else EmptyString
      | e => e
      end
  end.

(** The elements between separators, [strings.Split(path, "/")]. *)
Fixpoint elements (path : string) : list string :=
  match path with
  | EmptyString => [EmptyString]
  | String c rest =>
      if IsPathSeparator c then EmptyString :: elements rest
      else match elements rest with
           | [] => [String c EmptyString]
           | e :: es => String c e :: es
           end
  end.

(** The lexical processing of [Clean], element by element.  [out] is the
    output buffer as a stack of elements, last written first.  An element
    [..] removes the last written element when there is one to backtrack
    over (one that is not itself a kept [..]); otherwise it is dropped in a
    rooted path and kept in a relative one. *)
Fixpoint cleanElements (rooted : bool) (out : list string) (elems : list string)
  : list string :=
  match elems with
  | [] => out
  | e :: es =>
      if String.eqb e "" then cleanElements rooted out es
      else if String.eqb e "." then cleanElements rooted out es
      else if String.eqb e ".." then
        match out with
        | top :: out' =>
            if String.eqb top ".."
            then cleanElements rooted (if rooted then out else e :: out) es
            else cleanElements rooted out' es
        | [] => cleanElements rooted (if rooted then out else [e]) es
        end
      else cleanElements rooted (e :: out) es
  end.

Definition isRooted (path : string) : bool :=
  match path with
  | String c _ => IsPathSeparator c
  | EmptyString => false
  end.

Definition Clean (path : string) : string :=
  match path with
  | EmptyString => "."
  | _ =>
      let rooted := isRooted path in
      let out := rev (cleanElements rooted [] (elements path)) in
      if rooted then "/" +:+ strings.Join out "/"
      else match out with
           | [] => "."
           | _ => strings.Join out "/"
           end
  end.

(** [Join]: the elements from the first non-empty one on are joined with
    the separator and cleaned; no non-empty element gives the empty
    string. *)
Fixpoint Join (elem : list string) : string :=
  match elem with
  | [] => EmptyString
  | e :: es =>
      if String.eqb e "" then Join es
      else Clean (strings.Join elem "/")
  end.

(** The path without its trailing separators. *)
Fixpoint stripTrailingSeps (path : string) : string :=
  match path with
  | EmptyString => EmptyString
  | String c rest =>
      match stripTrailingSeps rest with
      | EmptyString => if IsPathSeparator c then EmptyString else String c EmptyString
      | r => String c r
      end
  end.

(** What follows the last separator (the whole string if there is none). *)
Fixpoint afterLastSep (path : string) : string :=
  match path with
  | EmptyString => EmptyString
  | String c rest =>
      if hasSep rest then afterLastSep rest
      else if IsPathSeparator c then rest else path
  end.

(** What precedes the last separator, that separator included (empty if
    there is none). *)
Fixpoint uptoLastSep (path : string) : string :=
  match path with
  | EmptyString => EmptyString
  | String c rest =>
      if hasSep rest then String c (uptoLastSep rest)
      else if IsPathSeparator c then String c EmptyString else EmptyString
  end.

Definition Base (path : string) : string :=
  match path with
  | EmptyString => "."
  | _ =>
      match afterLastSep (stripTrailingSeps path) with
      | EmptyString => "/"
      | b => b
      end
  end.

Definition Dir (path : string) : string := Clean (uptoLastSep path).

End filepath.

(** ** Package [regexp]

    The fragment of the RE2 syntax that classification patterns are written
    in: literals, [.], bracket classes, capture groups, alternation, the greedy
    repetitions [* + ?] and the anchors [^ $].  The library states its
    matching discipline as: the match begins as early as possible in the
    input, and among those it is the one a backtracking search finds first.
    The matcher below is that backtracking search, on bytes. *)

Module regexp.

Inductive Regexp : Type :=
| EmptyMatch                                         (* the empty pattern *)
| Literal (c : ascii)                                (* one literal byte *)
| AnyCharNotNL                                       (* [.] *)
| CharClass (negated : bool) (ranges : list (ascii * ascii))  (* [[...]] *)
| Concat (r1 r2 : Regexp)
| Alternate (r1 r2 : Regexp)
| Star (r : Regexp)
| Plus (r : Regexp)
| Quest (r : Regexp)
| Capture (index : nat) (r : Regexp)                 (* [( ... )] *)
| BeginText                                          (* [^] *)
| EndText.                                           (* [$] *)

(** [NumSubexp]: the number of parenthesized subexpressions. *)
Fixpoint NumSubexp (r : Regexp) : nat :=
  match r with
  | Concat r1 r2 | Alternate r1 r2 => NumSubexp r1 + NumSubexp r2
  | Star r1 | Plus r1 | Quest r1 => NumSubexp r1
  | Capture _ r1 => S (NumSubexp r1)
  | _ => 0
  end.

(** *** Parsing a pattern *)

Definition isMeta (c : ascii) : bool :=
  existsb (Ascii.eqb c)
    ["\"; "."; "+"; "*"; "?"; "("; ")"; "|"; "["; "]"; "{"; "}"; "^"; "$"]%char.

Definition isRepeatOp (c : ascii) : bool :=
  existsb (Ascii.eqb c) ["*"; "+"; "?"; "{"]%char.

Definition concat (r1 r2 : Regexp) : Regexp :=
  match r1 with
  | EmptyMatch => r2
  | _ => Concat r1 r2
  end.

(** The items of a bracket class up to the closing bracket.  [first] is set
    on the first item, where a closing bracket is a literal.  Escapes and
    named classes inside brackets are outside the fragment. *)
Fixpoint parseClass (fuel : nat) (first : bool) (s : string)
  : option (list (ascii * ascii) * string) :=
  match fuel with
  | O => None
  | S fuel' =>
      match s with
      | EmptyString => None
      | String c s1 =>
          if Ascii.eqb c "]"%char && negb first then Some ([], s1)
          else if Ascii.eqb c "\"%char || Ascii.eqb c "["%char then None
          else
            match s1 with
            | String d (String hi s2) =>
                if Ascii.eqb d "-"%char && negb (Ascii.eqb hi "]"%char) then
                  if Ascii.eqb hi "\"%char || Ascii.eqb hi "["%char then None
                  else if (nat_of_ascii hi <? nat_of_ascii c)%nat then None
                  else
                    match parseClass fuel' false s2 with
                    | Some (rs, rest) => Some ((c, hi) :: rs, rest)
                    | None => None
                    end
                else
                  match parseClass fuel' false s1 with
                  | Some (rs, rest) => Some ((c, c) :: rs, rest)
                  | None => None
                  end
            | _ =>
                match parseClass fuel' false s1 with
                | Some (rs, rest) => Some ((c, c) :: rs, rest)
                | None => None
                end
            end
      end
  end.

(** A postfix repetition operator, if one follows.  A second operator
    (nested repetition, or the non-greedy forms) is refused. *)
Definition parseRepeat (r : Regexp) (s : string) : option (Regexp * string) :=
  match s with
  | String c s1 =>
      if isRepeatOp c then
        match s1 with
        | String c2 _ => if isRepeatOp c2 then None else
            if Ascii.eqb c "*"%char then Some (Star r, s1)
            else if Ascii.eqb c "+"%char then Some (Plus r, s1)
            else if Ascii.eqb c "?"%char then Some (Quest r, s1)
            else None
        | EmptyString =>
            if Ascii.eqb c "*"%char then Some (Star r, s1)
            else if Ascii.eqb c "+"%char then Some (Plus r, s1)
            else if Ascii.eqb c "?"%char then Some (Quest r, s1)
            else None
        end
      else Some (r, s)
  | EmptyString => Some (r, s)
  end.

(** Recursive descent: [parseAlt] reads an alternation up to a closing
    parenthesis or the end, [parseCat] a concatenation up to [|], [)] or the
    end.  [n] is the number of groups opened so far: groups are numbered
    by their opening parenthesis, from 1. *)
Fixpoint parseAlt (fuel : nat) (n : nat) (s : string) {struct fuel}
  : option (Regexp * nat * string) :=
  match fuel with
  | O => None
  | S fuel' =>
      match parseCat fuel' n s with
      | Some (r1, n1, String c s1) =>
          if Ascii.eqb c "|"%char then
            match parseAlt fuel' n1 s1 with
            | Some (r2, n2, rest) => Some (Alternate r1 r2, n2, rest)
            | None => None
            end
          else Some (r1, n1, String c s1)
      | other => other
      end
  end
with parseCat (fuel : nat) (n : nat) (s : string) {struct fuel}
  : option (Regexp * nat * string) :=
  match fuel with
  | O => None
  | S fuel' =>
      match s with
      | EmptyString => Some (EmptyMatch, n, s)
      | String c s1 =>
          if Ascii.eqb c "|"%char || Ascii.eqb c ")"%char then Some (EmptyMatch, n, s)
          else
            let atom : option (Regexp * nat * string) :=
              if Ascii.eqb c "("%char then
                match s1 with
                | String "?"%char _ => None
                | _ =>
                    match parseAlt fuel' (S n) s1 with
                    | Some (r, n1, String ")"%char rest) => Some (Capture (S n) r, n1, rest)
                    | _ => None
                    end
                end
              else if Ascii.eqb c "["%char then
                match s1 with
                | String "^"%char s2 =>
                    match parseClass fuel' true s2 with
                    | Some (rs, rest) => Some (CharClass true rs, n, rest)
                    | None => None
                    end
                | _ =>
                    match parseClass fuel' true s1 with
                    | Some (rs, rest) => Some (CharClass false rs, n, rest)
                    | None => None
                    end
                end
              else if Ascii.eqb c "."%char then Some (AnyCharNotNL, n, s1)
              else if Ascii.eqb c "^"%char then Some (BeginText, n, s1)
              else if Ascii.eqb c "$"%char then Some (EndText, n, s1)
              else if Ascii.eqb c "\"%char then
                match s1 with
                | String e rest => if isMeta e then Some (Literal e, n, rest) else None
                | EmptyString => None
                end
              else if isRepeatOp c || Ascii.eqb c "}"%char then None
              else Some (Literal c, n, s1) in
            match atom with
            | Some (r, n1, rest) =>
                match parseRepeat r rest with
                | Some (r', rest') =>
                    match parseCat fuel' n1 rest' with
                    | Some (r2, n2, rest2) =>
                        Some (match r2 with EmptyMatch => r' | _ => Concat r' r2 end,
                              n2, rest2)
                    | None => None
                    end
                | None => None
                end
            | None => None
            end
      end
  end.

(** [Compile]: [None] stands for the library's error result (a pattern it
    rejects) and for a pattern outside the modelled fragment. *)
Definition Compile (pattern : string) : option Regexp :=
  match parseAlt (2 * S (String.length pattern)) 0 pattern with
  | Some (r, _, EmptyString) => Some r
  | _ => None
  end.

(** *** Matching *)

Definition inRange (c : ascii) (r : ascii * ascii) : bool :=
  ((nat_of_ascii (fst r) <=? nat_of_ascii c) && (nat_of_ascii c <=? nat_of_ascii (snd r)))%nat.

Definition classMatches (negated : bool) (ranges : list (ascii * ascii)) (c : ascii) : bool :=
  xorb negated (existsb (inRange c) ranges).

Definition newline : ascii := ascii_of_nat 10.

(** The submatches recorded so far, by group number. *)
Definition Captures : Type := list (nat * string).

Fixpoint capture (caps : Captures) (i : nat) : string :=
  match caps with
  | [] => EmptyString
  | (j, w) :: caps' => if (i =? j)%nat then w else capture caps' i
  end.

(** A continuation receives the offset reached, the input left and the
    submatches recorded, and searches on. *)
Definition Cont (A : Type) : Type := nat -> string -> Captures -> option A.

(** Greedy iteration of the matcher [m]: one more iteration first, then the
    continuation.  An iteration that consumes nothing is not repeated. *)
Fixpoint iterate {A} (m : nat -> string -> Captures -> Cont A -> option A)
    (fuel : nat) (pos : nat) (s : string) (caps : Captures) (k : Cont A) : option A :=
  match fuel with
  | O => k pos s caps
  | S fuel' =>
      match m pos s caps (fun pos' s' caps' =>
               if (pos' =? pos)%nat then None else iterate m fuel' pos' s' caps' k) with
      | Some a => Some a
      | None => k pos s caps
      end
  end.

(** The backtracking search for [r] at offset [pos], where the input left
    is [s]: alternatives are tried in order and the first success is
    returned. *)
Fixpoint backtrack {A} (r : Regexp) (pos : nat) (s : string) (caps : Captures)
    (k : Cont A) {struct r} : option A :=
  match r with
  | EmptyMatch => k pos s caps
  | Literal c =>
      match s with
      | String c' s' => if Ascii.eqb c c' then k (S pos) s' caps else None
      | EmptyString => None
      end
  | AnyCharNotNL =>
      match s with
      | String c' s' => if Ascii.eqb c' newline then None else k (S pos) s' caps
      | EmptyString => None
      end
  | CharClass negated ranges =>
      match s with
      | String c' s' => if classMatches negated ranges c' then k (S pos) s' caps else None
      | EmptyString => None
      end
  | Concat r1 r2 =>
      backtrack r1 pos s caps (fun pos' s' caps' => backtrack r2 pos' s' caps' k)
  | Alternate r1 r2 =>
      match backtrack r1 pos s caps k with
      | Some a => Some a
      | None => backtrack r2 pos s caps k
      end
  | Star r1 => iterate (backtrack r1) (S (String.length s)) pos s caps k
  | Plus r1 =>
      backtrack r1 pos s caps (fun pos' s' caps' =>
        iterate (backtrack r1) (S (String.length s')) pos' s' caps' k)
  | Quest r1 =>
      match backtrack r1 pos s caps k with
      | Some a => Some a
      | None => k pos s caps
      end
  | Capture i r1 =>
      backtrack r1 pos s caps (fun pos' s' caps' =>
        k pos' s' ((i, strings.take (pos' - pos) s) :: caps'))
  | BeginText => if (pos =? 0)%nat then k pos s caps else None
  | EndText =>
      match s with
      | EmptyString => k pos s caps
      | _ => None
      end
  end.

(** The match of [r] that starts at offset [pos]: the text matched and the
    submatches. *)
Definition matchAt (r : Regexp) (pos : nat) (s : string) : option (string * Captures) :=
  backtrack r pos s [] (fun pos' _ caps => Some (strings.take (pos' - pos) s, caps)).

(** The leftmost match: the start offsets are tried from left to right. *)
Fixpoint search (r : Regexp) (pos : nat) (s : string) : option (string * Captures) :=
  match matchAt r pos s with
  | Some m => Some m
  | None =>
      match s with
      | EmptyString => None
      | String _ s' => search r (S pos) s'
      end
  end.

(** [FindStringSubmatch]: the text of the leftmost match and of its
    subexpressions, [nil] if there is no match.  A subexpression that took
    no part in the match gives the empty string. *)
Definition FindStringSubmatch (r : Regexp) (s : string) : list string :=
  match search r 0 s with
  | Some (whole, caps) => whole :: map (capture caps) (seq 1 (NumSubexp r))
  | None => []
  end.

End regexp.

(** ** Errors

    A Go [error] value is an [option error], [None] for [nil]. *)

Inductive IOop : Type :=
| OpStat (path : string)
| OpMkdirAll (path : string)
| OpOpen (path : string)
| OpCreate (path : string)
| OpCopy (src dst : string)
| OpReadBack (path : string)
| OpRemove (path : string)
| OpWalk (root : string).

Inductive error : Type :=
| ErrBadPattern                                  (* filepath.ErrBadPattern *)
| ErrInvalidParsingPattern                       (* "invalid parsing pattern: ..." *)
| ErrTooManyVersions (destPath : string)         (* "too many versions of file: ..." *)
| ErrChecksumMismatch                            (* "checksum mismatch" *)
| ErrConfig (msg : string)                       (* a validation failure *)
| ErrIO (op : IOop).                             (* an error of the operating system *)

Definition isNil (e : option error) : bool :=
  match e with
  | None => true
  | Some _ => false
  end.

(** ** The file system *)

Inductive Node : Type :=
| File (content : string)
| Directory.

(** The files and directories present, by path. *)
Abbreviation World := (gmap string Node).

Definition occupied (w : World) (path : string) : bool :=
  match w !! path with
  | Some _ => true
  | None => false
  end.

(** *** [filepath.Glob]: the error result

    The program keeps only the error result of [Glob].  The library documents
    that Glob ignores file system errors and that the only possible returned
    error is [ErrBadPattern], when the pattern is malformed; it checks the
    pattern with [Match(pattern, "")] before it looks at the file system,
    and does the same for the directory part of a pattern when that part
    holds a metacharacter.  The check of [Match] is modelled first:
    [scanChunk] cuts the pattern at the stars outside brackets and
    [matchChunk], on the empty name, runs through the chunk for its syntax
    alone. *)

Module glob.

(** The number of bytes of the UTF-8 sequence at the head of [s], [None]
    when the head is not a valid encoding (the library's [RuneError] of
    width 1). *)
Definition isCont (lo hi : nat) (c : ascii) : bool :=
  ((lo <=? nat_of_ascii c) && (nat_of_ascii c <=? hi))%nat.

Definition runeLen (s : string) : option nat :=
  match s with
  | EmptyString => None
  | String b0 s1 =>
      let n0 := nat_of_ascii b0 in
      if (n0 <? 128)%nat then Some 1
      else if ((194 <=? n0) && (n0 <=? 223))%nat then
        match s1 with
        | String b1 _ => if isCont 128 191 b1 then Some 2 else None
        | _ => None
        end
      else if ((224 <=? n0) && (n0 <=? 239))%nat then
        let lo := if (n0 =? 224)%nat then 160 else 128 in
        let hi := if (n0 =? 237)%nat then 159 else 191 in
        match s1 with
        | String b1 (String b2 _) =>
            if isCont lo hi b1 && isCont 128 191 b2 then Some 3 else None
        | _ => None
        end
      else if ((240 <=? n0) && (n0 <=? 244))%nat then
        let lo := if (n0 =? 240)%nat then 144 else 128 in
        let hi := if (n0 =? 244)%nat then 143 else 191 in
        match s1 with
        | String b1 (String b2 (String b3 _)) =>
            if isCont lo hi b1 && isCont 128 191 b2 && isCont 128 191 b3
            then Some 4 else None
        | _ => None
        end
      else None
  end.

(** [getEsc]: one possibly escaped character of a bracket range; the chunk
    that follows it, or [None] for [ErrBadPattern]. *)
Definition getEsc (chunk : string) : option string :=
  match chunk with
  | EmptyString => None
  | String c rest =>
      if Ascii.eqb c "-"%char || Ascii.eqb c "]"%char then None
      else
        let chunk1 := if Ascii.eqb c "\"%char then rest else chunk in
        match chunk1 with
        | EmptyString => None
        | _ =>
            match runeLen chunk1 with
            | None => None
            | Some n =>
                match strings.drop n chunk1 with
                | EmptyString => None
                | nchunk => Some nchunk
                end
            end
        end
  end.

(** The ranges of a bracket expression, up to its closing bracket. *)
Fixpoint ranges (fuel : nat) (nrange : nat) (chunk : string) : option string :=
  match fuel with
  | O => None
  | S fuel' =>
      match chunk, nrange with
      | String "]"%char rest, S _ => Some rest
      | _, _ =>
          match getEsc chunk with
          | None => None
          | Some (String "-"%char rest) =>
              match getEsc rest with
              | None => None
              | Some chunk' => ranges fuel' (S nrange) chunk'
              end
          | Some chunk' => ranges fuel' (S nrange) chunk'
          end
      end
  end.

(** [matchChunk(chunk, "")]: [true] when it reports [ErrBadPattern]. *)
Fixpoint chunkMalformed (fuel : nat) (chunk : string) : bool :=
  match fuel with
  | O => false
  | S fuel' =>
      match chunk with
      | EmptyString => false
      | String c rest =>
          if Ascii.eqb c "["%char then
            let rest' := match rest with
                         | String "^"%char r => r
                         | _ => rest
                         end in
            match ranges (S (String.length rest')) 0 rest' with
            | None => true
            | Some chunk' => chunkMalformed fuel' chunk'
            end
          else if Ascii.eqb c "\"%char then
            match rest with
            | EmptyString => true
            | String _ rest' => chunkMalformed fuel' rest'
            end
          else chunkMalformed fuel' rest
      end
  end.

(** [scanChunk] after the leading stars: the chunk up to the next star
    outside brackets, and the rest of the pattern. *)
Fixpoint scanChunk (inrange : bool) (pattern : string) : string * string :=
  match pattern with
  | EmptyString => (EmptyString, EmptyString)
  | String c rest =>
      if Ascii.eqb c "\"%char then
        match rest with
        | String d rest' =>
            let '(chunk, r) := scanChunk inrange rest' in (String c (String d chunk), r)
        | EmptyString => (String c EmptyString, EmptyString)
        end
      else if Ascii.eqb c "*"%char && negb inrange then (EmptyString, pattern)
      else
        let inrange' := if Ascii.eqb c "["%char then true
                        else if Ascii.eqb c "]"%char then false else inrange in
        let '(chunk, r) := scanChunk inrange' rest in (String c chunk, r)
  end.

Fixpoint skipStars (pattern : string) : string :=
  match pattern with
  | String "*"%char rest => skipStars rest
  | _ => pattern
  end.

(** The error result of [Match(pattern, "")]: some chunk is malformed. *)
Fixpoint malformedFrom (fuel : nat) (pattern : string) : bool :=
  match fuel with
  | O => false
  | S fuel' =>
      match pattern with
      | EmptyString => false
      | _ =>
          let '(chunk, rest) := scanChunk false (skipStars pattern) in
          chunkMalformed (S (String.length chunk)) chunk || malformedFrom fuel' rest
      end
  end.

Definition malformed (pattern : string) : bool :=
  malformedFrom (S (String.length pattern)) pattern.

End glob.

Module filepath_glob.

(** [hasMeta] reports whether the path holds one of the characters that
    [Match] reads as syntax. *)
Fixpoint hasMeta (path : string) : bool :=
  match path with
  | EmptyString => false
  | String c rest =>
      Ascii.eqb c "*"%char || Ascii.eqb c "?"%char || Ascii.eqb c "["%char
      || Ascii.eqb c "\"%char || hasMeta rest
  end.

(** [cleanGlobPath] prepares the directory part for matching. *)
Definition cleanGlobPath (path : string) : string :=
  if String.eqb path "" then "."
  else if String.eqb path "/" then path
  else strings.take (String.length path - 1) path.

(** The descents into directory parts that [globWithLimit] allows. *)
Definition pathSeparatorsLimit : nat := Z.to_nat 10000.

(** The error result of [globWithLimit(pattern, depth)], with [allowed]
    the descents that are left, [pathSeparatorsLimit - depth].

    The pattern is checked as a whole, and a pattern without metacharacter
    is looked up and gives no error.  Otherwise the pattern is split after
    its last separator, and when the directory part holds a metacharacter
    it is globbed first, with its own check.  The names of the directories
    found are then matched against the file part, and [Match] reports an
    error there only for a file part that is malformed on its own: that
    does not occur, since the pattern was found well formed as a whole and
    so was its directory part, so that the last separator stands between
    two items of the pattern and the file part is well formed too (lemma
    [glob_facts.globWithLimit_file_part]).  The result is therefore decided
    by the pattern. *)
Fixpoint globWithLimit (allowed : nat) (pattern : string) : option error :=
  match allowed with
  | O => Some ErrBadPattern
  | S allowed' =>
      if glob.malformed pattern then Some ErrBadPattern
      else if negb (hasMeta pattern) then None
      else
        let dir := cleanGlobPath (filepath.uptoLastSep pattern) in
        if negb (hasMeta dir) then None
        else if String.eqb dir pattern then Some ErrBadPattern
        else globWithLimit allowed' dir
  end.

(** The error result of [filepath.Glob(pattern)] in the world [w]. *)
Definition GlobError (w : World) (pattern : string) : option error :=
  globWithLimit pathSeparatorsLimit pattern.

End filepath_glob.

(** ** Package [config] *)

Module config.

Record TransferConfig : Type := {
  MaxWorkers : Z;
  BufferSize : Z;
  VerifyChecksums : bool;
  MaxRetries : Z;
  PriorityPrefixes : list string
}.

Record ParsingConfig : Type := {
  Pattern : string;
  FolderStructure : string;
  UnmatchedFolder : string
}.

Record EmailConfig : Type := {
  EmailEnabled : bool;
  SMTPHost : string;
  SMTPPort : Z;
  To : list string
}.

Record DeviceConfig : Type := {
  Enabled : bool;
  MinSizeBytes : Z;
  AllowedFilesystems : list string;
  ExcludePatterns : list string
}.

Record Config : Type := {
  DestinationPath : string;
  Transfer : TransferConfig;
  Parsing : ParsingConfig;
  Email : EmailConfig;
  DeviceDetection : DeviceConfig
}.

Definition setMaxWorkers (c : Config) (n : Z) : Config :=
  {| DestinationPath := DestinationPath c;
     Transfer := {| MaxWorkers := n;
                    BufferSize := BufferSize (Transfer c);
                    VerifyChecksums := VerifyChecksums (Transfer c);
                    MaxRetries := MaxRetries (Transfer c);
                    PriorityPrefixes := PriorityPrefixes (Transfer c) |};
     Parsing := Parsing c; Email := Email c; DeviceDetection := DeviceDetection c |}.

Definition setBufferSize (c : Config) (n : Z) : Config :=
  {| DestinationPath := DestinationPath c;
     Transfer := {| MaxWorkers := MaxWorkers (Transfer c);
                    BufferSize := n;
                    VerifyChecksums := VerifyChecksums (Transfer c);
                    MaxRetries := MaxRetries (Transfer c);
                    PriorityPrefixes := PriorityPrefixes (Transfer c) |};
     Parsing := Parsing c; Email := Email c; DeviceDetection := DeviceDetection c |}.

(** [Validate] checks the configuration and repairs it in place: the
    result is the configuration as the call leaves it, and the error. *)
Definition Validate (c : Config) : Config * option error :=
  if String.eqb (DestinationPath c) "" then (c, Some (ErrConfig "destination_path is required"))
  else
    let c := if (MaxWorkers (Transfer c) <? 1)%Z then setMaxWorkers c 1 else c in
    let c := if (BufferSize (Transfer c) <? 1024)%Z then setBufferSize c 1048576 else c in
    if String.eqb (Pattern (Parsing c)) "" then (c, Some (ErrConfig "parsing.pattern is required"))
    else if EmailEnabled (Email c)
            && (String.eqb (SMTPHost (Email c)) "" || (SMTPPort (Email c) =? 0)%Z)
    then (c, Some (ErrConfig "email is enabled but SMTP settings are incomplete"))
    else if EmailEnabled (Email c) && (length (To (Email c)) =? 0)%nat
    then (c, Some (ErrConfig "email is enabled but no recipients specified"))
    else (c, None).

End config.

(** ** Package [parser]: the filename classifier *)

Module parser.

Import config.

Record FileInfo : Type := {
  OriginalPath : string;
  FileName : string;
  ProjectName : string;
  Client : string;
  Camera : string;
  ClipNumber : string;
  Extension : string;
  Matched : bool
}.

Record Parser : Type := {
  pattern : regexp.Regexp;
  config : Config
}.

Definition NewParser (cfg : Config) : option Parser * option error :=
  match regexp.Compile (Pattern (Parsing cfg)) with
  | Some re => (Some {| pattern := re; config := cfg |}, None)
  | None => (None, Some ErrInvalidParsingPattern)
  end.

(** [Parse] extracts information from a filename. *)
Definition Parse (p : Parser) (filePath : string) : FileInfo :=
  let fileName := filepath.Base filePath in
  let extension := filepath.Ext fileName in
  let nameWithoutExt := strings.TrimSuffix fileName extension in
  let matches := regexp.FindStringSubmatch (pattern p) nameWithoutExt in
  if (length matches =? 5)%nat then
    {| OriginalPath := filePath; FileName := fileName;
       ProjectName := nth 1 matches "";
       Client := nth 2 matches "";
       Camera := nth 3 matches "";
       ClipNumber := nth 4 matches "";
       Extension := extension;
       Matched := true |}
  else
    {| OriginalPath := filePath; FileName := fileName;
       ProjectName := ""; Client := ""; Camera := ""; ClipNumber := "";
       Extension := extension;
       Matched := false |}.

(** [GetDestinationPath] returns the organized destination directory. *)
Definition GetDestinationPath (p : Parser) (info : FileInfo) : string :=
  let basePath := DestinationPath (config p) in
  if negb (Matched info) then
    filepath.Join [basePath; UnmatchedFolder (Parsing (config p))]
  else
    let structure := FolderStructure (Parsing (config p)) in
    let structure := strings.ReplaceAll structure "{client}" (Client info) in
    let structure := strings.ReplaceAll structure "{project}" (ProjectName info) in
    let structure := strings.ReplaceAll structure "{camera}" (Camera info) in
    filepath.Join [basePath; structure].

(** [GetFullDestinationPath] returns the destination path including the
    file name. *)
Definition GetFullDestinationPath (p : Parser) (info : FileInfo) : string :=
  let destDir := GetDestinationPath p info in
  if Matched info then
    let fileName := ClipNumber info +:+ Extension info in
    filepath.Join [destDir; fileName]
  else filepath.Join [destDir; FileName info].

(** The versioning loop of [GetUniqueDestinationPath], entered with
    [version].  [fuel] bounds the iterations; [None] is a loop cut short by
    the bound, which the entry point below never is. *)
Fixpoint versionLoop (fuel : nat) (w : World) (destPath dir nameWithoutExt ext : string)
    (version : nat) : option (string * option error) :=
  match fuel with
  | O => None
  | S fuel' =>
      let versionedName := nameWithoutExt +:+ "_v" +:+ fmt.decimal version +:+ ext in
      let versionedPath := filepath.Join [dir; versionedName] in
      if isNil (filepath_glob.GlobError w versionedPath) then Some (versionedPath, None)
      else
        let version := S version in
        if (1000 <? version)%nat then Some ("", Some (ErrTooManyVersions destPath))
        else versionLoop fuel' w destPath dir nameWithoutExt ext version
  end.

(** [GetUniqueDestinationPath], in the world [w]. *)
Definition GetUniqueDestinationPath_fuel (fuel : nat) (w : World) (p : Parser) (info : FileInfo)
  : option (string * option error) :=
  let destPath := GetFullDestinationPath p info in
  if isNil (filepath_glob.GlobError w destPath) then Some (destPath, None)
  else
    let dir := filepath.Dir destPath in
    let ext := filepath.Ext destPath in
    let nameWithoutExt := strings.TrimSuffix (filepath.Base destPath) ext in
    versionLoop fuel w destPath dir nameWithoutExt ext 2.

Definition GetUniqueDestinationPath (w : World) (p : Parser) (info : FileInfo)
  : string * option error :=
  match GetUniqueDestinationPath_fuel 999 w p info with
  | Some r => r
  | None => ("", None)
  end.

End parser.

(** The configuration of the test suite. *)
Definition testConfig : config.Config :=
  {| config.DestinationPath := "/mnt/storage";
     config.Transfer := {| config.MaxWorkers := 2; config.BufferSize := 1024;
                           config.VerifyChecksums := true; config.MaxRetries := 3;
                           config.PriorityPrefixes := ["Priority_"] |};
     config.Parsing := {| config.Pattern := "^([^_]+)_([^_]+)_(ACam|BCam|CCam)_(.+)$";
                          config.FolderStructure := "{client}/{project}/{camera}";
                          config.UnmatchedFolder := "Unsorted" |};
     config.Email := {| config.EmailEnabled := false; config.SMTPHost := "";
                        config.SMTPPort := 0; config.To := [] |};
     config.DeviceDetection := {| config.Enabled := true; config.MinSizeBytes := 1048576;
                                  config.AllowedFilesystems := ["vfat"; "exfat"; "ntfs"];
                                  config.ExcludePatterns := ["loop"] |} |}.

Definition testPattern : regexp.Regexp :=
  Eval vm_compute in
    match regexp.Compile (config.Pattern (config.Parsing testConfig)) with
    | Some re => re
    | None => regexp.EmptyMatch
    end.

Definition testParser : parser.Parser :=
  {| parser.pattern := testPattern; parser.config := testConfig |}.

(** ** The operating system

    The behaviour of the machine that the program cannot decide: which
    operations fail, how far a failing copy and a failing walk got, and what
    the storage medium holds after bytes were written to it (the bytes
    themselves, on a sound medium). *)

Record Env : Type := {
  fault : IOop -> bool;
  copiedBeforeFault : string -> nat;
  visitedBeforeFault : string -> nat;
  stored : string -> string -> string
}.

Inductive Level : Type := LevelInfo | LevelError | LevelSuccess.

Inductive Event : Type :=
| FailedToStat (filePath : string) (err : error)
| FailedToGetDestination (filePath : string) (err : error)
| FoundFiles (total : Z) (priority normal : nat)
| FailedToCreateDirectory (dir : string) (err : error)
| FailedToOpenSource (path : string) (err : error)
| FailedToCreateDestination (path : string) (err : error)
| FailedToCopy (path : string) (err : error)
| FailedToVerify (path : string) (err : error)
| ChecksumMismatchFor (path : string)
| TransferredUnmatched (name dest : string)
| Transferred (name client project camera : string)
| FailedToScan (err : error)
| TransferComplete (transferred total : Z).

Record LogEntry : Type := {
  level : Level;
  device : string;
  event : Event
}.

(** What the program acts on: the file system and the log written so far. *)
Record State : Type := {
  world : World;
  log : list LogEntry
}.

(** Computations that read and change the state. *)
Definition IO (A : Type) : Type := State -> A * State.

Definition ret {A} (a : A) : IO A := fun st => (a, st).
Definition bind {A B} (m : IO A) (k : A -> IO B) : IO B :=
  fun st => let '(a, st') := m st in k a st'.

Declare Scope io_scope.
Delimit Scope io_scope with io.
Notation "x <- m ;; k" := (bind m (fun x => k))
  (at level 100, m at next level, right associativity) : io_scope.
Notation "m ;;; k" := (bind m (fun _ => k))
  (at level 100, right associativity) : io_scope.

Module logger.
Definition write (l : Level) (deviceName : string) (ev : Event) : IO unit :=
  fun st => (tt, {| world := world st;
                    log := log st ++ [{| level := l; device := deviceName; event := ev |}] |}).
Definition DeviceError := write LevelError.
Definition DeviceInfo := write LevelInfo.
Definition DeviceSuccess := write LevelSuccess.
End logger.

Module os.

Section WithEnv.
Variable env : Env.

Definition getWorld : IO World := fun st => (world st, st).
Definition setWorld (w : World) : IO unit :=
  fun st => (tt, {| world := w; log := log st |}).

(** [Stat]: whether the path is a directory and its size. *)
Definition Stat (path : string) : IO (option (bool * Z) * option error) :=
  (w <- getWorld ;;
   if fault env (OpStat path) then ret (None, Some (ErrIO (OpStat path)))
   else match w !! path with
        | Some (File content) => ret (Some (false, Z.of_nat (String.length content)), None)
        | Some Directory => ret (Some (true, 4096%Z), None)
        | None => ret (None, Some (ErrIO (OpStat path)))
        end)%io.

(** [MkdirAll]: the directory and the parents it lacks.  A path that is
    already a directory is left alone; one that is a file is an error. *)
Fixpoint mkdirAll (fuel : nat) (w : World) (path : string) : World * bool :=
  match w !! path with
  | Some Directory => (w, true)
  | Some (File _) => (w, false)
  | None =>
      match fuel with
      | O => (<[path := Directory]> w, true)
      | S fuel' =>
          let parent := filepath.Dir path in
          if String.eqb parent path then (<[path := Directory]> w, true)
          else
            let '(w', ok) := mkdirAll fuel' w parent in
            if ok then (<[path := Directory]> w', true) else (w', false)
      end
  end.

Definition MkdirAll (path : string) : IO (option error) :=
  (w <- getWorld ;;
   if fault env (OpMkdirAll path) then ret (Some (ErrIO (OpMkdirAll path)))
   else
     let '(w', ok) := mkdirAll (String.length path) w path in
     setWorld w' ;;;
     ret (if ok then None else Some (ErrIO (OpMkdirAll path))))%io.

(** [Open] for reading: the path must exist. *)
Definition Open (path : string) : IO (option error) :=
  (w <- getWorld ;;
   if fault env (OpOpen path) then ret (Some (ErrIO (OpOpen path)))
   else match w !! path with
        | Some _ => ret None
        | None => ret (Some (ErrIO (OpOpen path)))
        end)%io.

(** [Create]: the file is created, or truncated if it exists. *)
Definition Create (path : string) : IO (option error) :=
  (w <- getWorld ;;
   if fault env (OpCreate path) then ret (Some (ErrIO (OpCreate path)))
   else match w !! path with
        | Some Directory => ret (Some (ErrIO (OpCreate path)))
        | _ => setWorld (<[path := File ""]> w) ;;; ret None
        end)%io.

(** [io.Copy] from the open source to the open destination: the bytes
    streamed (those a digest on the stream sees) and the error.  A copy
    that fails leaves the bytes it had written. *)
Definition Copy (src dst : string) : IO (string * option error) :=
  (w <- getWorld ;;
   match w !! src with
   | Some (File content) =>
       if fault env (OpCopy src dst) then
         let written := strings.take (copiedBeforeFault env src) content in
         setWorld (<[dst := File (stored env dst written)]> w) ;;;
         ret (written, Some (ErrIO (OpCopy src dst)))
       else
         setWorld (<[dst := File (stored env dst content)]> w) ;;;
         ret (content, None)
   | _ => ret ("", Some (ErrIO (OpCopy src dst)))
   end)%io.

(** Reading the written destination again from its start. *)
Definition ReadBack (path : string) : IO (string * option error) :=
  (w <- getWorld ;;
   if fault env (OpReadBack path) then ret ("", Some (ErrIO (OpReadBack path)))
   else match w !! path with
        | Some (File content) => ret (content, None)
        | _ => ret ("", Some (ErrIO (OpReadBack path)))
        end)%io.

(** Whether the directory holds an entry. *)
Definition hasEntries (w : World) (dir : string) : bool :=
  map_fold (fun path _ found =>
              found || (negb (String.eqb path dir)
                        && strings.HasPrefix path
                             (if strings.HasSuffix dir "/" then dir else dir +:+ "/")))
    false w.

(** [Remove]: the name of a file is unlinked, and a directory is removed
    when it is empty.  The removal can fail like the other operations, on
    a file that is there as well: in a directory or on a medium that
    cannot be written to. *)
Definition Remove (path : string) : IO (option error) :=
  (w <- getWorld ;;
   if fault env (OpRemove path) then ret (Some (ErrIO (OpRemove path)))
   else match w !! path with
        | Some (File _) => setWorld (delete path w) ;;; ret None
        | Some Directory =>
            if hasEntries w path then ret (Some (ErrIO (OpRemove path)))
            else setWorld (delete path w) ;;; ret None
        | None => ret (Some (ErrIO (OpRemove path)))
        end)%io.

End WithEnv.

End os.

(** ** Package [transfer]: the transfer engine *)

Module transfer.

Record FileTransfer : Type := {
  SourcePath : string;
  DestinationPath : string;
  FileInfo : parser.FileInfo;
  Size : Z;
  Priority : bool;
  Checksum : string
}.

(** The counters of type [int] count elements of a slice, whose length is
    an [int] itself: their increments cannot overflow and they are kept in
    [Z].  The byte counters are sums of file sizes in [int64] and wrap. *)
Record TransferStats : Type := {
  TotalFiles : Z;
  ProcessedFiles : Z;
  TotalBytes : Z;
  TransferredBytes : Z;
  FailedFiles : Z;
  SkippedFiles : Z
}.

Definition wrap64 (z : Z) : Z := ((z + 2 ^ 63) mod 2 ^ 64 - 2 ^ 63)%Z.

Definition newStats : TransferStats :=
  {| TotalFiles := 0; ProcessedFiles := 0; TotalBytes := 0; TransferredBytes := 0;
     FailedFiles := 0; SkippedFiles := 0 |}.

(** The program counter of the goroutine that runs [TransferFiles]. *)
Inductive MainPC : Type :=
| MPrepare (files : list string)           (* the loop that parses and categorizes *)
| MSendPriority (rest : list FileTransfer) (* the loop that sends the priority files *)
| MSendNormal (rest : list FileTransfer)   (* the loop that sends the normal files *)
| MWait                                    (* [wg.Wait()] *)
| MCollect                                 (* the loop over the results *)
| MReturned (err : option error).

(** The program counter of a worker goroutine. *)
Inductive WorkerPC : Type :=
| WReceive                                          (* at [range jobs] *)
| WTransfer (t : FileTransfer)                      (* before [transferFile] *)
| WReport (t : FileTransfer) (err : option error)   (* before [results <- err] *)
| WAccount (t : FileTransfer) (err : option error)  (* before the locked update *)
| WDone.                                            (* returned *)

(** One run of [TransferFiles]: the state shared by its goroutines.
    [enqueued] and [outcomes] are histories kept for the statements: the
    jobs sent on the queue in order, and each finished job with the result
    of its transfer. *)
Record Engine : Type := {
  st : State;
  stats : TransferStats;
  priorityFiles : list FileTransfer;
  normalFiles : list FileTransfer;
  main : MainPC;
  jobs : list FileTransfer;
  jobsClosed : bool;
  results : list (option error);
  workers : list WorkerPC;
  enqueued : list FileTransfer;
  outcomes : list (FileTransfer * option error)
}.

Definition with_st (e : Engine) (x : State) : Engine :=
  {| st := x; stats := stats e; priorityFiles := priorityFiles e;
     normalFiles := normalFiles e; main := main e; jobs := jobs e;
     jobsClosed := jobsClosed e; results := results e; workers := workers e;
     enqueued := enqueued e; outcomes := outcomes e |}.
Definition with_stats (e : Engine) (x : TransferStats) : Engine :=
  {| st := st e; stats := x; priorityFiles := priorityFiles e;
     normalFiles := normalFiles e; main := main e; jobs := jobs e;
     jobsClosed := jobsClosed e; results := results e; workers := workers e;
     enqueued := enqueued e; outcomes := outcomes e |}.
Definition with_priorityFiles (e : Engine) (x : list FileTransfer) : Engine :=
  {| st := st e; stats := stats e; priorityFiles := x;
     normalFiles := normalFiles e; main := main e; jobs := jobs e;
     jobsClosed := jobsClosed e; results := results e; workers := workers e;
     enqueued := enqueued e; outcomes := outcomes e |}.
Definition with_normalFiles (e : Engine) (x : list FileTransfer) : Engine :=
  {| st := st e; stats := stats e; priorityFiles := priorityFiles e;
     normalFiles := x; main := main e; jobs := jobs e;
     jobsClosed := jobsClosed e; results := results e; workers := workers e;
     enqueued := enqueued e; outcomes := outcomes e |}.
Definition with_main (e : Engine) (x : MainPC) : Engine :=
  {| st := st e; stats := stats e; priorityFiles := priorityFiles e;
     normalFiles := normalFiles e; main := x; jobs := jobs e;
     jobsClosed := jobsClosed e; results := results e; workers := workers e;
     enqueued := enqueued e; outcomes := outcomes e |}.
Definition with_jobs (e : Engine) (x : list FileTransfer) : Engine :=
  {| st := st e; stats := stats e; priorityFiles := priorityFiles e;
     normalFiles := normalFiles e; main := main e; jobs := x;
     jobsClosed := jobsClosed e; results := results e; workers := workers e;
     enqueued := enqueued e; outcomes := outcomes e |}.
Definition with_jobsClosed (e : Engine) (x : bool) : Engine :=
  {| st := st e; stats := stats e; priorityFiles := priorityFiles e;
     normalFiles := normalFiles e; main := main e; jobs := jobs e;
     jobsClosed := x; results := results e; workers := workers e;
     enqueued := enqueued e; outcomes := outcomes e |}.
Definition with_results (e : Engine) (x : list (option error)) : Engine :=
  {| st := st e; stats := stats e; priorityFiles := priorityFiles e;
     normalFiles := normalFiles e; main := main e; jobs := jobs e;
     jobsClosed := jobsClosed e; results := x; workers := workers e;
     enqueued := enqueued e; outcomes := outcomes e |}.
Definition with_workers (e : Engine) (x : list WorkerPC) : Engine :=
  {| st := st e; stats := stats e; priorityFiles := priorityFiles e;
     normalFiles := normalFiles e; main := main e; jobs := jobs e;
     jobsClosed := jobsClosed e; results := results e; workers := x;
     enqueued := enqueued e; outcomes := outcomes e |}.
Definition with_enqueued (e : Engine) (x : list FileTransfer) : Engine :=
  {| st := st e; stats := stats e; priorityFiles := priorityFiles e;
     normalFiles := normalFiles e; main := main e; jobs := jobs e;
     jobsClosed := jobsClosed e; results := results e; workers := workers e;
     enqueued := x; outcomes := outcomes e |}.
Definition with_outcomes (e : Engine) (x : list (FileTransfer * option error)) : Engine :=
  {| st := st e; stats := stats e; priorityFiles := priorityFiles e;
     normalFiles := normalFiles e; main := main e; jobs := jobs e;
     jobsClosed := jobsClosed e; results := results e; workers := workers e;
     enqueued := enqueued e; outcomes := x |}.

Section Manager.

(** The manager: its configuration and parser, the machine it runs on
    and the digest it verifies with ([sha256], printed in hexadecimal). *)
Variable cfg : config.Config.
Variable p : parser.Parser.
Variable env : Env.
Variable sha256 : string -> string.

(** [isPriorityFile] checks if a file should be transferred with
    priority. *)
Fixpoint isPriorityFile_range (prefixes : list string) (fileName : string) : bool :=
  match prefixes with
  | [] => false
  | prefix :: rest =>
      if (String.length prefix <=? String.length fileName)%nat
         && String.eqb (strings.take (String.length prefix) fileName) prefix
      then true
      else isPriorityFile_range rest fileName
  end.

Definition isPriorityFile (fileName : string) : bool :=
  isPriorityFile_range (config.PriorityPrefixes (config.Transfer cfg)) fileName.

(** The log line of a successful transfer, written with the method
    [write] of the manager's logger. *)
Definition logTransferredWith (write : Level -> string -> Event -> IO unit)
    (deviceName : string) (transfer : FileTransfer) : IO unit :=
  if negb (parser.Matched (FileInfo transfer)) then
    write LevelInfo deviceName
      (TransferredUnmatched (filepath.Base (SourcePath transfer)) (DestinationPath transfer))
  else
    write LevelSuccess deviceName
      (Transferred (filepath.Base (SourcePath transfer))
         (parser.Client (FileInfo transfer))
         (parser.ProjectName (FileInfo transfer))
         (parser.Camera (FileInfo transfer))).

(** [transferFile] transfers a single file.  [write] is the logger of the
    manager: [write LevelError] is its [DeviceError], [write LevelInfo] its
    [DeviceInfo] and [write LevelSuccess] its [DeviceSuccess].  The result
    of [os.Remove] is discarded. *)
Definition transferFileWith (write : Level -> string -> Event -> IO unit)
    (deviceName : string) (transfer : FileTransfer) : IO (option error) :=
  (let destDir := filepath.Dir (DestinationPath transfer) in
   err <- os.MkdirAll env destDir ;;
   match err with
   | Some e =>
       write LevelError deviceName (FailedToCreateDirectory destDir e) ;;; ret (Some e)
   | None =>
   err <- os.Open env (SourcePath transfer) ;;
   match err with
   | Some e =>
       write LevelError deviceName (FailedToOpenSource (SourcePath transfer) e) ;;;
       ret (Some e)
   | None =>
   err <- os.Create env (DestinationPath transfer) ;;
   match err with
   | Some e =>
       write LevelError deviceName
         (FailedToCreateDestination (DestinationPath transfer) e) ;;;
       ret (Some e)
   | None =>
   if config.VerifyChecksums (config.Transfer cfg) then
     copied <- os.Copy env (SourcePath transfer) (DestinationPath transfer) ;;
     match snd copied with
     | Some e =>
         write LevelError deviceName (FailedToCopy (SourcePath transfer) e) ;;;
         ret (Some e)
     | None =>
     let srcChecksum := sha256 (fst copied) in
     reread <- os.ReadBack env (DestinationPath transfer) ;;
     match snd reread with
     | Some e =>
         write LevelError deviceName (FailedToVerify (DestinationPath transfer) e) ;;;
         ret (Some e)
     | None =>
     let destChecksum := sha256 (fst reread) in
     if negb (String.eqb srcChecksum destChecksum) then
       write LevelError deviceName (ChecksumMismatchFor (SourcePath transfer)) ;;;
       os.Remove env (DestinationPath transfer) ;;;
       ret (Some ErrChecksumMismatch)
     else
       logTransferredWith write deviceName transfer ;;; ret None
     end
     end
   else
     copied <- os.Copy env (SourcePath transfer) (DestinationPath transfer) ;;
     match snd copied with
     | Some e =>
         write LevelError deviceName (FailedToCopy (SourcePath transfer) e) ;;;
         ret (Some e)
     | None =>
         logTransferredWith write deviceName transfer ;;; ret None
     end
   end
   end
   end)%io.

(** The two with the logger that keeps the lines it is given. *)
Definition logTransferred : string -> FileTransfer -> IO unit :=
  logTransferredWith logger.write.

Definition transferFile : string -> FileTransfer -> IO (option error) :=
  transferFileWith logger.write.

(** *** [TransferFiles], step by step *)

Variable deviceName : string.

(** The body of the loop that parses and categorizes, for one file. *)
Definition prepareFile (filePath : string) (e : Engine) : Engine :=
  let '((fileInfo, err), st1) := os.Stat env filePath (st e) in
  match err, fileInfo with
  | Some er, _ =>
      with_st e (snd (logger.DeviceError deviceName (FailedToStat filePath er) st1))
  | None, None => with_st e st1
  | None, Some (isDir, size) =>
      if isDir then with_st e st1
      else
        let parsedInfo := parser.Parse p filePath in
        let '(destPath, err) := parser.GetUniqueDestinationPath (world st1) p parsedInfo in
        match err with
        | Some er =>
            with_st e (snd (logger.DeviceError deviceName
                              (FailedToGetDestination filePath er) st1))
        | None =>
            let transfer :=
              {| SourcePath := filePath; DestinationPath := destPath;
                 FileInfo := parsedInfo; Size := size;
                 Priority := isPriorityFile (filepath.Base filePath);
                 Checksum := "" |} in
            let s := stats e in
            let s' := {| TotalFiles := TotalFiles s + 1;
                         ProcessedFiles := ProcessedFiles s;
                         TotalBytes := wrap64 (TotalBytes s + Size transfer);
                         TransferredBytes := TransferredBytes s;
                         FailedFiles := FailedFiles s;
                         SkippedFiles := SkippedFiles s |} in
            let e := with_stats (with_st e st1) s' in
            if Priority transfer
            then with_priorityFiles e (priorityFiles e ++ [transfer])
            else with_normalFiles e (normalFiles e ++ [transfer])
        end
  end.

(** The capacity of the two channels, [make(chan _, m.stats.TotalFiles)].
    (With no job the channels are unbuffered, and nothing is sent on them.) *)
Definition capacity (e : Engine) : nat := Z.to_nat (TotalFiles (stats e)).

Definition send (t : FileTransfer) (e : Engine) : Engine :=
  with_enqueued (with_jobs e (jobs e ++ [t])) (enqueued e ++ [t]).

Definition allDone (ws : list WorkerPC) : bool :=
  forallb (fun w => match w with WDone => true | _ => false end) ws.

(** One step of the main goroutine, [None] when it is blocked or has
    returned. *)
Definition stepMain (e : Engine) : option Engine :=
  match main e with
  | MPrepare (filePath :: rest) =>
      Some (with_main (prepareFile filePath e) (MPrepare rest))
  | MPrepare [] =>
      (* the log line, the channels, the workers *)
      let st' := snd (logger.DeviceInfo deviceName
                        (FoundFiles (TotalFiles (stats e))
                           (length (priorityFiles e)) (length (normalFiles e))) (st e)) in
      Some (with_main
              (with_workers (with_st e st')
                 (replicate (Z.to_nat (config.MaxWorkers (config.Transfer cfg))) WReceive))
              (MSendPriority (priorityFiles e)))
  | MSendPriority (t :: rest) =>
      if (length (jobs e) <? capacity e)%nat
      then Some (with_main (send t e) (MSendPriority rest))
      else None
  | MSendPriority [] => Some (with_main e (MSendNormal (normalFiles e)))
  | MSendNormal (t :: rest) =>
      if (length (jobs e) <? capacity e)%nat
      then Some (with_main (send t e) (MSendNormal rest))
      else None
  | MSendNormal [] => Some (with_main (with_jobsClosed e true) MWait)
  | MWait => if allDone (workers e) then Some (with_main e MCollect) else None
  | MCollect =>
      match results e with
      | err :: rest =>
          let s := stats e in
          let s' := if isNil err then s
                    else {| TotalFiles := TotalFiles s;
                            ProcessedFiles := ProcessedFiles s;
                            TotalBytes := TotalBytes s;
                            TransferredBytes := TransferredBytes s;
                            FailedFiles := FailedFiles s + 1;
                            SkippedFiles := SkippedFiles s |} in
          Some (with_results (with_stats e s') rest)
      | [] => Some (with_main e (MReturned None))
      end
  | MReturned _ => None
  end.

Definition setWorker (i : nat) (w : WorkerPC) (e : Engine) : Engine :=
  with_workers e (<[i := w]> (workers e)).

(** One step of worker [i], [None] when it is blocked, has returned or
    does not exist.  A transfer is taken as one step: the file operations of
    two transfers are not interleaved. *)
Definition stepWorker (i : nat) (e : Engine) : option Engine :=
  match workers e !! i with
  | Some WReceive =>
      match jobs e with
      | t :: rest => Some (setWorker i (WTransfer t) (with_jobs e rest))
      | [] => if jobsClosed e then Some (setWorker i WDone e) else None
      end
  | Some (WTransfer t) =>
      let '(err, st') := transferFile deviceName t (st e) in
      Some (setWorker i (WReport t err)
              (with_outcomes (with_st e st') (outcomes e ++ [(t, err)])))
  | Some (WReport t err) =>
      if (length (results e) <? capacity e)%nat
      then Some (setWorker i (WAccount t err) (with_results e (results e ++ [err])))
      else None
  | Some (WAccount t err) =>
      let s := stats e in
      let s' := {| TotalFiles := TotalFiles s;
                   ProcessedFiles := ProcessedFiles s + 1;
                   TotalBytes := TotalBytes s;
                   TransferredBytes :=
                     if isNil err then wrap64 (TransferredBytes s + Size t)
                     else TransferredBytes s;
                   FailedFiles := FailedFiles s;
                   SkippedFiles := SkippedFiles s |} in
      Some (setWorker i WReceive (with_stats e s'))
  | Some WDone => None
  | None => None
  end.

(** The state in which [TransferFiles] starts on [files], in the state
    [s] of the machine. *)
Definition start (s : State) (files : list string) : Engine :=
  {| st := s; stats := newStats; priorityFiles := []; normalFiles := [];
     main := MPrepare files; jobs := []; jobsClosed := false; results := [];
     workers := []; enqueued := []; outcomes := [] |}.

(** Who moves next is the scheduler's choice. *)
Inductive Actor : Type := Main | Worker (i : nat).

Definition step (a : Actor) (e : Engine) : option Engine :=
  match a with
  | Main => stepMain e
  | Worker i => stepWorker i e
  end.

(** The states a run can be in. *)
Inductive reachable (s : State) (files : list string) : Engine -> Prop :=
| reachable_start : reachable s files (start s files)
| reachable_step a e e' :
    reachable s files e -> step a e = Some e' -> reachable s files e'.

(** A scheduler that lets the first worker that can move do so, and the
    main goroutine otherwise. *)
Fixpoint firstWorker (n : nat) (i : nat) (e : Engine) : option Engine :=
  match n with
  | O => None
  | S n' =>
      match stepWorker i e with
      | Some e' => Some e'
      | None => firstWorker n' (S i) e
      end
  end.

Definition schedule (e : Engine) : option Engine :=
  match firstWorker (length (workers e)) 0 e with
  | Some e' => Some e'
  | None => stepMain e
  end.

Fixpoint run (fuel : nat) (e : Engine) : Engine :=
  match fuel with
  | O => e
  | S fuel' =>
      match schedule e with
      | Some e' => run fuel' e'
      | None => e
      end
  end.

(** The steps a run can take at most. *)
Definition bound (files : list string) : nat :=
  7 * length files + Z.to_nat (config.MaxWorkers (config.Transfer cfg)) + 6.

(** [TransferFiles] under that scheduler: the state when it returns. *)
Definition TransferFiles (s : State) (files : list string) : Engine :=
  run (bound files) (start s files).

End Manager.

End transfer.

(** ** Package [device]: the device lifecycle manager *)

Module device.

Record Device : Type := {
  Name : string;
  Path : string;
  MountPath : string;
  Filesystem : string;
  Size : Z;
  Label : string
}.

Section Manager.

Variable cfg : config.Config.
Variable p : parser.Parser.
Variable env : Env.
Variable sha256 : string -> string.
(** [strings.EqualFold], the comparison under Unicode case folding. *)
Variable EqualFold : string -> string -> bool.

(** The loop over the allowed filesystems: is one of them the device's? *)
Fixpoint filesystemAllowed (filesystem : string) (allowedFilesystems : list string) : bool :=
  match allowedFilesystems with
  | [] => false
  | fs :: rest =>
      if EqualFold filesystem fs || String.eqb filesystem fs then true
      else filesystemAllowed filesystem rest
  end.

(** The loop over the exclude patterns: does the path contain one? *)
Fixpoint pathExcluded (path : string) (excludePatterns : list string) : bool :=
  match excludePatterns with
  | [] => false
  | pattern :: rest =>
      if strings.Contains path pattern then true else pathExcluded path rest
  end.

(** [IsAllowedDevice] checks if a device should be processed. *)
Definition IsAllowedDevice (device : Device) : bool :=
  if (Size device <? config.MinSizeBytes (config.DeviceDetection cfg))%Z then false
  else if (0 <? length (config.AllowedFilesystems (config.DeviceDetection cfg)))%nat
          && negb (filesystemAllowed (Filesystem device)
                     (config.AllowedFilesystems (config.DeviceDetection cfg)))
  then false
  else if pathExcluded (Path device) (config.ExcludePatterns (config.DeviceDetection cfg))
  then false
  else true.

(** The order in which [filepath.Walk] visits: the entries of a directory
    by name, a directory's content before its next sibling; that is, the
    paths ordered element by element. *)
Fixpoint elementsLe (a b : list string) : bool :=
  match a, b with
  | [], _ => true
  | _ :: _, [] => false
  | x :: a', y :: b' =>
      if String.eqb x y then elementsLe a' b' else String.leb x y
  end.

Definition walkLe (a b : string) : bool :=
  elementsLe (filepath.elements a) (filepath.elements b).

Fixpoint insertSorted (x : string * Node) (l : list (string * Node))
  : list (string * Node) :=
  match l with
  | [] => [x]
  | y :: l' => if walkLe (fst x) (fst y) then x :: l else y :: insertSorted x l'
  end.

Definition isUnder (rootPath path : string) : bool :=
  String.eqb path rootPath
  || strings.HasPrefix path
       (if strings.HasSuffix rootPath "/" then rootPath else rootPath +:+ "/").

(** The entries at or under the root, files and directories, in the
    order in which [filepath.Walk] visits them. *)
Definition walked (w : World) (rootPath : string) : list (string * Node) :=
  map_fold (fun path node acc =>
              if isUnder rootPath path then insertSorted (path, node) acc else acc)
    [] w.

(** What the function handed to [filepath.Walk] appends: the entries that
    are not directories. *)
Definition regularFiles (entries : list (string * Node)) : list string :=
  map fst (List.filter (fun entry => match snd entry with
                                     | File _ => true
                                     | Directory => false
                                     end) entries).

(** [scanFiles] recursively scans for all files in a directory.

    The walk ends at the first error it meets, at the root or below it,
    and [scanFiles] returns that error together with the files appended
    until then.  A walk that fails has visited [visitedBeforeFault]
    entries before the one it fails at, which is one of the entries there
    are.  A root that is missing is the error of its [Lstat], before any
    file.  (Paths name the entries of the file system as they are written:
    the root is looked up under its spelling, like every path of the
    model.) *)
Definition scanFiles (rootPath : string) : IO (list string * option error) :=
  fun s =>
    match world s !! rootPath with
    | None => (([], Some (ErrIO (OpWalk rootPath))), s)
    | Some _ =>
        let entries := walked (world s) rootPath in
        if fault env (OpWalk rootPath) then
          let visited := Nat.min (visitedBeforeFault env rootPath) (length entries - 1) in
          ((regularFiles (take visited entries), Some (ErrIO (OpWalk rootPath))), s)
        else ((regularFiles entries, None), s)
    end.

(** [ProcessDevice] handles the complete ingest workflow for a device.
    The device log that the logger opens and closes around the workflow is
    the logger's and is left out.
    The device is in [activeDevices] from entry to return; the result is
    the error, the set of active devices and the machine's state at
    return, and the final statistics when the transfer ran.  (The
    goroutines of the transfer are scheduled by [transfer.schedule]; what
    holds under every schedule is stated on [transfer.reachable].) *)
Definition ProcessDevice (activeDevices : gmap string Device) (device : Device)
  : IO (option error * gmap string Device * option transfer.TransferStats) :=
  fun s =>
    let active := <[Name device := device]> activeDevices in
    let '((files, err), s1) := scanFiles (MountPath device) s in
    match err with
    | Some er =>
        let s2 := snd (logger.DeviceError (Name device) (FailedToScan er) s1) in
        ((Some er, delete (Name device) active, None), s2)
    | None =>
        if (length files =? 0)%nat then ((None, delete (Name device) active, None), s1)
        else
          let e := transfer.TransferFiles cfg p env sha256 (Name device) s1 files in
          match transfer.main e with
          | transfer.MReturned (Some er) =>
              ((Some er, delete (Name device) active, None), transfer.st e)
          | _ =>
              let stats := transfer.stats e in
              let s2 := snd (logger.DeviceSuccess (Name device)
                               (TransferComplete
                                  (transfer.ProcessedFiles stats - transfer.FailedFiles stats)
                                  (transfer.TotalFiles stats)) (transfer.st e)) in
              ((None, delete (Name device) active, Some stats), s2)
          end
    end.

End Manager.

End device.

(** A card with three clips, one of them named outside the convention. *)
Definition testWorld : World :=
  list_to_map [("/media/card", Directory);
               ("/media/card/BrandVideo_Nike_ACam_001.mp4", File "nike");
               ("/media/card/Interview_Tesla_CCam_Take5.mxf", File "tesla!");
               ("/media/card/random_video.mp4", File "random")].

Definition soundEnv : Env :=
  {| fault := fun _ => false; copiedBeforeFault := fun _ => 0;
     visitedBeforeFault := fun _ => 0; stored := fun _ bytes => bytes |}.

(** A stand-in for the digest in examples: the bytes themselves. *)
Definition plainDigest (bytes : string) : string := bytes.

Definition testCard : device.Device :=
  {| device.Name := "sdb1"; device.Path := "/dev/sdb1"; device.MountPath := "/media/card";
     device.Filesystem := "exFAT"; device.Size := 64000000000; device.Label := "CARD" |}.

(** * The notions the properties are stated with *)

(** ** What it is for a pattern to match *)

Module regexp_semantics.

Import regexp.

(** [Matches r pos w rest caps caps']: at offset [pos], with [w +:+ rest]
    the input left, [r] matches [w], and the submatches recorded go from
    [caps] to [caps']. *)
Inductive Matches : Regexp -> nat -> string -> string -> Captures -> Captures -> Prop :=
| M_empty pos rest caps : Matches EmptyMatch pos "" rest caps caps
| M_literal c pos rest caps : Matches (Literal c) pos (String c "") rest caps caps
| M_any c pos rest caps :
    Ascii.eqb c newline = false -> Matches AnyCharNotNL pos (String c "") rest caps caps
| M_class negated ranges c pos rest caps :
    classMatches negated ranges c = true ->
    Matches (CharClass negated ranges) pos (String c "") rest caps caps
| M_concat r1 r2 pos w1 w2 rest caps caps1 caps2 :
    Matches r1 pos w1 (w2 +:+ rest) caps caps1 ->
    Matches r2 (pos + String.length w1) w2 rest caps1 caps2 ->
    Matches (Concat r1 r2) pos (w1 +:+ w2) rest caps caps2
| M_alternate_l r1 r2 pos w rest caps caps' :
    Matches r1 pos w rest caps caps' -> Matches (Alternate r1 r2) pos w rest caps caps'
| M_alternate_r r1 r2 pos w rest caps caps' :
    Matches r2 pos w rest caps caps' -> Matches (Alternate r1 r2) pos w rest caps caps'
| M_star_stop r pos rest caps : Matches (Star r) pos "" rest caps caps
| M_star_more r pos w1 w2 rest caps caps1 caps2 :
    Matches r pos w1 (w2 +:+ rest) caps caps1 ->
    Matches (Star r) (pos + String.length w1) w2 rest caps1 caps2 ->
    Matches (Star r) pos (w1 +:+ w2) rest caps caps2
| M_plus r pos w1 w2 rest caps caps1 caps2 :
    Matches r pos w1 (w2 +:+ rest) caps caps1 ->
    Matches (Star r) (pos + String.length w1) w2 rest caps1 caps2 ->
    Matches (Plus r) pos (w1 +:+ w2) rest caps caps2
| M_quest_some r pos w rest caps caps' :
    Matches r pos w rest caps caps' -> Matches (Quest r) pos w rest caps caps'
| M_quest_none r pos rest caps : Matches (Quest r) pos "" rest caps caps
| M_capture i r pos w rest caps caps' :
    Matches r pos w rest caps caps' ->
    Matches (Capture i r) pos w rest caps ((i, w) :: caps')
| M_begin rest caps : Matches BeginText 0 "" rest caps caps
| M_end pos caps : Matches EndText pos "" "" caps caps.

(** What a successful search has found, in terms of its continuation. *)
Definition Sound {A} (r : Regexp)
    (m : nat -> string -> Captures -> Cont A -> option A) : Prop :=
  forall pos s caps k a,
    m pos s caps k = Some a ->
    exists w rest caps',
      s = w +:+ rest /\ Matches r pos w rest caps caps'
      /\ k (pos + String.length w) rest caps' = Some a.

(** The text a camera designator matches. *)
Definition isCamera (s : string) : Prop := s = "ACam" \/ s = "BCam" \/ s = "CCam".

End regexp_semantics.

(** ** Names *)

Module names.

Import filepath.

(** An ordinary file name: not empty, without separator, and neither of
    the directory entries [.] and [..]. *)
Definition isPlainName (n : string) : bool :=
  negb (String.eqb n "") && negb (String.eqb n ".") && negb (String.eqb n "..")
  && negb (hasSep n).

End names.

Module classifier.

Import parser.

(** The name the pattern is applied to: the file name without its
    extension. *)
Definition nameWithoutExt (filePath : string) : string :=
  strings.TrimSuffix (filepath.Base filePath) (filepath.Ext (filepath.Base filePath)).

(** A pattern with four groups that can all match the empty string. *)
Definition loosePattern : regexp.Regexp :=
  Eval vm_compute in
    match regexp.Compile "^(.*)_(.*)_(.*)_(.*)$" with
    | Some re => re
    | None => regexp.EmptyMatch
    end.

Definition looseParser : Parser := {| pattern := loosePattern; config := testConfig |}.

End classifier.

(** ** The states of a run *)

Module engine.

Import transfer.

(** The jobs the workers hold before their transfer. *)
Definition transferring (ws : list WorkerPC) : list FileTransfer :=
  flat_map (fun w => match w with WTransfer t => [t] | _ => [] end) ws.

(** The number of workers that hold a result they have not reported yet,
    and the number of them that hold an error. *)
Definition reportingCount (ws : list WorkerPC) : nat :=
  list_sum (map (fun w => match w with WReport _ _ => 1 | _ => 0 end) ws).

Definition reportingFailures (ws : list WorkerPC) : nat :=
  list_sum (map (fun w => match w with WReport _ (Some _) => 1 | _ => 0 end) ws).

(** The number of finished transfers not yet counted as processed. *)
Definition unaccounted (ws : list WorkerPC) : nat :=
  list_sum (map (fun w => match w with WReport _ _ | WAccount _ _ => 1 | _ => 0 end) ws).

(** The number of errors among results. *)
Definition failures (l : list (option error)) : nat :=
  list_sum (map (fun err => if isNil err then 0 else 1) l).

Definition isCollecting (m : MainPC) : bool :=
  match m with
  | MCollect | MReturned _ => true
  | _ => false
  end.

Definition isPreparing (m : MainPC) : bool :=
  match m with
  | MPrepare _ => true
  | _ => false
  end.

(** The number of steps a state is away from the return, at most. *)
Definition workerSteps (w : WorkerPC) : nat :=
  match w with
  | WReceive => 1
  | WTransfer _ => 5
  | WReport _ _ => 4
  | WAccount _ _ => 2
  | WDone => 0
  end.

Definition mainSteps (maxWorkers : nat) (e : Engine) : nat :=
  match main e with
  | MPrepare files =>
      7 * length files + 6 * (length (priorityFiles e) + length (normalFiles e))
      + maxWorkers + 5
  | MSendPriority rest => 6 * length rest + 6 * length (normalFiles e) + 4
  | MSendNormal rest => 6 * length rest + 3
  | MWait => 2
  | MCollect => 1
  | MReturned _ => 0
  end.

Definition stepsLeft (maxWorkers : nat) (e : Engine) : nat :=
  mainSteps maxWorkers e + 5 * length (jobs e) + length (results e)
  + list_sum (map workerSteps (workers e)).

Section Run.

Variable cfg : config.Config.
Variable p : parser.Parser.
Variable env : Env.
Variable sha256 : string -> string.
Variable deviceName : string.

Definition maxWorkers : nat := Z.to_nat (config.MaxWorkers (config.Transfer cfg)).

(** What holds of the phase the main goroutine is in. *)
Definition phaseInv (e : Engine) : Prop :=
  match main e with
  | MPrepare _ => enqueued e = [] /\ jobsClosed e = false /\ workers e = []
  | MSendPriority rest =>
      (enqueued e ++ rest)%list = priorityFiles e /\ jobsClosed e = false
      /\ length (workers e) = maxWorkers
  | MSendNormal rest =>
      (exists sent, enqueued e = (priorityFiles e ++ sent)%list
                    /\ (sent ++ rest)%list = normalFiles e)
      /\ jobsClosed e = false /\ length (workers e) = maxWorkers
  | MWait =>
      enqueued e = (priorityFiles e ++ normalFiles e)%list /\ jobsClosed e = true
      /\ length (workers e) = maxWorkers
  | MCollect =>
      enqueued e = (priorityFiles e ++ normalFiles e)%list /\ jobsClosed e = true
      /\ length (workers e) = maxWorkers /\ allDone (workers e) = true
  | MReturned err =>
      enqueued e = (priorityFiles e ++ normalFiles e)%list /\ jobsClosed e = true
      /\ length (workers e) = maxWorkers /\ allDone (workers e) = true
      /\ results e = [] /\ err = None
  end.

(** The invariant of a run. *)
Record Inv (e : Engine) : Prop := {
  inv_priority : Forall (fun t => Priority t = true) (priorityFiles e);
  inv_normal : Forall (fun t => Priority t = false) (normalFiles e);
  inv_flag :
    Forall (fun t => Priority t = isPriorityFile cfg (filepath.Base (SourcePath t)))
      (priorityFiles e ++ normalFiles e);
  inv_total :
    TotalFiles (stats e) = Z.of_nat (length (priorityFiles e ++ normalFiles e));
  inv_phase : phaseInv e;
  inv_flow :
    enqueued e ≡ₚ (map fst (outcomes e) ++ transferring (workers e) ++ jobs e)%list;
  inv_accounted :
    Z.of_nat (length (outcomes e))
    = (ProcessedFiles (stats e) + Z.of_nat (unaccounted (workers e)))%Z;
  inv_failures :
    (FailedFiles (stats e)
     + Z.of_nat (failures (results e) + reportingFailures (workers e)))%Z
    = Z.of_nat (failures (map snd (outcomes e)));
  inv_results :
    isCollecting (main e) = false ->
    FailedFiles (stats e) = 0%Z
    /\ length (results e) + reportingCount (workers e) = length (outcomes e);
  inv_done : In WDone (workers e) -> jobs e = [] /\ jobsClosed e = true;
  inv_outcomes :
    Forall (fun o => exists s, fst (transferFile cfg env sha256 deviceName (fst o) s) = snd o)
      (outcomes e)
}.

(** The runs from one state to another. *)
Inductive runs : Engine -> Engine -> Prop :=
| runs_here e : runs e e
| runs_step a e e1 e2 :
    step cfg p env sha256 deviceName a e = Some e1 -> runs e1 e2 -> runs e e2.

End Run.

Arguments inv_priority {cfg env sha256 deviceName} e _.
Arguments inv_normal {cfg env sha256 deviceName} e _.
Arguments inv_flag {cfg env sha256 deviceName} e _.
Arguments inv_total {cfg env sha256 deviceName} e _.
Arguments inv_phase {cfg env sha256 deviceName} e _.
Arguments inv_flow {cfg env sha256 deviceName} e _.
Arguments inv_accounted {cfg env sha256 deviceName} e _.
Arguments inv_failures {cfg env sha256 deviceName} e _.
Arguments inv_results {cfg env sha256 deviceName} e _ _.
Arguments inv_done {cfg env sha256 deviceName} e _ _.
Arguments inv_outcomes {cfg env sha256 deviceName} e _.

End engine.

(** ** Machines, cards and configurations to run the program on *)

Module scenarios.

Import transfer.

Definition withPrefixes (prefixes : list string) : config.Config :=
  {| config.DestinationPath := config.DestinationPath testConfig;
     config.Transfer := {| config.MaxWorkers := 2; config.BufferSize := 1024;
                           config.VerifyChecksums := true; config.MaxRetries := 3;
                           config.PriorityPrefixes := prefixes |};
     config.Parsing := config.Parsing testConfig;
     config.Email := config.Email testConfig;
     config.DeviceDetection := config.DeviceDetection testConfig |}.

(** A medium that returns other bytes than were written. *)
Definition corruptingEnv : Env :=
  {| fault := fun _ => false; copiedBeforeFault := fun _ => 0;
     visitedBeforeFault := fun _ => 0; stored := fun _ bytes => "?" +:+ bytes |}.

(** The same medium, on which nothing can be removed. *)
Definition undeletable : Env :=
  {| fault := fun op => match op with OpRemove _ => true | _ => false end;
     copiedBeforeFault := fun _ => 0; visitedBeforeFault := fun _ => 0;
     stored := fun _ bytes => "?" +:+ bytes |}.

Definition verifyOff : config.Config :=
  {| config.DestinationPath := config.DestinationPath testConfig;
     config.Transfer := {| config.MaxWorkers := 2; config.BufferSize := 1024;
                           config.VerifyChecksums := false; config.MaxRetries := 3;
                           config.PriorityPrefixes := ["Priority_"] |};
     config.Parsing := config.Parsing testConfig;
     config.Email := config.Email testConfig;
     config.DeviceDetection := config.DeviceDetection testConfig |}.

Definition nikeJob : FileTransfer :=
  {| SourcePath := "/media/card/BrandVideo_Nike_ACam_001.mp4";
     DestinationPath := "/mnt/storage/Nike/BrandVideo/ACam/001.mp4";
     FileInfo := parser.Parse testParser "/media/card/BrandVideo_Nike_ACam_001.mp4";
     Size := 4; Priority := false; Checksum := "" |}.

(** The states the job goes through on the test card. *)
Definition afterMkdir (env : Env) (s : State) : State :=
  snd (os.MkdirAll env (filepath.Dir (DestinationPath nikeJob)) s).
Definition afterOpen (env : Env) (s : State) : State :=
  snd (os.Open env (SourcePath nikeJob) (afterMkdir env s)).
Definition afterCreate (env : Env) (s : State) : State :=
  snd (os.Create env (DestinationPath nikeJob) (afterOpen env s)).
Definition afterCopy (env : Env) (s : State) : State :=
  snd (os.Copy env (SourcePath nikeJob) (DestinationPath nikeJob) (afterCreate env s)).
Definition afterReadBack (env : Env) (s : State) : State :=
  snd (os.ReadBack env (DestinationPath nikeJob) (afterCopy env s)).

Definition cardState : State := {| world := testWorld; log := [] |}.

(** A card where the priority clip is found after a normal one. *)
Definition mixedState : State :=
  {| world := list_to_map [("/media/card", Directory);
                           ("/media/card/A_B_ACam_1.mp4", File "normal");
                           ("/media/card/Priority_C_BCam_2.mp4", File "first")];
     log := [] |}.

Definition mixedFiles : list string :=
  ["/media/card/A_B_ACam_1.mp4"; "/media/card/Priority_C_BCam_2.mp4"].

(** A card with a file whose name makes every destination a malformed
    pattern. *)
Definition bracketState : State :=
  {| world := list_to_map [("/media/card", Directory); ("/media/card/a[.mp4", File "clip")];
     log := [] |}.

Definition zeroWorkers : config.Config := config.setMaxWorkers testConfig 0.

(** A machine on which every copy fails. *)
Definition failingCopies : Env :=
  {| fault := fun op => match op with OpCopy _ _ => true | _ => false end;
     copiedBeforeFault := fun _ => 2; visitedBeforeFault := fun _ => 0;
     stored := fun _ bytes => bytes |}.

End scenarios.

(** * The code around the pipeline *)

(** ** Executions of the transfer engine under every schedule *)

Module executions.

Import transfer.

(** The bytes of a list of jobs. *)
Definition bytes (l : list FileTransfer) : Z := fold_right Z.add 0%Z (map Size l).

(** The finished jobs whose transfer returned no error. *)
Definition succeeded (outcomes : list (FileTransfer * option error)) : list FileTransfer :=
  map fst (List.filter (fun o => isNil (snd o)) outcomes).

(** The bytes a worker has transferred and not yet added to the counter. *)
Definition pendingOf (w : WorkerPC) : Z :=
  match w with
  | WReport t None | WAccount t None => Size t
  | _ => 0%Z
  end.

Definition pendingBytes (ws : list WorkerPC) : Z := fold_right Z.add 0%Z (map pendingOf ws).

(** The job a worker holds is not of negative size. *)
Definition heldSized (w : WorkerPC) : Prop :=
  match w with
  | WTransfer t | WReport t _ | WAccount t _ => (0 <= Size t)%Z
  | _ => True
  end.

Section Run.

Variable cfg : config.Config.
Variable p : parser.Parser.
Variable env : Env.
Variable sha256 : string -> string.
Variable deviceName : string.

(** The executions of [n] steps, whoever the scheduler lets move. *)
Inductive runsIn : nat -> Engine -> Engine -> Prop :=
| runsIn_here e : runsIn 0 e e
| runsIn_step n a e e1 e2 :
    step cfg p env sha256 deviceName a e = Some e1 -> runsIn n e1 e2 ->
    runsIn (S n) e e2.

(** No goroutine can move. *)
Definition stuck (e : Engine) : Prop :=
  forall a, step cfg p env sha256 deviceName a e = None.

Definition returned (e : Engine) : Prop := exists err, main e = MReturned err.

(** What holds of the byte counters in a run.  [acc] is the sum the
    counter of transferred bytes holds, before it wraps. *)
Record BytesInv (e : Engine) : Prop := {
  bytes_files : Forall (fun t => (0 <= Size t)%Z) (priorityFiles e ++ normalFiles e)%list;
  bytes_jobs : Forall (fun t => (0 <= Size t)%Z) (jobs e);
  bytes_workers : Forall heldSized (workers e);
  bytes_total : TotalBytes (stats e) = wrap64 (bytes (priorityFiles e ++ normalFiles e)%list);
  bytes_transferred :
    exists acc, (0 <= acc)%Z /\ TransferredBytes (stats e) = wrap64 acc
                /\ (acc + pendingBytes (workers e))%Z = bytes (succeeded (outcomes e))
}.

(** The files of a listing that become jobs, in the world [w]: those that
    [os.Stat] reports as files that are not directories and for which
    [GetUniqueDestinationPath] returns a destination. *)
Definition accepted (w : World) (filePath : string) : bool :=
  match fst (os.Stat env filePath {| world := w; log := [] |}) with
  | (Some (false, _), None) =>
      isNil (snd (parser.GetUniqueDestinationPath w p (parser.Parse p filePath)))
  | _ => false
  end.

Definition acceptedPriority (w : World) (filePath : string) : bool :=
  accepted w filePath && isPriorityFile cfg (filepath.Base filePath).

Definition acceptedNormal (w : World) (filePath : string) : bool :=
  accepted w filePath && negb (isPriorityFile cfg (filepath.Base filePath)).

(** What holds of the jobs with respect to the files listed, in a run
    started in [s]: [done] are the files the preparation loop has gone
    through. *)
Definition ListingInv (s : State) (files : list string) (e : Engine) : Prop :=
  exists done rest,
    files = (done ++ rest)%list
    /\ (forall r, main e = MPrepare r -> r = rest /\ world (st e) = world s)
    /\ ((forall r, main e <> MPrepare r) -> rest = [])
    /\ map SourcePath (priorityFiles e) = List.filter (acceptedPriority (world s)) done
    /\ map SourcePath (normalFiles e) = List.filter (acceptedNormal (world s)) done.

End Run.

End executions.

(** ** [formatSize]: sizes for the reader

    The function of this name in the packages [device] and [monitor], and
    [formatBytes] in the package [email], which differs in the number of
    decimals printed.  The text printed for the scaled value is a rendering
    of a floating-point quotient, which is not computed here: the result
    keeps the integers the text is printed from. *)

Module sizes.

Definition unit : Z := 1024.

Inductive Formatted : Type :=
| InBytes (bytes : Z)                     (* ["%d B"] of [bytes] *)
| Scaled (bytes div : Z) (suffix : string).
                                          (* ["%.1f %s"] of [bytes / div] and the suffix *)

Definition units : list string := ["KB"; "MB"; "GB"; "TB"; "PB"].

(** The loop [for n := bytes / unit; n >= unit; n /= unit], entered with
    [n], [div] and [exp]; [div] is an [int64].  [fuel] bounds the
    iterations; seven are more than a 64-bit size needs. *)
Fixpoint scale (fuel : nat) (n div : Z) (exp : nat) : Z * nat :=
  match fuel with
  | O => (div, exp)
  | S fuel' =>
      if (unit <=? n)%Z
      then scale fuel' (n ÷ unit)%Z (transfer.wrap64 (div * unit)) (S exp)
      else (div, exp)
  end.

(** [None] is the run-time panic of an index out of range. *)
Definition formatSize (bytes : Z) : option Formatted :=
  if (bytes <? unit)%Z then Some (InBytes bytes)
  else
    let '(div, exp) := scale 7 (bytes ÷ unit)%Z unit 0 in
    match nth_error units exp with
    | Some suffix => Some (Scaled bytes div suffix)
    | None => None
    end.

End sizes.

(** ** The detector of removable drives on Windows *)

Module windows.

Import device.

(** What the system answers: whether [os.Stat] succeeds on a path, the
    type of a drive, its volume information (the label and the name of the
    file system, [None] when the call returns zero) and its size in bytes
    ([None] likewise). *)
Record System : Type := {
  statOk : string -> bool;
  getDriveTypeW : string -> Z;
  getVolumeInformationW : string -> option (string * string);
  getDiskFreeSpaceExW : string -> option Z
}.

Definition DRIVE_REMOVABLE : Z := 2.

(** The lines the detector logs. *)
Inductive Line : Type :=
| StartedWatching
| NewRemovableDrive (drive : string)
| FailedToGetDeviceInfo (drive : string)
| DriveRemoved (drive : string)
| DriveReady (name mountPath : string)
| CanBeSafelyRemoved (name : string).

Inductive Error : Type :=
| AlreadyWatching              (* "already watching for devices" *)
| DriveNotAccessible.          (* "drive not accessible: ..." *)

Record WindowsDetector : Type := {
  watching : bool;
  knownDrives : gmap string bool
}.

Section Detector.

Variable sys : System.
(** [filepath.VolumeName], on Windows. *)
Variable VolumeName : string -> string.

Definition driveLetters : list ascii := list_ascii_of_string "ABCDEFGHIJKLMNOPQRSTUVWXYZ".

(** [getLogicalDrives] returns all available drive letters. *)
Definition getLogicalDrives : list string :=
  List.filter (statOk sys) (map (fun drive => String drive ":\") driveLetters).

Definition getDriveType (drivePath : string) : Z := getDriveTypeW sys drivePath.

(** [GetDeviceInfo] retrieves information about a drive; its error is
    always nil. *)
Definition GetDeviceInfo (drivePath : string) : Device * option Error :=
  let drivePath :=
    if negb (strings.HasSuffix drivePath "\") then drivePath +:+ "\" else drivePath in
  let '(label, filesystem) :=
    match getVolumeInformationW sys drivePath with
    | Some info => info
    | None => ("", "")
    end in
  let size :=
    match getDiskFreeSpaceExW sys drivePath with
    | Some totalNumberOfBytes => totalNumberOfBytes
    | None => 0%Z
    end in
  ({| Name := VolumeName drivePath; Path := drivePath; MountPath := "";
      Filesystem := filesystem; Size := size; Label := label |}, None).

(** [DetectDevices] scans for removable drives. *)
Fixpoint detectFrom (drives : list string) (devices : list Device) : list Device :=
  match drives with
  | [] => devices
  | drive :: rest =>
      if (getDriveType drive =? DRIVE_REMOVABLE)%Z then
        match GetDeviceInfo drive with
        | (_, Some _) => detectFrom rest devices
        | (device, None) => detectFrom rest (devices ++ [device])%list
        end
      else detectFrom rest devices
  end.

Definition DetectDevices : list Device * option Error :=
  (detectFrom getLogicalDrives [], None).

(** [MountDevice]: drives are mounted by the system; the drive is checked
    and its mount path set to the drive itself.  The result is the device
    as the call leaves it. *)
Definition MountDevice (device : Device) (lines : list Line)
  : Device * list Line * option Error :=
  if negb (statOk sys (Path device)) then (device, lines, Some DriveNotAccessible)
  else
    let device := {| Name := Name device; Path := Path device; MountPath := Path device;
                     Filesystem := Filesystem device; Size := Size device;
                     Label := Label device |} in
    (device, (lines ++ [DriveReady (Name device) (MountPath device)])%list, None).

Definition UnmountDevice (device : Device) (lines : list Line)
  : list Line * option Error :=
  ((lines ++ [CanBeSafelyRemoved (Name device)])%list, None).

(** [w.knownDrives[drive]], false for a drive that is not in the map. *)
Definition known (knownDrives : gmap string bool) (drive : string) : bool :=
  default false (knownDrives !! drive).

(** The drives [WatchForDevices] starts from: the removable ones among
    those present. *)
Fixpoint initKnown (drives : list string) (knownDrives : gmap string bool)
  : gmap string bool :=
  match drives with
  | [] => knownDrives
  | drive :: rest =>
      if (getDriveType drive =? DRIVE_REMOVABLE)%Z
      then initKnown rest (<[drive := true]> knownDrives)
      else initKnown rest knownDrives
  end.

(** [WatchForDevices], up to the start of the goroutine that polls: that
    goroutine calls [checkForNewDrives] every two seconds. *)
Definition WatchForDevices (w : WindowsDetector) (lines : list Line)
  : WindowsDetector * list Line * option Error :=
  if watching w then (w, lines, Some AlreadyWatching)
  else
    ({| watching := true; knownDrives := initKnown getLogicalDrives (knownDrives w) |},
     (lines ++ [StartedWatching])%list, None).

Section Callback.

(** The callback, by what it does to the state of its own. *)
Context {C : Type}.
Variable callback : Device -> C -> C.

(** The first loop of [checkForNewDrives], over the drives present. *)
Fixpoint checkCurrent (drives : list string) (knownDrives : gmap string bool)
    (lines : list Line) (c : C) : gmap string bool * list Line * C :=
  match drives with
  | [] => (knownDrives, lines, c)
  | drive :: rest =>
      if (getDriveType drive =? DRIVE_REMOVABLE)%Z then
        if negb (known knownDrives drive) then
          let knownDrives := <[drive := true]> knownDrives in
          let lines := (lines ++ [NewRemovableDrive drive])%list in
          match GetDeviceInfo drive with
          | (_, Some _) =>
              checkCurrent rest knownDrives (lines ++ [FailedToGetDeviceInfo drive])%list c
          | (device, None) => checkCurrent rest knownDrives lines (callback device c)
          end
        else checkCurrent rest knownDrives lines c
      else checkCurrent rest (delete drive knownDrives) lines c
  end.

(** The inner loop of the second: is the drive present and removable? *)
Definition found (currentDrives : list string) (drive : string) : bool :=
  existsb (fun currentDrive =>
             String.eqb drive currentDrive
             && (getDriveType currentDrive =? DRIVE_REMOVABLE)%Z) currentDrives.

(** The second loop, over the known drives; a drive is deleted from the
    map while the map is ranged over, which removes that one entry.  (Go
    leaves the order of the range open; the lines are in the order of the
    fold.) *)
Definition removeGone (currentDrives : list string) (knownDrives : gmap string bool)
    (lines : list Line) : gmap string bool * list Line :=
  map_fold (fun drive (_ : bool) acc =>
              if negb (found currentDrives drive)
              then (delete drive (fst acc), (snd acc ++ [DriveRemoved drive])%list)
              else acc)
    (knownDrives, lines) knownDrives.

(** [checkForNewDrives] checks for newly connected drives. *)
Definition checkForNewDrives (w : WindowsDetector) (lines : list Line) (c : C)
  : WindowsDetector * list Line * C :=
  let currentDrives := getLogicalDrives in
  let '(knownDrives, lines, c) := checkCurrent currentDrives (knownDrives w) lines c in
  let '(knownDrives, lines) := removeGone currentDrives knownDrives lines in
  ({| watching := watching w; knownDrives := knownDrives |}, lines, c).

(** The drives a check announces: those present and removable that are
    not known. *)
Definition announced (w : WindowsDetector) : list string :=
  List.filter (fun drive => (getDriveType drive =? DRIVE_REMOVABLE)%Z
                            && negb (known (knownDrives w) drive))
    getLogicalDrives.

End Callback.

End Detector.

End windows.

(** ** Package [logger]: the log files

    The logger writes its lines to the server log and, for the lines of a
    device, to the log it keeps on that device.  An open file is modelled
    by its path; the time of day and the text of a message, which the
    program formats with [time.Format] and [fmt.Sprintf], are given. *)

Module logfiles.

Record LoggingConfig : Type := {
  ServerLogPath : string;
  LogToDevice : bool;
  RetentionDays : Z;
  LogLevel : string
}.

Inductive Error : Type :=
| FailedToCreateDeviceLog.     (* "failed to create device log: ..." *)

Record Logger : Type := {
  serverLog : option string;
  deviceLogs : gmap string string
}.

Section Logger.

Variable logging : LoggingConfig.
(** The calls of [os.OpenFile] that the machine lets fail. *)
Variable openFails : string -> bool.

(** [os.OpenFile(path, O_CREATE|O_WRONLY|O_APPEND, 0644)]: the file is
    created when it is not there, and kept as it is when it is. *)
Definition OpenFile (path : string) (w : World) : World * bool :=
  if openFails path then (w, false)
  else match w !! path with
       | Some Directory => (w, false)
       | Some (File _) => (w, true)
       | None => (<[path := File ""]> w, true)
       end.

(** [CreateDeviceLog] creates a log file for a specific device. *)
Definition CreateDeviceLog (timestamp deviceName mountPath : string) (l : Logger)
    (w : World) : Logger * option Error * World :=
  let logFileName := "ingest_log_" +:+ timestamp +:+ "_" +:+ deviceName +:+ ".txt" in
  if LogToDevice logging && negb (String.eqb mountPath "") then
    let deviceLogPath := filepath.Join [mountPath; logFileName] in
    let '(w', ok) := OpenFile deviceLogPath w in
    if negb ok then (l, Some FailedToCreateDeviceLog, w')
    else
      ({| serverLog := serverLog l;
          deviceLogs := <[deviceName := deviceLogPath]> (deviceLogs l) |}, None, w')
  else (l, None, w).

(** [CloseDeviceLog] closes the log file for a specific device. *)
Definition CloseDeviceLog (deviceName : string) (l : Logger) : Logger :=
  match deviceLogs l !! deviceName with
  | Some _ => {| serverLog := serverLog l; deviceLogs := delete deviceName (deviceLogs l) |}
  | None => l
  end.

(** [WriteString] on an open file, its error ignored. *)
Definition WriteString (path line : string) (w : World) : World :=
  match w !! path with
  | Some (File content) => <[path := File (content +:+ line)]> w
  | _ => w
  end.

(** [log] writes to both server log and device log if available. *)
Definition log (timestamp level deviceName message : string) (l : Logger) (w : World)
  : World :=
  let logLine :=
    "[" +:+ timestamp +:+ "] [" +:+ level +:+ "] " +:+ message
    +:+ String (ascii_of_nat 10) "" in
  let w := match serverLog l with
           | Some path => WriteString path logLine w
           | None => w
           end in
  if negb (String.eqb deviceName "") then
    match deviceLogs l !! deviceName with
    | Some path => WriteString path logLine w
    | None => w
    end
  else w.

End Logger.

End logfiles.

(** ** The device manager and the device log *)

Module devicelog.

Section Workflow.

Variable logging : logfiles.LoggingConfig.
Variable openFails : string -> bool.

(** The path of the log that [CreateDeviceLog] keeps on a device. *)
Definition deviceLogPath (timestamp : string) (d : device.Device) : string :=
  filepath.Join [device.MountPath d;
                 "ingest_log_" +:+ timestamp +:+ "_" +:+ device.Name d +:+ ".txt"].

(** The state in which [ProcessDevice] scans the device: the device log
    has been created. *)
Definition atScan (timestamp : string) (l : logfiles.Logger) (d : device.Device)
    (s : State) : State :=
  {| world := snd (logfiles.CreateDeviceLog logging openFails timestamp (device.Name d)
                     (device.MountPath d) l (world s));
     log := log s |}.

End Workflow.

End devicelog.


(** ** The transfer with the logger's files

    The logger of the program writes every line it is given to its files,
    the server log and the log on the device: [transferFile] with that
    logger changes these files as well. *)

Module filelog.

Section Logger.

(** The logger with its open files.  The time of day at which a line is
    written, by the number of lines written before it, and the text that
    [fmt.Sprintf] makes of a message are given. *)
Variable lg : logfiles.Logger.
Variable clock : nat -> string.
Variable message : Event -> string.

Definition levelName (l : Level) : string :=
  match l with
  | LevelInfo => "INFO"
  | LevelError => "ERROR"
  | LevelSuccess => "SUCCESS"
  end.

(** [DeviceInfo], [DeviceError] and [DeviceSuccess]: the line goes to the
    files through [log].  (What they print on the terminal is left
    out.) *)
Definition write (l : Level) (deviceName : string) (ev : Event) : IO unit :=
  fun s =>
    (tt, {| world := logfiles.log (clock (length (log s))) (levelName l) deviceName
                       (message ev) lg (world s);
            log := (log s ++ [{| level := l; device := deviceName; event := ev |}])%list |}).

End Logger.

(** [transferFile] of a manager with that logger. *)
Definition transferFile (cfg : config.Config) (env : Env) (sha256 : string -> string)
    (lg : logfiles.Logger) (clock : nat -> string) (message : Event -> string)
  : string -> transfer.FileTransfer -> IO (option error) :=
  transfer.transferFileWith cfg env sha256 (write lg clock message).

End filelog.


(** ** The detector of block devices on Linux *)

Module linux.

Import device.

Record AutoMountConfig : Type := {
  MountBase : string;
  AutoMountEnabled : bool
}.

(** What the commands answer that the detector runs with [os/exec]: the
    output of a command, [None] when it fails; and for a command that is
    run for its effect ([mount], [umount]), the file system it leaves,
    [None] when it fails. *)
Record Commands : Type := {
  output : list string -> option string;
  run : list string -> World -> option World
}.

Inductive Error : Type :=
| FailedToListBlockDevices                  (* "failed to list block devices: ..." *)
| AutoMountDisabled                         (* "auto-mount is disabled" *)
| FailedToCreateMountPoint (err : error)    (* "failed to create mount point: ..." *)
| FailedToMountDevice                       (* "failed to mount device: ..." *)
| FailedToUnmountDevice.                    (* "failed to unmount device: ..." *)

Inductive Line : Type :=
| DetectedDevices (output : string)
| MountedDevice (name mountPath : string)
| UnmountedDevice (name mountPath : string)
| StartedWatching.

(** The detector, with the machine it acts on and the lines it has
    logged. *)
Record LinuxDetector : Type := {
  watching : bool;
  machine : State;
  lines : list Line
}.

Definition withMountPath (device : Device) (mountPath : string) : Device :=
  {| Name := Name device; Path := Path device; MountPath := mountPath;
     Filesystem := Filesystem device; Size := Size device; Label := Label device |}.

Section Detector.

Variable autoMount : AutoMountConfig.
Variable env : Env.
Variable cmds : Commands.

(** [DetectDevices] scans for available block devices: the output of
    [lsblk] is logged and not parsed. *)
Definition DetectDevices (l : LinuxDetector) : list Device * option Error * LinuxDetector :=
  let devices : list Device := [] in
  match output cmds ["lsblk"; "-J"; "-o"; "NAME,SIZE,TYPE,MOUNTPOINT,FSTYPE,LABEL"] with
  | None => ([], Some FailedToListBlockDevices, l)
  | Some out =>
      (devices, None,
       {| watching := watching l; machine := machine l;
          lines := (lines l ++ [DetectedDevices out])%list |})
  end.

(** [MountDevice] mounts a device to the configured mount point.  The
    device is passed by pointer: the result is the device as the call
    leaves it. *)
Definition MountDevice (device : Device) (l : LinuxDetector)
  : Device * option Error * LinuxDetector :=
  if negb (AutoMountEnabled autoMount) then (device, Some AutoMountDisabled, l)
  else
    let mountPath := filepath.Join [MountBase autoMount; Name device] in
    let '(err, s1) := os.MkdirAll env mountPath (machine l) in
    match err with
    | Some e =>
        (device, Some (FailedToCreateMountPoint e),
         {| watching := watching l; machine := s1; lines := lines l |})
    | None =>
        match run cmds ["mount"; Path device; mountPath] (world s1) with
        | None =>
            (device, Some FailedToMountDevice,
             {| watching := watching l; machine := s1; lines := lines l |})
        | Some w2 =>
            (withMountPath device mountPath, None,
             {| watching := watching l; machine := {| world := w2; log := log s1 |};
                lines := (lines l ++ [MountedDevice (Name device) mountPath])%list |})
        end
    end.

(** [UnmountDevice] unmounts a device. *)
Definition UnmountDevice (device : Device) (l : LinuxDetector)
  : Device * option Error * LinuxDetector :=
  if String.eqb (MountPath device) "" then (device, None, l)
  else
    match run cmds ["umount"; MountPath device] (world (machine l)) with
    | None => (device, Some FailedToUnmountDevice, l)
    | Some w1 =>
        (withMountPath device "", None,
         {| watching := watching l;
            machine := {| world := w1; log := log (machine l) |};
            lines := (lines l ++ [UnmountedDevice (Name device) (MountPath device)])%list |})
    end.

(** [WatchForDevices] records that the detector watches; the callback is
    not kept and nothing is started that would call it. *)
Definition WatchForDevices {C : Type} (callback : Device -> C -> C) (l : LinuxDetector)
  : option Error * LinuxDetector :=
  (None, {| watching := true; machine := machine l;
            lines := (lines l ++ [StartedWatching])%list |}).

End Detector.

End linux.

(** ** Package [monitor] *)

Module monitor.

Import device.

Section Monitor.

Variable cfg : config.Config.
Variable EqualFold : string -> string -> bool.

(** The detector of the device manager: the operations of
    [DeviceDetector] that the monitor calls, on the state [D] of the
    detector and of the machine, with errors [E].  A device is passed by
    pointer: [MountDevice] returns the device as it leaves it. *)
Context {D E : Type}.
Variable DetectDevices : D -> list Device * option E * D.
Variable MountDevice : Device -> D -> Device * option E * D.
Variable WatchForDevices : D -> option E * D.

Inductive Line : Type :=
| MonitoringStarted
| DebugNewDevice (path : string)
| DebugNotAllowed (name : string) (size : Z) (filesystem : string)
| NewDevice (name label : string) (size : sizes.Formatted)
| FailedToMount (name : string) (err : E)
| ScanningForExisting
| FailedToDetect (err : E)
| FoundExisting (name label : string).

(** The monitor with its detector, the lines it has logged and the
    devices for which it has started a goroutine that runs
    [ProcessDevice], in the order of their start. *)
Record Monitor : Type := {
  detector : D;
  lines : list Line;
  started : list Device
}.

Definition logLine (m : Monitor) (line : Line) : Monitor :=
  {| detector := detector m; lines := (lines m ++ [line])%list; started := started m |}.

Definition withDetector (m : Monitor) (d : D) : Monitor :=
  {| detector := d; lines := lines m; started := started m |}.

Definition spawn (m : Monitor) (dev : Device) : Monitor :=
  {| detector := detector m; lines := lines m; started := (started m ++ [dev])%list |}.

(** [handleDeviceAdded] processes newly added devices; [None] is the
    panic of [formatSize].  (The two seconds that the function sleeps
    before it looks at the device are not modelled.) *)
Definition handleDeviceAdded (dev : Device) (m : Monitor) : option Monitor :=
  let m := logLine m (DebugNewDevice (Path dev)) in
  if negb (IsAllowedDevice cfg EqualFold dev) then
    Some (logLine m (DebugNotAllowed (Name dev) (Size dev) (Filesystem dev)))
  else
    match sizes.formatSize (Size dev) with
    | None => None
    | Some size =>
        let m := logLine m (NewDevice (Name dev) (Label dev) size) in
        let '(dev, err, d) := MountDevice dev (detector m) in
        match err with
        | Some e => Some (logLine (withDetector m d) (FailedToMount (Name dev) e))
        | None => Some (spawn (withDetector m d) dev)
        end
    end.

(** The loop of [scanExistingDevices] over the devices detected. *)
Fixpoint scanDevices (devices : list Device) (m : Monitor) : Monitor :=
  match devices with
  | [] => m
  | dev :: rest =>
      if IsAllowedDevice cfg EqualFold dev then
        let m := logLine m (FoundExisting (Name dev) (Label dev)) in
        if String.eqb (MountPath dev) "" then
          let '(dev, err, d) := MountDevice dev (detector m) in
          match err with
          | Some e =>
              scanDevices rest (logLine (withDetector m d) (FailedToMount (Name dev) e))
          | None => scanDevices rest (spawn (withDetector m d) dev)
          end
        else scanDevices rest (spawn m dev)
      else scanDevices rest m
  end.

(** [scanExistingDevices] scans for devices that are already connected. *)
Definition scanExistingDevices (m : Monitor) : Monitor :=
  let m := logLine m ScanningForExisting in
  let '(devices, err, d) := DetectDevices (detector m) in
  match err with
  | Some e => logLine (withDetector m d) (FailedToDetect e)
  | None => scanDevices devices (withDetector m d)
  end.

(** [Start] begins monitoring for device changes.  The scan for the
    devices already connected runs in a goroutine of its own. *)
Definition Start (m : Monitor) : Monitor * option E :=
  let m := logLine m MonitoringStarted in
  let '(err, d) := WatchForDevices (detector m) in
  match err with
  | Some e => (withDetector m d, Some e)
  | None => (scanExistingDevices (withDetector m d), None)
  end.

End Monitor.

End monitor.


(** ** The monitor on the two platforms

    The detector that [device.NewManager] gives the device manager, as the
    monitor calls it through the manager. *)

Module platforms.

Import device.

Section Windows.

Variable sys : windows.System.
Variable VolumeName : string -> string.

(** The Windows detector with the lines it has logged. *)
Definition WindowsState : Type := (windows.WindowsDetector * list windows.Line)%type.

Definition windowsDetect (d : WindowsState)
  : list Device * option windows.Error * WindowsState :=
  (windows.DetectDevices sys VolumeName, d).

Definition windowsMount (dev : Device) (d : WindowsState)
  : Device * option windows.Error * WindowsState :=
  let '(dev, lines, err) := windows.MountDevice sys dev (snd d) in
  (dev, err, (fst d, lines)).

(** A drive as [MountDevice] leaves it on Windows. *)
Definition mountedAtPath (dev : Device) : Device :=
  {| Name := Name dev; Path := Path dev; MountPath := Path dev;
     Filesystem := Filesystem dev; Size := Size dev; Label := Label dev |}.

End Windows.

End platforms.


(** ** More machines and devices to run the program on *)

Module cases.

Import transfer.

(** A job whose destination is its source. *)
Definition selfJob : FileTransfer :=
  {| SourcePath := "/media/card/random_video.mp4";
     DestinationPath := "/media/card/random_video.mp4";
     FileInfo := parser.Parse testParser "/media/card/random_video.mp4";
     Size := 6; Priority := false; Checksum := "" |}.

(** A policy with an empty exclude pattern. *)
Definition emptyPattern : config.Config :=
  {| config.DestinationPath := config.DestinationPath testConfig;
     config.Transfer := config.Transfer testConfig;
     config.Parsing := config.Parsing testConfig;
     config.Email := config.Email testConfig;
     config.DeviceDetection :=
       {| config.Enabled := true; config.MinSizeBytes := 0;
          config.AllowedFilesystems := []; config.ExcludePatterns := ["loop"; ""] |} |}.

(** A Windows machine with a fixed disk and a card reader. *)
Definition cardReader : windows.System :=
  {| windows.statOk := fun path => String.eqb path "C:\" || String.eqb path "E:\";
     windows.getDriveTypeW := fun path => if String.eqb path "E:\" then 2%Z else 3%Z;
     windows.getVolumeInformationW :=
       fun path => if String.eqb path "E:\" then Some ("CARD", "exFAT")
                   else Some ("", "NTFS");
     windows.getDiskFreeSpaceExW := fun path => Some 64000000000%Z |}.

(** The volume name of a path that starts with a drive letter. *)
Definition driveOf (path : string) : string := strings.take 2 path.

Definition freshDetector : windows.WindowsDetector :=
  {| windows.watching := false; windows.knownDrives := ∅ |}.

(** A callback that keeps the devices it is called with. *)
Definition keep (dev : device.Device) (seen : list device.Device) : list device.Device :=
  (seen ++ [dev])%list.

Definition logToDevice : logfiles.LoggingConfig :=
  {| logfiles.ServerLogPath := "/var/log/media-ingest"; logfiles.LogToDevice := true;
     logfiles.RetentionDays := 30; logfiles.LogLevel := "info" |}.

Definition noLogger : logfiles.Logger :=
  {| logfiles.serverLog := Some "/var/log/media-ingest/server_20250101_120000.log";
     logfiles.deviceLogs := ∅ |}.

Definition opens (path : string) : bool := false.

(** A logger with its server log and the log of the test card open. *)
Definition cardLogger : logfiles.Logger :=
  {| logfiles.serverLog := Some "/var/log/media-ingest/server_20250101_120000.log";
     logfiles.deviceLogs :=
       {["sdb1" := "/media/card/ingest_log_20250101_120000_sdb1.txt"]} |}.

(** The test card with the two logs, the one on the card with a line in
    it. *)
Definition loggedState : State :=
  {| world :=
       <["/var/log/media-ingest/server_20250101_120000.log" := File ""]>
         (<["/media/card/ingest_log_20250101_120000_sdb1.txt" := File "scanning;"]>
            testWorld);
     log := [] |}.

Definition noon (written : nat) : string := "2025-01-01 12:00:00".

(** A text for the messages of a transfer. *)
Definition wording (ev : Event) : string :=
  match ev with
  | Transferred name _ _ _ => "Transferred: " +:+ name
  | TransferredUnmatched name dest => "Transferred (unmatched): " +:+ name
  | _ => "Failed"
  end.

(** The job that transfers the log of the test card. *)
Definition logJob : FileTransfer :=
  {| SourcePath := "/media/card/ingest_log_20250101_120000_sdb1.txt";
     DestinationPath := "/mnt/storage/Unsorted/ingest_log_20250101_120000_sdb1.txt";
     FileInfo := parser.Parse testParser "/media/card/ingest_log_20250101_120000_sdb1.txt";
     Size := 9; Priority := false; Checksum := "" |}.

(** A machine on which the walk of the test card fails at its third
    entry. *)
Definition failingWalk : Env :=
  {| fault := fun op => match op with OpWalk _ => true | _ => false end;
     copiedBeforeFault := fun _ => 0; visitedBeforeFault := fun _ => 2;
     stored := fun _ bytes => bytes |}.

Definition ingestBase : linux.AutoMountConfig :=
  {| linux.MountBase := "/media/ingest"; linux.AutoMountEnabled := true |}.

(** Commands that succeed; [mount] and [umount] leave the files as they
    are. *)
Definition quietCommands : linux.Commands :=
  {| linux.output := fun _ => Some "{}"; linux.run := fun _ w => Some w |}.

Definition idleDetector : linux.LinuxDetector :=
  {| linux.watching := false; linux.machine := {| world := testWorld; log := [] |};
     linux.lines := [] |}.

Definition unmounted : device.Device :=
  {| device.Name := "sdb1"; device.Path := "/dev/sdb1"; device.MountPath := "";
     device.Filesystem := "exFAT"; device.Size := 64000000000; device.Label := "CARD" |}.

(** A device of two exbibytes. *)
Definition hugeDevice : device.Device :=
  {| device.Name := "sdz1"; device.Path := "/dev/sdz1"; device.MountPath := "";
     device.Filesystem := "exFAT"; device.Size := 2 ^ 61; device.Label := "VAULT" |}.

(** A detector that finds the test card, mounted, and a loop device. *)
Definition twoDevices (l : linux.LinuxDetector)
  : list device.Device * option linux.Error * linux.LinuxDetector :=
  ([testCard;
    {| device.Name := "loop0"; device.Path := "/dev/loop0"; device.MountPath := "";
       device.Filesystem := "vfat"; device.Size := 64000000000; device.Label := "" |}],
   None, l).

Definition idleMonitor : monitor.Monitor (D := linux.LinuxDetector) (E := linux.Error) :=
  {| monitor.detector := idleDetector; monitor.lines := []; monitor.started := [] |}.

End cases.

(** * Checks of the model on the documented examples and on the test suite *)

(** The documented examples of the library, as a check of the model. *)
Example filepath_Base_examples :
  map filepath.Base ["/foo/bar/baz.js"; "/foo/bar/baz"; "/foo/bar/baz/"; "dev.txt";
                     "../todo.txt"; ".."; "."; "/"; ""; "//"; "a/b/"]
  = ["baz.js"; "baz"; "baz"; "dev.txt"; "todo.txt"; ".."; "."; "/"; "."; "/"; "b"].
Proof. reflexivity. Qed.

Example filepath_Ext_examples :
  map filepath.Ext ["index"; "index.js"; "main.test.js"; "a.b/c"; "a/b.c/"; ".bashrc"; "x."]
  = [""; ".js"; ".js"; ""; ""; ".bashrc"; "."].
Proof. reflexivity. Qed.

Example filepath_Clean_examples :
  map filepath.Clean ["a/c"; "a//c"; "a/c/."; "a/c/b/.."; "/../a/c"; "/../a/b/../././/c";
                      ""; "/"; "../../a"; "a/../.."; "a/b/../../../c"; "abc/"; "/.."; "./"]
  = ["a/c"; "a/c"; "a/c"; "a/c"; "/a/c"; "/a/c";
     "."; "/"; "../../a"; ".."; "../c"; "abc"; "/"; "."].
Proof. reflexivity. Qed.

Example filepath_Join_examples :
  map filepath.Join [["a"; "b"; "c"]; ["a"; "b/c"]; ["a/b"; "c"]; ["a/b"; "/c"];
                     ["a/b"; "../../../xyz"]; [""; ""]; ["a"; ""]; [""; "a"]; ["/"; "a"]]
  = ["a/b/c"; "a/b/c"; "a/b/c"; "a/b/c"; "../xyz"; ""; "a"; "a"; "/a"].
Proof. reflexivity. Qed.

Example filepath_Dir_examples :
  map filepath.Dir ["/foo/bar/baz.js"; "/foo/bar/baz"; "/foo/bar/baz/"; "/dirty//path///";
                    "dev.txt"; "../todo.txt"; ".."; "."; "/"; ""]
  = ["/foo/bar"; "/foo/bar"; "/foo/bar/baz"; "/dirty/path"; "."; ".."; "."; "."; "/"; "."].
Proof. reflexivity. Qed.

Example strings_examples :
  strings.TrimSuffix "clip.mp4" ".mp4" = "clip"
  /\ strings.TrimSuffix "clip" "" = "clip"
  /\ strings.ReplaceAll "{client}/{project}/{client}" "{client}" "Nike" = "Nike/{project}/Nike"
  /\ strings.Contains "/dev/loop0" "loop" = true
  /\ strings.Contains "/dev/sdb1" "loop" = false
  /\ strings.EqualFoldASCII "exFAT" "EXFAT" = true
  /\ fmt.decimal 0 = "0" /\ fmt.decimal 1000 = "1000".
Proof. repeat split; reflexivity. Qed.

Example regexp_Compile_example :
  regexp.Compile "^([^_]+)_([^_]+)_(ACam|BCam|CCam)_(.+)$"
  = Some (regexp.Concat regexp.BeginText
         (regexp.Concat (regexp.Capture 1 (regexp.Plus (regexp.CharClass true [("_", "_")%char])))
         (regexp.Concat (regexp.Literal "_")
         (regexp.Concat (regexp.Capture 2 (regexp.Plus (regexp.CharClass true [("_", "_")%char])))
         (regexp.Concat (regexp.Literal "_")
         (regexp.Concat (regexp.Capture 3
            (regexp.Alternate
               (regexp.Concat (regexp.Literal "A") (regexp.Concat (regexp.Literal "C")
                 (regexp.Concat (regexp.Literal "a") (regexp.Literal "m"))))
            (regexp.Alternate
               (regexp.Concat (regexp.Literal "B") (regexp.Concat (regexp.Literal "C")
                 (regexp.Concat (regexp.Literal "a") (regexp.Literal "m"))))
               (regexp.Concat (regexp.Literal "C") (regexp.Concat (regexp.Literal "C")
                 (regexp.Concat (regexp.Literal "a") (regexp.Literal "m")))))))
         (regexp.Concat (regexp.Literal "_")
         (regexp.Concat (regexp.Capture 4 (regexp.Plus regexp.AnyCharNotNL))
                        regexp.EndText)))))))).
Proof. vm_compute. reflexivity. Qed.

Example glob_malformed_examples :
  map glob.malformed ["/mnt/storage/Nike/BrandVideo/ACam/001.mp4"; "a[.mp4"; "a[_v2.mp4";
                      "[a-z]*.go"; "a\"; "[]a]"; "[-]"; "[x-]"; "a*b?c"; "[^a]x"; "\[a"; "[a]]"; "a]"]
  = [false; true; true; false; true; true; true; true; false; false; false; false; false].
Proof. vm_compute. reflexivity. Qed.

Example GlobError_examples :
  map (filepath_glob.GlobError ∅)
    ["/mnt/storage/Nike/BrandVideo/ACam/001.mp4"; "/mnt/storage/Unsorted/a[.mp4";
     "/mnt/storage/[x]/a*.mp4"; "/mnt/storage/[x/proj/ACam/1].mp4"; "[/]"; "a\/b"]
  = [None; Some ErrBadPattern; None; Some ErrBadPattern; Some ErrBadPattern;
     Some ErrBadPattern].
Proof. vm_compute. reflexivity. Qed.

Example NewParser_testConfig : parser.NewParser testConfig = (Some testParser, None).
Proof. vm_compute. reflexivity. Qed.

Example Parse_test_cases :
  map (fun f => let i := parser.Parse testParser f in
                (parser.Matched i, parser.Client i, parser.ProjectName i, parser.Camera i,
                 parser.ClipNumber i, parser.Extension i))
      ["/path/to/BrandVideo_Nike_ACam_001.mp4"; "/path/to/ProductShoot_Adidas_BCam_042.mov";
       "Interview_Tesla_CCam_Take5.mxf"; "random_video.mp4"; "Project_Client_DCam_001.mp4"]
  = [(true, "Nike", "BrandVideo", "ACam", "001", ".mp4");
     (true, "Adidas", "ProductShoot", "BCam", "042", ".mov");
     (true, "Tesla", "Interview", "CCam", "Take5", ".mxf");
     (false, "", "", "", "", ".mp4");
     (false, "", "", "", "", ".mp4")].
Proof. vm_compute. reflexivity. Qed.

Example GetDestinationPath_test_cases :
  map (fun f => parser.GetDestinationPath testParser (parser.Parse testParser f))
      ["BrandVideo_Nike_ACam_001.mp4"; "random.mp4"]
  = ["/mnt/storage/Nike/BrandVideo/ACam"; "/mnt/storage/Unsorted"].
Proof. vm_compute. reflexivity. Qed.

Example ProcessDevice_testCard :
  let '((err, active, stats), s) :=
    device.ProcessDevice testConfig testParser soundEnv plainDigest ∅ testCard
      {| world := testWorld; log := [] |} in
  err = None
  /\ stats = Some {| transfer.TotalFiles := 3; transfer.ProcessedFiles := 3;
                     transfer.TotalBytes := 16; transfer.TransferredBytes := 16;
                     transfer.FailedFiles := 0; transfer.SkippedFiles := 0 |}
  /\ world s !! "/mnt/storage/Nike/BrandVideo/ACam/001.mp4" = Some (File "nike")
  /\ world s !! "/mnt/storage/Tesla/Interview/CCam/Take5.mxf" = Some (File "tesla!")
  /\ world s !! "/mnt/storage/Unsorted/random_video.mp4" = Some (File "random").
Proof. vm_compute. repeat split; reflexivity. Qed.

(** * Facts about the string functions *)

Section StringFacts.

Lemma append_nil_r (s : string) : s +:+ "" = s.
Proof. induction s as [|c s IH]; simpl; [reflexivity | now rewrite IH]. Qed.

Lemma append_assoc (a b c : string) : (a +:+ b) +:+ c = a +:+ b +:+ c.
Proof. induction a as [|x a IH]; simpl; [reflexivity | now rewrite IH]. Qed.

Lemma length_append (a b : string) :
  String.length (a +:+ b) = String.length a + String.length b.
Proof. induction a as [|x a IH]; simpl; [reflexivity | now rewrite IH]. Qed.

Lemma take_append_length (a b : string) : strings.take (String.length a) (a +:+ b) = a.
Proof. induction a as [|x a IH]; simpl; [now destruct b | now rewrite IH]. Qed.

Lemma drop_append_length (a b : string) : strings.drop (String.length a) (a +:+ b) = b.
Proof. induction a as [|x a IH]; simpl; [reflexivity | exact IH]. Qed.

Lemma take_drop (n : nat) (s : string) : strings.take n s +:+ strings.drop n s = s.
Proof.
  revert s; induction n as [|n IH]; intros s; simpl; [reflexivity|].
  destruct s as [|c s]; simpl; [reflexivity | now rewrite IH].
Qed.

Lemma length_take (n : nat) (s : string) :
  n <= String.length s -> String.length (strings.take n s) = n.
Proof.
  revert s; induction n as [|n IH]; intros s Hn; simpl; [reflexivity|].
  destruct s as [|c s]; simpl in *; [lia | rewrite IH; lia].
Qed.

(** [HasPrefix s p] holds exactly when [s] is [p] followed by something. *)
Lemma HasPrefix_spec (s p : string) :
  strings.HasPrefix s p = true <-> exists r, s = p +:+ r.
Proof.
  unfold strings.HasPrefix. rewrite andb_true_iff, Nat.leb_le, String.eqb_eq. split.
  - intros [_ Ht]. exists (strings.drop (String.length p) s).
    rewrite <- Ht at 1. symmetry. apply take_drop.
  - intros [r ->]. rewrite length_append, take_append_length. split; [lia | reflexivity].
Qed.

(** [Contains s sub] holds exactly when [sub] occurs in [s]. *)
Lemma Contains_spec (s sub : string) :
  strings.Contains s sub = true <-> exists pre post, s = pre +:+ sub +:+ post.
Proof.
  induction s as [|c s IH]; simpl; rewrite orb_true_iff, HasPrefix_spec.
  - split.
    + intros [[r Hr] | Hf]; [exists "", r; exact Hr | discriminate].
    + intros (pre & post & H). left.
      destruct pre as [|x pre]; [exists post; exact H | discriminate].
  - rewrite IH. split.
    + intros [[r Hr] | (pre & post & H)].
      * exists "", r. exact Hr.
      * exists (String c pre), post. simpl. now rewrite H.
    + intros (pre & post & H). destruct pre as [|x pre]; simpl in H.
      * left. exists post. exact H.
      * right. injection H as _ H. exists pre, post. exact H.
Qed.

End StringFacts.

(** * The backtracking matcher finds matches of the pattern *)

Module regexp_facts.

Import regexp regexp_semantics.

Lemma iterate_sound {A} (r : Regexp) (m : nat -> string -> Captures -> Cont A -> option A) :
  Sound r m -> forall fuel, Sound (Star r) (iterate m fuel).
Proof.
  intros Hm fuel. induction fuel as [|fuel IH]; intros pos s caps k a H; simpl in H.
  - exists "", s, caps. rewrite Nat.add_0_r. repeat split; [constructor | exact H].
  - destruct (m pos s caps _) as [a'|] eqn:Hfirst.
    + injection H as ->. apply Hm in Hfirst.
      destruct Hfirst as (w1 & rest1 & caps1 & -> & Hw1 & Hk).
      destruct (pos + String.length w1 =? pos)%nat; [discriminate|].
      apply IH in Hk. destruct Hk as (w2 & rest & caps2 & -> & Hw2 & Hk).
      exists (w1 +:+ w2), rest, caps2. rewrite append_assoc, length_append, Nat.add_assoc.
      repeat split; [|exact Hk]. econstructor; eassumption.
    + exists "", s, caps. rewrite Nat.add_0_r. repeat split; [constructor | exact H].
Qed.

Lemma backtrack_sound {A} (r : Regexp) : Sound r (@backtrack A r).
Proof.
  induction r as [| c | | negated ranges | r1 IH1 r2 IH2 | r1 IH1 r2 IH2 | r1 IH1 | r1 IH1
                  | r1 IH1 | i r1 IH1 | |];
    intros pos s caps k a H; cbn [backtrack] in H.
  - exists "", s, caps. rewrite Nat.add_0_r. repeat split; [constructor | exact H].
  - destruct s as [|c' s]; [discriminate|].
    destruct (Ascii.eqb c c') eqn:E; [|discriminate]. apply Ascii.eqb_eq in E as <-.
    exists (String c ""), s, caps. simpl. rewrite Nat.add_1_r.
    repeat split; [constructor | exact H].
  - destruct s as [|c' s]; [discriminate|].
    destruct (Ascii.eqb c' newline) eqn:E; [discriminate|].
    exists (String c' ""), s, caps. simpl. rewrite Nat.add_1_r.
    repeat split; [now constructor | exact H].
  - destruct s as [|c' s]; [discriminate|].
    destruct (classMatches negated ranges c') eqn:E; [|discriminate].
    exists (String c' ""), s, caps. simpl. rewrite Nat.add_1_r.
    repeat split; [now constructor | exact H].
  - apply IH1 in H. destruct H as (w1 & rest1 & caps1 & -> & Hw1 & H).
    apply IH2 in H. destruct H as (w2 & rest & caps2 & -> & Hw2 & H).
    exists (w1 +:+ w2), rest, caps2. rewrite append_assoc, length_append, Nat.add_assoc.
    repeat split; [|exact H]. econstructor; eassumption.
  - destruct (backtrack r1 pos s caps k) as [a'|] eqn:Hl.
    + injection H as ->. apply IH1 in Hl. destruct Hl as (w & rest & caps' & -> & Hw & Hk).
      exists w, rest, caps'. repeat split; [|exact Hk]. now apply M_alternate_l.
    + apply IH2 in H. destruct H as (w & rest & caps' & -> & Hw & Hk).
      exists w, rest, caps'. repeat split; [|exact Hk]. now apply M_alternate_r.
  - exact (iterate_sound r1 _ IH1 _ pos s caps k a H).
  - apply IH1 in H. destruct H as (w1 & rest1 & caps1 & -> & Hw1 & H).
    apply (iterate_sound r1 _ IH1) in H. destruct H as (w2 & rest & caps2 & -> & Hw2 & H).
    exists (w1 +:+ w2), rest, caps2. rewrite append_assoc, length_append, Nat.add_assoc.
    repeat split; [|exact H]. econstructor; eassumption.
  - destruct (backtrack r1 pos s caps k) as [a'|] eqn:Hl.
    + injection H as ->. apply IH1 in Hl. destruct Hl as (w & rest & caps' & -> & Hw & Hk).
      exists w, rest, caps'. repeat split; [|exact Hk]. now apply M_quest_some.
    + exists "", s, caps. rewrite Nat.add_0_r. repeat split; [apply M_quest_none | exact H].
  - apply IH1 in H. destruct H as (w & rest & caps' & -> & Hw & H).
    replace (pos + String.length w - pos) with (String.length w) in H by lia.
    rewrite take_append_length in H.
    exists w, rest, ((i, w) :: caps'). repeat split; [|exact H]. now constructor.
  - destruct (pos =? 0)%nat eqn:E; [|discriminate]. apply Nat.eqb_eq in E as ->.
    exists "", s, caps. repeat split; [constructor | exact H].
  - destruct s; [|discriminate].
    exists "", "", caps. rewrite Nat.add_0_r. repeat split; [constructor | exact H].
Qed.

(** A match found at an offset is a match of the pattern there. *)
Lemma matchAt_sound (r : Regexp) (pos : nat) (s whole : string) (caps : Captures) :
  matchAt r pos s = Some (whole, caps) ->
  exists rest, s = whole +:+ rest /\ Matches r pos whole rest [] caps.
Proof.
  unfold matchAt. intros H. apply backtrack_sound in H.
  destruct H as (w & rest & caps' & -> & Hw & H).
  replace (pos + String.length w - pos) with (String.length w) in H by lia.
  rewrite take_append_length in H. injection H as <- <-. now exists rest.
Qed.

(** A match found by the search is a match of the pattern at some offset. *)
Lemma search_sound (r : Regexp) (s whole : string) (caps : Captures) :
  forall pos, search r pos s = Some (whole, caps) ->
  exists skipped rest,
    s = skipped +:+ whole +:+ rest
    /\ Matches r (pos + String.length skipped) whole rest [] caps.
Proof.
  induction s as [|c s IH]; intros pos H; simpl in H.
  - destruct (matchAt r pos "") as [m|] eqn:Hm; [|discriminate].
    injection H as ->. apply matchAt_sound in Hm. destruct Hm as (rest & Hs & Hm).
    exists "", rest. rewrite Nat.add_0_r. now split.
  - destruct (matchAt r pos (String c s)) as [m|] eqn:Hm.
    + injection H as ->. apply matchAt_sound in Hm. destruct Hm as (rest & Hs & Hm).
      exists "", rest. rewrite Nat.add_0_r. now split.
    + apply IH in H. destruct H as (skipped & rest & -> & H).
      exists (String c skipped), rest. simpl. split; [reflexivity|].
      now replace (pos + S (String.length skipped)) with (S pos + String.length skipped) by lia.
Qed.

(** A pattern without groups records nothing. *)
Lemma Matches_no_groups r pos w rest caps caps' :
  Matches r pos w rest caps caps' -> NumSubexp r = 0 -> caps' = caps.
Proof.
  induction 1; simpl; intros Hn; try reflexivity; try discriminate;
    try (rewrite IHMatches2, IHMatches1 by (simpl; lia); reflexivity);
    try (apply IHMatches; lia).
Qed.

Lemma length_FindStringSubmatch (r : Regexp) (s : string) :
  length (FindStringSubmatch r s) = 0
  \/ length (FindStringSubmatch r s) = S (NumSubexp r).
Proof.
  unfold FindStringSubmatch. destruct (search r 0 s) as [[whole caps]|]; simpl.
  - right. now rewrite length_map, length_seq.
  - now left.
Qed.

End regexp_facts.

(** * The reference pattern *)

Module reference_pattern.

Import regexp regexp_semantics regexp_facts.

Ltac invert_match :=
  repeat match goal with
    | H : Matches (Concat _ _) _ _ _ _ _ |- _ => inversion H; subst; clear H
    | H : Matches (Capture _ _) _ _ _ _ _ |- _ => inversion H; subst; clear H
    | H : Matches (Literal _) _ _ _ _ _ |- _ => inversion H; subst; clear H
    | H : Matches (Alternate _ _) _ _ _ _ _ |- _ => inversion H; subst; clear H
    | H : Matches (Plus _) _ _ _ _ _ |- _ => inversion H; subst; clear H
    | H : Matches (CharClass _ _) _ _ _ _ _ |- _ => inversion H; subst; clear H
    | H : Matches AnyCharNotNL _ _ _ _ _ |- _ => inversion H; subst; clear H
    | H : Matches EndText _ _ _ _ _ |- _ => inversion H; subst; clear H
    | H : Matches (Star _) _ _ _ ?c ?c' |- _ =>
        assert (c' = c) by (apply (Matches_no_groups _ _ _ _ _ _ H); reflexivity);
        subst; clear H
    end.

Ltac with_camera cam :=
  eexists (String _ _), (String _ _), cam, (String _ _); simpl;
  (split; [reflexivity|]); (split; [reflexivity|]); (split; [reflexivity|]);
  repeat split; try discriminate; auto.

(** A match of the reference pattern spans the whole name, which is four
    non-empty tokens joined by underscores, the third a camera
    designator. *)
Lemma search_testPattern (s whole : string) (caps : Captures) :
  search testPattern 0 s = Some (whole, caps) ->
  exists project client camera clip,
    s = project +:+ "_" +:+ client +:+ "_" +:+ camera +:+ "_" +:+ clip
    /\ whole = s
    /\ caps = [(4, clip); (3, camera); (2, client); (1, project)]
    /\ project <> "" /\ client <> "" /\ isCamera camera /\ clip <> "".
Proof.
  intros H. apply search_sound in H. destruct H as (skipped & rest & -> & H).
  unfold testPattern in H.
  inversion H as [| | | | r1 r2 pos w1 w2 rest' c0 c1 c2 Hbegin Hrest | | | | | | | | | |];
    subst; clear H.
  inversion Hbegin as [| | | | | | | | | | | | | rest' c0 Hpos |]; subst; clear Hbegin.
  destruct skipped; [|discriminate]. simpl in Hrest.
  invert_match; unfold isCamera; simpl;
    repeat match goal with |- context [(?a +:+ ?b) +:+ ?c] => rewrite (append_assoc a b c) end;
    simpl; rewrite ?append_nil_r;
    first [ with_camera "ACam" | with_camera "BCam" | with_camera "CCam" ].
Qed.

End reference_pattern.

(** * Facts about the path functions *)

Module filepath_facts.

Import filepath names.

Lemma elements_plain (n : string) : hasSep n = false -> elements n = [n].
Proof.
  induction n as [|c n IH]; simpl; [reflexivity|].
  intros H. apply orb_false_iff in H as [Hc Hn]. rewrite Hc, (IH Hn). reflexivity.
Qed.

Lemma elements_append_sep (a b : string) :
  elements (a +:+ "/" +:+ b) = (elements a ++ elements b)%list.
Proof.
  induction a as [|c a IH]; simpl in *; [reflexivity|].
  destruct (IsPathSeparator c); rewrite IH; [reflexivity|].
  destruct (elements a) as [|e es] eqn:E; [|reflexivity].
  destruct a as [|c' a]; simpl in E; [discriminate|].
  destruct (IsPathSeparator c'); [discriminate|]. destruct (elements a); discriminate.
Qed.

Lemma cleanElements_app (rooted : bool) (l1 l2 out : list string) :
  cleanElements rooted out (l1 ++ l2)%list
  = cleanElements rooted (cleanElements rooted out l1) l2.
Proof.
  revert out; induction l1 as [|e l1 IH]; intros out; simpl; [reflexivity|].
  destruct (String.eqb e ""); [apply IH|].
  destruct (String.eqb e "."); [apply IH|].
  destruct (String.eqb e ".."); [|apply IH].
  destruct out as [|top out']; [apply IH|].
  destruct (String.eqb top ".."); apply IH.
Qed.

Lemma isPlainName_inv (n : string) :
  isPlainName n = true ->
  String.eqb n "" = false /\ String.eqb n "." = false /\ String.eqb n ".." = false
  /\ hasSep n = false.
Proof.
  unfold isPlainName. rewrite !andb_true_iff, !negb_true_iff. tauto.
Qed.

Lemma cleanElements_plain (rooted : bool) (out : list string) (n : string) :
  isPlainName n = true -> cleanElements rooted out [n] = n :: out.
Proof.
  intros H. apply isPlainName_inv in H as (Hne & Hdot & Hdotdot & _).
  simpl. now rewrite Hne, Hdot, Hdotdot.
Qed.

Lemma Join_snoc (l : list string) (n : string) :
  strings.Join (l ++ [n])%list "/"
  = match l with
    | [] => n
    | _ => strings.Join l "/" +:+ "/" +:+ n
    end.
Proof.
  induction l as [|e l IH]; [reflexivity|].
  change ((e :: l) ++ [n])%list with (e :: (l ++ [n])%list).
  destruct l as [|e' l]; [reflexivity|].
  change (strings.Join (e :: ((e' :: l) ++ [n])%list) "/")
    with (e +:+ "/" +:+ strings.Join ((e' :: l) ++ [n])%list "/").
  rewrite IH.
  change (strings.Join (e :: e' :: l) "/") with (e +:+ "/" +:+ strings.Join (e' :: l) "/").
  now rewrite !append_assoc.
Qed.

Lemma stripTrailingSeps_plain (n : string) :
  String.eqb n "" = false -> hasSep n = false -> stripTrailingSeps n = n.
Proof.
  induction n as [|c n IH]; [discriminate|]. intros _ H. simpl in *.
  apply orb_false_iff in H as [Hc Hn]. destruct n as [|c' n].
  - simpl. now rewrite Hc.
  - rewrite (IH eq_refl Hn). reflexivity.
Qed.

Lemma stripTrailingSeps_append_plain (a n : string) :
  String.eqb n "" = false -> hasSep n = false ->
  stripTrailingSeps (a +:+ n) = a +:+ n.
Proof.
  intros Hne Hn. induction a as [|c a IH]; simpl.
  - now apply stripTrailingSeps_plain.
  - rewrite IH. destruct (a +:+ n) eqn:E; [|reflexivity].
    destruct a, n; discriminate.
Qed.

Lemma hasSep_append (a b : string) : hasSep (a +:+ b) = hasSep a || hasSep b.
Proof. induction a as [|c a IH]; simpl; [reflexivity | now rewrite IH, orb_assoc]. Qed.

Lemma afterLastSep_append_sep (a n : string) :
  hasSep n = false -> afterLastSep (a +:+ "/" +:+ n) = n.
Proof.
  intros Hn. induction a as [|c a IH]; simpl.
  - now rewrite Hn.
  - rewrite hasSep_append. simpl. now rewrite orb_true_r.
Qed.

Lemma afterLastSep_plain (n : string) : hasSep n = false -> afterLastSep n = n.
Proof.
  destruct n as [|c n]; [reflexivity|]. simpl. intros H.
  apply orb_false_iff in H as [Hc Hn]. now rewrite Hn, Hc.
Qed.

Lemma Base_plain (n : string) : isPlainName n = true -> Base n = n.
Proof.
  intros H. apply isPlainName_inv in H as (Hne & _ & _ & Hn).
  unfold Base. destruct n as [|c n]; [discriminate|].
  rewrite stripTrailingSeps_plain, afterLastSep_plain by assumption. reflexivity.
Qed.

Lemma Base_append_sep_plain (a n : string) :
  isPlainName n = true -> Base (a +:+ "/" +:+ n) = n.
Proof.
  intros H. apply isPlainName_inv in H as (Hne & _ & _ & Hn).
  unfold Base. destruct (a +:+ "/" +:+ n) eqn:E; [destruct a; discriminate|]. rewrite <- E.
  rewrite <- append_assoc, stripTrailingSeps_append_plain by assumption.
  rewrite append_assoc, afterLastSep_append_sep by assumption.
  destruct n; [discriminate | reflexivity].
Qed.

(** Cleaning a path that ends in an ordinary name keeps that name as the
    last element. *)
Lemma Clean_append_sep_plain (d n : string) :
  isPlainName n = true ->
  Clean (d +:+ "/" +:+ n) = n \/ exists a, Clean (d +:+ "/" +:+ n) = a +:+ "/" +:+ n.
Proof.
  intros H. pose proof (isPlainName_inv n H) as (Hne & Hdot & Hdotdot & Hn).
  unfold Clean. destruct (d +:+ "/" +:+ n) eqn:E; [destruct d; discriminate|]. rewrite <- E.
  rewrite elements_append_sep, (elements_plain n Hn), cleanElements_app.
  set (rooted := isRooted (d +:+ "/" +:+ n)).
  set (out := cleanElements rooted [] (elements d)).
  rewrite (cleanElements_plain _ _ _ H). simpl rev. rewrite Join_snoc.
  destruct rooted.
  - right. destruct (rev out) as [|e l].
    + now exists "".
    + exists ("/" +:+ strings.Join (e :: l) "/"). now rewrite append_assoc.
  - destruct (rev out) as [|e l] eqn:Eo; simpl.
    + now left.
    + right. exists (strings.Join (e :: l) "/").
      destruct l; reflexivity.
Qed.

(** Joining an ordinary file name to a directory gives a path whose last
    element is that name. *)
Lemma Base_Join_plain (d n : string) :
  isPlainName n = true -> Base (Join [d; n]) = n.
Proof.
  intros H. pose proof (isPlainName_inv n H) as (Hne & Hdot & Hdotdot & Hn).
  unfold Join. destruct (String.eqb d "") eqn:Ed.
  - rewrite Hne. unfold strings.Join, Clean.
    rewrite (elements_plain _ Hn), (cleanElements_plain _ _ _ H).
    assert (isRooted n = false) as ->.
    { destruct n; [reflexivity|]. simpl in *. now apply orb_false_iff in Hn as [-> _]. }
    simpl. destruct n; [discriminate|]. now apply Base_plain.
  - change (strings.Join [d; n] "/") with (d +:+ "/" +:+ n).
    destruct (Clean_append_sep_plain d n H) as [-> | [a ->]].
    + now apply Base_plain.
    + now apply Base_append_sep_plain.
Qed.

End filepath_facts.

(** * The filename classifier *)

Module classifier_facts.

Import parser classifier.

Lemma Parse_matched (p : Parser) (filePath : string) :
  Matched (Parse p filePath)
  = (length (regexp.FindStringSubmatch (pattern p) (nameWithoutExt filePath)) =? 5)%nat.
Proof.
  unfold Parse, nameWithoutExt.
  destruct (length _ =? 5)%nat; reflexivity.
Qed.

(** The full destination path reads the classification, not the path the
    file came from. *)
Lemma GetFullDestinationPath_ext (p : Parser) (i1 i2 : FileInfo) :
  Matched i1 = Matched i2 -> ProjectName i1 = ProjectName i2 -> Client i1 = Client i2 ->
  Camera i1 = Camera i2 -> ClipNumber i1 = ClipNumber i2 -> Extension i1 = Extension i2 ->
  FileName i1 = FileName i2 ->
  GetDestinationPath p i1 = GetDestinationPath p i2
  /\ GetFullDestinationPath p i1 = GetFullDestinationPath p i2.
Proof.
  intros Hm Hp Hc Hcam Hclip He Hf.
  assert (GetDestinationPath p i1 = GetDestinationPath p i2) as Hd.
  { unfold GetDestinationPath. now rewrite Hm, Hp, Hc, Hcam. }
  split; [exact Hd|].
  unfold GetFullDestinationPath. now rewrite Hd, Hm, Hclip, He, Hf.
Qed.

(** C9: classification is a function of the base file name and the
    configuration: two paths with the same base name get, from the same
    parser, the same matched flag, the same four tokens, the same extension
    and the same destination path (directory and full path, before
    versioning).  [Parse] and the destination functions take no file system
    and no state: they cannot read any. *)
Theorem Parse_same_base_name (p : Parser) (path1 path2 : string) :
  filepath.Base path1 = filepath.Base path2 ->
  Matched (Parse p path1) = Matched (Parse p path2)
  /\ ProjectName (Parse p path1) = ProjectName (Parse p path2)
  /\ Client (Parse p path1) = Client (Parse p path2)
  /\ Camera (Parse p path1) = Camera (Parse p path2)
  /\ ClipNumber (Parse p path1) = ClipNumber (Parse p path2)
  /\ Extension (Parse p path1) = Extension (Parse p path2)
  /\ GetDestinationPath p (Parse p path1) = GetDestinationPath p (Parse p path2)
  /\ GetFullDestinationPath p (Parse p path1) = GetFullDestinationPath p (Parse p path2).
Proof.
  intros Hbase.
  assert (Matched (Parse p path1) = Matched (Parse p path2)
          /\ ProjectName (Parse p path1) = ProjectName (Parse p path2)
          /\ Client (Parse p path1) = Client (Parse p path2)
          /\ Camera (Parse p path1) = Camera (Parse p path2)
          /\ ClipNumber (Parse p path1) = ClipNumber (Parse p path2)
          /\ Extension (Parse p path1) = Extension (Parse p path2)
          /\ FileName (Parse p path1) = FileName (Parse p path2)) as H.
  { unfold Parse. rewrite Hbase.
    destruct (length _ =? 5)%nat; simpl; repeat split; reflexivity. }
  destruct H as (Hm & Hp & Hc & Hcam & Hclip & He & Hf).
  destruct (GetFullDestinationPath_ext p _ _ Hm Hp Hc Hcam Hclip He Hf) as [Hd Hfull].
  repeat split; assumption.
Qed.

Lemma Parse_same_base_name_witness :
  Matched (Parse testParser "/media/a/Spot_Nike_ACam_007.mp4")
  = Matched (Parse testParser "/media/b/day2/Spot_Nike_ACam_007.mp4")
  /\ GetFullDestinationPath testParser (Parse testParser "/media/a/Spot_Nike_ACam_007.mp4")
     = GetFullDestinationPath testParser
         (Parse testParser "/media/b/day2/Spot_Nike_ACam_007.mp4").
Proof.
  destruct (Parse_same_base_name testParser "/media/a/Spot_Nike_ACam_007.mp4"
              "/media/b/day2/Spot_Nike_ACam_007.mp4" eq_refl)
    as (Hm & _ & _ & _ & _ & _ & _ & Hfull).
  split; [exact Hm | exact Hfull].
Defined.

(** C4, as stated, fails: a configured pattern with four capture groups
    can match with empty groups.  Under [loosePattern], four groups of any
    text joined by underscores, the name [___.mp4] is matched and its four
    tokens are empty. *)
Lemma Parse_empty_tokens :
  regexp.NumSubexp (pattern looseParser) = 4
  /\ regexp.FindStringSubmatch (pattern looseParser) (nameWithoutExt "/media/card/___.mp4")
     = ["___"; ""; ""; ""; ""]
  /\ Matched (Parse looseParser "/media/card/___.mp4") = true
  /\ ProjectName (Parse looseParser "/media/card/___.mp4") = ""
  /\ Client (Parse looseParser "/media/card/___.mp4") = ""
  /\ Camera (Parse looseParser "/media/card/___.mp4") = ""
  /\ ClipNumber (Parse looseParser "/media/card/___.mp4") = "".
Proof. vm_compute. repeat split; reflexivity. Qed.

(** C4, amended: when the extension-stripped name matches the configured
    pattern of four groups, [Parse] yields matched = true and the four
    tokens are the four submatches, in the order project, client, camera,
    clip; when it does not match, matched = false, no token is populated
    and the destination directory is the fallback folder joined to the
    destination root.  Under the reference pattern
    [^([^_]+)_([^_]+)_(ACam|BCam|CCam)_(.+)$] the four tokens of a matched
    name are non-empty, the camera token is one of the three designators,
    and the name is the tokens joined by underscores. *)
Theorem Parse_classification (p : Parser) (filePath : string) :
  (regexp.NumSubexp (pattern p) = 4 ->
   regexp.FindStringSubmatch (pattern p) (nameWithoutExt filePath) <> [] ->
   Matched (Parse p filePath) = true
   /\ [ProjectName (Parse p filePath); Client (Parse p filePath);
       Camera (Parse p filePath); ClipNumber (Parse p filePath)]
      = tl (regexp.FindStringSubmatch (pattern p) (nameWithoutExt filePath)))
  /\ (regexp.FindStringSubmatch (pattern p) (nameWithoutExt filePath) = [] ->
      Matched (Parse p filePath) = false
      /\ ProjectName (Parse p filePath) = "" /\ Client (Parse p filePath) = ""
      /\ Camera (Parse p filePath) = "" /\ ClipNumber (Parse p filePath) = ""
      /\ GetDestinationPath p (Parse p filePath)
         = filepath.Join [config.DestinationPath (config p);
                          config.UnmatchedFolder (config.Parsing (config p))])
  /\ (pattern p = testPattern ->
      Matched (Parse p filePath) = true ->
      ProjectName (Parse p filePath) <> "" /\ Client (Parse p filePath) <> ""
      /\ regexp_semantics.isCamera (Camera (Parse p filePath))
      /\ ClipNumber (Parse p filePath) <> ""
      /\ nameWithoutExt filePath
         = ProjectName (Parse p filePath) +:+ "_" +:+ Client (Parse p filePath) +:+ "_"
           +:+ Camera (Parse p filePath) +:+ "_" +:+ ClipNumber (Parse p filePath)).
Proof.
  split; [|split].
  - intros Hn Hm.
    destruct (regexp_facts.length_FindStringSubmatch (pattern p) (nameWithoutExt filePath))
      as [H0 | H5].
    { destruct (regexp.FindStringSubmatch _ _); [contradiction | discriminate]. }
    rewrite Hn in H5. unfold Parse. fold (nameWithoutExt filePath). rewrite H5. simpl.
    split; [reflexivity|].
    destruct (regexp.FindStringSubmatch _ _) as [|m0 [|m1 [|m2 [|m3 [|m4 [|m5 ms]]]]]];
      try discriminate. reflexivity.
  - intros Hm. unfold GetDestinationPath, Parse. fold (nameWithoutExt filePath).
    rewrite Hm. simpl. repeat split; reflexivity.
  - intros Hp Hm. rewrite Parse_matched in Hm. revert Hm.
    unfold Parse. fold (nameWithoutExt filePath). rewrite Hp.
    unfold regexp.FindStringSubmatch.
    destruct (regexp.search testPattern 0 (nameWithoutExt filePath)) as [[whole caps]|] eqn:Hs;
      [|discriminate].
    apply reference_pattern.search_testPattern in Hs.
    destruct Hs as (project & client & camera & clip & Hname & -> & -> & H1 & H2 & H3 & H4).
    intros _. change (regexp.NumSubexp testPattern) with 4. simpl.
    repeat split; assumption.
Qed.

Lemma Parse_classification_witness :
  (Matched (Parse testParser "/media/card/Spot_Nike_BCam_12.mov") = true
   /\ [ProjectName (Parse testParser "/media/card/Spot_Nike_BCam_12.mov");
       Client (Parse testParser "/media/card/Spot_Nike_BCam_12.mov");
       Camera (Parse testParser "/media/card/Spot_Nike_BCam_12.mov");
       ClipNumber (Parse testParser "/media/card/Spot_Nike_BCam_12.mov")]
      = ["Spot"; "Nike"; "BCam"; "12"])
  /\ (Matched (Parse testParser "/media/card/notes.txt") = false
      /\ GetDestinationPath testParser (Parse testParser "/media/card/notes.txt")
         = "/mnt/storage/Unsorted")
  /\ ClipNumber (Parse testParser "/media/card/Spot_Nike_BCam_12.mov") <> "".
Proof.
  destruct (Parse_classification testParser "/media/card/Spot_Nike_BCam_12.mov")
    as (Hmatch & _ & Href).
  destruct (Parse_classification testParser "/media/card/notes.txt") as (_ & Hno & _).
  split; [|split].
  - apply Hmatch; [reflexivity | vm_compute; discriminate].
  - destruct (Hno eq_refl) as (Hm & _ & _ & _ & _ & Hd). split; [exact Hm | exact Hd].
  - destruct (Href eq_refl eq_refl) as (_ & _ & _ & Hclip & _). exact Hclip.
Defined.

End classifier_facts.

(** * Destination paths *)

Module destination.

Import parser.

(** C3, as stated, fails on the general rule: the leaf name of a matched
    file is not always the clip token with the extension.  The file
    [a_b_ACam_..] has the extension [.] and the clip token [.]; their
    concatenation is the parent-directory element, which the join resolves
    away, and the destination is the project directory itself. *)
Lemma leaf_name_dotdot :
  Matched (Parse testParser "/media/card/a_b_ACam_..") = true
  /\ ClipNumber (Parse testParser "/media/card/a_b_ACam_..") = "."
  /\ Extension (Parse testParser "/media/card/a_b_ACam_..") = "."
  /\ GetFullDestinationPath testParser (Parse testParser "/media/card/a_b_ACam_..")
     = "/mnt/storage/b/a"
  /\ filepath.Base
       (GetFullDestinationPath testParser (Parse testParser "/media/card/a_b_ACam_.."))
     <> ClipNumber (Parse testParser "/media/card/a_b_ACam_..")
        +:+ Extension (Parse testParser "/media/card/a_b_ACam_..").
Proof. vm_compute. repeat split; try reflexivity. discriminate. Qed.

(** C3, amended: with the reference pattern, the template
    [{client}/{project}/{camera}], the fallback folder [Unsorted] and the
    destination root [/mnt/storage], the three files of the scenario get
    the three destination paths of the scenario.  In general the
    destination path is the destination directory joined with the clip
    token followed by the extension for a matched file, and with the
    original file name for an unmatched one; whenever that name is an
    ordinary file name (not empty, without separator, neither [.] nor
    [..]) it is the leaf name of the destination path. *)
Theorem GetFullDestinationPath_leaf_name :
  (GetFullDestinationPath testParser (Parse testParser "BrandVideo_Nike_ACam_001.mp4")
   = "/mnt/storage/Nike/BrandVideo/ACam/001.mp4"
   /\ GetFullDestinationPath testParser (Parse testParser "Interview_Tesla_CCam_Take5.mxf")
      = "/mnt/storage/Tesla/Interview/CCam/Take5.mxf"
   /\ GetFullDestinationPath testParser (Parse testParser "random_video.mp4")
      = "/mnt/storage/Unsorted/random_video.mp4")
  /\ (forall (p : Parser) (info : FileInfo),
        Matched info = true ->
        GetFullDestinationPath p info
        = filepath.Join [GetDestinationPath p info; ClipNumber info +:+ Extension info]
        /\ (names.isPlainName (ClipNumber info +:+ Extension info) = true ->
            filepath.Base (GetFullDestinationPath p info)
            = ClipNumber info +:+ Extension info))
  /\ (forall (p : Parser) (info : FileInfo),
        Matched info = false ->
        GetFullDestinationPath p info
        = filepath.Join [GetDestinationPath p info; FileName info]
        /\ (names.isPlainName (FileName info) = true ->
            filepath.Base (GetFullDestinationPath p info) = FileName info)).
Proof.
  split; [|split].
  - vm_compute. repeat split; reflexivity.
  - intros p info Hm. unfold GetFullDestinationPath. rewrite Hm.
    split; [reflexivity|]. apply filepath_facts.Base_Join_plain.
  - intros p info Hm. unfold GetFullDestinationPath. rewrite Hm.
    split; [reflexivity|]. apply filepath_facts.Base_Join_plain.
Qed.

Lemma GetFullDestinationPath_leaf_name_witness :
  filepath.Base (GetFullDestinationPath testParser
                   (Parse testParser "/media/card/BrandVideo_Nike_ACam_001.mp4"))
  = "001.mp4"
  /\ filepath.Base (GetFullDestinationPath testParser
                      (Parse testParser "/media/card/random_video.mp4"))
     = "random_video.mp4".
Proof.
  destruct GetFullDestinationPath_leaf_name as (_ & Hmatched & Hunmatched).
  split.
  - exact (proj2 (Hmatched testParser
                    (Parse testParser "/media/card/BrandVideo_Nike_ACam_001.mp4") eq_refl)
             eq_refl).
  - exact (proj2 (Hunmatched testParser
                    (Parse testParser "/media/card/random_video.mp4") eq_refl)
             eq_refl).
Defined.

(** The path probed is one for which [Glob] reports no error: it is
    returned as it is, whatever the file system holds. *)
Lemma GetUniqueDestinationPath_well_formed (w : World) (p : Parser) (info : FileInfo) :
  filepath_glob.GlobError w (GetFullDestinationPath p info) = None ->
  GetUniqueDestinationPath w p info = (GetFullDestinationPath p info, None).
Proof.
  intros H. unfold GetUniqueDestinationPath, GetUniqueDestinationPath_fuel.
  now rewrite H.
Qed.

(** The versioning loop, entered at [version] between 2 and 1000 with the
    iterations that are left up to 1000, returns. *)
Lemma versionLoop_returns (w : World) (destPath dir name ext : string) :
  forall fuel version,
    version <= 1000 -> version + fuel = 1001 ->
    versionLoop fuel w destPath dir name ext version <> None.
Proof.
  induction fuel as [|fuel IH]; intros version Hlo Hsum; [lia|]. simpl.
  destruct (isNil _); [discriminate|].
  destruct (1000 <? S version)%nat eqn:E; [discriminate|].
  apply Nat.ltb_ge in E. apply IH; lia.
Qed.

(** [GetUniqueDestinationPath] returns: the bound on the loop is never
    what ends it. *)
Lemma GetUniqueDestinationPath_returns (w : World) (p : Parser) (info : FileInfo) :
  GetUniqueDestinationPath_fuel 999 w p info <> None.
Proof.
  unfold GetUniqueDestinationPath_fuel. destruct (isNil _); [discriminate|].
  apply versionLoop_returns; lia.
Qed.

(** The versioning loop is entered only on a path for which [Glob]
    reports an error; it fails after the 999 candidates [_v2] to [_v1000]
    when [Glob] reports an error for all of them as well. *)
Lemma versionLoop_all_malformed (w : World) (destPath dir name ext : string) :
  (forall version,
     isNil (filepath_glob.GlobError w
              (filepath.Join [dir; name +:+ "_v" +:+ fmt.decimal version +:+ ext]))
     = false) ->
  forall fuel version,
    version <= 1000 -> version + fuel = 1001 ->
    versionLoop fuel w destPath dir name ext version
    = Some ("", Some (ErrTooManyVersions destPath)).
Proof.
  intros Hbad. induction fuel as [|fuel IH]; intros version Hlo Hsum; [lia|].
  cbn [versionLoop]. rewrite Hbad.
  destruct (1000 <? S version)%nat eqn:E; [reflexivity|].
  apply Nat.ltb_ge in E. apply IH; lia.
Qed.

(** C1 at a failing input: the destination of [random_video.mp4] is
    occupied by a file that was there before the run, and
    [GetUniqueDestinationPath] returns that very path, without error and
    without a version suffix. *)
Theorem GetUniqueDestinationPath_occupied :
  occupied {["/mnt/storage/Unsorted/random_video.mp4" := File "earlier"]}
    (GetFullDestinationPath testParser (Parse testParser "/media/card/random_video.mp4"))
  = true
  /\ GetUniqueDestinationPath
       {["/mnt/storage/Unsorted/random_video.mp4" := File "earlier"]}
       testParser (Parse testParser "/media/card/random_video.mp4")
     = ("/mnt/storage/Unsorted/random_video.mp4", None).
Proof. split; vm_compute; reflexivity. Qed.

(** A bracket that is opened in one token and closed in another makes a
    pattern that is well formed as a whole and whose directory part is
    not: [Glob] reports the error of the directory part, for the path and
    for each of its versions. *)
Example bracket_across_directories :
  GetFullDestinationPath testParser (Parse testParser "/media/card/proj_[x_ACam_1].mp4")
  = "/mnt/storage/[x/proj/ACam/1].mp4"
  /\ glob.malformed "/mnt/storage/[x/proj/ACam/1].mp4" = false
  /\ GetUniqueDestinationPath ∅ testParser
       (Parse testParser "/media/card/proj_[x_ACam_1].mp4")
     = ("", Some (ErrTooManyVersions "/mnt/storage/[x/proj/ACam/1].mp4")).
Proof. repeat split; vm_compute; reflexivity. Qed.

End destination.

(** * The validation of the configuration *)

Module config_facts.

Import config.

(** A configuration that passes [Validate] has at least one worker. *)
Lemma Validate_MaxWorkers (c : Config) :
  snd (Validate c) = None -> (1 <= MaxWorkers (Transfer (fst (Validate c))))%Z.
Proof.
  unfold Validate. destruct (String.eqb (DestinationPath c) ""); [discriminate|].
  destruct (MaxWorkers (Transfer c) <? 1)%Z eqn:Ew.
  - intros _.
    repeat match goal with
           | |- context [if ?b then _ else _] => destruct b
           end; simpl; lia.
  - apply Z.ltb_ge in Ew. intros _.
    repeat match goal with
           | |- context [if ?b then _ else _] => destruct b
           end; simpl; lia.
Qed.

Example Validate_repairs_workers :
  MaxWorkers (Transfer (fst (Validate (setMaxWorkers testConfig 0)))) = 1%Z
  /\ snd (Validate (setMaxWorkers testConfig 0)) = None.
Proof. split; reflexivity. Qed.

End config_facts.

(** * The device inclusion policy *)

Module policy.

Import device.

Section Policy.

Variable cfg : config.Config.
Variable EqualFold : string -> string -> bool.

Lemma filesystemAllowed_spec (filesystem : string) (allowed : list string) :
  filesystemAllowed EqualFold filesystem allowed = true
  <-> exists fs, In fs allowed /\ (EqualFold filesystem fs = true \/ filesystem = fs).
Proof.
  induction allowed as [|fs rest IH]; simpl.
  - split; [discriminate | intros (fs & [] & _)].
  - destruct (EqualFold filesystem fs || String.eqb filesystem fs) eqn:E.
    + split; [intros _ | reflexivity]. exists fs. split; [now left|].
      apply orb_true_iff in E as [E | E]; [now left | right; now apply String.eqb_eq].
    + apply orb_false_iff in E as [E1 E2]. apply String.eqb_neq in E2.
      rewrite IH. split.
      * intros (fs' & Hin & H). exists fs'. split; [now right | exact H].
      * intros (fs' & [<- | Hin] & H); [|now exists fs'].
        destruct H as [H | H]; [congruence | contradiction].
Qed.

Lemma pathExcluded_spec (path : string) (patterns : list string) :
  pathExcluded path patterns = true
  <-> exists pattern, In pattern patterns
                      /\ exists pre post, path = pre +:+ pattern +:+ post.
Proof.
  induction patterns as [|pattern rest IH]; simpl.
  - split; [discriminate | intros (x & [] & _)].
  - destruct (strings.Contains path pattern) eqn:E.
    + split; [intros _ | reflexivity]. exists pattern. split; [now left|].
      now apply Contains_spec.
    + rewrite IH. split.
      * intros (x & Hin & H). exists x. split; [now right | exact H].
      * intros (x & [<- | Hin] & H); [|now exists x].
        apply Contains_spec in H. congruence.
Qed.

(** C8: [IsAllowedDevice] rejects a device exactly when its size is below
    the configured minimum, or an allow-list of filesystems is configured
    and the device's filesystem is not a member of it up to case (under
    the folding comparison, or identical), or the device's path contains
    one of the configured exclude substrings; it accepts every other
    device.  The policy is a function of the configuration and the
    device: it changes neither. *)
Theorem IsAllowedDevice_policy (d : Device) :
  IsAllowedDevice cfg EqualFold d = false
  <-> (Size d < config.MinSizeBytes (config.DeviceDetection cfg))%Z
      \/ (config.AllowedFilesystems (config.DeviceDetection cfg) <> []
          /\ ~ exists fs, In fs (config.AllowedFilesystems (config.DeviceDetection cfg))
                          /\ (EqualFold (Filesystem d) fs = true \/ Filesystem d = fs))
      \/ (exists pattern, In pattern (config.ExcludePatterns (config.DeviceDetection cfg))
                          /\ exists pre post, Path d = pre +:+ pattern +:+ post).
Proof.
  unfold IsAllowedDevice.
  rewrite <- filesystemAllowed_spec, <- pathExcluded_spec.
  destruct (Size d <? _)%Z eqn:Esize.
  - apply Z.ltb_lt in Esize. split; [intros _; now left | reflexivity].
  - apply Z.ltb_ge in Esize.
    destruct (config.AllowedFilesystems (config.DeviceDetection cfg)) as [|fs0 allowed] eqn:Ea.
    + simpl. destruct (pathExcluded _ _) eqn:Ex.
      * split; [intros _; now right; right | reflexivity].
      * split; [discriminate|]. intros [H | [[H _] | H]]; [lia | contradiction | discriminate].
    + change (0 <? length (fs0 :: allowed))%nat with true. rewrite andb_true_l.
      destruct (filesystemAllowed EqualFold (Filesystem d) (fs0 :: allowed)) eqn:Efs; simpl.
      * destruct (pathExcluded _ _) eqn:Ex.
        -- split; [intros _; now right; right | reflexivity].
        -- split; [discriminate|].
           intros [H | [[_ H] | H]]; [lia | now destruct H | discriminate].
      * split; [intros _ | reflexivity]. right; left. split; [discriminate|].
        intros H; discriminate.
Qed.

End Policy.

Example IsAllowedDevice_testCard :
  IsAllowedDevice testConfig strings.EqualFoldASCII testCard = true
  /\ IsAllowedDevice testConfig strings.EqualFoldASCII
       {| Name := "loop0"; Path := "/dev/loop0"; MountPath := ""; Filesystem := "vfat";
          Size := 64000000000; Label := "" |} = false
  /\ IsAllowedDevice testConfig strings.EqualFoldASCII
       {| Name := "sdc1"; Path := "/dev/sdc1"; MountPath := ""; Filesystem := "ext4";
          Size := 64000000000; Label := "" |} = false
  /\ IsAllowedDevice testConfig strings.EqualFoldASCII
       {| Name := "sdd1"; Path := "/dev/sdd1"; MountPath := ""; Filesystem := "ExFat";
          Size := 1000; Label := "" |} = false.
Proof. repeat split; reflexivity. Qed.

End policy.

(** * Priority files *)

Module priority.

Import transfer scenarios.

Lemma isPriorityFile_range_spec (prefixes : list string) (fileName : string) :
  isPriorityFile_range prefixes fileName = true
  <-> exists prefix, In prefix prefixes /\ exists rest, fileName = prefix +:+ rest.
Proof.
  induction prefixes as [|prefix rest IH]; simpl.
  - split; [discriminate | intros (x & [] & _)].
  - fold (strings.HasPrefix fileName prefix).
    destruct (strings.HasPrefix fileName prefix) eqn:E.
    + split; [intros _ | reflexivity]. exists prefix. split; [now left|].
      now apply HasPrefix_spec.
    + rewrite IH. split.
      * intros (x & Hin & H). exists x. split; [now right | exact H].
      * intros (x & [<- | Hin] & H); [|now exists x].
        apply HasPrefix_spec in H. congruence.
Qed.

(** A file name is a priority name exactly when it begins with one of the
    configured prefixes, byte for byte. *)
Lemma isPriorityFile_spec (cfg : config.Config) (fileName : string) :
  isPriorityFile cfg fileName = true
  <-> exists prefix, In prefix (config.PriorityPrefixes (config.Transfer cfg))
                     /\ exists rest, fileName = prefix +:+ rest.
Proof. apply isPriorityFile_range_spec. Qed.

(** C10: with an empty list of priority prefixes no file name is a
    priority name, and with the empty string among the prefixes every file
    name is one. *)
Theorem isPriorityFile_degenerate (cfg : config.Config) (fileName : string) :
  (config.PriorityPrefixes (config.Transfer cfg) = [] -> isPriorityFile cfg fileName = false)
  /\ (In "" (config.PriorityPrefixes (config.Transfer cfg)) ->
      isPriorityFile cfg fileName = true).
Proof.
  split.
  - intros H. unfold isPriorityFile. now rewrite H.
  - intros H. apply isPriorityFile_spec. exists "". split; [exact H|]. now exists fileName.
Qed.

Lemma isPriorityFile_degenerate_witness :
  isPriorityFile (withPrefixes []) "1_Project_Client_ACam_001.mp4" = false
  /\ isPriorityFile (withPrefixes ["urgent_"; ""]) "normal_file.mp4" = true.
Proof.
  split.
  - apply (proj1 (isPriorityFile_degenerate (withPrefixes []) "1_Project_Client_ACam_001.mp4")).
    reflexivity.
  - apply (proj2 (isPriorityFile_degenerate (withPrefixes ["urgent_"; ""]) "normal_file.mp4")).
    simpl. right. left. reflexivity.
Defined.

End priority.

(** * Integrity verification *)

Module integrity.

Import transfer scenarios.

Section Verification.

Variable cfg : config.Config.
Variable env : Env.
Variable sha256 : string -> string.
Variable deviceName : string.

(** What a re-read that succeeds has found. *)
Lemma ReadBack_found (path reread : string) (s s' : State) :
  os.ReadBack env path s = ((reread, None), s') ->
  s' = s /\ world s !! path = Some (File reread).
Proof.
  unfold os.ReadBack, bind, os.getWorld, ret. simpl.
  destruct (fault env (OpReadBack path)); [discriminate|].
  destruct (world s !! path) as [[content|]|]; try discriminate.
  intros [= -> ->]. now split.
Qed.


End Verification.



End integrity.

(** * The transfer engine *)

Module engine_facts.

Import transfer engine.

Section Run.

Variable cfg : config.Config.
Variable p : parser.Parser.
Variable env : Env.
Variable sha256 : string -> string.
Variable deviceName : string.

Local Abbreviation Inv := (engine.Inv cfg env sha256 deviceName).
Local Abbreviation phaseInv := (engine.phaseInv cfg).
Local Abbreviation maxWorkers := (engine.maxWorkers cfg).
Local Abbreviation runs := (engine.runs cfg p env sha256 deviceName).

(** *** Workers, one at a time *)

Lemma list_sum_insert (f : WorkerPC -> nat) (ws : list WorkerPC) (i : nat)
    (w w0 : WorkerPC) :
  ws !! i = Some w0 ->
  list_sum (map f (<[i := w]> ws)) + f w0 = list_sum (map f ws) + f w.
Proof.
  revert i; induction ws as [|x ws IH]; intros i H; [discriminate|].
  destruct i as [|i]; simpl in *.
  - injection H as ->. lia.
  - specialize (IH i H). lia.
Qed.

Lemma transferring_insert (ws : list WorkerPC) (i : nat) (w w0 : WorkerPC) :
  ws !! i = Some w0 ->
  (transferring (<[i := w]> ws) ++ transferring [w0])%list
  ≡ₚ (transferring ws ++ transferring [w])%list.
Proof.
  revert i; induction ws as [|x ws IH]; intros i H; [discriminate|].
  destruct i as [|i]; simpl in *.
  - injection H as ->. unfold transferring. simpl. solve_Permutation.
  - specialize (IH i H). unfold transferring in *. simpl in *.
    rewrite !app_nil_r in IH. rewrite !app_nil_r, <- !app_assoc.
    apply Permutation_app_head. exact IH.
Qed.

Lemma In_insert (ws : list WorkerPC) (i : nat) (w x : WorkerPC) :
  In x (<[i := w]> ws) -> x = w \/ In x ws.
Proof.
  revert i; induction ws as [|y ws IH]; intros i H; [contradiction|].
  destruct i as [|i]; simpl in *.
  - destruct H as [<- | H]; [now left | right; now right].
  - destruct H as [<- | H]; [right; now left|].
    destruct (IH i H) as [-> | Hin]; [now left | right; now right].
Qed.

Lemma lookup_In (ws : list WorkerPC) (i : nat) (w : WorkerPC) :
  ws !! i = Some w -> In w ws.
Proof.
  revert i; induction ws as [|y ws IH]; intros i H; [discriminate|].
  destruct i as [|i]; simpl in *; [injection H as ->; now left | right; eauto].
Qed.

Lemma allDone_In (ws : list WorkerPC) (w : WorkerPC) :
  allDone ws = true -> In w ws -> w = WDone.
Proof.
  unfold allDone. rewrite forallb_forall. intros H Hin. specialize (H w Hin).
  destruct w; try discriminate. reflexivity.
Qed.

Lemma allDone_idle (ws : list WorkerPC) :
  allDone ws = true ->
  transferring ws = [] /\ unaccounted ws = 0 /\ reportingCount ws = 0
  /\ reportingFailures ws = 0.
Proof.
  induction ws as [|w ws IH]; [now repeat split|]. simpl.
  destruct w; try discriminate. intros H. destruct (IH H) as (H1 & H2 & H3 & H4).
  unfold transferring, unaccounted, reportingCount, reportingFailures in *. simpl.
  now rewrite H1, H2, H3, H4.
Qed.

Lemma replicate_idle (n : nat) :
  transferring (replicate n WReceive) = [] /\ unaccounted (replicate n WReceive) = 0
  /\ reportingCount (replicate n WReceive) = 0
  /\ reportingFailures (replicate n WReceive) = 0
  /\ ~ In WDone (replicate n WReceive)
  /\ list_sum (map workerSteps (replicate n WReceive)) = n.
Proof.
  induction n as [|n (H1 & H2 & H3 & H4 & H5 & H6)]; simpl.
  - repeat split; auto.
  - unfold transferring, unaccounted, reportingCount, reportingFailures in *. simpl.
    rewrite H1, H2, H3, H4, H6. repeat split; auto.
    intros [H | H]; [discriminate | contradiction].
Qed.

Lemma failures_app (l1 l2 : list (option error)) :
  failures (l1 ++ l2) = failures l1 + failures l2.
Proof. unfold failures. now rewrite map_app, list_sum_app. Qed.

Lemma failures_le (l : list (option error)) : failures l <= length l.
Proof.
  unfold failures. induction l as [|err l IH]; simpl; [lia|].
  destruct (isNil err); lia.
Qed.

(** *** The preparation of one file *)

Lemma prepareFile_spec (filePath : string) (e : Engine) :
  let e' := prepareFile cfg p env deviceName filePath e in
  (main e' = main e /\ jobs e' = jobs e /\ jobsClosed e' = jobsClosed e
   /\ results e' = results e /\ workers e' = workers e /\ enqueued e' = enqueued e
   /\ outcomes e' = outcomes e
   /\ ProcessedFiles (stats e') = ProcessedFiles (stats e)
   /\ FailedFiles (stats e') = FailedFiles (stats e))
  /\ ((priorityFiles e' = priorityFiles e /\ normalFiles e' = normalFiles e
       /\ stats e' = stats e)
      \/ exists t,
           SourcePath t = filePath
           /\ Priority t = isPriorityFile cfg (filepath.Base filePath)
           /\ TotalFiles (stats e') = (TotalFiles (stats e) + 1)%Z
           /\ ((Priority t = true /\ priorityFiles e' = (priorityFiles e ++ [t])%list
                /\ normalFiles e' = normalFiles e)
               \/ (Priority t = false /\ normalFiles e' = (normalFiles e ++ [t])%list
                   /\ priorityFiles e' = priorityFiles e))).
Proof.
  unfold prepareFile.
  destruct (os.Stat env filePath (st e)) as [[fileInfo err] st1].
  destruct err as [er|]; [simpl; split; [repeat split | left; repeat split]|].
  destruct fileInfo as [[isDir size]|]; [|simpl; split; [repeat split | left; repeat split]].
  destruct isDir; [simpl; split; [repeat split | left; repeat split]|].
  destruct (parser.GetUniqueDestinationPath (world st1) p (parser.Parse p filePath))
    as [destPath err].
  destruct err as [er|]; [simpl; split; [repeat split | left; repeat split]|].
  cbn [Priority].
  destruct (isPriorityFile cfg (filepath.Base filePath)) eqn:Eprio; simpl.
  - split; [repeat split|]. right.
    exists {| SourcePath := filePath; DestinationPath := destPath;
              FileInfo := parser.Parse p filePath; Size := size;
              Priority := true; Checksum := "" |}. simpl.
    split; [reflexivity|]. split; [reflexivity|]. split; [reflexivity|].
    left. repeat split.
  - split; [repeat split|]. right.
    exists {| SourcePath := filePath; DestinationPath := destPath;
              FileInfo := parser.Parse p filePath; Size := size;
              Priority := false; Checksum := "" |}. simpl.
    split; [reflexivity|]. split; [reflexivity|]. split; [reflexivity|].
    right. repeat split.
Qed.

(** *** The invariant holds in every state of a run *)

Lemma start_Inv (s : State) (files : list string) : Inv (start s files).
Proof.
  constructor; simpl; try constructor; try reflexivity; auto.
Qed.

Lemma stepMain_Inv (e e' : Engine) :
  Inv e -> stepMain cfg p env deviceName e = Some e' -> Inv e'.
Proof.
  intros [Hprio Hnorm Hflag Htotal Hphase Hflow Hacc Hfail Hres Hdone Hout] Hstep.
  unfold stepMain in Hstep. unfold engine.phaseInv in Hphase.
  destruct (main e) as [files | rest | rest | | | err] eqn:Emain.
  - (* the loop over the files *)
    destruct Hphase as (Henq & Hclosed & Hws).
    destruct files as [|filePath files]; injection Hstep as <-.
    + destruct (replicate_idle maxWorkers) as (R1 & R2 & R3 & R4 & R5 & _).
      fold maxWorkers. rewrite Hws in *.
      constructor; unfold engine.phaseInv; simpl; try assumption.
      * rewrite Henq. repeat split; try assumption. apply length_replicate.
      * now rewrite R1.
      * now rewrite R2.
      * now rewrite R4.
      * now rewrite R3.
      * intros H. now apply R5 in H.
    + destruct (prepareFile_spec filePath e)
        as ((Pmain & Pjobs & Pclosed & Presults & Pworkers & Penq & Pout & Pproc & Pfailed)
            & Pfiles).
      set (e1 := prepareFile cfg p env deviceName filePath e) in *.
      assert (Forall (fun t => Priority t = true) (priorityFiles e1)
              /\ Forall (fun t => Priority t = false) (normalFiles e1)
              /\ Forall (fun t => Priority t
                                  = isPriorityFile cfg (filepath.Base (SourcePath t)))
                   (priorityFiles e1 ++ normalFiles e1)
              /\ TotalFiles (stats e1)
                 = Z.of_nat (length (priorityFiles e1 ++ normalFiles e1))) as Hfiles.
      { destruct Pfiles as [(-> & -> & ->) | (t & Hsrc & Hpri & Htot & Hwhere)].
        - repeat split; assumption.
        - rewrite Htot, Htotal. apply Forall_app in Hflag as [Hf1 Hf2].
          assert (Priority t = isPriorityFile cfg (filepath.Base (SourcePath t))) as Ht
              by now rewrite Hsrc.
          destruct Hwhere as [(Ht1 & -> & ->) | (Ht1 & -> & ->)].
          + repeat split; [apply Forall_app; auto | assumption | |].
            * apply Forall_app; split; [apply Forall_app; auto | assumption].
            * rewrite !length_app. simpl. lia.
          + repeat split; [assumption | apply Forall_app; auto | |].
            * apply Forall_app; split; [assumption | apply Forall_app; auto].
            * rewrite !length_app. simpl. lia. }
      destruct Hfiles as (F1 & F2 & F3 & F4).
      constructor; unfold engine.phaseInv; simpl;
        rewrite ?Pjobs, ?Pclosed, ?Presults, ?Pworkers, ?Penq, ?Pout, ?Pproc, ?Pfailed;
        try assumption.
      now repeat split.
  - (* the priority files are sent *)
    destruct Hphase as (Henq & Hclosed & Hws).
    destruct rest as [|t rest].
    + injection Hstep as <-.
      constructor; unfold engine.phaseInv; simpl; try assumption.
      rewrite app_nil_r in Henq. repeat split; try assumption.
      exists []. now rewrite app_nil_r.
    + destruct (length (jobs e) <? capacity e)%nat; [|discriminate].
      injection Hstep as <-.
      constructor; unfold engine.phaseInv; simpl; try assumption.
      * repeat split; try assumption. now rewrite <- app_assoc.
      * rewrite Hflow. solve_Permutation.
      * intros H. apply Hdone in H as [_ H]. congruence.
  - (* the normal files are sent *)
    destruct Hphase as ((sent & Henq & Hsent) & Hclosed & Hws).
    destruct rest as [|t rest].
    + injection Hstep as <-.
      constructor; unfold engine.phaseInv; simpl; try assumption.
      * rewrite app_nil_r in Hsent. subst sent. now repeat split.
      * intros H. apply Hdone in H as [_ H]. congruence.
    + destruct (length (jobs e) <? capacity e)%nat; [|discriminate].
      injection Hstep as <-.
      constructor; unfold engine.phaseInv; simpl; try assumption.
      * repeat split; try assumption. exists (sent ++ [t])%list.
        rewrite Henq, <- !app_assoc. now split.
      * rewrite Hflow. solve_Permutation.
      * intros H. apply Hdone in H as [_ H]. congruence.
  - (* the wait for the workers *)
    destruct Hphase as (Henq & Hclosed & Hws).
    destruct (allDone (workers e)) eqn:Eall; [|discriminate].
    injection Hstep as <-.
    constructor; unfold engine.phaseInv; simpl; try assumption.
    + now repeat split.
    + discriminate.
  - (* the loop over the results *)
    destruct Hphase as (Henq & Hclosed & Hws & Hall).
    destruct (results e) as [|err rest] eqn:Eres; injection Hstep as <-.
    + constructor; unfold engine.phaseInv; simpl; rewrite ?Eres; try assumption.
      now repeat split.
    + constructor; unfold engine.phaseInv; simpl; rewrite ?Emain; simpl; try assumption.
      * destruct (isNil err); simpl; exact Htotal.
      * now repeat split.
      * destruct (isNil err); simpl; exact Hacc.
      * unfold failures in *. simpl in Hfail.
        destruct (isNil err); simpl; lia.
      * discriminate.
  - discriminate.
Qed.

(** In the phases before and after the workers run, no worker moves. *)
Lemma worker_phase (e : Engine) (i : nat) (w : WorkerPC) :
  phaseInv e -> workers e !! i = Some w -> w <> WDone ->
  isCollecting (main e) = false /\ isPreparing (main e) = false.
Proof.
  unfold engine.phaseInv. intros Hphase Hw Hnot.
  destruct (main e); simpl; try (split; reflexivity).
  - destruct Hphase as (_ & _ & Hws). rewrite Hws in Hw. discriminate.
  - destruct Hphase as (_ & _ & _ & Hall).
    exfalso. apply Hnot. eapply allDone_In; [exact Hall | eapply lookup_In; exact Hw].
  - destruct Hphase as (_ & _ & _ & Hall & _).
    exfalso. apply Hnot. eapply allDone_In; [exact Hall | eapply lookup_In; exact Hw].
Qed.

(** A worker's move leaves the phase of the main goroutine as it is. *)
Lemma phaseInv_worker (e e' : Engine) :
  phaseInv e -> isCollecting (main e) = false ->
  main e' = main e -> enqueued e' = enqueued e -> jobsClosed e' = jobsClosed e ->
  priorityFiles e' = priorityFiles e -> normalFiles e' = normalFiles e ->
  length (workers e') = length (workers e) ->
  (workers e = [] -> workers e' = []) ->
  phaseInv e'.
Proof.
  unfold engine.phaseInv. intros Hphase Hcol Hmain Henq Hclosed Hprio Hnorm Hlen Hnil.
  rewrite Hmain, Henq, Hclosed, Hprio, Hnorm, Hlen.
  destruct (main e); try discriminate; try assumption.
  destruct Hphase as (H1 & H2 & H3). auto.
Qed.

Lemma stepWorker_Inv (i : nat) (e e' : Engine) :
  Inv e -> stepWorker cfg env sha256 deviceName i e = Some e' -> Inv e'.
Proof.
  intros [Hprio Hnorm Hflag Htotal Hphase Hflow Hacc Hfail Hres Hdone Hout] Hstep.
  unfold stepWorker in Hstep.
  destruct (workers e !! i) as [w|] eqn:Hw; [|discriminate].
  assert (forall w', length (<[i := w']> (workers e)) = length (workers e)) as Hlen
      by (intros; apply length_insert).
  assert (forall w', workers e = [] -> <[i := w']> (workers e) = []) as Hnil
      by (intros w' H; now rewrite H).
  destruct w as [| t | t err | t err |].
  - (* receive *)
    destruct (worker_phase e i WReceive Hphase Hw) as [Hcol Hprep]; [discriminate|].
    specialize (Hres Hcol).
    pose proof (list_sum_insert) as Hsum.
    destruct (jobs e) as [|t rest] eqn:Ejobs.
    + destruct (jobsClosed e) eqn:Eclosed; [|discriminate]. injection Hstep as <-.
      pose proof (transferring_insert _ _ WDone _ Hw) as Ht.
      pose proof (Hsum (fun w => match w with WReport _ _ | WAccount _ _ => 1 | _ => 0 end)
                    _ _ WDone _ Hw) as Hu.
      pose proof (Hsum (fun w => match w with WReport _ _ => 1 | _ => 0 end)
                    _ _ WDone _ Hw) as Hc.
      pose proof (Hsum (fun w => match w with WReport _ (Some _) => 1 | _ => 0 end)
                    _ _ WDone _ Hw) as Hf.
      fold (unaccounted (<[i := WDone]> (workers e))) (unaccounted (workers e)) in Hu.
      fold (reportingCount (<[i := WDone]> (workers e))) (reportingCount (workers e)) in Hc.
      fold (reportingFailures (<[i := WDone]> (workers e)))
        (reportingFailures (workers e)) in Hf.
      unfold transferring at 2 4 in Ht. simpl in Ht, Hu, Hc, Hf.
      rewrite !app_nil_r in Ht. rewrite !Nat.add_0_r in Hu, Hc, Hf.
      constructor; simpl; rewrite ?Ejobs, ?Ht, ?Hu, ?Hc, ?Hf; try assumption.
      * eapply phaseInv_worker; eauto; simpl; auto.
      * intros _. assumption.
      * intros _. now split.
    + injection Hstep as <-.
      pose proof (transferring_insert _ _ (WTransfer t) _ Hw) as Ht.
      pose proof (Hsum (fun w => match w with WReport _ _ | WAccount _ _ => 1 | _ => 0 end)
                    _ _ (WTransfer t) _ Hw) as Hu.
      pose proof (Hsum (fun w => match w with WReport _ _ => 1 | _ => 0 end)
                    _ _ (WTransfer t) _ Hw) as Hc.
      pose proof (Hsum (fun w => match w with WReport _ (Some _) => 1 | _ => 0 end)
                    _ _ (WTransfer t) _ Hw) as Hf.
      fold (unaccounted (<[i := WTransfer t]> (workers e))) (unaccounted (workers e)) in Hu.
      fold (reportingCount (<[i := WTransfer t]> (workers e)))
        (reportingCount (workers e)) in Hc.
      fold (reportingFailures (<[i := WTransfer t]> (workers e)))
        (reportingFailures (workers e)) in Hf.
      unfold transferring at 2 4 in Ht. simpl in Ht, Hu, Hc, Hf.
      rewrite !app_nil_r in Ht. rewrite !Nat.add_0_r in Hu, Hc, Hf.
      constructor; simpl; rewrite ?Hu, ?Hc, ?Hf; try assumption.
      * eapply phaseInv_worker; eauto; simpl; auto.
      * rewrite Hflow, Ht. solve_Permutation.
      * intros _. assumption.
      * intros H. apply In_insert in H as [H | H]; [discriminate|].
        apply Hdone in H as [H _]. discriminate.
  - (* the transfer *)
    destruct (worker_phase e i (WTransfer t) Hphase Hw) as [Hcol Hprep]; [discriminate|].
    specialize (Hres Hcol). destruct Hres as [Hzero Hreslen].
    destruct (transferFile cfg env sha256 deviceName t (st e)) as [err st'] eqn:Etf.
    injection Hstep as <-.
    pose proof (transferring_insert _ _ (WReport t err) _ Hw) as Ht.
    pose proof (list_sum_insert
                  (fun w => match w with WReport _ _ | WAccount _ _ => 1 | _ => 0 end)
                  _ _ (WReport t err) _ Hw) as Hu.
    pose proof (list_sum_insert (fun w => match w with WReport _ _ => 1 | _ => 0 end)
                  _ _ (WReport t err) _ Hw) as Hc.
    pose proof (list_sum_insert
                  (fun w => match w with WReport _ (Some _) => 1 | _ => 0 end)
                  _ _ (WReport t err) _ Hw) as Hf.
    fold (unaccounted (<[i := WReport t err]> (workers e))) (unaccounted (workers e)) in Hu.
    fold (reportingCount (<[i := WReport t err]> (workers e)))
      (reportingCount (workers e)) in Hc.
    fold (reportingFailures (<[i := WReport t err]> (workers e)))
      (reportingFailures (workers e)) in Hf.
    unfold transferring at 2 4 in Ht. simpl in Ht, Hu, Hc, Hf.
    rewrite !app_nil_r in Ht.
    constructor; simpl; try assumption.
    + eapply phaseInv_worker; eauto; simpl; auto.
    + rewrite Hflow, <- Ht, map_app. simpl. solve_Permutation.
    + rewrite length_app. simpl. lia.
    + rewrite map_app, failures_app. unfold failures at 3. simpl.
      destruct err; simpl; lia.
    + intros _. split; [assumption|]. rewrite length_app. simpl. lia.
    + intros H. apply In_insert in H as [H | H]; [discriminate | auto].
    + apply Forall_app. split; [assumption|]. constructor; [|constructor].
      exists (st e). simpl. now rewrite Etf.
  - (* the report *)
    destruct (worker_phase e i (WReport t err) Hphase Hw) as [Hcol Hprep]; [discriminate|].
    specialize (Hres Hcol). destruct Hres as [Hzero Hreslen].
    destruct (length (results e) <? capacity e)%nat; [|discriminate].
    injection Hstep as <-.
    pose proof (transferring_insert _ _ (WAccount t err) _ Hw) as Ht.
    pose proof (list_sum_insert
                  (fun w => match w with WReport _ _ | WAccount _ _ => 1 | _ => 0 end)
                  _ _ (WAccount t err) _ Hw) as Hu.
    pose proof (list_sum_insert (fun w => match w with WReport _ _ => 1 | _ => 0 end)
                  _ _ (WAccount t err) _ Hw) as Hc.
    pose proof (list_sum_insert
                  (fun w => match w with WReport _ (Some _) => 1 | _ => 0 end)
                  _ _ (WAccount t err) _ Hw) as Hf.
    fold (unaccounted (<[i := WAccount t err]> (workers e))) (unaccounted (workers e)) in Hu.
    fold (reportingCount (<[i := WAccount t err]> (workers e)))
      (reportingCount (workers e)) in Hc.
    fold (reportingFailures (<[i := WAccount t err]> (workers e)))
      (reportingFailures (workers e)) in Hf.
    unfold transferring at 2 4 in Ht. simpl in Ht, Hu, Hc, Hf.
    rewrite !app_nil_r in Ht.
    constructor; simpl; rewrite ?Ht; try assumption.
    + eapply phaseInv_worker; eauto; simpl; auto.
    + lia.
    + rewrite failures_app. unfold failures at 2. simpl.
      destruct err; simpl in *; lia.
    + intros _. split; [assumption|]. rewrite length_app. simpl. lia.
    + intros H. apply In_insert in H as [H | H]; [discriminate | auto].
  - (* the count *)
    destruct (worker_phase e i (WAccount t err) Hphase Hw) as [Hcol Hprep]; [discriminate|].
    specialize (Hres Hcol). destruct Hres as [Hzero Hreslen].
    injection Hstep as <-.
    pose proof (transferring_insert _ _ WReceive _ Hw) as Ht.
    pose proof (list_sum_insert
                  (fun w => match w with WReport _ _ | WAccount _ _ => 1 | _ => 0 end)
                  _ _ WReceive _ Hw) as Hu.
    pose proof (list_sum_insert (fun w => match w with WReport _ _ => 1 | _ => 0 end)
                  _ _ WReceive _ Hw) as Hc.
    pose proof (list_sum_insert
                  (fun w => match w with WReport _ (Some _) => 1 | _ => 0 end)
                  _ _ WReceive _ Hw) as Hf.
    fold (unaccounted (<[i := WReceive]> (workers e))) (unaccounted (workers e)) in Hu.
    fold (reportingCount (<[i := WReceive]> (workers e)))
      (reportingCount (workers e)) in Hc.
    fold (reportingFailures (<[i := WReceive]> (workers e)))
      (reportingFailures (workers e)) in Hf.
    unfold transferring at 2 4 in Ht. simpl in Ht, Hu, Hc, Hf.
    rewrite !app_nil_r in Ht.
    constructor; simpl; rewrite ?Ht; try assumption.
    + eapply phaseInv_worker; eauto; simpl; auto.
    + lia.
    + lia.
    + intros _. split; [assumption | lia].
    + intros H. apply In_insert in H as [H | H]; [discriminate | auto].
  - discriminate.
Qed.

Lemma reachable_Inv (s : State) (files : list string) (e : Engine) :
  reachable cfg p env sha256 deviceName s files e -> Inv e.
Proof.
  induction 1 as [|a e e' _ IH Hstep]; [apply start_Inv|].
  destruct a as [|i]; simpl in Hstep.
  - eapply stepMain_Inv; eassumption.
  - eapply stepWorker_Inv; eassumption.
Qed.

(** *** Every run returns *)

Lemma lookup_list_sum (f : WorkerPC -> nat) (ws : list WorkerPC) (i : nat) (w : WorkerPC) :
  ws !! i = Some w -> f w <= list_sum (map f ws).
Proof.
  revert i; induction ws as [|x ws IH]; intros i H; [discriminate|].
  destruct i as [|i]; simpl in *; [injection H as ->; lia|].
  specialize (IH i H). lia.
Qed.

Lemma not_allDone (ws : list WorkerPC) :
  allDone ws = false -> exists i w, ws !! i = Some w /\ w <> WDone.
Proof.
  induction ws as [|x ws IH]; [discriminate|]. simpl. intros H.
  destruct x; try (exists 0; eexists; split; [reflexivity | discriminate]).
  destruct (IH H) as (i & w & Hw & Hnot). now exists (S i), w.
Qed.

(** The jobs sent so far are the first of the jobs prepared. *)
Lemma enqueued_prefix (e : Engine) :
  Inv e -> exists rest, (enqueued e ++ rest)%list = (priorityFiles e ++ normalFiles e)%list.
Proof.
  intros He. pose proof (inv_phase e He) as Hphase. unfold engine.phaseInv in Hphase.
  destruct (main e).
  - destruct Hphase as (-> & _). now eexists.
  - destruct Hphase as (<- & _). exists (rest ++ normalFiles e)%list.
    now rewrite app_assoc.
  - destruct Hphase as ((sent & -> & <-) & _). exists rest. now rewrite <- app_assoc.
  - destruct Hphase as (-> & _). exists []. apply app_nil_r.
  - destruct Hphase as (-> & _). exists []. apply app_nil_r.
  - destruct Hphase as (-> & _). exists []. apply app_nil_r.
Qed.

Lemma enqueued_bounds (e : Engine) :
  Inv e ->
  length (outcomes e) + length (jobs e) <= length (enqueued e)
  /\ length (enqueued e) <= capacity e.
Proof.
  intros He. split.
  - pose proof (inv_flow e He) as Hflow. apply Permutation_length in Hflow.
    rewrite !length_app, length_map in Hflow. lia.
  - destruct (enqueued_prefix e He) as (rest & Hrest).
    unfold capacity. rewrite (inv_total e He), Nat2Z.id, <- Hrest, length_app. lia.
Qed.

(** A state in which [TransferFiles] has not returned has a goroutine
    that can move. *)
Lemma progress (e : Engine) :
  Inv e -> (forall err, main e <> MReturned err) ->
  exists a e', step cfg p env sha256 deviceName a e = Some e'.
Proof.
  intros He Hrun. pose proof (inv_phase e He) as Hphase.
  destruct (enqueued_bounds e He) as [Hjobs Hcap].
  unfold engine.phaseInv in Hphase.
  destruct (main e) as [files | rest | rest | | | err] eqn:Emain.
  - exists Main. simpl. unfold stepMain. rewrite Emain. destruct files; eauto.
  - exists Main. simpl. unfold stepMain. rewrite Emain.
    destruct rest as [|t rest]; [eauto|].
    destruct Hphase as (Henq & _).
    assert (length (jobs e) < capacity e) as Hlt.
    { destruct (enqueued_prefix e He) as (more & Hmore).
      apply (f_equal length) in Henq. rewrite length_app in Henq. simpl in Henq.
      unfold capacity in *. rewrite (inv_total e He), Nat2Z.id, length_app in *. lia. }
    apply Nat.ltb_lt in Hlt. rewrite Hlt. eauto.
  - exists Main. simpl. unfold stepMain. rewrite Emain.
    destruct rest as [|t rest]; [eauto|].
    destruct Hphase as ((sent & Henq & Hsent) & _).
    assert (length (jobs e) < capacity e) as Hlt.
    { apply (f_equal length) in Henq, Hsent. rewrite length_app in Henq, Hsent.
      simpl in Hsent.
      unfold capacity in *. rewrite (inv_total e He), Nat2Z.id, length_app in *. lia. }
    apply Nat.ltb_lt in Hlt. rewrite Hlt. eauto.
  - destruct (allDone (workers e)) eqn:Eall.
    + exists Main. simpl. unfold stepMain. rewrite Emain, Eall. eauto.
    + destruct (not_allDone _ Eall) as (i & w & Hw & Hnot).
      destruct Hphase as (_ & Hclosed & _).
      exists (Worker i). simpl. unfold stepWorker. rewrite Hw.
      destruct w as [| t | t err | t err |]; [| | | | contradiction].
      * destruct (jobs e); [rewrite Hclosed|]; eauto.
      * destruct (transferFile cfg env sha256 deviceName t (st e)). eauto.
      * assert (length (results e) < capacity e) as Hlt.
        { assert (isCollecting (main e) = false) as Hcol by now rewrite Emain.
          destruct (inv_results e He Hcol) as [_ Hlen].
          pose proof (lookup_list_sum
                        (fun w => match w with WReport _ _ => 1 | _ => 0 end) _ _ _ Hw).
          fold (reportingCount (workers e)) in H. simpl in H. lia. }
        apply Nat.ltb_lt in Hlt. rewrite Hlt. eauto.
      * eauto.
  - exists Main. simpl. unfold stepMain. rewrite Emain. destruct (results e); eauto.
  - now destruct (Hrun err).
Qed.

(** Every step brings the return closer. *)
Lemma step_decreases (a : Actor) (e e' : Engine) :
  step cfg p env sha256 deviceName a e = Some e' ->
  stepsLeft maxWorkers e' < stepsLeft maxWorkers e.
Proof.
  destruct a as [|i]; simpl; intros Hstep.
  - unfold stepMain in Hstep. unfold stepsLeft, mainSteps.
    destruct (main e) as [files | rest | rest | | | err] eqn:Emain.
    + destruct files as [|filePath files]; injection Hstep as <-; simpl.
      * destruct (replicate_idle maxWorkers) as (_ & _ & _ & _ & _ & Hsum).
        fold maxWorkers. rewrite Hsum. lia.
      * destruct (prepareFile_spec filePath e)
          as ((_ & -> & _ & -> & -> & _) & Pfiles).
        destruct Pfiles as [(-> & -> & _) | (t & _ & _ & _ & Hwhere)]; [lia|].
        destruct Hwhere as [(_ & -> & ->) | (_ & -> & ->)]; rewrite length_app; simpl; lia.
    + destruct rest as [|t rest].
      * injection Hstep as <-. simpl. lia.
      * destruct (length (jobs e) <? capacity e)%nat; [|discriminate].
        injection Hstep as <-. simpl. rewrite length_app. simpl. lia.
    + destruct rest as [|t rest].
      * injection Hstep as <-. simpl. lia.
      * destruct (length (jobs e) <? capacity e)%nat; [|discriminate].
        injection Hstep as <-. simpl. rewrite length_app. simpl. lia.
    + destruct (allDone (workers e)); [|discriminate]. injection Hstep as <-. simpl. lia.
    + destruct (results e) as [|err rest] eqn:Eres; injection Hstep as <-; simpl.
      * rewrite Eres. simpl. lia.
      * rewrite Emain. lia.
    + discriminate.
  - unfold stepWorker in Hstep. unfold stepsLeft.
    destruct (workers e !! i) as [w|] eqn:Hw; [|discriminate].
    pose proof (fun w' => list_sum_insert workerSteps _ _ w' _ Hw) as Hsum.
    destruct w as [| t | t err | t err |].
    + destruct (jobs e) as [|t rest] eqn:Ejobs.
      * destruct (jobsClosed e); [|discriminate]. injection Hstep as <-.
        specialize (Hsum WDone).
        change (mainSteps maxWorkers (setWorker i WDone e)) with (mainSteps maxWorkers e).
        generalize dependent (mainSteps maxWorkers e). intros m.
        simpl in *. rewrite ?Ejobs. simpl. lia.
      * injection Hstep as <-. specialize (Hsum (WTransfer t)).
        change (mainSteps maxWorkers (setWorker i (WTransfer t) (with_jobs e rest)))
          with (mainSteps maxWorkers e).
        generalize dependent (mainSteps maxWorkers e). intros m.
        simpl in *. rewrite ?Ejobs. simpl. lia.
    + destruct (transferFile cfg env sha256 deviceName t (st e)) as [err st'].
      injection Hstep as <-. specialize (Hsum (WReport t err)).
      match goal with
      | |- context [mainSteps maxWorkers ?x] =>
          change (mainSteps maxWorkers x) with (mainSteps maxWorkers e)
      end.
      generalize dependent (mainSteps maxWorkers e). intros m. simpl in *. lia.
    + destruct (length (results e) <? capacity e)%nat; [|discriminate].
      injection Hstep as <-. specialize (Hsum (WAccount t err)).
      match goal with
      | |- context [mainSteps maxWorkers ?x] =>
          change (mainSteps maxWorkers x) with (mainSteps maxWorkers e)
      end.
      generalize dependent (mainSteps maxWorkers e). intros m. simpl in *.
      rewrite length_app. simpl. lia.
    + injection Hstep as <-. specialize (Hsum WReceive).
      match goal with
      | |- context [mainSteps maxWorkers ?x] =>
          change (mainSteps maxWorkers x) with (mainSteps maxWorkers e)
      end.
      generalize dependent (mainSteps maxWorkers e). intros m. simpl in *. lia.
    + discriminate.
Qed.

Lemma firstWorker_none (e : Engine) (n i : nat) :
  firstWorker cfg env sha256 deviceName n i e = None ->
  forall j, i <= j < i + n -> stepWorker cfg env sha256 deviceName j e = None.
Proof.
  revert i; induction n as [|n IH]; intros i H j Hj; [lia|]. simpl in H.
  destruct (stepWorker cfg env sha256 deviceName i e) eqn:Ei; [discriminate|].
  destruct (Nat.eq_dec j i) as [-> | Hne]; [exact Ei|]. apply (IH (S i) H). lia.
Qed.

Lemma firstWorker_some (e e' : Engine) (n i : nat) :
  firstWorker cfg env sha256 deviceName n i e = Some e' ->
  exists j, stepWorker cfg env sha256 deviceName j e = Some e'.
Proof.
  revert i; induction n as [|n IH]; intros i H; [discriminate|]. simpl in H.
  destruct (stepWorker cfg env sha256 deviceName i e) eqn:Ei.
  - injection H as ->. now exists i.
  - now apply (IH (S i)).
Qed.

Lemma schedule_some (e e' : Engine) :
  schedule cfg p env sha256 deviceName e = Some e' ->
  exists a, step cfg p env sha256 deviceName a e = Some e'.
Proof.
  unfold schedule. destruct (firstWorker _ _ _ _ _ _ _) eqn:Ef.
  - intros H. injection H as ->. apply firstWorker_some in Ef as [j Hj].
    now exists (Worker j).
  - intros H. now exists Main.
Qed.

Lemma schedule_none (e : Engine) :
  schedule cfg p env sha256 deviceName e = None ->
  forall a, step cfg p env sha256 deviceName a e = None.
Proof.
  unfold schedule. destruct (firstWorker _ _ _ _ _ _ _) eqn:Ef; [discriminate|].
  intros Hmain [|j]; simpl; [exact Hmain|].
  destruct (Nat.lt_ge_cases j (length (workers e))) as [Hlt | Hge].
  - apply (firstWorker_none e _ 0 Ef). lia.
  - unfold stepWorker. now rewrite (lookup_ge_None_2 _ _ Hge).
Qed.

(** Under the scheduler the run returns within the steps that are left. *)
Lemma run_returns (s : State) (files : list string) :
  forall fuel e,
    reachable cfg p env sha256 deviceName s files e ->
    stepsLeft maxWorkers e <= fuel ->
    reachable cfg p env sha256 deviceName s files
      (run cfg p env sha256 deviceName fuel e)
    /\ main (run cfg p env sha256 deviceName fuel e) = MReturned None.
Proof.
  induction fuel as [|fuel IH]; intros e Hreach Hfuel; simpl.
  - split; [exact Hreach|].
    pose proof (inv_phase e (reachable_Inv _ _ _ Hreach)) as Hphase.
    unfold stepsLeft, mainSteps, engine.phaseInv in *.
    destruct (main e); try lia.
    destruct Hphase as (_ & _ & _ & _ & _ & ->). reflexivity.
  - destruct (schedule cfg p env sha256 deviceName e) as [e'|] eqn:Es.
    + destruct (schedule_some _ _ Es) as [a Ha].
      apply IH; [eapply reachable_step; eassumption|].
      pose proof (step_decreases _ _ _ Ha). lia.
    + split; [exact Hreach|].
      pose proof (reachable_Inv _ _ _ Hreach) as He.
      pose proof (inv_phase e He) as Hphase. unfold engine.phaseInv in Hphase.
      destruct (main e) as [files' | rest | rest | | | err] eqn:Emain;
        try (destruct (progress e He) as (a & e' & Ha);
             [intros err; rewrite Emain; discriminate
             | rewrite (schedule_none _ Es a) in Ha; discriminate]).
      destruct Hphase as (_ & _ & _ & _ & _ & ->). reflexivity.
Qed.

(** [TransferFiles] returns, with the nil error. *)
Lemma TransferFiles_returns (s : State) (files : list string) :
  reachable cfg p env sha256 deviceName s files
    (TransferFiles cfg p env sha256 deviceName s files)
  /\ main (TransferFiles cfg p env sha256 deviceName s files) = MReturned None.
Proof.
  apply run_returns; [constructor|].
  unfold stepsLeft, mainSteps, bound, start. simpl. fold maxWorkers. lia.
Qed.

(** *** The order of the queue *)

Lemma priority_then_normal (l1 l2 : list FileTransfer) (i j : nat) (t1 t2 : FileTransfer) :
  Forall (fun t => Priority t = true) l1 -> Forall (fun t => Priority t = false) l2 ->
  (l1 ++ l2)%list !! i = Some t1 -> (l1 ++ l2)%list !! j = Some t2 ->
  Priority t1 = true -> Priority t2 = false -> i < j.
Proof.
  intros H1 H2 Hi Hj Ht1 Ht2.
  destruct (Nat.lt_ge_cases i (length l1)) as [Hil | Hil].
  - destruct (Nat.lt_ge_cases j (length l1)) as [Hjl | Hjl]; [|lia].
    rewrite lookup_app_l in Hj by assumption.
    apply list_elem_of_lookup_2 in Hj. rewrite Forall_forall in H1.
    rewrite (H1 _ Hj) in Ht2. discriminate.
  - rewrite lookup_app_r in Hi by assumption.
    apply list_elem_of_lookup_2 in Hi. rewrite Forall_forall in H2.
    rewrite (H2 _ Hi) in Ht1. discriminate.
Qed.

(** *** The statistics *)

(** Once the files are prepared, no step changes [TotalFiles]. *)
Lemma step_TotalFiles (a : Actor) (e e' : Engine) :
  isPreparing (main e) = false ->
  step cfg p env sha256 deviceName a e = Some e' ->
  TotalFiles (stats e') = TotalFiles (stats e) /\ isPreparing (main e') = false.
Proof.
  intros Hprep Hstep. destruct a as [|i]; simpl in Hstep.
  - unfold stepMain in Hstep.
    destruct (main e) as [files | rest | rest | | | err] eqn:Emain; try discriminate.
    + destruct rest; [|destruct (_ <? _)%nat; [|discriminate]];
        injection Hstep as <-; now split.
    + destruct rest; [|destruct (_ <? _)%nat; [|discriminate]];
        injection Hstep as <-; now split.
    + destruct (allDone _); [|discriminate]. injection Hstep as <-. now split.
    + destruct (results e) as [|err rest]; injection Hstep as <-; simpl.
      * now split.
      * rewrite Emain. split; [|reflexivity]. now destruct (isNil err).
  - unfold stepWorker in Hstep.
    destruct (workers e !! i) as [[| t | t err | t err |]|]; try discriminate.
    + destruct (jobs e); [destruct (jobsClosed e); [|discriminate]|];
        injection Hstep as <-; now split.
    + destruct (transferFile _ _ _ _ _ _). injection Hstep as <-. now split.
    + destruct (_ <? _)%nat; [|discriminate]. injection Hstep as <-. now split.
    + injection Hstep as <-. now split.
Qed.

Lemma runs_TotalFiles (e e' : Engine) :
  runs e e' -> isPreparing (main e) = false ->
  TotalFiles (stats e') = TotalFiles (stats e).
Proof.
  induction 1 as [|a e e1 e2 Hstep _ IH]; intros Hprep; [reflexivity|].
  destruct (step_TotalFiles _ _ _ Hprep Hstep) as [Htot Hprep1].
  now rewrite IH.
Qed.

(** What the invariant gives when the run has returned with at least one
    worker: every job prepared was transferred and counted. *)
Lemma returned_all_processed (e : Engine) (err : option error) :
  (1 <= config.MaxWorkers (config.Transfer cfg))%Z ->
  Inv e -> main e = MReturned err ->
  map fst (outcomes e) ≡ₚ (priorityFiles e ++ normalFiles e)%list
  /\ ProcessedFiles (stats e) = Z.of_nat (length (outcomes e))
  /\ FailedFiles (stats e) = Z.of_nat (failures (map snd (outcomes e))).
Proof.
  intros Hworkers He Hmain.
  pose proof (inv_phase e He) as Hphase. unfold engine.phaseInv in Hphase. rewrite Hmain in Hphase.
  destruct Hphase as (Henq & Hclosed & Hlen & Hall & Hres & _).
  destruct (allDone_idle _ Hall) as (Ht & Hu & Hc & Hf).
  assert (In WDone (workers e)) as Hin.
  { destruct (workers e) as [|w ws] eqn:Ews.
    - unfold engine.maxWorkers in Hlen. simpl in Hlen. lia.
    - rewrite (allDone_In (w :: ws) w Hall) by now left. now left. }
  destruct (inv_done e He Hin) as [Hjobs _].
  pose proof (inv_flow e He) as Hflow. rewrite Ht, Hjobs, !app_nil_r, Henq in Hflow.
  pose proof (inv_accounted e He) as Hacc. rewrite Hu in Hacc.
  pose proof (inv_failures e He) as Hfail. rewrite Hres, Hf in Hfail.
  unfold failures at 1 in Hfail. simpl in Hfail.
  repeat split; [now symmetry | lia | lia].
Qed.

(** C6, amended: in a run with at least one worker, which the
    validation of the configuration ensures, [ProcessedFiles] never
    exceeds [TotalFiles]; [TotalFiles] is not changed by any step after
    the files are prepared, so that it is at the return what it was when
    the dispatch began; and when [TransferFiles] has returned,
    [ProcessedFiles] equals [TotalFiles] and [FailedFiles] is at most
    [ProcessedFiles].  [TransferFiles] does return. *)
Theorem statistics_invariant (s : State) (files : list string) (e : Engine) :
  (1 <= config.MaxWorkers (config.Transfer cfg))%Z ->
  reachable cfg p env sha256 deviceName s files e ->
  (ProcessedFiles (stats e) <= TotalFiles (stats e))%Z
  /\ (forall e', isPreparing (main e) = false -> runs e e' ->
        TotalFiles (stats e') = TotalFiles (stats e))
  /\ (forall err, main e = MReturned err ->
        ProcessedFiles (stats e) = TotalFiles (stats e)
        /\ (FailedFiles (stats e) <= ProcessedFiles (stats e))%Z)
  /\ (reachable cfg p env sha256 deviceName s files
        (TransferFiles cfg p env sha256 deviceName s files)
      /\ main (TransferFiles cfg p env sha256 deviceName s files) = MReturned None).
Proof.
  intros Hworkers Hreach. pose proof (reachable_Inv _ _ _ Hreach) as He.
  split; [|split; [|split]].
  - destruct (enqueued_bounds e He) as [Hjobs Hcap].
    pose proof (inv_accounted e He) as Hacc. pose proof (inv_total e He) as Htot.
    unfold capacity in Hcap. rewrite Htot in *. rewrite Nat2Z.id in Hcap. lia.
  - intros e' Hprep Hruns. now apply runs_TotalFiles.
  - intros err Hmain.
    destruct (returned_all_processed e err Hworkers He Hmain) as (Hperm & Hproc & Hfail).
    apply Permutation_length in Hperm. rewrite length_map in Hperm.
    pose proof (failures_le (map snd (outcomes e))) as Hle. rewrite length_map in Hle.
    rewrite (inv_total e He). split; lia.
  - apply TransferFiles_returns.
Qed.

(** *** Failures *)

(** A file that cannot be examined, or for which no destination is
    found, is logged and skipped: no job is made of it and no counter
    changes. *)
Lemma prepareFile_skips (filePath : string) (e : Engine) :
  (forall er, snd (fst (os.Stat env filePath (st e))) = Some er ->
     prepareFile cfg p env deviceName filePath e
     = with_st e (snd (logger.DeviceError deviceName (FailedToStat filePath er)
                         (snd (os.Stat env filePath (st e))))))
  /\ (forall size er destPath,
        fst (os.Stat env filePath (st e)) = (Some (false, size), None) ->
        parser.GetUniqueDestinationPath (world (snd (os.Stat env filePath (st e)))) p
          (parser.Parse p filePath) = (destPath, Some er) ->
        prepareFile cfg p env deviceName filePath e
        = with_st e (snd (logger.DeviceError deviceName (FailedToGetDestination filePath er)
                            (snd (os.Stat env filePath (st e)))))).
Proof.
  unfold prepareFile. destruct (os.Stat env filePath (st e)) as [[fileInfo err] st1].
  simpl. split.
  - intros er ->. reflexivity.
  - intros size er destPath H Hdest. injection H as -> ->. now rewrite Hdest.
Qed.

(** When the run has returned, the failures counted are the transfers
    that failed. *)
Lemma returned_failures (e : Engine) (err : option error) :
  Inv e -> main e = MReturned err ->
  err = None /\ FailedFiles (stats e) = Z.of_nat (failures (map snd (outcomes e))).
Proof.
  intros He Hmain.
  pose proof (inv_phase e He) as Hphase. unfold engine.phaseInv in Hphase. rewrite Hmain in Hphase.
  destruct Hphase as (_ & _ & _ & Hall & Hres & ->).
  destruct (allDone_idle _ Hall) as (_ & _ & _ & Hf).
  pose proof (inv_failures e He) as Hfail. rewrite Hres, Hf in Hfail.
  unfold failures at 1 in Hfail. simpl in Hfail. split; [reflexivity | lia].
Qed.

End Run.

(** The error [ProcessDevice] returns is the error of the scan. *)
Lemma ProcessDevice_error (cfg : config.Config) (p : parser.Parser) (env : Env)
    (sha256 : string -> string) (active : gmap string device.Device)
    (d : device.Device) (s : State) :
  fst (fst (fst (device.ProcessDevice cfg p env sha256 active d s)))
  = snd (fst (device.scanFiles env (device.MountPath d) s)).
Proof.
  unfold device.ProcessDevice.
  destruct (device.scanFiles env (device.MountPath d) s) as [[files err] s1]. simpl.
  destruct err as [er|]; [reflexivity|].
  destruct (length files =? 0)%nat; [reflexivity|].
  destruct (TransferFiles_returns cfg p env sha256 (device.Name d) s1 files) as [_ Hmain].
  rewrite Hmain. reflexivity.
Qed.

(** C2, amended: a transfer that fails (directory, open, create, copy,
    verification or checksum mismatch) is counted: when [TransferFiles]
    has returned, under every schedule, [FailedFiles] is the number of
    transfers that returned an error, every recorded result is the result
    of [transferFile] on its job, and with at least one worker every job
    prepared has exactly one result.  A file that fails before a job is
    made of it (its stat fails, or no destination is found because the
    versions are exhausted) is logged and skipped: it enters no counter,
    [FailedFiles] included.  No failure of a file is propagated:
    [TransferFiles] returns nil, and the error of [ProcessDevice] is the
    error of the scan of the device. *)
Theorem failures_counted_not_propagated (cfg : config.Config) (p : parser.Parser)
    (env : Env) (sha256 : string -> string) (deviceName : string) :
  (forall s files e err,
      reachable cfg p env sha256 deviceName s files e -> main e = MReturned err ->
      err = None
      /\ FailedFiles (stats e) = Z.of_nat (failures (map snd (outcomes e)))
      /\ Forall (fun o => exists s',
                    fst (transferFile cfg env sha256 deviceName (fst o) s') = snd o)
           (outcomes e)
      /\ ((1 <= config.MaxWorkers (config.Transfer cfg))%Z ->
          map fst (outcomes e) ≡ₚ (priorityFiles e ++ normalFiles e)%list))
  /\ (forall filePath e er,
        snd (fst (os.Stat env filePath (st e))) = Some er ->
        stats (prepareFile cfg p env deviceName filePath e) = stats e
        /\ priorityFiles (prepareFile cfg p env deviceName filePath e) = priorityFiles e
        /\ normalFiles (prepareFile cfg p env deviceName filePath e) = normalFiles e)
  /\ (forall filePath e size er destPath,
        fst (os.Stat env filePath (st e)) = (Some (false, size), None) ->
        parser.GetUniqueDestinationPath (world (snd (os.Stat env filePath (st e)))) p
          (parser.Parse p filePath) = (destPath, Some er) ->
        stats (prepareFile cfg p env deviceName filePath e) = stats e
        /\ priorityFiles (prepareFile cfg p env deviceName filePath e) = priorityFiles e
        /\ normalFiles (prepareFile cfg p env deviceName filePath e) = normalFiles e)
  /\ (forall active d s,
        fst (fst (fst (device.ProcessDevice cfg p env sha256 active d s)))
        = snd (fst (device.scanFiles env (device.MountPath d) s))).
Proof.
  split; [|split; [|split]].
  - intros s files e err Hreach Hmain.
    pose proof (reachable_Inv _ _ _ _ _ _ _ _ Hreach) as He.
    destruct (returned_failures _ _ _ _ e err He Hmain) as [Herr Hfail].
    split; [exact Herr|]. split; [exact Hfail|]. split; [apply (inv_outcomes e He)|].
    intros Hworkers.
    now destruct (returned_all_processed _ _ _ _ e err Hworkers He Hmain) as (Hperm & _).
  - intros filePath e er Hstat.
    destruct (prepareFile_skips cfg p env deviceName filePath e) as [Hskip _].
    rewrite (Hskip er Hstat). now repeat split.
  - intros filePath e size er destPath Hstat Hdest.
    destruct (prepareFile_skips cfg p env deviceName filePath e) as [_ Hskip].
    rewrite (Hskip size er destPath Hstat Hdest). now repeat split.
  - intros active d s. apply ProcessDevice_error.
Qed.

End engine_facts.

(** * Runs of the engine on the test card *)

Module scenarios_facts.

Import transfer engine engine_facts scenarios.

Example mixed_run_order :
  map SourcePath
    (enqueued (TransferFiles testConfig testParser soundEnv plainDigest "sdb1"
                 mixedState mixedFiles))
  = ["/media/card/Priority_C_BCam_2.mp4"; "/media/card/A_B_ACam_1.mp4"].
Proof. vm_compute. reflexivity. Qed.

(** C6, as stated, fails: with no worker, [TransferFiles] returns while
    the job it prepared was never processed. *)
Lemma no_worker_nothing_processed :
  main (TransferFiles zeroWorkers testParser soundEnv plainDigest "sdb1" cardState
          ["/media/card/random_video.mp4"]) = MReturned None
  /\ TotalFiles (stats (TransferFiles zeroWorkers testParser soundEnv plainDigest "sdb1"
                          cardState ["/media/card/random_video.mp4"])) = 1%Z
  /\ ProcessedFiles (stats (TransferFiles zeroWorkers testParser soundEnv plainDigest "sdb1"
                              cardState ["/media/card/random_video.mp4"])) = 0%Z.
Proof. vm_compute. repeat split; reflexivity. Qed.

Lemma statistics_invariant_witness :
  (1 <= config.MaxWorkers (config.Transfer testConfig))%Z
  /\ reachable testConfig testParser soundEnv plainDigest "sdb1" mixedState mixedFiles
       (TransferFiles testConfig testParser soundEnv plainDigest "sdb1" mixedState mixedFiles)
  /\ ProcessedFiles (stats (TransferFiles testConfig testParser soundEnv plainDigest "sdb1"
                              mixedState mixedFiles))
     = TotalFiles (stats (TransferFiles testConfig testParser soundEnv plainDigest "sdb1"
                            mixedState mixedFiles))
  /\ (FailedFiles (stats (TransferFiles testConfig testParser soundEnv plainDigest "sdb1"
                             mixedState mixedFiles))
      <= ProcessedFiles (stats (TransferFiles testConfig testParser soundEnv plainDigest
                                  "sdb1" mixedState mixedFiles)))%Z.
Proof.
  pose proof (TransferFiles_returns testConfig testParser soundEnv plainDigest "sdb1"
                mixedState mixedFiles) as [Hreach Hmain].
  assert (1 <= config.MaxWorkers (config.Transfer testConfig))%Z as Hworkers
      by (simpl; lia).
  split; [exact Hworkers|]. split; [exact Hreach|].
  exact (proj1 (proj2 (proj2 (statistics_invariant testConfig testParser soundEnv
                                plainDigest "sdb1" mixedState mixedFiles _
                                Hworkers Hreach))) None Hmain).
Defined.

(** C2, as stated, fails: the file [a[.mp4] exhausts the versions (every
    candidate is a malformed pattern), the failure is logged, the run
    returns nil, and no counter has moved, [FailedFiles] included. *)
Lemma versioning_exhaustion_not_counted :
  parser.GetUniqueDestinationPath (world bracketState) testParser
    (parser.Parse testParser "/media/card/a[.mp4")
  = ("", Some (ErrTooManyVersions "/mnt/storage/Unsorted/a[.mp4"))
  /\ main (TransferFiles testConfig testParser soundEnv plainDigest "sdb1" bracketState
             ["/media/card/a[.mp4"]) = MReturned None
  /\ stats (TransferFiles testConfig testParser soundEnv plainDigest "sdb1" bracketState
              ["/media/card/a[.mp4"]) = newStats
  /\ log (st (TransferFiles testConfig testParser soundEnv plainDigest "sdb1" bracketState
                ["/media/card/a[.mp4"]))
     = [{| level := LevelError; device := "sdb1";
           event := FailedToGetDestination "/media/card/a[.mp4"
                      (ErrTooManyVersions "/mnt/storage/Unsorted/a[.mp4") |};
        {| level := LevelInfo; device := "sdb1"; event := FoundFiles 0 0 0 |}].
Proof. vm_compute. repeat split; reflexivity. Qed.

Lemma failures_counted_not_propagated_witness :
  (main (TransferFiles testConfig testParser failingCopies plainDigest "sdb1" mixedState
           mixedFiles) = MReturned None
   /\ FailedFiles (stats (TransferFiles testConfig testParser failingCopies plainDigest
                            "sdb1" mixedState mixedFiles))
      = Z.of_nat (failures (map snd (outcomes (TransferFiles testConfig testParser
                                                 failingCopies plainDigest "sdb1"
                                                 mixedState mixedFiles)))))
  /\ stats (prepareFile testConfig testParser soundEnv "sdb1" "/media/card/gone.mp4"
              (start cardState ["/media/card/gone.mp4"])) = newStats
  /\ stats (prepareFile testConfig testParser soundEnv "sdb1" "/media/card/a[.mp4"
              (start bracketState ["/media/card/a[.mp4"])) = newStats.
Proof.
  destruct (failures_counted_not_propagated testConfig testParser failingCopies plainDigest
              "sdb1") as (Hrun & _).
  destruct (failures_counted_not_propagated testConfig testParser soundEnv plainDigest
              "sdb1") as (_ & Hstat & Hdest & _).
  pose proof (TransferFiles_returns testConfig testParser failingCopies plainDigest "sdb1"
                mixedState mixedFiles) as [Hreach Hmain].
  split; [|split].
  - destruct (Hrun _ _ _ None Hreach Hmain) as (_ & Hfail & _).
    split; [exact Hmain | exact Hfail].
  - refine (proj1 (Hstat "/media/card/gone.mp4" (start cardState ["/media/card/gone.mp4"])
                     (ErrIO (OpStat "/media/card/gone.mp4")) _)).
    vm_compute. reflexivity.
  - refine (proj1 (Hdest "/media/card/a[.mp4" (start bracketState ["/media/card/a[.mp4"])
                     4%Z (ErrTooManyVersions "/mnt/storage/Unsorted/a[.mp4") "" _ _));
      vm_compute; reflexivity.
Defined.

Example failing_copies_run :
  stats (TransferFiles testConfig testParser failingCopies plainDigest "sdb1" mixedState
           mixedFiles)
  = {| TotalFiles := 2; ProcessedFiles := 2; TotalBytes := 11; TransferredBytes := 0;
       FailedFiles := 2; SkippedFiles := 0 |}.
Proof. vm_compute. reflexivity. Qed.

End scenarios_facts.

(** * Every schedule of the transfer engine *)

Module executions_facts.

Import transfer engine engine_facts executions.

Section Run.

Variable cfg : config.Config.
Variable p : parser.Parser.
Variable env : Env.
Variable sha256 : string -> string.
Variable deviceName : string.

Local Abbreviation Inv := (engine.Inv cfg env sha256 deviceName).
Local Abbreviation runsIn := (executions.runsIn cfg p env sha256 deviceName).
Local Abbreviation stuck := (executions.stuck cfg p env sha256 deviceName).
Local Abbreviation step := (transfer.step cfg p env sha256 deviceName).
Local Abbreviation reachable := (transfer.reachable cfg p env sha256 deviceName).

Lemma runsIn_reachable (s : State) (files : list string) (n : nat) (e e' : Engine) :
  runsIn n e e' -> reachable s files e -> reachable s files e'.
Proof.
  induction 1 as [e|n a e e1 e2 Hstep _ IH]; intros Hr; [exact Hr|].
  apply IH. eapply reachable_step; eassumption.
Qed.

Lemma runsIn_stepsLeft (n : nat) (e e' : Engine) :
  runsIn n e e' ->
  n + stepsLeft (engine.maxWorkers cfg) e' <= stepsLeft (engine.maxWorkers cfg) e.
Proof.
  induction 1 as [e|n a e e1 e2 Hstep _ IH]; [lia|].
  apply step_decreases in Hstep. lia.
Qed.

Lemma returned_stuck (e : Engine) :
  Inv e -> returned e -> stuck e.
Proof.
  intros HI [err Hm] [|i]; simpl.
  - unfold stepMain. now rewrite Hm.
  - pose proof (inv_phase e HI) as Hp. unfold engine.phaseInv in Hp. rewrite Hm in Hp.
    destruct Hp as (_ & _ & _ & Hall & _).
    unfold stepWorker. destruct (workers e !! i) as [w|] eqn:Hw; [|reflexivity].
    apply lookup_In in Hw. apply (allDone_In _ _ Hall) in Hw. now subst w.
Qed.

(** In every state a run can reach, some goroutine can move unless
    [TransferFiles] has returned, and once it has returned none can: the
    main goroutine and the workers never wait for each other forever, and
    no worker is left running behind the return. *)
Theorem stuck_iff_returned (s : State) (files : list string) (e : Engine) :
  reachable s files e -> (stuck e <-> returned e).
Proof.
  intros Hr. pose proof (reachable_Inv cfg p env sha256 deviceName s files e Hr) as HI.
  split.
  - intros Hstuck. destruct (main e) as [l|l|l| | |err] eqn:Hm; try (now exists err);
      exfalso;
      (destruct (progress cfg p env sha256 deviceName e HI) as (a & e' & Hstep);
       [intros err; rewrite Hm; discriminate | rewrite (Hstuck a) in Hstep; discriminate]).
  - now apply returned_stuck.
Qed.

(** Whatever the scheduler does, an execution of [TransferFiles] on [n]
    files with [w] workers has at most [7 n + w + 5] steps, and when it
    cannot go on it has returned, with a nil error. *)
Theorem every_schedule_returns (s : State) (files : list string) (n : nat) (e : Engine) :
  runsIn n (start s files) e ->
  n <= 7 * length files + Z.to_nat (config.MaxWorkers (config.Transfer cfg)) + 5
  /\ (stuck e -> main e = MReturned None).
Proof.
  intros Hrun. split.
  - apply runsIn_stepsLeft in Hrun. revert Hrun.
    unfold stepsLeft, mainSteps, engine.maxWorkers. simpl. lia.
  - intros Hstuck.
    assert (reachable s files e) as Hr.
    { eapply runsIn_reachable; [exact Hrun | apply reachable_start]. }
    pose proof (reachable_Inv cfg p env sha256 deviceName s files e Hr) as HI.
    destruct (main e) as [l|l|l| | |err] eqn:Hm;
      try (exfalso;
           destruct (progress cfg p env sha256 deviceName e HI) as (a & e' & Hstep);
           [intros err; rewrite Hm; discriminate
           | rewrite (Hstuck a) in Hstep; discriminate]).
    destruct (returned_failures cfg env sha256 deviceName e err HI Hm) as [-> _].
    reflexivity.
Qed.

(** *** The byte counters *)

Lemma wrap64_small (z : Z) : (- 2 ^ 63 <= z < 2 ^ 63)%Z -> wrap64 z = z.
Proof. unfold wrap64. intros H. rewrite Z.mod_small; lia. Qed.

Lemma wrap64_range (z : Z) : (- 2 ^ 63 <= wrap64 z < 2 ^ 63)%Z.
Proof.
  unfold wrap64. pose proof (Z.mod_pos_bound (z + 2 ^ 63) (2 ^ 64)). lia.
Qed.

Lemma wrap64_add_l (a b : Z) : wrap64 (wrap64 a + b) = wrap64 (a + b).
Proof.
  unfold wrap64.
  replace ((a + 2 ^ 63) mod 2 ^ 64 - 2 ^ 63 + b + 2 ^ 63)%Z
    with ((a + 2 ^ 63) mod 2 ^ 64 + b)%Z by lia.
  rewrite Zplus_mod_idemp_l. do 2 f_equal. lia.
Qed.

Lemma bytes_app (l1 l2 : list FileTransfer) :
  bytes (l1 ++ l2) = (bytes l1 + bytes l2)%Z.
Proof.
  unfold bytes. induction l1 as [|t l1 IH]; simpl; [reflexivity | rewrite IH; lia].
Qed.

Lemma bytes_nonneg (l : list FileTransfer) :
  Forall (fun t => (0 <= Size t)%Z) l -> (0 <= bytes l)%Z.
Proof.
  unfold bytes. induction 1 as [|t l Ht _ IH]; simpl; lia.
Qed.

Lemma bytes_Permutation (l1 l2 : list FileTransfer) :
  l1 ≡ₚ l2 -> bytes l1 = bytes l2.
Proof.
  unfold bytes. induction 1; simpl; lia.
Qed.

Lemma pendingBytes_insert (ws : list WorkerPC) (i : nat) (w w0 : WorkerPC) :
  ws !! i = Some w0 ->
  (pendingBytes (<[i := w]> ws) + pendingOf w0 = pendingBytes ws + pendingOf w)%Z.
Proof.
  unfold pendingBytes. revert i. induction ws as [|x ws IH]; intros [|i] H; simpl in *;
    try discriminate.
  - injection H as ->. lia.
  - specialize (IH i H). lia.
Qed.

Lemma pendingBytes_nonneg (ws : list WorkerPC) :
  Forall heldSized ws -> (0 <= pendingBytes ws)%Z.
Proof.
  unfold pendingBytes. induction 1 as [|w ws Hw _ IH]; simpl; [lia|].
  destruct w as [| t | t [er|] | t [er|] |]; simpl in *; lia.
Qed.

Lemma pendingBytes_replicate (n : nat) : pendingBytes (replicate n WReceive) = 0%Z.
Proof. unfold pendingBytes. induction n as [|n IH]; simpl; [reflexivity | exact IH]. Qed.

Lemma pendingBytes_allDone (ws : list WorkerPC) :
  allDone ws = true -> pendingBytes ws = 0%Z.
Proof.
  unfold pendingBytes, allDone. induction ws as [|w ws IH]; simpl; [reflexivity|].
  destruct w; try discriminate. simpl. exact IH.
Qed.

Lemma succeeded_app (o1 o2 : list (FileTransfer * option error)) :
  succeeded (o1 ++ o2) = (succeeded o1 ++ succeeded o2)%list.
Proof. unfold succeeded. now rewrite List.filter_app, map_app. Qed.

Lemma bytes_succeeded_le (o : list (FileTransfer * option error)) :
  Forall (fun t => (0 <= Size t)%Z) (map fst o) ->
  (0 <= bytes (succeeded o) <= bytes (map fst o))%Z.
Proof.
  unfold succeeded, bytes. induction o as [|[t err] o IH]; simpl; intros H; [lia|].
  apply Forall_cons in H as [Ht H]. specialize (IH H).
  destruct (isNil err); simpl in *; lia.
Qed.

Lemma Stat_size (path : string) (s : State) (isDir : bool) (size : Z)
    (err : option error) :
  fst (os.Stat env path s) = (Some (isDir, size), err) -> (0 <= size)%Z.
Proof.
  unfold os.Stat, bind, os.getWorld, ret. simpl.
  destruct (fault env (OpStat path)); simpl; [discriminate|].
  destruct (world s !! path) as [[content|]|]; simpl; intros H; try discriminate;
    injection H as _ <- _; lia.
Qed.

(** What the preparation of one file does to the lists of jobs and to the
    byte counters. *)
Lemma prepareFile_bytes (filePath : string) (e : Engine) :
  let e' := prepareFile cfg p env deviceName filePath e in
  TransferredBytes (stats e') = TransferredBytes (stats e)
  /\ ((priorityFiles e' = priorityFiles e /\ normalFiles e' = normalFiles e
       /\ stats e' = stats e)
      \/ exists t,
           SourcePath t = filePath /\ (0 <= Size t)%Z
           /\ TotalBytes (stats e') = wrap64 (TotalBytes (stats e) + Size t)
           /\ ((priorityFiles e' = (priorityFiles e ++ [t])%list
                /\ normalFiles e' = normalFiles e)
               \/ (normalFiles e' = (normalFiles e ++ [t])%list
                   /\ priorityFiles e' = priorityFiles e))).
Proof.
  unfold prepareFile.
  destruct (os.Stat env filePath (st e)) as [[fileInfo err] st1] eqn:Estat.
  destruct err as [er|]; [simpl; split; [reflexivity | left; repeat split]|].
  destruct fileInfo as [[isDir size]|]; [|simpl; split; [reflexivity | left; repeat split]].
  assert (0 <= size)%Z as Hsize.
  { apply (Stat_size filePath (st e) isDir size None). now rewrite Estat. }
  destruct isDir; [simpl; split; [reflexivity | left; repeat split]|].
  destruct (parser.GetUniqueDestinationPath (world st1) p (parser.Parse p filePath))
    as [destPath err].
  destruct err as [er|]; [simpl; split; [reflexivity | left; repeat split]|].
  cbn [Priority].
  destruct (isPriorityFile cfg (filepath.Base filePath)) eqn:Eprio; simpl.
  - split; [reflexivity|]. right.
    exists {| SourcePath := filePath; DestinationPath := destPath;
              FileInfo := parser.Parse p filePath; Size := size;
              Priority := true; Checksum := "" |}. simpl.
    split; [reflexivity|]. split; [assumption|]. split; [reflexivity|].
    left. split; reflexivity.
  - split; [reflexivity|]. right.
    exists {| SourcePath := filePath; DestinationPath := destPath;
              FileInfo := parser.Parse p filePath; Size := size;
              Priority := false; Checksum := "" |}. simpl.
    split; [reflexivity|]. split; [assumption|]. split; [reflexivity|].
    right. split; reflexivity.
Qed.

Local Abbreviation BytesInv := (executions.BytesInv).

Lemma start_BytesInv (s : State) (files : list string) : BytesInv (start s files).
Proof.
  constructor; simpl; try constructor.
  exists 0%Z. repeat split; try reflexivity; lia.
Qed.

Lemma stepMain_BytesInv (e e' : Engine) :
  Inv e -> BytesInv e -> stepMain cfg p env deviceName e = Some e' -> BytesInv e'.
Proof.
  intros HI [Hfiles Hjobs Hworkers Htotal Htrans] Hstep.
  pose proof (inv_phase e HI) as Hphase.
  unfold stepMain in Hstep. unfold engine.phaseInv in Hphase.
  destruct (main e) as [files | rest | rest | | | err] eqn:Emain.
  - destruct Hphase as (Henq & Hclosed & Hws).
    destruct files as [|filePath files]; injection Hstep as <-.
    + constructor; simpl; try assumption.
      * apply Forall_replicate. exact I.
      * rewrite pendingBytes_replicate. rewrite Hws in Htrans. exact Htrans.
    + destruct (prepareFile_spec cfg p env deviceName filePath e)
        as ((Pmain & Pjobs & Pclosed & Presults & Pworkers & Penq & Pout & Pproc & Pfailed)
            & _).
      destruct (prepareFile_bytes filePath e) as (Ptrans & Pfiles).
      set (e1 := prepareFile cfg p env deviceName filePath e) in *.
      constructor; simpl; rewrite ?Pjobs, ?Pworkers, ?Pout, ?Ptrans; try assumption.
      * destruct Pfiles as [(-> & -> & _) | (t & _ & Hsize & _ & [(-> & ->) | (-> & ->)])];
          [assumption | |].
        -- apply Forall_app in Hfiles as [H1 H2].
           repeat (apply Forall_app; split); auto.
        -- apply Forall_app in Hfiles as [H1 H2].
           repeat (apply Forall_app; split); auto.
      * destruct Pfiles as [(-> & -> & ->) | (t & _ & Hsize & -> & [(-> & ->) | (-> & ->)])];
          [assumption | |]; rewrite Htotal, wrap64_add_l; f_equal;
          rewrite !bytes_app; unfold bytes; simpl; lia.
  - destruct Hphase as (Henq & Hclosed & Hws).
    destruct rest as [|t rest].
    + injection Hstep as <-. constructor; simpl; assumption.
    + destruct (length (jobs e) <? capacity e)%nat; [|discriminate].
      injection Hstep as <-. constructor; simpl; try assumption.
      apply Forall_app. split; [assumption|]. constructor; [|constructor].
      rewrite <- Henq in Hfiles. rewrite !Forall_app in Hfiles.
      destruct Hfiles as [[_ H] _]. now apply Forall_cons in H as [H _].
  - destruct Hphase as ((sent & Henq & Hsent) & Hclosed & Hws).
    destruct rest as [|t rest].
    + injection Hstep as <-. constructor; simpl; assumption.
    + destruct (length (jobs e) <? capacity e)%nat; [|discriminate].
      injection Hstep as <-. constructor; simpl; try assumption.
      apply Forall_app. split; [assumption|]. constructor; [|constructor].
      rewrite <- Hsent in Hfiles. rewrite !Forall_app in Hfiles.
      destruct Hfiles as [_ [_ H]]. now apply Forall_cons in H as [H _].
  - destruct (allDone (workers e)); [|discriminate].
    injection Hstep as <-. constructor; simpl; assumption.
  - destruct (results e) as [|err rest] eqn:Eres; injection Hstep as <-.
    + constructor; simpl; assumption.
    + constructor; simpl; try assumption; destruct (isNil err); simpl; assumption.
  - discriminate.
Qed.

Lemma stepWorker_BytesInv (i : nat) (e e' : Engine) :
  BytesInv e -> stepWorker cfg env sha256 deviceName i e = Some e' -> BytesInv e'.
Proof.
  intros [Hfiles Hjobs Hworkers Htotal (acc & Hacc & Htrans & Hsum)] Hstep.
  unfold stepWorker in Hstep.
  destruct (workers e !! i) as [w|] eqn:Hw; [|discriminate].
  pose proof (Forall_lookup_1 _ _ _ _ Hworkers Hw) as Hheld.
  destruct w as [| t | t err | t err |].
  - destruct (jobs e) as [|t rest] eqn:Ejobs.
    + destruct (jobsClosed e); [|discriminate]. injection Hstep as <-.
      pose proof (pendingBytes_insert _ _ WDone _ Hw) as Hp. simpl in Hp.
      constructor; simpl; rewrite ?Ejobs; try assumption.
      * apply Forall_insert; [assumption | exact I].
      * exists acc. repeat split; try assumption. lia.
    + injection Hstep as <-.
      pose proof (pendingBytes_insert _ _ (WTransfer t) _ Hw) as Hp. simpl in Hp.
      apply Forall_cons in Hjobs as [Ht Hrest].
      constructor; simpl; try assumption.
      * apply Forall_insert; assumption.
      * exists acc. repeat split; try assumption. lia.
  - destruct (transferFile cfg env sha256 deviceName t (st e)) as [err st'].
    injection Hstep as <-.
    pose proof (pendingBytes_insert _ _ (WReport t err) _ Hw) as Hp. simpl in Hp.
    constructor; simpl; try assumption.
    + apply Forall_insert; assumption.
    + exists acc. split; [assumption|]. split; [assumption|].
      rewrite succeeded_app, bytes_app. unfold succeeded at 2. simpl.
      destruct err as [er|]; unfold bytes in *; simpl in *; lia.
  - destruct (length (results e) <? capacity e)%nat; [|discriminate].
    injection Hstep as <-.
    pose proof (pendingBytes_insert _ _ (WAccount t err) _ Hw) as Hp.
    constructor; simpl; try assumption.
    + apply Forall_insert; assumption.
    + exists acc. repeat split; try assumption.
      destruct err as [er|]; simpl in *; lia.
  - injection Hstep as <-.
    pose proof (pendingBytes_insert _ _ WReceive _ Hw) as Hp.
    constructor; simpl; try assumption.
    + apply Forall_insert; [assumption | exact I].
    + destruct err as [er|]; simpl in *.
      * exists acc. repeat split; try assumption. lia.
      * exists (acc + Size t)%Z. split; [lia|]. split; [|lia].
        rewrite Htrans. apply wrap64_add_l.
  - discriminate.
Qed.

Lemma reachable_BytesInv (s : State) (files : list string) (e : Engine) :
  reachable s files e -> BytesInv e.
Proof.
  induction 1 as [|a e e' Hr IH Hstep]; [apply start_BytesInv|].
  destruct a as [|i]; simpl in Hstep.
  - eapply stepMain_BytesInv; [|exact IH | exact Hstep].
    eapply reachable_Inv; exact Hr.
  - eapply stepWorker_BytesInv; eassumption.
Qed.

(** The byte counters.  The total is the sum of the sizes of the jobs, in
    64-bit arithmetic.  As long as that sum does not overflow, the bytes
    transferred are between zero and the total, in every state of a run.
    At the return, with at least one worker, the bytes transferred are
    the sum of the sizes of the jobs whose transfer returned no error,
    and every job has been transferred or has failed. *)
Theorem byte_counters (s : State) (files : list string) (e : Engine) :
  reachable s files e ->
  TotalBytes (stats e) = wrap64 (bytes (priorityFiles e ++ normalFiles e))
  /\ ((bytes (priorityFiles e ++ normalFiles e) < 2 ^ 63)%Z ->
      (0 <= TransferredBytes (stats e) <= TotalBytes (stats e))%Z)
  /\ (forall err,
        main e = MReturned err -> (1 <= config.MaxWorkers (config.Transfer cfg))%Z ->
        TransferredBytes (stats e) = wrap64 (bytes (succeeded (outcomes e)))
        /\ map fst (outcomes e) ≡ₚ (priorityFiles e ++ normalFiles e)%list).
Proof.
  intros Hr.
  pose proof (reachable_Inv cfg p env sha256 deviceName s files e Hr) as HI.
  destruct (reachable_BytesInv s files e Hr)
    as [Hfiles Hjobs Hworkers Htotal (acc & Hacc & Htrans & Hsum)].
  split; [exact Htotal|]. split.
  - intros Hsmall.
    pose proof (bytes_nonneg _ Hfiles) as Hnn.
    rewrite Htotal, (wrap64_small (bytes _)) by lia.
    destruct (enqueued_prefix cfg env sha256 deviceName e HI) as (rest & Hpre).
    assert (Forall (fun t => (0 <= Size t)%Z) (enqueued e)
            /\ Forall (fun t => (0 <= Size t)%Z) rest) as [Henq Hrest].
    { rewrite <- Hpre in Hfiles. now apply Forall_app in Hfiles. }
    pose proof (inv_flow e HI) as Hflow.
    assert (Forall (fun t => (0 <= Size t)%Z) (map fst (outcomes e))
            /\ Forall (fun t => (0 <= Size t)%Z) (transferring (workers e))) as [Hout Htr].
    { rewrite Hflow in Henq. rewrite !Forall_app in Henq. tauto. }
    pose proof (bytes_succeeded_le _ Hout) as Hle.
    pose proof (pendingBytes_nonneg _ Hworkers) as Hpend.
    assert (bytes (enqueued e) <= bytes (priorityFiles e ++ normalFiles e))%Z as H1.
    { rewrite <- Hpre, bytes_app. pose proof (bytes_nonneg _ Hrest). lia. }
    assert (bytes (map fst (outcomes e)) <= bytes (enqueued e))%Z as H2.
    { rewrite (bytes_Permutation _ _ Hflow), !bytes_app.
      pose proof (bytes_nonneg _ Htr). pose proof (bytes_nonneg _ Hjobs). lia. }
    rewrite Htrans, wrap64_small by lia. lia.
  - intros err Hm Hw.
    destruct (returned_all_processed cfg env sha256 deviceName e err Hw HI Hm)
      as (Hperm & _ & _).
    split; [|exact Hperm].
    pose proof (inv_phase e HI) as Hphase. unfold engine.phaseInv in Hphase.
    rewrite Hm in Hphase. destruct Hphase as (_ & _ & _ & Hall & _).
    rewrite (pendingBytes_allDone _ Hall) in Hsum. rewrite Htrans. f_equal. lia.
Qed.

(** *** The jobs and the files listed *)

Local Abbreviation ListingInv := (executions.ListingInv cfg p env).
Local Abbreviation accepted := (executions.accepted p env).
Local Abbreviation acceptedPriority := (executions.acceptedPriority cfg p env).
Local Abbreviation acceptedNormal := (executions.acceptedNormal cfg p env).

Lemma Stat_world (path : string) (s1 s2 : State) :
  world s1 = world s2 ->
  fst (os.Stat env path s1) = fst (os.Stat env path s2)
  /\ snd (os.Stat env path s1) = s1.
Proof.
  intros Hw. unfold os.Stat, bind, os.getWorld, ret. cbn [fst snd]. rewrite Hw.
  destruct (fault env (OpStat path)); [split; reflexivity|].
  destruct (world s2 !! path) as [[content|]|]; split; reflexivity.
Qed.

(** What the preparation of one file does to the lists of jobs, by
    whether the file is accepted. *)
Lemma prepareFile_accepted (filePath : string) (e : Engine) :
  let e' := prepareFile cfg p env deviceName filePath e in
  world (st e') = world (st e)
  /\ map SourcePath (priorityFiles e')
     = (map SourcePath (priorityFiles e)
        ++ List.filter (acceptedPriority (world (st e))) [filePath])%list
  /\ map SourcePath (normalFiles e')
     = (map SourcePath (normalFiles e)
        ++ List.filter (acceptedNormal (world (st e))) [filePath])%list.
Proof.
  cbv zeta. unfold executions.acceptedPriority, executions.acceptedNormal,
    executions.accepted, prepareFile. cbn [List.filter].
  destruct (Stat_world filePath (st e) {| world := world (st e); log := [] |} eq_refl)
    as [Hres Hst].
  rewrite <- Hres.
  destruct (os.Stat env filePath (st e)) as [[fileInfo err] st1]. cbn [fst snd] in *.
  subst st1.
  destruct err as [er|].
  { destruct fileInfo as [[[|] size]|]; cbn; rewrite !app_nil_r; repeat split. }
  destruct fileInfo as [[isDir size]|]; [|cbn; rewrite !app_nil_r; repeat split].
  destruct isDir; [cbn; rewrite !app_nil_r; repeat split|].
  destruct (parser.GetUniqueDestinationPath (world (st e)) p (parser.Parse p filePath))
    as [destPath err]. cbn [snd].
  destruct err as [er|]; [cbn; rewrite !app_nil_r; repeat split|].
  cbn [Priority isNil andb].
  destruct (isPriorityFile cfg (filepath.Base filePath)); cbn;
    rewrite ?map_app, ?app_nil_r; repeat split.
Qed.

Lemma stepMain_ListingInv (s : State) (files : list string) (e e' : Engine) :
  ListingInv s files e -> stepMain cfg p env deviceName e = Some e' ->
  ListingInv s files e'.
Proof.
  intros (done & rest & Hfiles & Hmain & Hafter & Hp & Hn) Hstep.
  unfold stepMain in Hstep.
  destruct (main e) as [l | l | l | | | err] eqn:Emain.
  - destruct (Hmain _ eq_refl) as [<- Hworld].
    destruct l as [|filePath l]; injection Hstep as <-.
    + exists done, []. cbn. repeat split; try assumption; discriminate.
    + destruct (prepareFile_spec cfg p env deviceName filePath e)
        as ((Pmain & _) & _).
      destruct (prepareFile_accepted filePath e) as (Pworld & Pp & Pn).
      set (e1 := prepareFile cfg p env deviceName filePath e) in *.
      exists (done ++ [filePath])%list, l. cbn.
      split; [now rewrite <- app_assoc|].
      split; [intros r [= ->]; split; [reflexivity | congruence]|].
      split; [intros H; now destruct (H l)|].
      rewrite !List.filter_app, Pp, Pn, Hp, Hn, Hworld. split; reflexivity.
  - assert (rest = []) as -> by (apply Hafter; intros r; discriminate).
    exists done, [].
    destruct l as [|t l];
      [|destruct (length (jobs e) <? capacity e)%nat; [|discriminate]];
      injection Hstep as <-; cbn; repeat split; try assumption; discriminate.
  - assert (rest = []) as -> by (apply Hafter; intros r; discriminate).
    exists done, [].
    destruct l as [|t l];
      [|destruct (length (jobs e) <? capacity e)%nat; [|discriminate]];
      injection Hstep as <-; cbn; repeat split; try assumption; discriminate.
  - assert (rest = []) as -> by (apply Hafter; intros r; discriminate).
    exists done, []. destruct (allDone (workers e)); [|discriminate].
    injection Hstep as <-; cbn; repeat split; try assumption; discriminate.
  - assert (rest = []) as -> by (apply Hafter; intros r; discriminate).
    exists done, [].
    destruct (results e) as [|err l]; injection Hstep as <-; cbn.
    + repeat split; try assumption; discriminate.
    + split; [assumption|]. split; [intros r Hr; congruence|].
      split; [reflexivity|]. split; assumption.
  - discriminate.
Qed.

Lemma stepWorker_ListingInv (s : State) (files : list string) (i : nat) (e e' : Engine) :
  Inv e -> ListingInv s files e -> stepWorker cfg env sha256 deviceName i e = Some e' ->
  ListingInv s files e'.
Proof.
  intros HI (done & rest & Hfiles & Hmain & Hafter & Hp & Hn) Hstep.
  unfold stepWorker in Hstep.
  destruct (workers e !! i) as [w|] eqn:Hw; [|discriminate].
  assert (w <> WDone -> forall r, main e <> MPrepare r) as Hphase.
  { intros Hnd r Hr.
    destruct (worker_phase cfg e i w (inv_phase e HI) Hw Hnd) as [_ H].
    rewrite Hr in H. discriminate. }
  assert (forall e1, main e1 = main e -> priorityFiles e1 = priorityFiles e ->
                     normalFiles e1 = normalFiles e -> w <> WDone ->
                     ListingInv s files e1) as Hkeep.
  { intros e1 H1 H2 H3 Hnd. specialize (Hphase Hnd). exists done, rest.
    rewrite H1, H2, H3. split; [assumption|].
    split; [intros r Hr; exfalso; exact (Hphase r Hr)|].
    split; [assumption | split; assumption]. }
  destruct w as [| t | t err | t err |]; try discriminate.
  - destruct (jobs e) as [|t l];
      [destruct (jobsClosed e); [|discriminate]|];
      injection Hstep as <-; apply Hkeep; try reflexivity; discriminate.
  - destruct (transferFile cfg env sha256 deviceName t (st e)) as [err st'].
    injection Hstep as <-; apply Hkeep; try reflexivity; discriminate.
  - destruct (length (results e) <? capacity e)%nat; [|discriminate].
    injection Hstep as <-; apply Hkeep; try reflexivity; discriminate.
  - injection Hstep as <-; apply Hkeep; try reflexivity; discriminate.
Qed.

Lemma reachable_ListingInv (s : State) (files : list string) (e : Engine) :
  reachable s files e -> ListingInv s files e.
Proof.
  induction 1 as [|a e e' Hr IH Hstep].
  - exists [], files. cbn. split; [reflexivity|].
    split; [intros r [= ->]; now split|].
    split; [intros H; now destruct (H files) | split; reflexivity].
  - destruct a as [|i]; simpl in Hstep.
    + eapply stepMain_ListingInv; eassumption.
    + eapply stepWorker_ListingInv; [|exact IH | exact Hstep].
      eapply reachable_Inv; exact Hr.
Qed.

Lemma sublist_List_filter (f : string -> bool) (l : list string) :
  List.filter f l `sublist_of` l.
Proof.
  induction l as [|x l IH]; simpl; [constructor|].
  destruct (f x); [now apply sublist_skip | now apply sublist_cons].
Qed.



(** The run under the scheduler of the model is one of the executions. *)
Lemma run_runsIn (fuel : nat) :
  forall e, exists n, runsIn n e (run cfg p env sha256 deviceName fuel e).
Proof.
  induction fuel as [|fuel IH]; intros e; [exists 0; constructor|].
  cbn [run]. destruct (schedule cfg p env sha256 deviceName e) as [e1|] eqn:Hs.
  - apply schedule_some in Hs as [a Ha]. destruct (IH e1) as [n Hn].
    exists (S n). econstructor; eassumption.
  - exists 0. constructor.
Qed.

(** *** The counters that a run does not touch *)

Lemma step_SkippedFiles (a : Actor) (e e' : Engine) :
  step a e = Some e' -> SkippedFiles (stats e') = SkippedFiles (stats e).
Proof.
  destruct a as [|i]; simpl.
  - unfold stepMain.
    destruct (main e) as [[|filePath l] | [|t l] | [|t l] | | | err]; intros Hstep;
      try (injection Hstep as <-; reflexivity); try discriminate.
    + injection Hstep as <-. simpl. unfold prepareFile.
      destruct (os.Stat env filePath (st e)) as [[fileInfo err] st1].
      destruct err as [er|]; [reflexivity|].
      destruct fileInfo as [[[|] size]|]; try reflexivity.
      destruct (parser.GetUniqueDestinationPath _ _ _) as [destPath [er|]];
        [reflexivity|].
      cbn [Priority]. destruct (isPriorityFile cfg _); reflexivity.
    + destruct (length (jobs e) <? capacity e)%nat; [|discriminate].
      injection Hstep as <-; reflexivity.
    + destruct (length (jobs e) <? capacity e)%nat; [|discriminate].
      injection Hstep as <-; reflexivity.
    + destruct (allDone (workers e)); [|discriminate].
      injection Hstep as <-; reflexivity.
    + destruct (results e) as [|err l]; injection Hstep as <-; [reflexivity|].
      simpl. destruct (isNil err); reflexivity.
  - unfold stepWorker.
    destruct (workers e !! i) as [[| t | t err | t err |]|]; intros Hstep;
      try discriminate.
    + destruct (jobs e) as [|t l];
        [destruct (jobsClosed e); [|discriminate]|];
        injection Hstep as <-; reflexivity.
    + destruct (transferFile cfg env sha256 deviceName t (st e)) as [err st'].
      injection Hstep as <-; reflexivity.
    + destruct (length (results e) <? capacity e)%nat; [|discriminate].
      injection Hstep as <-; reflexivity.
    + injection Hstep as <-; reflexivity.
Qed.

(** Two counters that lag behind what happens.  The count of skipped
    files is zero in every state of a run: nothing adds to it, also when
    files are skipped as directories, or for a failed stat or a
    destination that cannot be had.  The count of failed files is zero as
    long as a worker is running: the failures are counted from the results
    after all workers have finished. *)
Theorem counters_behind (s : State) (files : list string) (e : Engine) :
  reachable s files e ->
  SkippedFiles (stats e) = 0%Z
  /\ (isCollecting (main e) = false -> FailedFiles (stats e) = 0%Z)
  /\ (forall i w, workers e !! i = Some w -> w <> WDone -> FailedFiles (stats e) = 0%Z).
Proof.
  intros Hr. split; [|split].
  - induction Hr as [|a e e' _ IH Hstep]; [reflexivity|].
    now rewrite (step_SkippedFiles a e e' Hstep).
  - intros Hc.
    pose proof (reachable_Inv cfg p env sha256 deviceName s files e Hr) as HI.
    now destruct (inv_results e HI Hc).
  - intros i w Hw Hnd.
    pose proof (reachable_Inv cfg p env sha256 deviceName s files e Hr) as HI.
    destruct (worker_phase cfg e i w (inv_phase e HI) Hw Hnd) as [Hc _].
    now destruct (inv_results e HI Hc).
Qed.

End Run.

End executions_facts.

(** * The transfer of one file *)

Module transfer_file.

Import transfer.

Section Transfer.

Variable cfg : config.Config.
Variable env : Env.
Variable sha256 : string -> string.
Variable deviceName : string.

(** [MkdirAll] adds directories and changes nothing that is there. *)
Lemma mkdirAll_keeps (fuel : nat) (w : World) (path q : string) (node : Node) :
  w !! q = Some node -> fst (os.mkdirAll fuel w path) !! q = Some node.
Proof.
  revert path. induction fuel as [|fuel IH]; intros path Hq; simpl.
  - destruct (w !! path) as [[content|]|] eqn:Hp; simpl; try assumption.
    rewrite lookup_insert_ne; [assumption | congruence].
  - destruct (w !! path) as [[content|]|] eqn:Hp; simpl; try assumption.
    destruct (String.eqb (filepath.Dir path) path); simpl.
    + rewrite lookup_insert_ne; [assumption | congruence].
    + specialize (IH (filepath.Dir path) Hq).
      destruct (os.mkdirAll fuel w (filepath.Dir path)) as [w' ok]. simpl in IH.
      destruct ok; simpl; [|assumption].
      rewrite lookup_insert_ne; [assumption | congruence].
Qed.

Lemma MkdirAll_keeps (path q : string) (node : Node) (s : State) :
  world s !! q = Some node -> world (snd (os.MkdirAll env path s)) !! q = Some node.
Proof.
  intros Hq. unfold os.MkdirAll, bind, os.getWorld, os.setWorld, ret. simpl.
  destruct (fault env (OpMkdirAll path)); simpl; [assumption|].
  pose proof (mkdirAll_keeps (String.length path) (world s) path q node Hq) as H.
  destruct (os.mkdirAll (String.length path) (world s) path) as [w' ok]. exact H.
Qed.

Lemma MkdirAll_log (path : string) (s : State) :
  log (snd (os.MkdirAll env path s)) = log s.
Proof.
  unfold os.MkdirAll, bind, os.getWorld, os.setWorld, ret. simpl.
  destruct (fault env (OpMkdirAll path)); simpl; [reflexivity|].
  destruct (os.mkdirAll (String.length path) (world s) path) as [w' ok]. reflexivity.
Qed.

Lemma Open_state (path : string) (s : State) : snd (os.Open env path s) = s.
Proof.
  unfold os.Open, bind, os.getWorld, ret. simpl.
  destruct (fault env (OpOpen path)); simpl; [reflexivity|].
  destruct (world s !! path); reflexivity.
Qed.

Lemma Create_keeps (path q : string) (s : State) :
  q <> path -> world (snd (os.Create env path s)) !! q = world s !! q.
Proof.
  intros Hq. unfold os.Create, bind, os.getWorld, os.setWorld, ret. simpl.
  destruct (fault env (OpCreate path)); simpl; [reflexivity|].
  destruct (world s !! path) as [[content|]|]; simpl; try reflexivity;
    now rewrite lookup_insert_ne.
Qed.

Lemma Create_log (path : string) (s : State) : log (snd (os.Create env path s)) = log s.
Proof.
  unfold os.Create, bind, os.getWorld, os.setWorld, ret. simpl.
  destruct (fault env (OpCreate path)); simpl; [reflexivity|].
  destruct (world s !! path) as [[content|]|]; reflexivity.
Qed.

Lemma Copy_keeps (src dst q : string) (s : State) :
  q <> dst -> world (snd (os.Copy env src dst s)) !! q = world s !! q.
Proof.
  intros Hq. unfold os.Copy, bind, os.getWorld, os.setWorld, ret. simpl.
  destruct (world s !! src) as [[content|]|]; simpl; try reflexivity.
  destruct (fault env (OpCopy src dst)); simpl; now rewrite lookup_insert_ne.
Qed.

Lemma Copy_log (src dst : string) (s : State) :
  log (snd (os.Copy env src dst s)) = log s.
Proof.
  unfold os.Copy, bind, os.getWorld, os.setWorld, ret. simpl.
  destruct (world s !! src) as [[content|]|]; simpl; try reflexivity.
  destruct (fault env (OpCopy src dst)); reflexivity.
Qed.

Lemma ReadBack_state (path : string) (s : State) : snd (os.ReadBack env path s) = s.
Proof.
  unfold os.ReadBack, bind, os.getWorld, ret. simpl.
  destruct (fault env (OpReadBack path)); simpl; [reflexivity|].
  destruct (world s !! path) as [[content|]|]; reflexivity.
Qed.

Lemma Remove_keeps (path q : string) (s : State) :
  q <> path -> world (snd (os.Remove env path s)) !! q = world s !! q.
Proof.
  intros Hq. unfold os.Remove, bind, os.getWorld, os.setWorld, ret. simpl.
  destruct (fault env (OpRemove path)); simpl; [reflexivity|].
  destruct (world s !! path) as [[content|]|]; simpl; try reflexivity.
  - now rewrite lookup_delete_ne by congruence.
  - destruct (os.hasEntries (world s) path); simpl; [reflexivity|].
    now rewrite lookup_delete_ne by congruence.
Qed.

Lemma Remove_log (path : string) (s : State) : log (snd (os.Remove env path s)) = log s.
Proof.
  unfold os.Remove, bind, os.getWorld, os.setWorld, ret. simpl.
  destruct (fault env (OpRemove path)); simpl; [reflexivity|].
  destruct (world s !! path) as [[content|]|]; simpl; try reflexivity.
  destruct (os.hasEntries (world s) path); reflexivity.
Qed.

Lemma Open_ok (path : string) (s : State) (node : Node) :
  fault env (OpOpen path) = false -> world s !! path = Some node ->
  os.Open env path s = (None, s).
Proof.
  intros Hf Hp. unfold os.Open, bind, os.getWorld, ret. simpl. now rewrite Hf, Hp.
Qed.

Lemma Create_ok (path : string) (s : State) :
  fault env (OpCreate path) = false -> world s !! path <> Some Directory ->
  os.Create env path s
  = (None, {| world := <[path := File ""]> (world s); log := log s |}).
Proof.
  intros Hf Hp. unfold os.Create, bind, os.getWorld, os.setWorld, ret. simpl. rewrite Hf.
  destruct (world s !! path) as [[content|]|]; try reflexivity. congruence.
Qed.

Lemma Copy_ok (src dst content : string) (s : State) :
  world s !! src = Some (File content) ->
  os.Copy env src dst s
  = if fault env (OpCopy src dst)
    then ((strings.take (copiedBeforeFault env src) content, Some (ErrIO (OpCopy src dst))),
          {| world := <[dst := File (stored env dst
                                       (strings.take (copiedBeforeFault env src) content))]>
                        (world s);
             log := log s |})
    else ((content, None),
          {| world := <[dst := File (stored env dst content)]> (world s); log := log s |}).
Proof.
  intros Hp. unfold os.Copy, bind, os.getWorld, os.setWorld, ret. simpl. rewrite Hp.
  destruct (fault env (OpCopy src dst)); reflexivity.
Qed.

Lemma ReadBack_ok (path content : string) (s : State) :
  fault env (OpReadBack path) = false -> world s !! path = Some (File content) ->
  os.ReadBack env path s = ((content, None), s).
Proof.
  intros Hf Hp. unfold os.ReadBack, bind, os.getWorld, ret. simpl. now rewrite Hf, Hp.
Qed.

(** A copy that fails leaves at the destination what it had written:
    the transfer returns the error of the copy and logs it, and does not
    remove the partial file. *)
Theorem transferFile_failed_copy (t : FileTransfer) (s : State) (content : string) :
  fst (os.MkdirAll env (filepath.Dir (DestinationPath t)) s) = None ->
  world s !! SourcePath t = Some (File content) ->
  SourcePath t <> DestinationPath t ->
  world (snd (os.MkdirAll env (filepath.Dir (DestinationPath t)) s)) !! DestinationPath t
  <> Some Directory ->
  fault env (OpOpen (SourcePath t)) = false ->
  fault env (OpCreate (DestinationPath t)) = false ->
  fault env (OpCopy (SourcePath t) (DestinationPath t)) = true ->
  fst (transferFile cfg env sha256 deviceName t s)
  = Some (ErrIO (OpCopy (SourcePath t) (DestinationPath t)))
  /\ world (snd (transferFile cfg env sha256 deviceName t s)) !! DestinationPath t
     = Some (File (stored env (DestinationPath t)
                     (strings.take (copiedBeforeFault env (SourcePath t)) content)))
  /\ log (snd (transferFile cfg env sha256 deviceName t s))
     = (log s ++ [{| level := LevelError; device := deviceName;
                     event := FailedToCopy (SourcePath t)
                                (ErrIO (OpCopy (SourcePath t) (DestinationPath t))) |}])%list.
Proof.
  intros Hmk Hsrc Hne Hdst Fopen Fcreate Fcopy.
  pose proof (MkdirAll_keeps (filepath.Dir (DestinationPath t)) _ _ s Hsrc) as Hsrc1.
  pose proof (MkdirAll_log (filepath.Dir (DestinationPath t)) s) as Hlog1.
  unfold transferFile, transferFileWith, bind.
  destruct (os.MkdirAll env (filepath.Dir (DestinationPath t)) s) as [e1 s1].
  simpl in Hmk, Hdst, Hsrc1, Hlog1. subst e1.
  rewrite (Open_ok _ _ _ Fopen Hsrc1), (Create_ok _ _ Fcreate Hdst).
  destruct (config.VerifyChecksums (config.Transfer cfg)); cbn beta iota;
    rewrite (Copy_ok _ _ content), Fcopy
      by (simpl; rewrite lookup_insert_ne by congruence; exact Hsrc1);
    simpl;
    rewrite insert_insert_eq, lookup_insert_eq, Hlog1; repeat split; reflexivity.
Qed.

(** A job whose destination is its own source empties the file and is
    reported as transferred: the file is truncated when it is created as
    the destination, and the copy then finds nothing to read. *)
Theorem transferFile_onto_itself (t : FileTransfer) (s : State) (content : string) :
  DestinationPath t = SourcePath t ->
  fst (os.MkdirAll env (filepath.Dir (DestinationPath t)) s) = None ->
  world s !! SourcePath t = Some (File content) ->
  fault env (OpOpen (SourcePath t)) = false ->
  fault env (OpCreate (SourcePath t)) = false ->
  fault env (OpCopy (SourcePath t) (SourcePath t)) = false ->
  fault env (OpReadBack (SourcePath t)) = false ->
  stored env (SourcePath t) "" = "" ->
  fst (transferFile cfg env sha256 deviceName t s) = None
  /\ world (snd (transferFile cfg env sha256 deviceName t s)) !! SourcePath t
     = Some (File "").
Proof.
  intros Hsame Hmk Hsrc Fopen Fcreate Fcopy Fread Hsound.
  pose proof (MkdirAll_keeps (filepath.Dir (DestinationPath t)) _ _ s Hsrc) as Hsrc1.
  unfold transferFile, transferFileWith, bind. rewrite Hsame in *.
  destruct (os.MkdirAll env (filepath.Dir (SourcePath t)) s) as [e1 s1].
  simpl in Hmk, Hsrc1. subst e1.
  rewrite (Open_ok _ _ _ Fopen Hsrc1), (Create_ok _ _ Fcreate) by congruence.
  destruct (config.VerifyChecksums (config.Transfer cfg)); cbn beta iota;
    rewrite (Copy_ok _ _ ""), Fcopy by (simpl; apply lookup_insert_eq);
    rewrite Hsound; cbn [snd fst].
  - rewrite (ReadBack_ok _ "") by (try assumption; simpl; apply lookup_insert_eq).
    cbn [snd fst]. rewrite String.eqb_refl. cbn [negb].
    unfold logTransferredWith.
    destruct (negb (parser.Matched (FileInfo t))); simpl;
      rewrite lookup_insert_eq; split; reflexivity.
  - unfold logTransferredWith.
    destruct (negb (parser.Matched (FileInfo t))); simpl;
      rewrite lookup_insert_eq; split; reflexivity.
Qed.

End Transfer.

End transfer_file.

(** * The destination that is returned as unique *)

Module unique_destination.

Import parser filepath_glob.

(** A path without metacharacter is a well-formed pattern. *)
Lemma scanChunk_plain (s : string) :
  hasMeta s = false -> forall inrange, glob.scanChunk inrange s = (s, "").
Proof.
  induction s as [|c s IH]; intros Hm inrange; [reflexivity|].
  cbn [hasMeta] in Hm. repeat (apply orb_false_elim in Hm as [Hm ?]).
  cbn [glob.scanChunk].
  replace (Ascii.eqb c "\"%char) with false by congruence.
  replace (Ascii.eqb c "*"%char) with false by congruence. cbn [andb].
  now rewrite IH.
Qed.

Lemma chunkMalformed_plain (s : string) :
  hasMeta s = false -> forall fuel, glob.chunkMalformed fuel s = false.
Proof.
  induction s as [|c s IH]; intros Hm fuel; [now destruct fuel|].
  cbn [hasMeta] in Hm. repeat (apply orb_false_elim in Hm as [Hm ?]).
  destruct fuel as [|fuel]; [reflexivity|]. cbn [glob.chunkMalformed].
  replace (Ascii.eqb c "["%char) with false by congruence.
  replace (Ascii.eqb c "\"%char) with false by congruence.
  now apply IH.
Qed.

Lemma skipStars_plain (s : string) : hasMeta s = false -> glob.skipStars s = s.
Proof.
  destruct s as [|c s]; [reflexivity|]. cbn [hasMeta]. intros Hm.
  repeat (apply orb_false_elim in Hm as [Hm ?]).
  cbn [glob.skipStars]. destruct (Ascii.eqb_spec c "*"%char) as [-> | Hc]; [discriminate|].
  destruct c as [[] [] [] [] [] [] [] []]; try reflexivity. now contradiction Hc.
Qed.

Lemma malformed_plain (s : string) : hasMeta s = false -> glob.malformed s = false.
Proof.
  intros Hm. unfold glob.malformed. cbn [glob.malformedFrom].
  destruct s as [|c s]; [reflexivity|].
  rewrite (skipStars_plain _ Hm), (scanChunk_plain _ Hm), (chunkMalformed_plain _ Hm).
  now destruct (String.length (String c s)).
Qed.

Lemma limit_positive : pathSeparatorsLimit = S (Nat.pred pathSeparatorsLimit).
Proof. vm_compute. reflexivity. Qed.

(** The error of [Glob], decided by the path: none for a path without
    metacharacter, and [ErrBadPattern] for one that is malformed as a
    pattern. *)
Lemma GlobError_plain (w : World) (path : string) :
  hasMeta path = false -> GlobError w path = None.
Proof.
  intros Hm. unfold GlobError. rewrite limit_positive. cbn [globWithLimit].
  now rewrite (malformed_plain _ Hm), Hm.
Qed.

Lemma GlobError_malformed (w : World) (path : string) :
  glob.malformed path = true -> GlobError w path = Some ErrBadPattern.
Proof.
  intros Hm. unfold GlobError. rewrite limit_positive. cbn [globWithLimit].
  now rewrite Hm.
Qed.

(** The loop entered at [version], when [Glob] reports an error for the
    candidates before it. *)
Lemma versionLoop_result (w : World) (destPath dir name ext : string) :
  forall fuel version,
    2 <= version <= 1000 -> version + fuel = 1001 ->
    (forall u, 2 <= u < version ->
       GlobError w (filepath.Join [dir; name +:+ "_v" +:+ fmt.decimal u +:+ ext]) <> None) ->
    (exists v, version <= v <= 1000
               /\ (forall u, 2 <= u < v ->
                     GlobError w
                       (filepath.Join [dir; name +:+ "_v" +:+ fmt.decimal u +:+ ext])
                     <> None)
               /\ GlobError w
                    (filepath.Join [dir; name +:+ "_v" +:+ fmt.decimal v +:+ ext]) = None
               /\ versionLoop fuel w destPath dir name ext version
                  = Some (filepath.Join [dir; name +:+ "_v" +:+ fmt.decimal v +:+ ext], None))
    \/ ((forall u, 2 <= u <= 1000 ->
           GlobError w
             (filepath.Join [dir; name +:+ "_v" +:+ fmt.decimal u +:+ ext]) <> None)
        /\ versionLoop fuel w destPath dir name ext version
           = Some ("", Some (ErrTooManyVersions destPath))).
Proof.
  induction fuel as [|fuel IH]; intros version Hv Hsum Hbefore; [lia|].
  cbn [versionLoop].
  destruct (GlobError w
              (filepath.Join [dir; name +:+ "_v" +:+ fmt.decimal version +:+ ext]))
    as [err|] eqn:Em; cbn [isNil].
  - assert (forall u, 2 <= u < S version ->
              GlobError w
                (filepath.Join [dir; name +:+ "_v" +:+ fmt.decimal u +:+ ext]) <> None)
      as Hbefore'.
    { intros u Hu. destruct (Nat.eq_dec u version) as [-> | Hne];
        [rewrite Em; discriminate|].
      apply Hbefore. lia. }
    destruct (1000 <? S version)%nat eqn:E.
    + apply Nat.ltb_lt in E. right. split; [|reflexivity].
      intros u Hu. apply Hbefore'. lia.
    + apply Nat.ltb_ge in E.
      destruct (IH (S version)) as [(v & Hv' & H1 & H2 & H3) | H]; try lia; try assumption.
      * left. exists v. repeat split; try assumption; lia.
      * right. exact H.
  - left. exists version. repeat split; try assumption; lia.
Qed.

(** [GetUniqueDestinationPath] returns the first of the full destination
    path and its variants [_v2] to [_v1000] for which [filepath.Glob]
    reports no error, and the too-many-versions error when it reports one
    for each of them.  [Glob] reports no error for a path without
    metacharacter and [ErrBadPattern] for a path that is malformed as a
    pattern; its error is decided by the path, so that what the file
    system holds plays no part: the result in one world is the result in
    any other. *)
Theorem GetUniqueDestinationPath_result (w : World) (p : Parser) (info : FileInfo) :
  let destPath := GetFullDestinationPath p info in
  let candidate := fun v =>
    filepath.Join [filepath.Dir destPath;
                   strings.TrimSuffix (filepath.Base destPath) (filepath.Ext destPath)
                   +:+ "_v" +:+ fmt.decimal v +:+ filepath.Ext destPath] in
  ((GlobError w destPath = None
    /\ GetUniqueDestinationPath w p info = (destPath, None))
   \/ (GlobError w destPath <> None
       /\ exists v, 2 <= v <= 1000
                    /\ (forall u, 2 <= u < v -> GlobError w (candidate u) <> None)
                    /\ GlobError w (candidate v) = None
                    /\ GetUniqueDestinationPath w p info = (candidate v, None))
   \/ (GlobError w destPath <> None
       /\ (forall u, 2 <= u <= 1000 -> GlobError w (candidate u) <> None)
       /\ GetUniqueDestinationPath w p info = ("", Some (ErrTooManyVersions destPath))))
  /\ (forall path, hasMeta path = false -> GlobError w path = None)
  /\ (forall path, glob.malformed path = true -> GlobError w path = Some ErrBadPattern)
  /\ forall w', GetUniqueDestinationPath w' p info = GetUniqueDestinationPath w p info.
Proof.
  cbv zeta. split; [|split; [|split]].
  - unfold GetUniqueDestinationPath, GetUniqueDestinationPath_fuel.
    destruct (GlobError w (GetFullDestinationPath p info)) as [err|] eqn:Em; cbn [isNil].
    + right.
      destruct (versionLoop_result w (GetFullDestinationPath p info)
                  (filepath.Dir (GetFullDestinationPath p info))
                  (strings.TrimSuffix (filepath.Base (GetFullDestinationPath p info))
                     (filepath.Ext (GetFullDestinationPath p info)))
                  (filepath.Ext (GetFullDestinationPath p info)) 999 2)
        as [(v & Hv & H1 & H2 & ->) | (H1 & ->)]; try lia.
      * left. split; [discriminate|]. exists v. repeat split; try assumption; lia.
      * right. repeat split; [discriminate | assumption].
    + left. split; reflexivity.
  - apply GlobError_plain.
  - apply GlobError_malformed.
  - intros w'. unfold GetUniqueDestinationPath, GetUniqueDestinationPath_fuel.
    change (GlobError w' (GetFullDestinationPath p info))
      with (GlobError w (GetFullDestinationPath p info)).
    destruct (GlobError w (GetFullDestinationPath p info)); cbn [isNil]; [|reflexivity].
    assert (forall fuel version a b c d,
               versionLoop fuel w' a b c d version = versionLoop fuel w a b c d version)
      as Hloop.
    { induction fuel as [|fuel IH]; intros; [reflexivity|].
      cbn [versionLoop]. now rewrite IH. }
    now rewrite Hloop.
Qed.

End unique_destination.

(** * The syntax check of patterns, part by part *)

Module glob_facts.

Import glob filepath_glob.

(** A byte that goes on an UTF-8 sequence is none of the characters that
    the scan of a pattern looks for. *)
Lemma isCont_plain (lo hi : nat) (c : ascii) :
  128 <= lo -> isCont lo hi c = true ->
  Ascii.eqb c "\"%char = false /\ Ascii.eqb c "*"%char = false
  /\ Ascii.eqb c "["%char = false /\ Ascii.eqb c "]"%char = false.
Proof.
  unfold isCont. intros Hlo H. apply andb_true_iff in H as [H _]. apply Nat.leb_le in H.
  repeat split; apply Ascii.eqb_neq; intros ->; vm_compute in H; lia.
Qed.

(** The scan passes over a byte that is none of them. *)
Lemma scanChunk_plain_byte (inrange : bool) (c : ascii) (s : string) :
  Ascii.eqb c "\"%char = false -> Ascii.eqb c "*"%char = false ->
  Ascii.eqb c "["%char = false -> Ascii.eqb c "]"%char = false ->
  scanChunk inrange (String c s)
  = (String c (fst (scanChunk inrange s)), snd (scanChunk inrange s)).
Proof.
  intros H1 H2 H3 H4. cbn [scanChunk]. rewrite H1, H2, H3, H4. cbn [andb].
  now destruct (scanChunk inrange s).
Qed.

(** The sequence that [runeLen] measures: it is there, it is the same
    whatever follows it, and the scan passes over the bytes after its
    first. *)
Lemma runeLen_spec (c : ascii) (s : string) (k : nat) :
  runeLen (String c s) = Some k ->
  exists j,
    k = S j /\ j <= String.length s
    /\ (forall X, runeLen (String c (strings.take j s +:+ X)) = Some k)
    /\ (forall inrange,
          scanChunk inrange s
          = (strings.take j s +:+ fst (scanChunk inrange (strings.drop j s)),
             snd (scanChunk inrange (strings.drop j s)))).
Proof.
  unfold runeLen.
  destruct (nat_of_ascii c <? 128)%nat.
  { intros [= <-]. exists 0. cbn. repeat split; try lia.
    intros inrange. now destruct (scanChunk inrange s). }
  destruct ((194 <=? nat_of_ascii c) && (nat_of_ascii c <=? 223))%nat.
  { destruct s as [|b1 s]; [discriminate|].
    destruct (isCont 128 191 b1) eqn:E1; [|discriminate]. intros [= <-]. exists 1.
    cbn [strings.take strings.drop String.length String.append].
    split; [reflexivity|]. split; [lia|]. split; [intros X; now rewrite E1|].
    intros inrange.
    destruct (isCont_plain 128 191 _ ltac:(lia) E1) as (P1 & P2 & P3 & P4).
    rewrite scanChunk_plain_byte by assumption. reflexivity. }
  destruct ((224 <=? nat_of_ascii c) && (nat_of_ascii c <=? 239))%nat.
  { destruct s as [|b1 [|b2 s]]; try discriminate.
    set (lo := if (nat_of_ascii c =? 224)%nat then 160 else 128).
    set (hi := if (nat_of_ascii c =? 237)%nat then 159 else 191).
    destruct (isCont lo hi b1) eqn:E1; [|discriminate].
    destruct (isCont 128 191 b2) eqn:E2; [|discriminate]. intros [= <-]. exists 2.
    cbn [strings.take strings.drop String.length String.append].
    split; [reflexivity|]. split; [lia|]. split; [intros X; now rewrite E1, E2|].
    intros inrange.
    assert (128 <= lo) as Hlo by (unfold lo; destruct (_ =? _)%nat; lia).
    destruct (isCont_plain _ _ _ Hlo E1) as (P1 & P2 & P3 & P4).
    destruct (isCont_plain 128 191 _ ltac:(lia) E2) as (Q1 & Q2 & Q3 & Q4).
    rewrite scanChunk_plain_byte by assumption. cbn [fst snd].
    rewrite scanChunk_plain_byte by assumption. reflexivity. }
  destruct ((240 <=? nat_of_ascii c) && (nat_of_ascii c <=? 244))%nat; [|discriminate].
  destruct s as [|b1 [|b2 [|b3 s]]]; try discriminate.
  set (lo := if (nat_of_ascii c =? 240)%nat then 144 else 128).
  set (hi := if (nat_of_ascii c =? 244)%nat then 143 else 191).
  destruct (isCont lo hi b1) eqn:E1; [|discriminate].
  destruct (isCont 128 191 b2) eqn:E2; [|discriminate].
  destruct (isCont 128 191 b3) eqn:E3; [|discriminate]. intros [= <-]. exists 3.
  cbn [strings.take strings.drop String.length String.append].
  split; [reflexivity|]. split; [lia|]. split; [intros X; now rewrite E1, E2, E3|].
  intros inrange.
  assert (128 <= lo) as Hlo by (unfold lo; destruct (_ =? _)%nat; lia).
  destruct (isCont_plain _ _ _ Hlo E1) as (P1 & P2 & P3 & P4).
  destruct (isCont_plain 128 191 _ ltac:(lia) E2) as (Q1 & Q2 & Q3 & Q4).
  destruct (isCont_plain 128 191 _ ltac:(lia) E3) as (R1 & R2 & R3 & R4).
  rewrite scanChunk_plain_byte by assumption. cbn [fst snd].
  rewrite scanChunk_plain_byte by assumption. cbn [fst snd].
  rewrite scanChunk_plain_byte by assumption. reflexivity.
Qed.

(** The pattern is the chunk followed by the rest. *)
Lemma scanChunk_app (n : nat) :
  forall (s : string) (inrange : bool),
    String.length s <= n ->
    s = fst (scanChunk inrange s) +:+ snd (scanChunk inrange s).
Proof.
  induction n as [|n IH]; intros s inrange Hn.
  - destruct s; [reflexivity | simpl in Hn; lia].
  - destruct s as [|c s]; [reflexivity|]. cbn [scanChunk].
    destruct (Ascii.eqb c "\"%char).
    + destruct s as [|d s]; [reflexivity|].
      specialize (IH s inrange ltac:(simpl in Hn; lia)).
      destruct (scanChunk inrange s) as [chunk r]. cbn [fst snd] in *. cbn. now rewrite <- IH.
    + destruct (Ascii.eqb c "*"%char && negb inrange); [reflexivity|].
      match goal with
      | |- context [scanChunk ?b s] =>
          specialize (IH s b ltac:(simpl in Hn; lia)); destruct (scanChunk b s) as [chunk r]
      end.
      cbn [fst snd] in *. cbn. now rewrite <- IH.
Qed.

(** Within brackets the scan takes at least the next byte. *)
Lemma scanChunk_inrange_nonempty (s : string) :
  s <> "" -> fst (scanChunk true s) <> "".
Proof.
  destruct s as [|c s]; [contradiction|]. intros _. cbn [scanChunk].
  destruct (Ascii.eqb c "\"%char).
  - destruct s as [|d s]; [discriminate|]. now destruct (scanChunk true s).
  - rewrite andb_false_r.
    match goal with |- context [scanChunk ?b s] => now destruct (scanChunk b s) end.
Qed.

(** Steps of the scan. *)
Lemma scanChunk_escape (inrange : bool) (d : ascii) (s : string) :
  scanChunk inrange (String "\"%char (String d s))
  = (String "\"%char (String d (fst (scanChunk inrange s))), snd (scanChunk inrange s)).
Proof. cbn [scanChunk Ascii.eqb Bool.eqb]. now destruct (scanChunk inrange s). Qed.

Lemma scanChunk_inrange (c : ascii) (s : string) :
  Ascii.eqb c "\"%char = false -> Ascii.eqb c "]"%char = false ->
  scanChunk true (String c s)
  = (String c (fst (scanChunk true s)), snd (scanChunk true s)).
Proof.
  intros H1 H2. cbn [scanChunk]. rewrite H1, H2, andb_false_r.
  destruct (Ascii.eqb c "["%char); now destruct (scanChunk true s).
Qed.

Lemma scanChunk_close (inrange : bool) (s : string) :
  scanChunk inrange (String "]"%char s)
  = (String "]"%char (fst (scanChunk false s)), snd (scanChunk false s)).
Proof. cbn [scanChunk Ascii.eqb Bool.eqb andb]. now destruct (scanChunk false s). Qed.

Lemma scanChunk_open (inrange : bool) (s : string) :
  scanChunk inrange (String "["%char s)
  = (String "["%char (fst (scanChunk true s)), snd (scanChunk true s)).
Proof. cbn [scanChunk Ascii.eqb Bool.eqb andb]. now destruct (scanChunk true s). Qed.

Lemma scanChunk_outside (c : ascii) (s : string) :
  Ascii.eqb c "\"%char = false -> Ascii.eqb c "*"%char = false ->
  Ascii.eqb c "["%char = false ->
  scanChunk false (String c s)
  = (String c (fst (scanChunk false s)), snd (scanChunk false s)).
Proof.
  intros H1 H2 H3. cbn [scanChunk]. rewrite H1, H2, H3. cbn [andb].
  destruct (Ascii.eqb c "]"%char); now destruct (scanChunk false s).
Qed.

(** What [getEsc] takes off a chunk: a character, escaped or not, that
    is followed by something.  The same is taken when something else
    follows, and the scan within brackets passes over it. *)
Lemma getEsc_spec (s t : string) :
  getEsc s = Some t ->
  exists pre,
    s = pre +:+ t /\ t <> "" /\ pre <> ""
    /\ (forall X, X <> "" -> getEsc (pre +:+ X) = Some X)
    /\ scanChunk true s = (pre +:+ fst (scanChunk true t), snd (scanChunk true t)).
Proof.
  unfold getEsc. destruct s as [|c rest]; [discriminate|].
  destruct (Ascii.eqb c "-"%char || Ascii.eqb c "]"%char) eqn:E; [discriminate|].
  apply orb_false_elim in E as [E1 E2].
  destruct (Ascii.eqb c "\"%char) eqn:Eb.
  - apply Ascii.eqb_eq in Eb. subst c.
    destruct rest as [|d rest]; [discriminate|].
    destruct (runeLen (String d rest)) as [k|] eqn:Ek; [|discriminate].
    destruct (runeLen_spec d rest k Ek) as (j & -> & Hj & Happ & Hsc).
    cbn [strings.drop].
    destruct (strings.drop j rest) as [|x t'] eqn:Ed; [discriminate|]. intros [= <-].
    exists (String "\"%char (String d (strings.take j rest))).
    split; [cbn; now rewrite <- Ed, take_drop|].
    split; [discriminate|]. split; [discriminate|]. split.
    + intros X HX. cbn [String.append]. cbn [Ascii.eqb Bool.eqb orb andb].
      rewrite Happ. cbn [strings.drop].
      replace (strings.drop j (strings.take j rest +:+ X)) with X.
      * destruct X; [contradiction | reflexivity].
      * rewrite <- (length_take j rest Hj) at 1. now rewrite drop_append_length.
    + rewrite scanChunk_escape, (Hsc true). reflexivity.
  - destruct (runeLen (String c rest)) as [k|] eqn:Ek; [|discriminate].
    destruct (runeLen_spec c rest k Ek) as (j & -> & Hj & Happ & Hsc).
    cbn [strings.drop].
    destruct (strings.drop j rest) as [|x t'] eqn:Ed; [discriminate|]. intros [= <-].
    exists (String c (strings.take j rest)).
    split; [cbn; now rewrite <- Ed, take_drop|].
    split; [discriminate|]. split; [discriminate|]. split.
    + intros X HX. cbn [String.append]. rewrite E1, E2, Eb. cbn [orb].
      rewrite Happ. cbn [strings.drop].
      replace (strings.drop j (strings.take j rest +:+ X)) with X.
      * destruct X; [contradiction | reflexivity].
      * rewrite <- (length_take j rest Hj) at 1. now rewrite drop_append_length.
    + rewrite (scanChunk_inrange c rest Eb E2), (Hsc true). reflexivity.
Qed.
(** The two matches on a character in [ranges]. *)
Lemma close_match {A : Type} (c : ascii) (s : string) (n : nat) (k1 : string -> A) (k2 : A) :
  c <> "]"%char \/ n = 0 ->
  match String c s, n with
  | String "]"%char rest, S _ => k1 rest
  | _, _ => k2
  end = k2.
Proof.
  intros [Hc | ->].
  - destruct c as [[] [] [] [] [] [] [] []]; try reflexivity.
    destruct n; [reflexivity | now contradiction Hc].
  - destruct c as [[] [] [] [] [] [] [] []]; reflexivity.
Qed.

Lemma dash_match {A : Type} (t : string) (k1 : string -> A) (k2 : A) :
  (forall rest, t <> String "-"%char rest) ->
  match t with
  | String "-"%char rest => k1 rest
  | _ => k2
  end = k2.
Proof.
  intros Ht. destruct t as [|c s]; [reflexivity|].
  destruct c as [[] [] [] [] [] [] [] []]; try reflexivity.
  now contradiction (Ht s).
Qed.

Lemma ranges_unfold (fuel nrange : nat) (chunk : string) :
  ranges (S fuel) nrange chunk
  = match chunk, nrange with
    | String "]"%char rest, S _ => Some rest
    | _, _ =>
        match getEsc chunk with
        | None => None
        | Some (String "-"%char rest) =>
            match getEsc rest with
            | None => None
            | Some chunk' => ranges fuel (S nrange) chunk'
            end
        | Some chunk' => ranges fuel (S nrange) chunk'
        end
    end.
Proof. reflexivity. Qed.

(** One turn of the loop of [ranges]: the closing bracket after a range,
    or a range - one character, or two with a dash between them. *)
Lemma ranges_close (fuel nrange : nat) (s : string) :
  ranges (S fuel) (S nrange) (String "]"%char s) = Some s.
Proof. reflexivity. Qed.

Lemma getEsc_head (s t : string) :
  getEsc s = Some t -> exists c s', s = String c s' /\ c <> "]"%char /\ c <> "-"%char.
Proof.
  unfold getEsc. destruct s as [|c s']; [discriminate|].
  destruct (Ascii.eqb_spec c "-"%char) as [-> | H1]; [discriminate|].
  destruct (Ascii.eqb_spec c "]"%char) as [-> | H2]; [discriminate|].
  intros _. now exists c, s'.
Qed.

Lemma ranges_none (fuel nrange : nat) (s : string) :
  getEsc s = None -> nrange = 0 \/ (forall s', s <> String "]"%char s') ->
  ranges (S fuel) nrange s = None.
Proof.
  intros He Hn. rewrite ranges_unfold. destruct s as [|c s']; [now rewrite He|].
  rewrite close_match; [now rewrite He|].
  destruct Hn as [-> | Hn]; [now right|]. left. intros ->. now apply (Hn s').
Qed.

Lemma ranges_dash (fuel nrange : nat) (s rest : string) :
  getEsc s = Some (String "-"%char rest) ->
  ranges (S fuel) nrange s
  = match getEsc rest with
    | None => None
    | Some chunk' => ranges fuel (S nrange) chunk'
    end.
Proof.
  intros He. destruct (getEsc_head _ _ He) as (c & s' & -> & Hc & _).
  rewrite ranges_unfold. rewrite close_match by now left. now rewrite He.
Qed.

Lemma ranges_single (fuel nrange : nat) (s t : string) :
  getEsc s = Some t -> (forall rest, t <> String "-"%char rest) ->
  ranges (S fuel) nrange s = ranges fuel (S nrange) t.
Proof.
  intros He Ht. destruct (getEsc_head _ _ He) as (c & s' & -> & Hc & _).
  rewrite ranges_unfold. rewrite close_match by now left. rewrite He.
  now apply dash_match.
Qed.

(** A string starts with a dash or it does not. *)
Lemma dash_or_not (t : string) :
  (exists rest, t = String "-"%char rest) \/ (forall rest, t <> String "-"%char rest).
Proof.
  destruct t as [|c s]; [right; discriminate|].
  destruct (Ascii.eqb_spec c "-"%char) as [-> | Hc]; [left; now exists s|].
  right. intros rest [= -> _]. now apply Hc.
Qed.

(** [getEsc] when something is appended. *)
Lemma getEsc_app (s t Y : string) :
  getEsc s = Some t -> getEsc (s +:+ Y) = Some (t +:+ Y).
Proof.
  intros He. destruct (getEsc_spec s t He) as (pre & -> & Ht & _ & Happ & _).
  rewrite append_assoc. apply Happ. destruct t; [contradiction | discriminate].
Qed.

Lemma getEsc_shorter (s t : string) :
  getEsc s = Some t -> String.length t < String.length s.
Proof.
  intros He. destruct (getEsc_spec s t He) as (pre & -> & _ & Hpre & _).
  rewrite length_append. destruct pre; [contradiction | simpl; lia].
Qed.

(** The bracket expression that [ranges] finds is closed whatever follows
    it. *)
Lemma ranges_app (Y : string) (fuel : nat) :
  forall nrange s after,
    ranges fuel nrange s = Some after ->
    ranges fuel nrange (s +:+ Y) = Some (after +:+ Y).
Proof.
  induction fuel as [|fuel IH]; intros nrange s after; [discriminate|].
  destruct (getEsc s) as [t|] eqn:He.
  - destruct (dash_or_not t) as [[rest ->] | Ht].
    + rewrite (ranges_dash _ _ _ _ He).
      rewrite (ranges_dash _ _ (s +:+ Y) (rest +:+ Y)) by exact (getEsc_app _ _ Y He).
      destruct (getEsc rest) as [u|] eqn:Hu; [|discriminate].
      rewrite (getEsc_app _ _ Y Hu). apply IH.
    + rewrite (ranges_single _ _ _ _ He Ht).
      rewrite (ranges_single _ _ (s +:+ Y) (t +:+ Y));
        [apply IH | exact (getEsc_app _ _ Y He) |].
      intros rest Hr. destruct t as [|c t']; [|injection Hr as -> _; now apply (Ht t')].
      apply getEsc_spec in He as (pre & _ & Hne & _). now contradiction Hne.
  - destruct s as [|c s'].
    + now rewrite ranges_none by (try assumption; right; discriminate).
    + destruct (Ascii.eqb_spec c "]"%char) as [-> | Hc].
      * destruct nrange as [|nrange]; [now rewrite ranges_none by (try assumption; now left)|].
        rewrite ranges_close. intros [= <-]. reflexivity.
      * rewrite ranges_none; [discriminate | exact He |].
        right. intros s'' [= -> _]. now apply Hc.
Qed.

(** [ranges] consumes what it passes. *)
Lemma ranges_shorter (fuel : nat) :
  forall nrange s after,
    ranges fuel nrange s = Some after -> String.length after < String.length s.
Proof.
  induction fuel as [|fuel IH]; intros nrange s after; [discriminate|].
  destruct (getEsc s) as [t|] eqn:He.
  - pose proof (getEsc_shorter _ _ He) as Hlt.
    destruct (dash_or_not t) as [[rest ->] | Ht].
    + rewrite (ranges_dash _ _ _ _ He).
      destruct (getEsc rest) as [u|] eqn:Hu; [|discriminate].
      pose proof (getEsc_shorter _ _ Hu) as Hlt'. intros H. apply IH in H. simpl in *. lia.
    + rewrite (ranges_single _ _ _ _ He Ht). intros H. apply IH in H. lia.
  - destruct s as [|c s'].
    + now rewrite ranges_none by (try assumption; right; discriminate).
    + destruct (Ascii.eqb_spec c "]"%char) as [-> | Hc].
      * destruct nrange as [|nrange]; [now rewrite ranges_none by (try assumption; now left)|].
        rewrite ranges_close. intros [= <-]. simpl. lia.
      * rewrite ranges_none; [discriminate | exact He |].
        right. intros s'' [= -> _]. now apply Hc.
Qed.

(** With fuel for every character, the fuel plays no part. *)
Lemma ranges_enough (fuel : nat) :
  forall fuel' nrange s,
    String.length s < fuel -> String.length s < fuel' ->
    ranges fuel nrange s = ranges fuel' nrange s.
Proof.
  induction fuel as [|fuel IH]; intros fuel' nrange s H1 H2; [lia|].
  destruct fuel' as [|fuel']; [lia|].
  destruct (getEsc s) as [t|] eqn:He.
  - pose proof (getEsc_shorter _ _ He) as Hlt.
    destruct (dash_or_not t) as [[rest ->] | Ht].
    + rewrite !(ranges_dash _ _ _ _ He).
      destruct (getEsc rest) as [u|] eqn:Hu; [|reflexivity].
      pose proof (getEsc_shorter _ _ Hu). simpl in *. apply IH; lia.
    + rewrite !(ranges_single _ _ _ _ He Ht). apply IH; lia.
  - destruct s as [|c s'].
    + now rewrite !ranges_none by (try assumption; right; discriminate).
    + destruct (Ascii.eqb_spec c "]"%char) as [-> | Hc].
      * destruct nrange as [|nrange];
          [now rewrite !ranges_none by (try assumption; now left)|].
        now rewrite !ranges_close.
      * rewrite !ranges_none; try reflexivity; try exact He;
          right; intros s'' [= -> _]; now apply Hc.
Qed.
(** Fuel that suffices for a bracket expression suffices when there is
    more of it. *)
Lemma ranges_mono (fuel : nat) :
  forall fuel' nrange s after,
    ranges fuel nrange s = Some after -> fuel <= fuel' ->
    ranges fuel' nrange s = Some after.
Proof.
  induction fuel as [|fuel IH]; intros fuel' nrange s after; [discriminate|].
  intros H Hle. destruct fuel' as [|fuel']; [lia|]. revert H.
  destruct (getEsc s) as [t|] eqn:He.
  - destruct (dash_or_not t) as [[rest ->] | Ht].
    + rewrite !(ranges_dash _ _ _ _ He).
      destruct (getEsc rest) as [u|] eqn:Hu; [|discriminate].
      intros H. apply (IH fuel') in H; [exact H | lia].
    + rewrite !(ranges_single _ _ _ _ He Ht).
      intros H. apply (IH fuel') in H; [exact H | lia].
  - destruct s as [|c s'].
    + now rewrite !ranges_none by (try assumption; right; discriminate).
    + destruct (Ascii.eqb_spec c "]"%char) as [-> | Hc].
      * destruct nrange as [|nrange];
          [now rewrite !ranges_none by (try assumption; now left)|].
        now rewrite !ranges_close.
      * rewrite !ranges_none; try discriminate; try exact He;
          right; intros s'' [= -> _]; now apply Hc.
Qed.

(** A bracket expression that [ranges] finds closed, and the scan: what
    is consumed ends with the closing bracket, the scan passes over it
    and goes on outside brackets, and [ranges] consumes the same whatever
    follows. *)
Local Ltac norm_app := repeat (rewrite ?append_assoc; cbn [String.append fst snd]).

Lemma ranges_scan (fuel : nat) :
  forall nrange s after,
    ranges fuel nrange s = Some after ->
    exists consumed,
      s = consumed +:+ after /\ consumed <> ""
      /\ scanChunk true s
         = (consumed +:+ fst (scanChunk false after), snd (scanChunk false after))
      /\ forall X, ranges fuel nrange (consumed +:+ X) = Some X.
Proof.
  induction fuel as [|fuel IH]; intros nrange s after; [discriminate|].
  destruct (getEsc s) as [t|] eqn:He.
  - destruct (getEsc_spec s t He) as (pre & Hs & Htne & Hpre & Happ & Hsc).
    destruct (dash_or_not t) as [[rest ->] | Ht].
    + rewrite (ranges_dash _ _ _ _ He).
      destruct (getEsc rest) as [u|] eqn:Hu; [|discriminate].
      destruct (getEsc_spec rest u Hu) as (pre1 & Hrest & Hune & Hpre1 & Happ1 & Hsc1).
      intros H. destruct (IH _ _ _ H) as (cu & Hu' & Hcu & Hscu & Hru).
      exists (pre +:+ String "-"%char (pre1 +:+ cu)).
      split; [|split; [|split]].
      * rewrite Hs, Hrest, Hu' at 1. now norm_app.
      * destruct pre; [contradiction | discriminate].
      * rewrite Hsc, (scanChunk_inrange "-"%char rest eq_refl eq_refl), Hsc1, Hscu.
        cbn [fst snd]. now norm_app.
      * intros X.
        assert (getEsc ((pre +:+ String "-"%char (pre1 +:+ cu)) +:+ X)
                = Some (String "-"%char ((pre1 +:+ cu) +:+ X))) as He'.
        { norm_app. apply Happ. discriminate. }
        rewrite (ranges_dash _ _ _ _ He').
        rewrite append_assoc, Happ1 by (destruct cu; [contradiction | discriminate]).
        apply Hru.
    + rewrite (ranges_single _ _ _ _ He Ht).
      intros H. destruct (IH _ _ _ H) as (ct & Ht' & Hct & Hsct & Hrt).
      exists (pre +:+ ct). split; [|split; [|split]].
      * rewrite Hs, Ht' at 1. now rewrite append_assoc.
      * destruct pre; [contradiction | discriminate].
      * rewrite Hsc, Hsct. cbn [fst snd]. now rewrite append_assoc.
      * intros X.
        assert (getEsc ((pre +:+ ct) +:+ X) = Some (ct +:+ X)) as He'.
        { rewrite append_assoc. apply Happ. destruct ct; [contradiction | discriminate]. }
        rewrite (ranges_single _ _ _ _ He'); [apply Hrt|].
        intros r Hr. destruct ct as [|c ct']; [contradiction|].
        cbn in Hr. injection Hr as -> _. apply (Ht (ct' +:+ after)).
        rewrite Ht'. reflexivity.
  - destruct s as [|c s'].
    + now rewrite ranges_none by (try assumption; right; discriminate).
    + destruct (Ascii.eqb_spec c "]"%char) as [-> | Hc].
      * destruct nrange as [|nrange]; [now rewrite ranges_none by (try assumption; now left)|].
        rewrite ranges_close. intros [= <-]. exists "]".
        split; [reflexivity|]. split; [discriminate|]. split; [apply scanChunk_close|].
        intros X. apply ranges_close.
      * rewrite ranges_none; [discriminate | exact He |].
        right. intros s'' [= -> _]. now apply Hc.
Qed.

(** The caret that can follow an opening bracket. *)
Local Abbreviation afterCaret rest :=
  (match rest with
   | String "^"%char r => r
   | _ => rest
   end).

Lemma afterCaret_other (c : ascii) (s : string) :
  c <> "^"%char -> afterCaret (String c s) = String c s.
Proof.
  intros Hc. destruct c as [[] [] [] [] [] [] [] []]; try reflexivity.
  now contradiction Hc.
Qed.

Lemma afterCaret_length (s : string) : String.length (afterCaret s) <= String.length s.
Proof.
  destruct s as [|c s]; [reflexivity|].
  destruct (Ascii.eqb_spec c "^"%char) as [-> | Hc]; [simpl; lia|].
  now rewrite (afterCaret_other c s Hc).
Qed.

Lemma afterCaret_app (s Y : string) :
  s <> "" -> afterCaret (s +:+ Y) = afterCaret s +:+ Y.
Proof.
  destruct s as [|c s]; [contradiction|]. intros _. cbn [String.append].
  destruct (Ascii.eqb_spec c "^"%char) as [-> | Hc]; [reflexivity|].
  now rewrite (afterCaret_other c s Hc), (afterCaret_other c (s +:+ Y) Hc).
Qed.

Lemma afterCaret_scan (s : string) :
  afterCaret (fst (scanChunk true s)) = fst (scanChunk true (afterCaret s))
  /\ snd (scanChunk true s) = snd (scanChunk true (afterCaret s)).
Proof.
  destruct s as [|c s]; [split; reflexivity|].
  destruct (Ascii.eqb_spec c "^"%char) as [-> | Hc].
  - rewrite (scanChunk_inrange "^"%char s eq_refl eq_refl). split; reflexivity.
  - rewrite (afterCaret_other c s Hc). split; [|reflexivity].
    destruct (Ascii.eqb_spec c "\"%char) as [-> | Hb].
    + destruct s as [|d s]; [reflexivity|]. rewrite scanChunk_escape. reflexivity.
    + destruct (Ascii.eqb_spec c "]"%char) as [-> | Hr].
      * rewrite scanChunk_close. reflexivity.
      * rewrite scanChunk_inrange by now apply Ascii.eqb_neq.
        cbn [fst]. now apply afterCaret_other.
Qed.

(** One step of [chunkMalformed]. *)
Lemma chunkMalformed_open (fuel : nat) (rest : string) :
  chunkMalformed (S fuel) (String "["%char rest)
  = match ranges (S (String.length (afterCaret rest))) 0 (afterCaret rest) with
    | None => true
    | Some chunk' => chunkMalformed fuel chunk'
    end.
Proof. reflexivity. Qed.

Lemma chunkMalformed_escape (fuel : nat) (d : ascii) (rest : string) :
  chunkMalformed (S fuel) (String "\"%char (String d rest)) = chunkMalformed fuel rest.
Proof. reflexivity. Qed.

Lemma chunkMalformed_other (fuel : nat) (c : ascii) (rest : string) :
  Ascii.eqb c "["%char = false -> Ascii.eqb c "\"%char = false ->
  chunkMalformed (S fuel) (String c rest) = chunkMalformed fuel rest.
Proof. intros H1 H2. cbn [chunkMalformed]. now rewrite H1, H2. Qed.

(** With fuel for every character, the fuel plays no part. *)
Lemma chunkMalformed_enough (fuel : nat) :
  forall fuel' s,
    String.length s < fuel -> String.length s < fuel' ->
    chunkMalformed fuel s = chunkMalformed fuel' s.
Proof.
  induction fuel as [|fuel IH]; intros fuel' s H1 H2; [lia|].
  destruct fuel' as [|fuel']; [lia|].
  destruct s as [|c s]; [reflexivity|]. simpl in H1, H2.
  destruct (Ascii.eqb_spec c "["%char) as [-> | Ho].
  - rewrite !chunkMalformed_open.
    destruct (ranges _ 0 (afterCaret s)) as [chunk'|] eqn:Hr; [|reflexivity].
    apply ranges_shorter in Hr. pose proof (afterCaret_length s). apply IH; lia.
  - destruct (Ascii.eqb_spec c "\"%char) as [-> | Hb].
    + destruct s as [|d s]; [reflexivity|]. rewrite !chunkMalformed_escape.
      simpl in H1, H2. apply IH; lia.
    + rewrite !chunkMalformed_other by now apply Ascii.eqb_neq. apply IH; lia.
Qed.

Local Abbreviation wellFormed s := (chunkMalformed (S (String.length s)) s = false).

(** A chunk that is well formed is passed in full: what follows it is
    checked as if it stood alone. *)
Lemma chunkMalformed_app (n : nat) :
  forall X Y fuel fuel',
    String.length X <= n -> wellFormed X ->
    String.length (X +:+ Y) < fuel -> String.length Y < fuel' ->
    chunkMalformed fuel (X +:+ Y) = chunkMalformed fuel' Y.
Proof.
  induction n as [|n IH]; intros X Y fuel fuel' Hn Hwf H1 H2.
  - destruct X; [|simpl in Hn; lia]. now apply chunkMalformed_enough.
  - destruct X as [|c X]; [now apply chunkMalformed_enough|].
    destruct fuel as [|fuel]; [lia|]. simpl in Hn, H1. cbn [String.append].
    destruct (Ascii.eqb_spec c "["%char) as [-> | Ho].
    + rewrite chunkMalformed_open in Hwf |- *.
      destruct (ranges _ 0 (afterCaret X)) as [chunk'|] eqn:Hr; [|discriminate].
      assert (X <> "") as HX by (intros ->; discriminate).
      rewrite (afterCaret_app X Y HX).
      pose proof (ranges_shorter _ _ _ _ Hr) as Hlt.
      pose proof (afterCaret_length X) as Hca.
      rewrite (ranges_mono _ _ _ _ _ (ranges_app Y _ _ _ _ Hr))
        by (rewrite length_append; lia).
      apply IH; try lia.
      * rewrite <- Hwf. apply chunkMalformed_enough; cbn [String.length]; lia.
      * rewrite length_append in *. lia.
    + destruct (Ascii.eqb_spec c "\"%char) as [-> | Hb].
      * destruct X as [|d X]; [discriminate|].
        rewrite chunkMalformed_escape in Hwf. cbn [String.append].
        rewrite chunkMalformed_escape. simpl in Hn, H1. apply IH; try lia.
        rewrite <- Hwf. apply chunkMalformed_enough; simpl; lia.
      * rewrite chunkMalformed_other in Hwf by now apply Ascii.eqb_neq.
        rewrite chunkMalformed_other by now apply Ascii.eqb_neq.
        apply IH; try lia.
        rewrite <- Hwf. apply chunkMalformed_enough; cbn [String.length]; lia.
Qed.
Local Abbreviation check s := (chunkMalformed (S (String.length s)) s).

(** The scan cuts a pattern at a star outside brackets, and the check
    of the pattern as one chunk is the check of the two parts: a bracket
    expression that is closed lies within the chunk. *)
Lemma check_scan (n : nat) :
  forall Z,
    String.length Z <= n ->
    check Z = check (fst (scanChunk false Z)) || check (snd (scanChunk false Z)).
Proof.
  induction n as [|n IH]; intros Z Hn.
  - destruct Z; [reflexivity | simpl in Hn; lia].
  - destruct Z as [|c Z]; [reflexivity|]. simpl in Hn.
    destruct (Ascii.eqb_spec c "\"%char) as [-> | Hb].
    { destruct Z as [|d Z]; [reflexivity|]. simpl in Hn.
      rewrite scanChunk_escape. cbn [fst snd String.length].
      rewrite !chunkMalformed_escape.
      rewrite (chunkMalformed_enough _ (S (String.length Z)) Z) by lia.
      rewrite (IH Z) by lia. f_equal.
      apply chunkMalformed_enough; pose proof (scanChunk_app _ Z false (le_n _)) as E;
        apply (f_equal String.length) in E; rewrite length_append in E; lia. }
    destruct (Ascii.eqb_spec c "*"%char) as [-> | Hs]; [reflexivity|].
    destruct (Ascii.eqb_spec c "["%char) as [-> | Ho].
    { rewrite scanChunk_open. cbn [fst snd String.length].
      rewrite !chunkMalformed_open.
      destruct (afterCaret_scan Z) as [Hfst Hsnd]. rewrite Hfst, Hsnd.
      pose proof (afterCaret_length Z) as Hca.
      pose proof (scanChunk_app _ (afterCaret Z) true (le_n _)) as Happ.
      set (Z2 := afterCaret Z) in *.
      assert (String.length (fst (scanChunk true Z2)) <= String.length Z2) as Hlen.
      { apply (f_equal String.length) in Happ. rewrite length_append in Happ. lia. }
      destruct (ranges (S (String.length Z2)) 0 Z2) as [after|] eqn:Hr.
      - destruct (ranges_scan _ _ _ _ Hr) as (consumed & HZ2 & Hne & Hsc & Hany).
        pose proof (ranges_shorter _ _ _ _ Hr) as Hlt.
        rewrite Hsc. cbn [fst snd].
        rewrite (ranges_enough _ (S (String.length Z2)))
          by (rewrite Hsc in Hlen; cbn [fst] in Hlen; lia).
        rewrite Hany.
        rewrite (chunkMalformed_enough _ (S (String.length after)) after) by lia.
        rewrite (IH after) by lia. f_equal.
        pose proof (scanChunk_app _ after false (le_n _)) as E.
        apply (f_equal String.length) in E. rewrite length_append in E.
        pose proof (afterCaret_length (fst (scanChunk true Z))) as Hch.
        rewrite Hfst, Hsc in Hch. cbn [fst] in Hch. rewrite length_append in Hch.
        apply chunkMalformed_enough; lia.
      - destruct (ranges _ 0 (fst (scanChunk true Z2))) as [c2|] eqn:Hr2; [|reflexivity].
        apply (ranges_app (snd (scanChunk true Z2))) in Hr2. rewrite <- Happ in Hr2.
        apply (ranges_mono _ (S (String.length Z2))) in Hr2; [congruence | lia]. }
    assert (scanChunk false (String c Z)
            = (String c (fst (scanChunk false Z)), snd (scanChunk false Z))) as ->.
    { apply scanChunk_outside; now apply Ascii.eqb_neq. }
    cbn [fst snd String.length].
    rewrite !chunkMalformed_other by now apply Ascii.eqb_neq.
    apply IH. lia.
Qed.

Lemma skipStars_length (s : string) : String.length (skipStars s) <= String.length s.
Proof.
  induction s as [|c s IH]; [reflexivity|].
  destruct (Ascii.eqb_spec c "*"%char) as [-> | Hc]; [simpl in *; lia|].
  destruct c as [[] [] [] [] [] [] [] []]; try reflexivity. now contradiction Hc.
Qed.

Lemma check_skipStars (s : string) : check (skipStars s) = check s.
Proof.
  induction s as [|c s IH]; [reflexivity|].
  destruct (Ascii.eqb_spec c "*"%char) as [-> | Hc].
  - cbn [skipStars]. rewrite IH. cbn [String.length].
    rewrite chunkMalformed_other by reflexivity. apply chunkMalformed_enough; lia.
  - destruct c as [[] [] [] [] [] [] [] []]; try reflexivity. now contradiction Hc.
Qed.

(** What the scan leaves of a pattern that is not empty is shorter than
    the pattern. *)
Lemma scan_rest_shorter (c : ascii) (s : string) :
  String.length (snd (scanChunk false (skipStars (String c s)))) <= String.length s.
Proof.
  destruct (Ascii.eqb_spec c "*"%char) as [-> | Hc].
  - cbn [skipStars].
    pose proof (scanChunk_app _ (skipStars s) false (le_n _)) as E.
    apply (f_equal String.length) in E. rewrite length_append in E.
    pose proof (skipStars_length s). lia.
  - assert (skipStars (String c s) = String c s) as ->.
    { destruct c as [[] [] [] [] [] [] [] []]; try reflexivity. now contradiction Hc. }
    pose proof (scanChunk_app _ (String c s) false (le_n _)) as E.
    assert (fst (scanChunk false (String c s)) <> "") as Hne.
    { cbn [scanChunk]. destruct (Ascii.eqb c "\"%char).
      - destruct s as [|d s]; [discriminate|]. now destruct (scanChunk false s).
      - replace (Ascii.eqb c "*"%char) with false by (symmetry; now apply Ascii.eqb_neq).
        cbn [andb].
        match goal with |- context [scanChunk ?b s] => now destruct (scanChunk b s) end. }
    apply (f_equal String.length) in E. rewrite length_append in E.
    destruct (scanChunk false (String c s)) as [[|x chunk] rest];
      cbn [fst snd String.length] in *; [contradiction | lia].
Qed.

(** The check of [Match], chunk after chunk, is the check of the pattern
    as one chunk. *)
Lemma malformedFrom_check (fuel : nat) :
  forall pattern,
    String.length pattern < fuel -> malformedFrom fuel pattern = check pattern.
Proof.
  induction fuel as [|fuel IH]; intros pattern Hlen; [lia|].
  destruct pattern as [|c s]; [reflexivity|]. simpl in Hlen.
  cbn [malformedFrom].
  pose proof (scan_rest_shorter c s) as Hrest.
  destruct (scanChunk false (skipStars (String c s))) as [chunk rest] eqn:Hsc.
  cbn [snd] in Hrest. rewrite (IH rest) by lia.
  rewrite <- (check_skipStars (String c s)).
  rewrite (check_scan _ (skipStars (String c s)) (le_n _)), Hsc. reflexivity.
Qed.

Lemma malformed_check (pattern : string) : malformed pattern = check pattern.
Proof. apply malformedFrom_check. lia. Qed.

(** A well-formed pattern followed by another: the whole is malformed
    when the second is. *)
Lemma malformed_app (A B : string) :
  malformed A = false -> malformed (A +:+ B) = malformed B.
Proof.
  rewrite !malformed_check. intros HA.
  apply (chunkMalformed_app _ A B _ _ (le_n _) HA); lia.
Qed.

(** [Split]: the two parts make up the path, and the first one is empty
    or ends with a separator. *)
Lemma Split_parts (path : string) :
  path = filepath.uptoLastSep path +:+ filepath.afterLastSep path.
Proof.
  induction path as [|c s IH]; [reflexivity|].
  cbn [filepath.uptoLastSep filepath.afterLastSep].
  destruct (filepath.hasSep s).
  - cbn [String.append]. now rewrite <- IH.
  - now destruct (filepath.IsPathSeparator c).
Qed.

Lemma uptoLastSep_end (path : string) :
  filepath.uptoLastSep path = ""
  \/ exists d, filepath.uptoLastSep path = d +:+ "/".
Proof.
  induction path as [|c s IH]; [now left|].
  cbn [filepath.uptoLastSep].
  destruct (filepath.hasSep s) eqn:Hs.
  - right. destruct IH as [E | [d E]].
    + exfalso. revert Hs E. clear. induction s as [|d s IH]; [discriminate|].
      cbn [filepath.hasSep filepath.uptoLastSep].
      destruct (filepath.hasSep s); [discriminate|].
      destruct (filepath.IsPathSeparator d); discriminate.
    + exists (String c d). now rewrite E.
  - destruct (filepath.IsPathSeparator c) eqn:Hc; [|now left].
    right. exists "". unfold filepath.IsPathSeparator in Hc.
    apply Ascii.eqb_eq in Hc. now subst c.
Qed.

Lemma cleanGlobPath_end (d : string) : d <> "" -> cleanGlobPath (d +:+ "/") = d.
Proof.
  intros Hd. unfold cleanGlobPath.
  destruct d as [|c d]; [contradiction|]. cbn [String.append].
  destruct (String.eqb_spec (String c (d +:+ "/")) "") as [E|_]; [discriminate|].
  destruct (String.eqb_spec (String c (d +:+ "/")) "/") as [E|_];
    [now destruct d|].
  replace (String.length (String c (d +:+ "/")) - 1) with (String.length (String c d))
    by (cbn [String.length]; rewrite length_append; simpl; lia).
  apply (take_append_length (String c d) "/").
Qed.

Lemma hasMeta_app (a b : string) : hasMeta (a +:+ b) = hasMeta a || hasMeta b.
Proof.
  induction a as [|c a IH]; [reflexivity|].
  cbn [String.append hasMeta]. rewrite IH. now rewrite !orb_assoc.
Qed.

(** The file part of a pattern: when the pattern is well formed, and its
    directory part as [Glob] cleans it is, the file part is well formed on
    its own.  So [Match], which reports an error for a malformed pattern
    only, reports none when the names of a directory are matched against
    the file part. *)
Lemma file_part_well_formed (pattern : string) :
  malformed pattern = false ->
  malformed (cleanGlobPath (filepath.uptoLastSep pattern)) = false ->
  malformed (filepath.afterLastSep pattern) = false.
Proof.
  intros HP Hdir. rewrite (Split_parts pattern) in HP.
  destruct (uptoLastSep_end pattern) as [E | [d E]]; rewrite E in HP, Hdir.
  - exact HP.
  - assert (malformed (d +:+ "/") = false) as Hd.
    { destruct d as [|c d]; [reflexivity|].
      rewrite cleanGlobPath_end in Hdir by discriminate.
      now rewrite (malformed_app _ "/" Hdir). }
    now rewrite (malformed_app _ _ Hd) in HP.
Qed.

(** Wherever [globWithLimit] reports no error, the file part of the
    pattern is well formed: the directory part is without metacharacter,
    or was globbed without error, and is well formed in both cases. *)
Lemma globWithLimit_file_part (allowed : nat) (pattern : string) :
  globWithLimit allowed pattern = None ->
  malformed (filepath.afterLastSep pattern) = false.
Proof.
  destruct allowed as [|allowed]; [discriminate|]. cbn [globWithLimit].
  destruct (malformed pattern) eqn:HP; [discriminate|].
  destruct (hasMeta pattern) eqn:Hm; cbn [negb].
  - set (dir := cleanGlobPath (filepath.uptoLastSep pattern)).
    destruct (hasMeta dir) eqn:Hd; cbn [negb].
    + destruct (String.eqb dir pattern); [discriminate|].
      intros H. apply (file_part_well_formed pattern HP). fold dir.
      destruct allowed as [|allowed]; [discriminate|]. cbn [globWithLimit] in H.
      now destruct (malformed dir).
    + intros _. apply (file_part_well_formed pattern HP).
      now apply unique_destination.malformed_plain.
  - intros _. apply unique_destination.malformed_plain.
    rewrite (Split_parts pattern), hasMeta_app in Hm.
    now apply orb_false_elim in Hm as [_ Hm].
Qed.
End glob_facts.

(** * What [Validate] accepts and what it repairs *)

Module validation.

Import config.

(** [Validate] accepts a configuration exactly when its destination path
    and its pattern are not empty and, if email is enabled, the SMTP host
    is not empty, the port is not zero and there is a recipient.  Neither
    the pattern nor any other setting is examined further. *)
Theorem Validate_accepts (c : Config) :
  snd (Validate c) = None
  <-> DestinationPath c <> "" /\ Pattern (Parsing c) <> ""
      /\ (EmailEnabled (Email c) = true ->
          SMTPHost (Email c) <> "" /\ SMTPPort (Email c) <> 0%Z /\ To (Email c) <> []).
Proof.
  unfold Validate.
  destruct (String.eqb_spec (DestinationPath c) "") as [Hd | Hd].
  { split; [discriminate | intros [H _]; contradiction]. }
  assert (forall c1 : Config,
             Parsing c1 = Parsing c -> Email c1 = Email c ->
             (snd (if String.eqb (Pattern (Parsing c1)) ""
                   then (c1, Some (ErrConfig "parsing.pattern is required"))
                   else if EmailEnabled (Email c1)
                           && (String.eqb (SMTPHost (Email c1)) ""
                               || (SMTPPort (Email c1) =? 0)%Z)
                   then (c1, Some (ErrConfig
                                     "email is enabled but SMTP settings are incomplete"))
                   else if EmailEnabled (Email c1) && (length (To (Email c1)) =? 0)%nat
                   then (c1, Some (ErrConfig
                                     "email is enabled but no recipients specified"))
                   else (c1, None)) = None
              <-> DestinationPath c <> "" /\ Pattern (Parsing c) <> ""
                  /\ (EmailEnabled (Email c) = true ->
                      SMTPHost (Email c) <> "" /\ SMTPPort (Email c) <> 0%Z
                      /\ To (Email c) <> []))) as Hrest.
  { intros c1 -> ->.
    destruct (String.eqb_spec (Pattern (Parsing c)) "") as [Hp | Hp].
    { split; [discriminate | intros (_ & H & _); contradiction]. }
    destruct (EmailEnabled (Email c)); simpl.
    - destruct (String.eqb_spec (SMTPHost (Email c)) "") as [Hh | Hh]; simpl.
      { split; [discriminate | intros (_ & _ & H); now destruct (H eq_refl)]. }
      destruct (Z.eqb_spec (SMTPPort (Email c)) 0) as [Hport | Hport].
      { split; [discriminate | intros (_ & _ & H); now destruct (H eq_refl) as (_ & ? & _)]. }
      destruct (To (Email c)) as [|r rs]; simpl.
      { split; [discriminate | intros (_ & _ & H); now destruct (H eq_refl) as (_ & _ & ?)]. }
      split; [intros _ | reflexivity]. repeat split; auto; discriminate.
    - split; [intros _ | reflexivity]. repeat split; auto; discriminate. }
  destruct (MaxWorkers (Transfer c) <? 1)%Z;
    destruct (BufferSize (Transfer _) <? 1024)%Z; apply Hrest; reflexivity.
Qed.

Lemma Validate_fst (c : Config) :
  DestinationPath c <> "" ->
  fst (Validate c)
  = (let c1 := if (MaxWorkers (Transfer c) <? 1)%Z then setMaxWorkers c 1 else c in
     if (BufferSize (Transfer c1) <? 1024)%Z then setBufferSize c1 1048576 else c1).
Proof.
  intros Hd%String.eqb_neq. unfold Validate. rewrite Hd. cbv zeta.
  destruct (MaxWorkers (Transfer c) <? 1)%Z;
    destruct (BufferSize (Transfer _) <? 1024)%Z;
    repeat match goal with
      | |- context [if ?b then _ else _] => destruct b
      end; reflexivity.
Qed.

Lemma Validate_snd (c c' : Config) :
  DestinationPath c <> "" -> DestinationPath c' <> "" ->
  Parsing c = Parsing c' -> Email c = Email c' ->
  snd (Validate c) = snd (Validate c').
Proof.
  intros Hd%String.eqb_neq Hd'%String.eqb_neq Hp He. unfold Validate. rewrite Hd, Hd'.
  destruct (MaxWorkers (Transfer c) <? 1)%Z;
    destruct (BufferSize (Transfer _) <? 1024)%Z;
    destruct (MaxWorkers (Transfer c') <? 1)%Z;
    destruct (BufferSize (Transfer _) <? 1024)%Z;
    cbn [setBufferSize setMaxWorkers Parsing Email]; rewrite Hp, He;
    repeat match goal with
      | |- context [if ?b then _ else _] => destruct b
      end; reflexivity.
Qed.

(** [Validate] repairs before it has finished checking: once the
    destination path is there, it leaves at least one worker and a buffer
    of at least 1024 bytes, also in a configuration it then rejects, and
    changes nothing else; a configuration without destination path is
    left as it is.  Validating again changes nothing and gives the same
    verdict. *)
Theorem Validate_repairs (c : Config) :
  (DestinationPath c <> "" ->
   MaxWorkers (Transfer (fst (Validate c)))
   = (if (MaxWorkers (Transfer c) <? 1)%Z then 1%Z else MaxWorkers (Transfer c))
   /\ BufferSize (Transfer (fst (Validate c)))
      = (if (BufferSize (Transfer c) <? 1024)%Z then 1048576%Z else BufferSize (Transfer c))
   /\ (1 <= MaxWorkers (Transfer (fst (Validate c))))%Z
   /\ (1024 <= BufferSize (Transfer (fst (Validate c))))%Z)
  /\ (DestinationPath c = "" -> fst (Validate c) = c)
  /\ DestinationPath (fst (Validate c)) = DestinationPath c
  /\ VerifyChecksums (Transfer (fst (Validate c))) = VerifyChecksums (Transfer c)
  /\ MaxRetries (Transfer (fst (Validate c))) = MaxRetries (Transfer c)
  /\ PriorityPrefixes (Transfer (fst (Validate c))) = PriorityPrefixes (Transfer c)
  /\ Parsing (fst (Validate c)) = Parsing c
  /\ Email (fst (Validate c)) = Email c
  /\ DeviceDetection (fst (Validate c)) = DeviceDetection c
  /\ Validate (fst (Validate c)) = Validate c.
Proof.
  destruct (String.eqb_spec (DestinationPath c) "") as [Hd | Hd].
  { assert (Validate c = (c, Some (ErrConfig "destination_path is required"))) as Hv.
    { unfold Validate. now rewrite Hd. }
    rewrite !Hv. simpl. rewrite Hv.
    split; [intros H; contradiction | repeat split; reflexivity]. }
  pose proof (Validate_fst c Hd) as Hfst. cbv zeta in Hfst.
  assert (MaxWorkers (Transfer (fst (Validate c)))
          = (if (MaxWorkers (Transfer c) <? 1)%Z then 1%Z else MaxWorkers (Transfer c))
          /\ BufferSize (Transfer (fst (Validate c)))
             = (if (BufferSize (Transfer c) <? 1024)%Z then 1048576%Z
                else BufferSize (Transfer c))
          /\ DestinationPath (fst (Validate c)) = DestinationPath c
          /\ VerifyChecksums (Transfer (fst (Validate c))) = VerifyChecksums (Transfer c)
          /\ MaxRetries (Transfer (fst (Validate c))) = MaxRetries (Transfer c)
          /\ PriorityPrefixes (Transfer (fst (Validate c))) = PriorityPrefixes (Transfer c)
          /\ Parsing (fst (Validate c)) = Parsing c
          /\ Email (fst (Validate c)) = Email c
          /\ DeviceDetection (fst (Validate c)) = DeviceDetection c)
    as (Hw & Hb & H1 & H2 & H3 & H4 & H5 & H6 & H7).
  { rewrite Hfst.
    destruct (MaxWorkers (Transfer c) <? 1)%Z; cbn [setMaxWorkers Transfer BufferSize];
      destruct (BufferSize (Transfer c) <? 1024)%Z; cbn; repeat split; reflexivity. }
  assert ((1 <= MaxWorkers (Transfer (fst (Validate c))))%Z
          /\ (1024 <= BufferSize (Transfer (fst (Validate c))))%Z) as [Hw1 Hb1].
  { rewrite Hw, Hb.
    destruct (MaxWorkers (Transfer c) <? 1)%Z eqn:Ew; [|apply Z.ltb_ge in Ew];
      (destruct (BufferSize (Transfer c) <? 1024)%Z eqn:Eb; [|apply Z.ltb_ge in Eb]); lia. }
  split; [intros _; repeat split; assumption|].
  split; [intros H; contradiction|].
  repeat (split; [assumption|]).
  assert (DestinationPath (fst (Validate c)) <> "") as Hd' by congruence.
  assert (fst (Validate (fst (Validate c))) = fst (Validate c)) as Hsame.
  { rewrite (Validate_fst _ Hd'). cbv zeta.
    assert ((MaxWorkers (Transfer (fst (Validate c))) <? 1)%Z = false) as -> by lia.
    assert ((BufferSize (Transfer (fst (Validate c))) <? 1024)%Z = false) as -> by lia.
    reflexivity. }
  assert (snd (Validate (fst (Validate c))) = snd (Validate c)) as Hverdict
      by (apply Validate_snd; assumption).
  destruct (Validate (fst (Validate c))) as [c2 v2], (Validate c) as [c1 v1].
  simpl in *. congruence.
Qed.

End validation.

(** * The device manager around the transfer *)

Module device_facts.

Import device.

(** [ProcessDevice] leaves the device out of the active devices on every
    way out - a failed scan, a device without files, a transfer - also
    when the device had been registered before the call; the other
    devices stay as they are. *)
Theorem ProcessDevice_deregisters (cfg : config.Config) (p : parser.Parser) (env : Env)
    (sha256 : string -> string) (active : gmap string Device) (d : Device) (s : State) :
  snd (fst (fst (ProcessDevice cfg p env sha256 active d s))) = delete (Name d) active
  /\ snd (fst (fst (ProcessDevice cfg p env sha256 active d s))) !! Name d = None
  /\ forall name, name <> Name d ->
       snd (fst (fst (ProcessDevice cfg p env sha256 active d s))) !! name = active !! name.
Proof.
  assert (snd (fst (fst (ProcessDevice cfg p env sha256 active d s)))
          = delete (Name d) active) as H.
  { unfold ProcessDevice.
    destruct (scanFiles env (MountPath d) s) as [[files err] s1].
    destruct err as [er|]; [apply delete_insert_eq|].
    destruct (length files =? 0)%nat; [apply delete_insert_eq|].
    destruct (transfer.main _) as [l|l|l| | |[er|]]; apply delete_insert_eq. }
  rewrite H. split; [reflexivity|]. split; [apply lookup_delete_eq|].
  intros name Hne. now apply lookup_delete_ne.
Qed.

(** The list that [insertSorted] builds holds the entry and the others. *)
Lemma insertSorted_Permutation (x : string * Node) (l : list (string * Node)) :
  insertSorted x l ≡ₚ x :: l.
Proof.
  induction l as [|z l IH]; simpl; [reflexivity|].
  destruct (walkLe (fst x) (fst z)); [reflexivity|].
  rewrite IH. apply Permutation_swap.
Qed.

(** The entries that the walk visits: those of the world at or under the
    root, each of them once. *)
Lemma walked_spec (w : World) (rootPath : string) :
  NoDup (map fst (walked w rootPath))
  /\ forall path node,
       (path, node) ∈ walked w rootPath
       <-> w !! path = Some node /\ isUnder rootPath path = true.
Proof.
  unfold walked.
  apply (map_fold_weak_ind
           (fun (r : list (string * Node)) (m : World) =>
              NoDup (map fst r)
              /\ forall path node,
                   (path, node) ∈ r
                   <-> m !! path = Some node /\ isUnder rootPath path = true)).
  - split; [constructor|]. intros path node. split.
    + intros H. now apply not_elem_of_nil in H.
    + intros [H _]. now rewrite lookup_empty in H.
  - intros i x m r Hi [Hnd Hmem].
    destruct (isUnder rootPath i) eqn:Hu.
    + split.
      * rewrite (fmap_Permutation fst _ _ (insertSorted_Permutation (i, x) r)).
        cbn [map fst]. apply NoDup_cons. split; [|exact Hnd].
        intros Hin. apply list_elem_of_fmap in Hin as ([q n] & Hq & Hin).
        cbn in Hq. subst q. apply Hmem in Hin as [Hin _]. congruence.
      * intros path node. rewrite (insertSorted_Permutation (i, x) r), elem_of_cons, Hmem.
        split.
        -- intros [[= -> ->] | [Hc Hp]].
           ++ split; [apply lookup_insert_eq | exact Hu].
           ++ split; [|exact Hp]. rewrite lookup_insert_ne; [exact Hc | congruence].
        -- intros [Hc Hp].
           destruct (decide (path = i)) as [-> | Hne].
           ++ rewrite lookup_insert_eq in Hc. injection Hc as <-. now left.
           ++ right. now rewrite lookup_insert_ne in Hc by congruence.
    + split; [exact Hnd|].
      intros path node. rewrite Hmem. split.
      * intros [Hc Hp]. split; [|exact Hp].
        rewrite lookup_insert_ne; [exact Hc | congruence].
      * intros [Hc Hp].
        destruct (decide (path = i)) as [-> | Hne]; [congruence|].
        now rewrite lookup_insert_ne in Hc by congruence.
Qed.

(** The files among entries. *)
Lemma elem_of_regularFiles (entries : list (string * Node)) (path : string) :
  path ∈ regularFiles entries <-> exists content, (path, File content) ∈ entries.
Proof.
  unfold regularFiles. rewrite list_elem_of_fmap. split.
  - intros ([q n] & -> & Hin). apply list_elem_of_In, filter_In in Hin as [Hin Hf].
    cbn in Hf. destruct n as [content|]; [|discriminate].
    exists content. now apply list_elem_of_In.
  - intros (content & Hin). exists (path, File content). split; [reflexivity|].
    apply list_elem_of_In, filter_In. split; [now apply list_elem_of_In | reflexivity].
Qed.

Lemma NoDup_regularFiles (entries : list (string * Node)) :
  NoDup (map fst entries) -> NoDup (regularFiles entries).
Proof.
  unfold regularFiles. induction entries as [|[q n] l IH]; cbn; [constructor|].
  intros Hnd. apply NoDup_cons in Hnd as [Hq Hl].
  destruct n as [content|]; cbn; [|now apply IH].
  apply NoDup_cons. split; [|now apply IH].
  intros Hin. apply Hq. apply list_elem_of_fmap in Hin as ([q' n'] & -> & Hin).
  apply list_elem_of_In, filter_In in Hin as [Hin _].
  apply list_elem_of_fmap. exists (q', n'). split; [reflexivity | now apply list_elem_of_In].
Qed.

Lemma regularFiles_app (l1 l2 : list (string * Node)) :
  regularFiles (l1 ++ l2) = (regularFiles l1 ++ regularFiles l2)%list.
Proof. unfold regularFiles. now rewrite List.filter_app, map_app. Qed.

(** What [scanFiles] finds in a world. *)
Lemma scanFiles_found (env : Env) (rootPath : string) (s : State) :
  fault env (OpWalk rootPath) = false -> world s !! rootPath <> None ->
  snd (fst (scanFiles env rootPath s)) = None
  /\ snd (scanFiles env rootPath s) = s
  /\ NoDup (fst (fst (scanFiles env rootPath s)))
  /\ forall path,
       path ∈ fst (fst (scanFiles env rootPath s))
       <-> exists content, world s !! path = Some (File content)
                           /\ isUnder rootPath path = true.
Proof.
  intros Hf Hroot. unfold scanFiles. rewrite Hf.
  destruct (world s !! rootPath) as [node|] eqn:Hr; [|contradiction]. cbn [fst snd].
  destruct (walked_spec (world s) rootPath) as [Hnd Hmem].
  split; [reflexivity|]. split; [reflexivity|].
  split; [now apply NoDup_regularFiles|].
  intros path. rewrite elem_of_regularFiles. split.
  - intros (content & Hin). exists content. now apply Hmem.
  - intros (content & Hin). exists content. now apply Hmem.
Qed.

(** [scanFiles] on a root that is there, when the walk meets no error,
    returns the regular files at or under the root, each of them once and
    no directory, and changes nothing.  A root that is missing is an
    error, and no file is returned with it.  A walk that fails below a
    root that is there returns the error together with the files it has
    passed: a front part of the files that the walk returns when it does
    not fail, and none of them when it fails at its first entry. *)
Theorem scanFiles_lists_files (env : Env) (rootPath : string) (s : State) :
  (fault env (OpWalk rootPath) = false -> world s !! rootPath <> None ->
   snd (fst (scanFiles env rootPath s)) = None
   /\ snd (scanFiles env rootPath s) = s
   /\ NoDup (fst (fst (scanFiles env rootPath s)))
   /\ forall path,
        path ∈ fst (fst (scanFiles env rootPath s))
        <-> exists content, world s !! path = Some (File content)
                            /\ isUnder rootPath path = true)
  /\ (filepath.Clean rootPath = rootPath -> world s !! rootPath = None ->
      scanFiles env rootPath s = (([], Some (ErrIO (OpWalk rootPath))), s))
  /\ (fault env (OpWalk rootPath) = true -> world s !! rootPath <> None ->
      snd (fst (scanFiles env rootPath s)) = Some (ErrIO (OpWalk rootPath))
      /\ snd (scanFiles env rootPath s) = s
      /\ (forall env', fault env' (OpWalk rootPath) = false ->
            exists later,
              (fst (fst (scanFiles env rootPath s)) ++ later)%list
              = fst (fst (scanFiles env' rootPath s)))
      /\ (visitedBeforeFault env rootPath = 0 -> fst (fst (scanFiles env rootPath s)) = [])).
Proof.
  split; [apply scanFiles_found|]. split.
  - intros _ Hr. unfold scanFiles. now rewrite Hr.
  - intros Hf Hroot. unfold scanFiles. rewrite Hf.
    destruct (world s !! rootPath) as [node|] eqn:Hr; [|contradiction]. cbn [fst snd].
    split; [reflexivity|]. split; [reflexivity|]. split.
    + intros env' Hf'. rewrite Hf'. cbn [fst].
      exists (regularFiles
                (drop (Nat.min (visitedBeforeFault env rootPath)
                         (length (walked (world s) rootPath) - 1))
                   (walked (world s) rootPath))).
      now rewrite <- regularFiles_app, firstn_skipn.
    + intros ->. reflexivity.
Qed.

(** A configured exclude pattern that is the empty string excludes every
    device, whatever its size, filesystem and path: every path contains
    the empty string. *)
Theorem IsAllowedDevice_empty_pattern (cfg : config.Config)
    (EqualFold : string -> string -> bool) (d : Device) :
  In "" (config.ExcludePatterns (config.DeviceDetection cfg)) ->
  IsAllowedDevice cfg EqualFold d = false.
Proof.
  intros Hin. unfold IsAllowedDevice.
  assert (pathExcluded (Path d) (config.ExcludePatterns (config.DeviceDetection cfg))
          = true) as ->.
  { apply policy.pathExcluded_spec. exists "". split; [exact Hin|].
    exists "", (Path d). reflexivity. }
  destruct (Size d <? _)%Z; [reflexivity|].
  destruct (_ && _); reflexivity.
Qed.

End device_facts.

(** * The names that [Parse] takes apart *)

Module file_names.

Import parser.

Lemma Ext_suffix (path : string) : exists stem, path = stem +:+ filepath.Ext path.
Proof.
  induction path as [|c rest (stem & IH)]; [now exists ""|]. simpl.
  destruct (filepath.Ext rest) as [|d e] eqn:He.
  - destruct (Ascii.eqb c "." && negb (filepath.hasSep rest)).
    + now exists "".
    + exists (String c rest). now rewrite append_nil_r.
  - exists (String c stem). simpl. now rewrite <- IH.
Qed.

Lemma TrimSuffix_append (a b : string) : strings.TrimSuffix (a +:+ b) b = a.
Proof.
  unfold strings.TrimSuffix, strings.HasSuffix.
  rewrite length_append.
  replace (String.length a + String.length b - String.length b)
    with (String.length a) by lia.
  rewrite drop_append_length, String.eqb_refl, take_append_length.
  assert ((String.length b <=? String.length a + String.length b)%nat = true) as ->
      by (apply Nat.leb_le; lia).
  reflexivity.
Qed.

(** No dot in a name without separator whose extension is empty. *)
Lemma no_dot (s : string) :
  filepath.Ext s = "" -> filepath.hasSep s = false -> strings.Contains s "." = false.
Proof.
  induction s as [|c s IH]; [reflexivity|]. simpl. intros He Hs.
  apply orb_false_iff in Hs as [_ Hs].
  destruct (filepath.Ext s) as [|d e] eqn:Hes; [|discriminate].
  rewrite Hs in He. simpl in He. rewrite andb_true_r in He.
  rewrite (IH eq_refl Hs), orb_false_r.
  unfold strings.HasPrefix. simpl.
  destruct (Ascii.eqb_spec c "."); [discriminate | reflexivity].
Qed.

Lemma Ext_shape (path : string) :
  filepath.Ext path = ""
  \/ exists e, filepath.Ext path = String "." e /\ filepath.hasSep e = false
               /\ strings.Contains e "." = false.
Proof.
  induction path as [|c rest IH]; [now left|]. simpl.
  destruct (filepath.Ext rest) as [|d e] eqn:He.
  - destruct (Ascii.eqb_spec c "."); simpl; [|now left].
    destruct (filepath.hasSep rest) eqn:Hs; simpl; [now left|].
    right. exists rest. subst c. repeat split; [assumption|]. now apply no_dot.
  - exact IH.
Qed.

(** The file name that [Parse] records is the name that was matched
    against the pattern followed by the extension: nothing of the name is
    lost between the two.  An extension is empty or a dot followed by text
    without dot or separator.  Under the reference pattern a matched file
    name is its four tokens joined by underscores, followed by the
    extension. *)
Theorem Parse_file_name (p : Parser) (filePath : string) :
  strings.TrimSuffix (FileName (Parse p filePath)) (Extension (Parse p filePath))
  +:+ Extension (Parse p filePath) = FileName (Parse p filePath)
  /\ FileName (Parse p filePath)
     = classifier.nameWithoutExt filePath +:+ Extension (Parse p filePath)
  /\ (Extension (Parse p filePath) = ""
      \/ exists e, Extension (Parse p filePath) = String "." e
                   /\ filepath.hasSep e = false /\ strings.Contains e "." = false)
  /\ (pattern p = testPattern -> Matched (Parse p filePath) = true ->
      FileName (Parse p filePath)
      = ProjectName (Parse p filePath) +:+ "_" +:+ Client (Parse p filePath) +:+ "_"
        +:+ Camera (Parse p filePath) +:+ "_" +:+ ClipNumber (Parse p filePath)
        +:+ Extension (Parse p filePath)).
Proof.
  assert (FileName (Parse p filePath) = filepath.Base filePath
          /\ Extension (Parse p filePath) = filepath.Ext (filepath.Base filePath))
    as [Hname Hext].
  { unfold Parse. destruct (length _ =? 5)%nat; split; reflexivity. }
  destruct (Ext_suffix (filepath.Base filePath)) as (stem & Hstem).
  assert (classifier.nameWithoutExt filePath = stem) as Hnw.
  { unfold classifier.nameWithoutExt. rewrite Hstem at 1. apply TrimSuffix_append. }
  split; [|split; [|split]].
  - rewrite Hname, Hext. fold (classifier.nameWithoutExt filePath).
    now rewrite Hnw, <- Hstem.
  - now rewrite Hname, Hext, Hnw, <- Hstem.
  - rewrite Hext. apply Ext_shape.
  - intros Hp Hm.
    assert (FileName (Parse p filePath)
            = classifier.nameWithoutExt filePath +:+ Extension (Parse p filePath)) as ->
        by now rewrite Hname, Hext, Hnw, <- Hstem.
    rewrite classifier_facts.Parse_matched in Hm. revert Hm.
    unfold Parse. fold (classifier.nameWithoutExt filePath). rewrite Hp.
    unfold regexp.FindStringSubmatch.
    destruct (regexp.search testPattern 0 (classifier.nameWithoutExt filePath))
      as [[whole caps]|] eqn:Hs; [|discriminate].
    apply reference_pattern.search_testPattern in Hs.
    destruct Hs as (project & client & camera & clip & Hn & -> & -> & _).
    intros _. change (regexp.NumSubexp testPattern) with 4. simpl.
    rewrite Hn at 1. now rewrite !append_assoc.
Qed.

End file_names.

(** * Sizes for the reader *)

Module sizes_facts.

Import sizes.

(** The loop multiplies [div] by 1024 once for every division of [n], as
    long as the product stays an [int64]. *)
Lemma scale_spec (fuel : nat) :
  forall (n div : Z) (exp : nat),
    (0 <= n < 1024 ^ Z.of_nat fuel)%Z -> (0 < div)%Z -> (div * Z.max n 1 < 2 ^ 63)%Z ->
    exists k : nat,
      scale fuel n div exp = ((div * 1024 ^ Z.of_nat k)%Z, exp + k)
      /\ (n < 1024 ^ (Z.of_nat k + 1))%Z
      /\ (k = 0 \/ (1024 ^ Z.of_nat k <= n)%Z).
Proof.
  induction fuel as [|fuel IH]; intros n div exp Hn Hdiv Hfit.
  - exists 0. simpl in *. split; [f_equal; lia|]. split; [lia | now left].
  - cbn [scale]. unfold unit.
    destruct (1024 <=? n)%Z eqn:E.
    + apply Z.leb_le in E.
      assert (0 <= n ÷ 1024 /\ 1024 * (n ÷ 1024) <= n < 1024 * (n ÷ 1024) + 1024)%Z
        as (Hq0 & Hq1 & Hq2).
      { rewrite Z.quot_div_nonneg by lia.
        pose proof (Z.div_mod n 1024 ltac:(lia)).
        pose proof (Z.mod_pos_bound n 1024 ltac:(lia)).
        pose proof (Z.div_pos n 1024 ltac:(lia) ltac:(lia)). lia. }
      assert (transfer.wrap64 (div * 1024) = div * 1024)%Z as Hw.
      { unfold transfer.wrap64. rewrite Z.mod_small; nia. }
      rewrite Hw.
      destruct (IH (n ÷ 1024)%Z (div * 1024)%Z (S exp)) as (k & Hs & Hlt & Hk).
      * split; [lia|]. rewrite Nat2Z.inj_succ, Z.pow_succ_r in Hn by lia. lia.
      * lia.
      * assert (1 <= n ÷ 1024)%Z by lia. nia.
      * exists (S k). rewrite Hs. split; [|split].
        -- f_equal; [|lia]. rewrite Nat2Z.inj_succ, Z.pow_succ_r by lia. lia.
        -- rewrite Nat2Z.inj_succ.
           replace (Z.succ (Z.of_nat k) + 1)%Z with (Z.succ (Z.of_nat k + 1)) by lia.
           rewrite Z.pow_succ_r by lia. lia.
        -- right. rewrite Nat2Z.inj_succ, Z.pow_succ_r by lia.
           destruct Hk as [-> | Hk]; [simpl; lia | lia].
    + apply Z.leb_gt in E. exists 0. split; [f_equal; [simpl; lia | lia]|].
      split; [simpl; lia | now left].
Qed.

(** The divisor and the index that the loop leaves for a size of 1024 or
    more. *)
Lemma formatSize_scale (bytes : Z) :
  (1024 <= bytes < 2 ^ 63)%Z ->
  exists k : nat,
    scale 7 (bytes ÷ 1024)%Z 1024 0 = ((1024 ^ (Z.of_nat k + 1))%Z, k)
    /\ (1024 ^ (Z.of_nat k + 1) <= bytes < 1024 * 1024 ^ (Z.of_nat k + 1))%Z.
Proof.
  intros Hb.
  assert (1 <= bytes ÷ 1024 /\ 1024 * (bytes ÷ 1024) <= bytes
          < 1024 * (bytes ÷ 1024) + 1024)%Z as (Hq0 & Hq1 & Hq2).
  { rewrite Z.quot_div_nonneg by lia.
    pose proof (Z.div_mod bytes 1024 ltac:(lia)).
    pose proof (Z.mod_pos_bound bytes 1024 ltac:(lia)).
    assert (1 <= bytes / 1024)%Z by (apply Z.div_le_lower_bound; lia). lia. }
  destruct (scale_spec 7 (bytes ÷ 1024)%Z 1024 0) as (k & Hs & Hlt & Hk);
    [change (1024 ^ Z.of_nat 7)%Z with (2 ^ 70)%Z; lia | lia | lia |].
  exists k. rewrite Hs. simpl Nat.add.
  rewrite Z.pow_add_r, Z.pow_1_r in * by lia.
  split; [f_equal; lia|].
  destruct Hk as [-> | Hk]; [simpl in *; lia | lia].
Qed.

(** [formatSize] returns for a size below 2^60, and panics from there
    on. *)
Lemma formatSize_defined (bytes : Z) :
  (- 2 ^ 63 <= bytes < 2 ^ 63)%Z ->
  ((bytes < 2 ^ 60)%Z -> exists size, formatSize bytes = Some size)
  /\ ((2 ^ 60 <= bytes)%Z -> formatSize bytes = None).
Proof.
  intros Hrange. unfold formatSize, unit.
  destruct (bytes <? 1024)%Z eqn:E.
  - apply Z.ltb_lt in E. split; [eauto | lia].
  - apply Z.ltb_ge in E.
    destruct (formatSize_scale bytes ltac:(lia)) as (k & -> & Hk1 & Hk2). split.
    + intros Hsmall.
      assert (k < 5) as Hk.
      { destruct (Nat.lt_ge_cases k 5) as [H | H]; [exact H | exfalso].
        assert (1024 ^ 6 <= 1024 ^ (Z.of_nat k + 1))%Z
          by (apply Z.pow_le_mono_r; lia).
        change (1024 ^ 6)%Z with (2 ^ 60)%Z in *. lia. }
      destruct k as [|[|[|[|[|k]]]]]; try lia; cbn; eauto.
    + intros Hbig.
      assert (5 <= k) as Hk.
      { destruct (Nat.lt_ge_cases k 5) as [H | H]; [exfalso | exact H].
        assert (1024 ^ (Z.of_nat k + 1) <= 1024 ^ 5)%Z
          by (apply Z.pow_le_mono_r; lia).
        change (1024 ^ 5)%Z with (2 ^ 50)%Z in *. lia. }
      destruct k as [|[|[|[|[|k]]]]]; try lia. simpl. now destruct k.
Qed.

(** [formatSize] of a 64-bit size.  Below 1024, negative sizes included,
    the size is printed in bytes.  From 1024 up to, and not including,
    2^60 it is printed in the unit [1024^(k+1)] with [k] the index of the
    suffix, and that unit is the largest power of 1024 that is at most the
    size: the size is at least the unit and less than 1024 units.  (The
    number printed is their quotient rounded to one decimal, which the
    rounding can take to 1024.0.)
    From 2^60 on, the index is 5, the list of suffixes ends at [PB] with
    index 4, and the function panics. *)
Theorem formatSize_units (bytes : Z) :
  (- 2 ^ 63 <= bytes < 2 ^ 63)%Z ->
  ((bytes < 1024)%Z -> formatSize bytes = Some (InBytes bytes))
  /\ ((1024 <= bytes < 2 ^ 60)%Z ->
      exists (k : nat) (suffix : string),
        nth_error units k = Some suffix
        /\ formatSize bytes = Some (Scaled bytes (1024 ^ (Z.of_nat k + 1)) suffix)
        /\ (1024 ^ (Z.of_nat k + 1) <= bytes < 1024 * 1024 ^ (Z.of_nat k + 1))%Z)
  /\ ((2 ^ 60 <= bytes)%Z -> formatSize bytes = None).
Proof.
  intros Hrange. split; [|split].
  - intros Hsmall. unfold formatSize, unit.
    now apply Z.ltb_lt in Hsmall as ->.
  - intros [Hlo Hhi].
    destruct (formatSize_scale bytes ltac:(lia)) as (k & Hs & Hk1 & Hk2).
    assert (k < 5) as Hk.
    { destruct (Nat.lt_ge_cases k 5) as [H | H]; [exact H | exfalso].
      assert (1024 ^ 6 <= 1024 ^ (Z.of_nat k + 1))%Z
        by (apply Z.pow_le_mono_r; lia).
      change (1024 ^ 6)%Z with (2 ^ 60)%Z in *. lia. }
    unfold formatSize, unit.
    assert ((bytes <? 1024)%Z = false) as -> by lia. rewrite Hs.
    destruct k as [|[|[|[|[|k]]]]]; try lia;
      [exists 0, "KB" | exists 1, "MB" | exists 2, "GB" | exists 3, "TB" | exists 4, "PB"];
      (split; [reflexivity|]; split; [reflexivity | split; assumption]).
  - intros Hbig.
    destruct (formatSize_scale bytes ltac:(lia)) as (k & Hs & Hk1 & Hk2).
    assert (5 <= k) as Hk.
    { destruct (Nat.lt_ge_cases k 5) as [H | H]; [exfalso | exact H].
      assert (1024 ^ (Z.of_nat k + 1) <= 1024 ^ 5)%Z
        by (apply Z.pow_le_mono_r; lia).
      change (1024 ^ 5)%Z with (2 ^ 50)%Z in *. lia. }
    unfold formatSize, unit.
    assert ((bytes <? 1024)%Z = false) as -> by lia. rewrite Hs.
    destruct k as [|[|[|[|[|k]]]]]; try lia. simpl. now destruct k.
Qed.

End sizes_facts.

(** * The detector of removable drives on Windows *)

Module windows_facts.

Import device windows.

Section Detector.

Variable sys : System.
Variable VolumeName : string -> string.
Context {C : Type}.
Variable callback : Device -> C -> C.

Local Abbreviation removable :=
  (fun drive => (getDriveType sys drive =? DRIVE_REMOVABLE)%Z).
Local Abbreviation deviceOf := (fun drive => fst (GetDeviceInfo sys VolumeName drive)).

Lemma GetDeviceInfo_nil (drive : string) :
  GetDeviceInfo sys VolumeName drive = (deviceOf drive, None).
Proof.
  unfold GetDeviceInfo.
  destruct (getVolumeInformationW sys _) as [[label filesystem]|]; reflexivity.
Qed.

Lemma found_spec (drives : list string) (d : string) :
  found sys drives d = true <-> In d drives /\ removable d = true.
Proof.
  unfold found. rewrite List.existsb_exists. split.
  - intros (x & Hin & H). apply andb_true_iff in H as [Heq Hr].
    apply String.eqb_eq in Heq. subst x. now split.
  - intros [Hin Hr]. exists d. split; [exact Hin|].
    now rewrite String.eqb_refl, Hr.
Qed.

Lemma known_true (K : gmap string bool) (d : string) :
  known K d = true <-> K !! d = Some true.
Proof.
  unfold known. destruct (K !! d) as [[|]|]; simpl; split; congruence.
Qed.

Lemma NoDup_getLogicalDrives : List.NoDup (getLogicalDrives sys).
Proof.
  unfold getLogicalDrives. apply List.NoDup_filter.
  apply NoDup_ListNoDup, NoDup_fmap_2_strong.
  - intros x y _ _ H. now injection H.
  - unfold driveLetters. apply (bool_decide_unpack _). vm_compute. reflexivity.
Qed.

(** The first loop: the drives present are known afterwards exactly when
    they are removable, the other entries are left alone. *)
Lemma checkCurrent_known (drives : list string) :
  forall (K : gmap string bool) (lines : list Line) (c : C) (d : string),
    (In d drives ->
     fst (fst (checkCurrent sys VolumeName callback drives K lines c)) !! d
     = if removable d then Some true else None)
    /\ (~ In d drives ->
        fst (fst (checkCurrent sys VolumeName callback drives K lines c)) !! d = K !! d).
Proof.
  induction drives as [|drive rest IH]; intros K lines c d.
  - simpl. split; [contradiction | reflexivity].
  - cbn [checkCurrent]. rewrite GetDeviceInfo_nil.
    assert (forall K1 lines1 c1,
               K1 !! drive = (if removable drive then Some true else None) ->
               (forall x, x <> drive -> K1 !! x = K !! x) ->
               (In d (drive :: rest) ->
                fst (fst (checkCurrent sys VolumeName callback rest K1 lines1 c1)) !! d
                = if removable d then Some true else None)
               /\ (~ In d (drive :: rest) ->
                   fst (fst (checkCurrent sys VolumeName callback rest K1 lines1 c1)) !! d
                   = K !! d)) as Hstep.
    { intros K1 lines1 c1 Hdrive Hother.
      destruct (IH K1 lines1 c1 d) as [Hin Hout].
      destruct (in_dec string_dec d rest) as [Hr | Hr].
      - split; [intros _; now apply Hin | intros H; exfalso; apply H; now right].
      - split.
        + intros [<- | H]; [|contradiction]. now rewrite (Hout Hr).
        + intros H. rewrite (Hout Hr). apply Hother. intros ->. apply H. now left. }
    destruct (removable drive) eqn:Er.
    + destruct (known K drive) eqn:Ek; cbn [negb].
      * apply Hstep; [now apply known_true | reflexivity].
      * apply Hstep; [apply lookup_insert_eq|].
        intros x Hx. now apply lookup_insert_ne.
    + apply Hstep; [apply lookup_delete_eq|].
      intros x Hx. now apply lookup_delete_ne.
Qed.

(** The first loop calls back once for every removable drive present that
    was not known, in the order of the drive letters. *)
Lemma checkCurrent_callbacks (drives : list string) :
  forall (K : gmap string bool) (lines : list Line) (c : C),
    List.NoDup drives ->
    snd (checkCurrent sys VolumeName callback drives K lines c)
    = fold_left (fun c drive => callback (deviceOf drive) c)
        (List.filter (fun drive => removable drive && negb (known K drive)) drives) c
    /\ snd (fst (checkCurrent sys VolumeName callback drives K lines c))
       = (lines ++ map NewRemovableDrive
                     (List.filter (fun drive => removable drive && negb (known K drive))
                        drives))%list.
Proof.
  induction drives as [|drive rest IH]; intros K lines c Hnd.
  - simpl. now rewrite app_nil_r.
  - apply List.NoDup_cons_iff in Hnd as [Hnotin Hnd].
    cbn [checkCurrent List.filter]. rewrite GetDeviceInfo_nil.
    assert (forall K1,
               (forall x, x <> drive -> K1 !! x = K !! x) ->
               List.filter (fun drive => removable drive && negb (known K1 drive)) rest
               = List.filter (fun drive => removable drive && negb (known K drive)) rest)
      as Hsame.
    { intros K1 HK1. apply List.filter_ext_in. intros x Hx.
      unfold known. rewrite HK1; [reflexivity|]. intros ->. contradiction. }
    destruct (removable drive) eqn:Er; cbn [andb].
    + destruct (known K drive) eqn:Ek; cbn [negb].
      * apply IH. exact Hnd.
      * destruct (IH (<[drive := true]> K) (lines ++ [NewRemovableDrive drive])%list
                    (callback (deviceOf drive) c) Hnd) as [H1 H2].
        rewrite H1, H2, Hsame by (intros x Hx; now apply lookup_insert_ne).
        simpl. now rewrite <- app_assoc.
    + destruct (IH (delete drive K) lines c Hnd) as [H1 H2].
      rewrite H1, H2, Hsame by (intros x Hx; now apply lookup_delete_ne).
      split; reflexivity.
Qed.

(** The second loop removes the entries that are not found, and nothing
    when all are found. *)
Lemma removeGone_spec (drives : list string) (K : gmap string bool) (lines : list Line) :
  (forall d, fst (removeGone sys drives K lines) !! d
             = if found sys drives d then K !! d else None)
  /\ ((forall d, is_Some (K !! d) -> found sys drives d = true) ->
      removeGone sys drives K lines = (K, lines)).
Proof.
  unfold removeGone.
  set (f := fun drive (_ : bool) (acc : gmap string bool * list Line) =>
              if negb (found sys drives drive)
              then (delete drive (fst acc), (snd acc ++ [DriveRemoved drive])%list)
              else acc).
  assert (forall m : gmap string bool,
             (forall d, fst (map_fold f (K, lines) m) !! d
                        = match m !! d with
                          | Some _ => if found sys drives d then K !! d else None
                          | None => K !! d
                          end)
             /\ ((forall d, is_Some (m !! d) -> found sys drives d = true) ->
                 map_fold f (K, lines) m = (K, lines))) as Hfold.
  { apply (map_fold_weak_ind
             (fun (r : gmap string bool * list Line) (m : gmap string bool) =>
                (forall d, fst r !! d
                           = match m !! d with
                             | Some _ => if found sys drives d then K !! d else None
                             | None => K !! d
                             end)
                /\ ((forall d, is_Some (m !! d) -> found sys drives d = true) ->
                    r = (K, lines)))).
    - split; [|reflexivity]. intros d. now rewrite lookup_empty.
    - intros i x m r Hi [Hlook Hsame]. split.
      + intros d. unfold f. destruct (decide (d = i)) as [-> | Hne].
        * rewrite lookup_insert_eq.
          destruct (found sys drives i); cbn [negb].
          -- now rewrite Hlook, Hi.
          -- apply lookup_delete_eq.
        * rewrite lookup_insert_ne by congruence.
          destruct (found sys drives i); cbn [negb fst]; [apply Hlook|].
          rewrite lookup_delete_ne by congruence. apply Hlook.
      + intros Hall. unfold f.
        rewrite (Hall i) by (rewrite lookup_insert_eq; eauto). cbn [negb].
        apply Hsame. intros d Hd. apply Hall.
        destruct (decide (d = i)) as [-> | Hne];
          [rewrite lookup_insert_eq; eauto | now rewrite lookup_insert_ne by congruence]. }
  destruct (Hfold K) as [Hlook Hsame]. split; [|exact Hsame].
  intros d. rewrite Hlook.
  destruct (K !! d) eqn:Hd; [reflexivity | now destruct (found sys drives d)].
Qed.

(** A map that holds the removable drives present, and nothing else. *)
Lemma checkCurrent_settled (K : gmap string bool) (lines : list Line) (c : C)
    (drives : list string) :
  (forall d, K !! d = if found sys (getLogicalDrives sys) d then Some true else None) ->
  (forall d, In d drives -> In d (getLogicalDrives sys)) ->
  checkCurrent sys VolumeName callback drives K lines c = (K, lines, c).
Proof.
  intros HK. induction drives as [|drive rest IH]; intros Hsub; [reflexivity|].
  cbn [checkCurrent]. specialize (HK drive) as Hdrive.
  destruct (removable drive) eqn:Er.
  - assert (found sys (getLogicalDrives sys) drive = true) as Hf.
    { apply found_spec. split; [apply Hsub; now left | exact Er]. }
    rewrite Hf in Hdrive. apply known_true in Hdrive. rewrite Hdrive. cbn [negb].
    apply IH. intros d Hd. apply Hsub. now right.
  - assert (found sys (getLogicalDrives sys) drive = false) as Hf.
    { apply not_true_is_false. intros H. apply found_spec in H as [_ H]. congruence. }
    rewrite Hf in Hdrive. rewrite (delete_id _ _ Hdrive).
    apply IH. intros d Hd. apply Hsub. now right.
Qed.

Lemma checkForNewDrives_settled (w : WindowsDetector) (lines : list Line) (c : C) :
  (forall d, knownDrives w !! d
             = if found sys (getLogicalDrives sys) d then Some true else None) ->
  checkForNewDrives sys VolumeName callback w lines c = (w, lines, c).
Proof.
  intros HK. unfold checkForNewDrives.
  rewrite (checkCurrent_settled _ _ _ _ HK) by auto.
  destruct (removeGone_spec (getLogicalDrives sys) (knownDrives w) lines) as [_ Hsame].
  rewrite Hsame.
  - now destruct w.
  - intros d [x Hd]. rewrite HK in Hd.
    destruct (found sys (getLogicalDrives sys) d); [reflexivity | discriminate].
Qed.

Lemma checkForNewDrives_result (w : WindowsDetector) (lines : list Line) (c : C) (d : string) :
  knownDrives (fst (fst (checkForNewDrives sys VolumeName callback w lines c))) !! d
  = if found sys (getLogicalDrives sys) d then Some true else None.
Proof.
  unfold checkForNewDrives.
  destruct (checkCurrent_known (getLogicalDrives sys) (knownDrives w) lines c d)
    as [Hin Hout].
  destruct (checkCurrent sys VolumeName callback (getLogicalDrives sys) (knownDrives w)
              lines c) as [[K1 lines1] c1]. cbn [fst snd] in *.
  destruct (removeGone_spec (getLogicalDrives sys) K1 lines1) as [Hlook _].
  destruct (removeGone sys (getLogicalDrives sys) K1 lines1) as [K2 lines2].
  cbn [fst snd knownDrives] in *. rewrite Hlook.
  destruct (found sys (getLogicalDrives sys) d) eqn:Hf; [|reflexivity].
  apply found_spec in Hf as [Hd Hr]. rewrite (Hin Hd), Hr. reflexivity.
Qed.

(** After a check the known drives are the removable drives present, and
    nothing else, whatever was known before; the callback has been called
    once for each removable drive present that was not known, in the order
    of the drive letters, and for no other drive. *)
Theorem checkForNewDrives_known (w : WindowsDetector) (lines : list Line) (c : C) :
  (forall d,
      knownDrives (fst (fst (checkForNewDrives sys VolumeName callback w lines c))) !! d
      = Some true
      <-> In d (getLogicalDrives sys) /\ getDriveType sys d = DRIVE_REMOVABLE)
  /\ (forall d,
        knownDrives (fst (fst (checkForNewDrives sys VolumeName callback w lines c))) !! d
        = Some true
        \/ knownDrives (fst (fst (checkForNewDrives sys VolumeName callback w lines c))) !! d
           = None)
  /\ snd (checkForNewDrives sys VolumeName callback w lines c)
     = fold_left (fun c drive => callback (fst (GetDeviceInfo sys VolumeName drive)) c)
         (announced sys w) c
  /\ watching (fst (fst (checkForNewDrives sys VolumeName callback w lines c))) = watching w.
Proof.
  split; [|split; [|split]].
  - intros d. rewrite checkForNewDrives_result.
    destruct (found sys (getLogicalDrives sys) d) eqn:Hf.
    + apply found_spec in Hf as [Hin Hr]. apply Z.eqb_eq in Hr. tauto.
    + split; [discriminate|]. intros [Hin Hr].
      assert (found sys (getLogicalDrives sys) d = true) as H
          by (apply found_spec; split; [exact Hin | now apply Z.eqb_eq]).
      congruence.
  - intros d. rewrite checkForNewDrives_result.
    destruct (found sys (getLogicalDrives sys) d); [now left | now right].
  - unfold checkForNewDrives, announced.
    destruct (checkCurrent_callbacks (getLogicalDrives sys) (knownDrives w) lines c
                NoDup_getLogicalDrives) as [Hc _].
    destruct (checkCurrent sys VolumeName callback (getLogicalDrives sys) (knownDrives w)
                lines c) as [[K1 lines1] c1].
    destruct (removeGone sys (getLogicalDrives sys) K1 lines1) as [K2 lines2].
    exact Hc.
  - unfold checkForNewDrives.
    destruct (checkCurrent sys VolumeName callback (getLogicalDrives sys) (knownDrives w)
                lines c) as [[K1 lines1] c1].
    destruct (removeGone sys (getLogicalDrives sys) K1 lines1) as [K2 lines2].
    reflexivity.
Qed.

Lemma initKnown_spec (drives : list string) :
  forall (K : gmap string bool) (d : string),
    initKnown sys drives K !! d
    = if found sys drives d then Some true else K !! d.
Proof.
  induction drives as [|drive rest IH]; intros K d; [reflexivity|].
  cbn [initKnown]. unfold found. cbn [existsb]. fold (found sys rest d).
  destruct (removable drive) eqn:Er; rewrite IH.
  - destruct (found sys rest d); [now rewrite orb_true_r|]. rewrite orb_false_r.
    destruct (String.eqb_spec d drive) as [-> | Hne]; cbn [andb].
    + apply lookup_insert_eq.
    + now apply lookup_insert_ne.
  - rewrite andb_false_r. reflexivity.
Qed.

(** A drive is announced once.  A check that follows a check, with the
    drives unchanged, calls nothing back and changes nothing; so does a
    check that follows the start of the watch by a detector that knew no
    drive: the drives present when the watch starts are not announced by
    it.  A second start of the watch is refused and changes nothing. *)
Theorem drives_announced_once (w : WindowsDetector) (lines : list Line) (c : C) :
  (forall lines' (c' : C),
      checkForNewDrives sys VolumeName callback
        (fst (fst (checkForNewDrives sys VolumeName callback w lines c))) lines' c'
      = (fst (fst (checkForNewDrives sys VolumeName callback w lines c)), lines', c'))
  /\ (watching w = false -> knownDrives w = ∅ ->
      snd (WatchForDevices sys w lines) = None
      /\ watching (fst (fst (WatchForDevices sys w lines))) = true
      /\ forall lines' (c' : C),
           checkForNewDrives sys VolumeName callback
             (fst (fst (WatchForDevices sys w lines))) lines' c'
           = (fst (fst (WatchForDevices sys w lines)), lines', c'))
  /\ (watching w = true ->
      WatchForDevices sys w lines = (w, lines, Some AlreadyWatching)).
Proof.
  split; [|split].
  - intros lines' c'. apply checkForNewDrives_settled. intros d.
    apply checkForNewDrives_result.
  - intros Hw HK. unfold WatchForDevices. rewrite Hw. cbn [fst snd watching].
    split; [reflexivity|]. split; [reflexivity|].
    intros lines' c'. apply checkForNewDrives_settled. intros d. cbn [knownDrives].
    rewrite initKnown_spec, HK, lookup_empty.
    now destruct (found sys (getLogicalDrives sys) d).
  - intros Hw. unfold WatchForDevices. now rewrite Hw.
Qed.

End Detector.

End windows_facts.

(** * The log on the device *)

Module devicelog_facts.

Import logfiles devicelog.

Section Logger.

Variable logging : LoggingConfig.
Variable openFails : string -> bool.

Lemma OpenFile_ok (path : string) (w : World) :
  openFails path = false -> w !! path <> Some Directory ->
  snd (OpenFile openFails path w) = true
  /\ (exists content, fst (OpenFile openFails path w) !! path = Some (File content)
                      /\ (w !! path = None -> content = ""))
  /\ forall q, q <> path -> fst (OpenFile openFails path w) !! q = w !! q.
Proof.
  intros Hf Hd. unfold OpenFile. rewrite Hf.
  destruct (w !! path) as [[content|]|] eqn:Hp; [| congruence |]; cbn [fst snd].
  - split; [reflexivity|]. split; [|reflexivity].
    exists content. split; [exact Hp | discriminate].
  - split; [reflexivity|]. split.
    + exists "". split; [apply lookup_insert_eq | reflexivity].
    + intros q Hq. now apply lookup_insert_ne.
Qed.

Lemma WriteString_eq (path line content : string) (w : World) :
  w !! path = Some (File content) ->
  WriteString path line w !! path = Some (File (content +:+ line)).
Proof. intros H. unfold WriteString. rewrite H. apply lookup_insert_eq. Qed.

Lemma WriteString_ne (path q line : string) (w : World) :
  q <> path -> WriteString path line w !! q = w !! q.
Proof.
  intros H. unfold WriteString. destruct (w !! path) as [[content|]|]; try reflexivity.
  now apply lookup_insert_ne.
Qed.

(** The life of a device log.  Without logging to devices, or without a
    mount path, [CreateDeviceLog] does nothing and returns nil.  Otherwise,
    when the file can be opened, it is there afterwards - empty if it was
    not there before - no other file has changed, and the device has it as
    its log: a line logged for the device is appended to it, and
    [CloseDeviceLog] takes the device out of the map again and leaves the
    file on the device.  The map is then as it was before the two calls
    when the device had no log in it; a log that the device had there is
    replaced by [CreateDeviceLog], without being closed, and is not in the
    map after [CloseDeviceLog]. *)
Theorem device_log_lifecycle (timestamp deviceName mountPath : string) (l : Logger)
    (w : World) :
  let path :=
    filepath.Join [mountPath;
                   "ingest_log_" +:+ timestamp +:+ "_" +:+ deviceName +:+ ".txt"] in
  let created := CreateDeviceLog logging openFails timestamp deviceName mountPath l w in
  (LogToDevice logging = false \/ mountPath = "" -> created = (l, None, w))
  /\ (LogToDevice logging = true -> mountPath <> "" -> openFails path = false ->
      w !! path <> Some Directory ->
      snd (fst created) = None
      /\ deviceLogs (fst (fst created)) = <[deviceName := path]> (deviceLogs l)
      /\ (exists content, snd created !! path = Some (File content)
                          /\ (w !! path = None -> content = ""))
      /\ (forall q, q <> path -> snd created !! q = w !! q)
      /\ (forall time level message content,
            deviceName <> "" -> serverLog l <> Some path ->
            snd created !! path = Some (File content) ->
            log time level deviceName message (fst (fst created)) (snd created) !! path
            = Some (File (content +:+ "[" +:+ time +:+ "] [" +:+ level +:+ "] "
                          +:+ message +:+ String (ascii_of_nat 10) "")))
      /\ deviceLogs (CloseDeviceLog deviceName (fst (fst created)))
         = delete deviceName (deviceLogs l)
      /\ (deviceLogs l !! deviceName = None ->
          deviceLogs (CloseDeviceLog deviceName (fst (fst created))) = deviceLogs l)
      /\ (forall earlier, deviceLogs l !! deviceName = Some earlier ->
          deviceLogs (fst (fst created)) !! deviceName = Some path
          /\ deviceLogs (CloseDeviceLog deviceName (fst (fst created))) !! deviceName
             = None)
      /\ serverLog (CloseDeviceLog deviceName (fst (fst created))) = serverLog l).
Proof.
  cbv zeta. split.
  - intros [Hoff | ->]; unfold CreateDeviceLog.
    + now rewrite Hoff.
    + now rewrite andb_false_r.
  - intros Hon Hmount Hopen Hdir. unfold CreateDeviceLog. rewrite Hon.
    apply String.eqb_neq in Hmount. rewrite Hmount. cbn [andb negb].
    destruct (OpenFile_ok _ w Hopen Hdir) as (Hok & Hfile & Hother).
    destruct (OpenFile openFails _ w) as [w' ok]. cbn [fst snd] in *. subst ok.
    cbn [negb fst snd deviceLogs serverLog].
    split; [reflexivity|]. split; [reflexivity|]. split; [exact Hfile|].
    assert (deviceLogs (CloseDeviceLog deviceName
                          {| serverLog := serverLog l;
                             deviceLogs := <[deviceName := filepath.Join
                                               [mountPath;
                                                "ingest_log_" +:+ timestamp +:+ "_"
                                                +:+ deviceName +:+ ".txt"]]>
                                             (deviceLogs l) |})
            = delete deviceName (deviceLogs l)) as Hclosed.
    { unfold CloseDeviceLog. cbn [deviceLogs serverLog]. rewrite lookup_insert_eq.
      cbn [deviceLogs]. apply delete_insert_eq. }
    split; [exact Hother|]. split; [|split; [|split; [|split]]].
    + intros time level message content Hname Hserver Hcontent.
      unfold log. cbn [serverLog deviceLogs].
      apply String.eqb_neq in Hname. rewrite Hname. cbn [negb].
      rewrite lookup_insert_eq.
      destruct (serverLog l) as [sp|].
      * apply WriteString_eq. rewrite WriteString_ne by congruence. exact Hcontent.
      * now apply WriteString_eq.
    + exact Hclosed.
    + intros Hnone. rewrite Hclosed. now apply delete_id.
    + intros earlier _. split; [apply lookup_insert_eq|].
      rewrite Hclosed. apply lookup_delete_eq.
    + unfold CloseDeviceLog. cbn [deviceLogs serverLog]. now rewrite lookup_insert_eq.
Qed.

End Logger.

(** The log that [ProcessDevice] has the logger keep on the device is
    created before the device is scanned: when it can be created it is
    among the files the scan finds there, and is handed to the transfer
    with the files of the device, also when it was not on the device
    before. *)
Theorem device_log_is_scanned (logging : LoggingConfig) (env : Env)
    (openFails : string -> bool) (timestamp : string) (l : Logger) (d : device.Device)
    (s : State) :
  LogToDevice logging = true -> device.MountPath d <> "" ->
  openFails (deviceLogPath timestamp d) = false ->
  world s !! deviceLogPath timestamp d <> Some Directory ->
  fault env (OpWalk (device.MountPath d)) = false ->
  world s !! device.MountPath d <> None ->
  device.isUnder (device.MountPath d) (deviceLogPath timestamp d) = true ->
  snd (fst (device.scanFiles env (device.MountPath d)
              (atScan logging openFails timestamp l d s))) = None
  /\ deviceLogPath timestamp d
     ∈ fst (fst (device.scanFiles env (device.MountPath d)
                   (atScan logging openFails timestamp l d s)))
  /\ (world s !! deviceLogPath timestamp d = None ->
      deviceLogPath timestamp d
      ∉ fst (fst (device.scanFiles env (device.MountPath d) s))).
Proof.
  intros Hon Hmount Hopen Hdir Hwalk Hroot Hunder.
  destruct (OpenFile_ok openFails (deviceLogPath timestamp d) (world s) Hopen Hdir)
    as (Hok & (content & Hfile & _) & Hother).
  assert (world (atScan logging openFails timestamp l d s)
          = fst (OpenFile openFails (deviceLogPath timestamp d) (world s))) as Hworld.
  { unfold atScan, CreateDeviceLog. cbn [world]. rewrite Hon.
    apply String.eqb_neq in Hmount. rewrite Hmount. cbn [andb negb].
    fold (deviceLogPath timestamp d).
    destruct (OpenFile openFails (deviceLogPath timestamp d) (world s)) as [w' ok].
    cbn [snd] in Hok. subst ok. reflexivity. }
  assert (world (atScan logging openFails timestamp l d s) !! device.MountPath d <> None)
    as Hroot'.
  { rewrite Hworld.
    destruct (decide (device.MountPath d = deviceLogPath timestamp d)) as [Heq | Hne].
    - rewrite Heq, Hfile. discriminate.
    - now rewrite Hother. }
  destruct (device_facts.scanFiles_found env (device.MountPath d)
              (atScan logging openFails timestamp l d s) Hwalk Hroot')
    as (Herr & _ & _ & Hmem).
  split; [exact Herr|]. split.
  - apply Hmem. exists content. rewrite Hworld. now split.
  - intros Hnew.
    destruct (device_facts.scanFiles_found env (device.MountPath d) s Hwalk Hroot)
      as (_ & _ & _ & Hmem0).
    rewrite Hmem0. intros (c & Hc & _). congruence.
Qed.

End devicelog_facts.

(** * The transfer of one file, with the logger's files *)

Module logged_transfer.

Import transfer transfer_file.

Section Transfer.

Variable cfg : config.Config.
Variable env : Env.
Variable sha256 : string -> string.
Variable lg : logfiles.Logger.
Variable clock : nat -> string.
Variable message : Event -> string.
Variable deviceName : string.

Local Abbreviation serverLog := logfiles.serverLog.
Local Abbreviation deviceLogs := logfiles.deviceLogs.
Local Abbreviation WriteString := logfiles.WriteString.
Local Abbreviation transferFile :=
  (filelog.transferFile cfg env sha256 lg clock message deviceName).
Local Abbreviation write := (filelog.write lg clock message).

(** What is left of an entry: a directory stays, and a file keeps its
    bytes, with lines after them when it is one of the logger's files. *)
Local Abbreviation kept q before after :=
  (match before with
   | Some Directory => after = Some Directory
   | Some (File content) =>
       exists lines,
         after = Some (File (content +:+ lines))
         /\ (serverLog lg <> Some q -> deviceLogs lg !! deviceName <> Some q -> lines = "")
   | None => True
   end).

Local Abbreviation follows q s s' :=
  (kept q (world s !! q) (world s' !! q)
   /\ exists entries, log s' = app (log s) entries).

Lemma WriteString_lookup (path line : string) (w : World) (q : string) :
  WriteString path line w !! q
  = match w !! q with
    | Some (File content) =>
        Some (File (content +:+ (if String.eqb q path then line else "")))
    | other => other
    end.
Proof.
  unfold logfiles.WriteString. destruct (String.eqb_spec q path) as [-> | Hne].
  - destruct (w !! path) as [[content|]|] eqn:Hp; rewrite ?lookup_insert_eq, ?Hp;
      reflexivity.
  - destruct (w !! path) as [[content|]|] eqn:Hp; rewrite ?lookup_insert_ne by congruence;
      destruct (w !! q) as [[c|]|]; now rewrite ?append_nil_r.
Qed.

(** A line that is logged changes the logger's two files and no other
    entry. *)
Lemma log_lookup (time level device text : string) (w : World) (q : string) :
  exists lines,
    logfiles.log time level device text lg w !! q
    = match w !! q with
      | Some (File content) => Some (File (content +:+ lines))
      | other => other
      end
    /\ (serverLog lg <> Some q -> deviceLogs lg !! device <> Some q -> lines = "").
Proof.
  unfold logfiles.log.
  set (line := "[" +:+ time +:+ "] [" +:+ level +:+ "] " +:+ text
               +:+ String (ascii_of_nat 10) "").
  set (w1 := match serverLog lg with
             | Some path => WriteString path line w
             | None => w
             end).
  assert (exists l1,
             w1 !! q = match w !! q with
                       | Some (File content) => Some (File (content +:+ l1))
                       | other => other
                       end
             /\ (serverLog lg <> Some q -> l1 = "")) as (l1 & H1 & N1).
  { unfold w1. destruct (serverLog lg) as [path|].
    - exists (if String.eqb q path then line else ""). split; [apply WriteString_lookup|].
      intros Hne. destruct (String.eqb_spec q path) as [-> | _]; [now contradiction Hne|].
      reflexivity.
    - exists "". split; [|reflexivity].
      destruct (w !! q) as [[c|]|]; now rewrite ?append_nil_r. }
  destruct (negb (String.eqb device "")).
  - destruct (deviceLogs lg !! device) as [path|].
    + exists (l1 +:+ (if String.eqb q path then line else "")). split.
      * rewrite WriteString_lookup, H1.
        destruct (w !! q) as [[c|]|]; now rewrite ?append_assoc.
      * intros Hs Hd. rewrite (N1 Hs).
        destruct (String.eqb_spec q path) as [-> | _]; [now contradiction Hd|].
        reflexivity.
    + exists l1. split; [exact H1|]. intros Hs _. exact (N1 Hs).
  - exists l1. split; [exact H1|]. intros Hs _. exact (N1 Hs).
Qed.

Lemma follows_refl (q : string) (s : State) : follows q s s.
Proof.
  split.
  - destruct (world s !! q) as [[content|]|]; [|reflexivity | exact I].
    exists "". now rewrite append_nil_r.
  - exists []. now rewrite app_nil_r.
Qed.

(** A step that keeps the entry and the log. *)
Lemma follows_same (q : string) (s s1 s2 : State) :
  follows q s s1 ->
  (forall node, world s1 !! q = Some node -> world s2 !! q = Some node) ->
  log s2 = log s1 ->
  follows q s s2.
Proof.
  intros [Hk Hl] Hw Hlog. split; [|now rewrite Hlog].
  destruct (world s !! q) as [[content|]|]; [| now apply Hw | exact I].
  destruct Hk as (lines & Hk & Hn). exists lines. split; [now apply Hw | exact Hn].
Qed.

(** A line that is logged. *)
Lemma follows_write (q : string) (s s1 : State) (l : Level) (ev : Event) :
  follows q s s1 -> follows q s (snd (write l deviceName ev s1)).
Proof.
  intros [Hk (entries & Hl)]. split.
  - cbn [filelog.write snd world].
    destruct (log_lookup (clock (length (log s1))) (filelog.levelName l) deviceName
                (message ev) (world s1) q) as (lines & -> & Hn).
    destruct (world s !! q) as [[content|]|]; [| now rewrite Hk | exact I].
    destruct Hk as (lines0 & -> & Hn0). exists (lines0 +:+ lines).
    split; [now rewrite append_assoc|].
    intros Hs Hd. now rewrite (Hn0 Hs Hd), (Hn Hs Hd).
  - cbn [filelog.write snd log]. rewrite Hl, <- app_assoc. now eexists.
Qed.

(** What a transfer leaves of an entry other than its destination. *)
Lemma transferFile_follows (t : FileTransfer) (s : State) (q : string) :
  q <> DestinationPath t -> follows q s (snd (transferFile t s)).
Proof.
  intros Hne. unfold filelog.transferFile, transferFileWith, bind.
  assert (follows q s (snd (os.MkdirAll env (filepath.Dir (DestinationPath t)) s))) as K1.
  { apply (follows_same q s s _ (follows_refl q s));
      [intros node; apply MkdirAll_keeps | apply MkdirAll_log]. }
  destruct (os.MkdirAll env (filepath.Dir (DestinationPath t)) s) as [e1 s1].
  cbn [snd] in K1.
  destruct e1 as [er|]; [exact (follows_write q s s1 _ _ K1)|].
  pose proof (Open_state env (SourcePath t) s1) as L2.
  destruct (os.Open env (SourcePath t) s1) as [e2 s2]. cbn [snd] in L2. subst s2.
  destruct e2 as [er|]; [exact (follows_write q s s1 _ _ K1)|].
  assert (follows q s (snd (os.Create env (DestinationPath t) s1))) as K3.
  { apply (follows_same q s s1 _ K1);
      [intros node; now rewrite Create_keeps | apply Create_log]. }
  destruct (os.Create env (DestinationPath t) s1) as [e3 s3]. cbn [snd] in K3.
  destruct e3 as [er|]; [exact (follows_write q s s3 _ _ K3)|].
  assert (follows q s (snd (os.Copy env (SourcePath t) (DestinationPath t) s3))) as K4.
  { apply (follows_same q s s3 _ K3);
      [intros node; now rewrite Copy_keeps | apply Copy_log]. }
  assert (forall s4, follows q s s4 ->
             follows q s (snd (logTransferredWith write deviceName t s4))) as Hlogged.
  { intros s4 K. unfold logTransferredWith.
    destruct (negb (parser.Matched (FileInfo t))); exact (follows_write q s s4 _ _ K). }
  destruct (config.VerifyChecksums (config.Transfer cfg)); cbn beta iota;
    destruct (os.Copy env (SourcePath t) (DestinationPath t) s3) as [[streamed e4] s4];
    cbn [snd fst] in K4 |- *;
    (destruct e4 as [er|]; [exact (follows_write q s s4 _ _ K4)|]).
  - pose proof (ReadBack_state env (DestinationPath t) s4) as L5.
    destruct (os.ReadBack env (DestinationPath t) s4) as [[reread e5] s5].
    cbn [snd] in L5. subst s5. cbn [snd fst].
    destruct e5 as [er|]; [exact (follows_write q s s4 _ _ K4)|].
    destruct (negb (String.eqb (sha256 streamed) (sha256 reread))).
    + pose proof (follows_write q s s4 LevelError (ChecksumMismatchFor (SourcePath t)) K4)
        as K5.
      cbn [filelog.write snd] in K5 |- *.
      match goal with
      | |- context [os.Remove env ?dst ?s5] =>
          assert (follows q s (snd (os.Remove env dst s5))) as K6;
          [apply (follows_same q s s5 _ K5);
             [intros node; now rewrite Remove_keeps | apply Remove_log]
          | destruct (os.Remove env dst s5) as [e6 s6]; exact K6]
      end.
    + specialize (Hlogged s4 K4).
      destruct (logTransferredWith write deviceName t s4) as [[] s6]. exact Hlogged.
  - specialize (Hlogged s4 K4).
    destruct (logTransferredWith write deviceName t s4) as [[] s6]. exact Hlogged.
Qed.

(** A transfer changes no file or directory that is there, other than
    its destination and the files of the logger: it adds directories,
    writes the destination and logs.  The entries of the log it is given
    are kept, with its own after them.  A directory stays a directory.  A
    file other than the destination keeps its bytes; bytes are added
    after them only if the file is the server log or the log of the
    device, as the lines that are logged.  In particular the source, when
    it is neither the destination nor a log of the logger, is left on the
    device as it was. *)
Theorem transferFile_keeps_other_files (t : FileTransfer) (s : State) (q : string) :
  q <> DestinationPath t ->
  (world s !! q = Some Directory -> world (snd (transferFile t s)) !! q = Some Directory)
  /\ (forall content,
        world s !! q = Some (File content) ->
        exists lines,
          world (snd (transferFile t s)) !! q = Some (File (content +:+ lines))
          /\ (serverLog lg <> Some q -> deviceLogs lg !! deviceName <> Some q ->
              lines = ""
              /\ world (snd (transferFile t s)) !! q = Some (File content)))
  /\ exists entries,
       log (snd (transferFile t s)) = (log s ++ entries)%list.
Proof.
  intros Hne. destruct (transferFile_follows t s q Hne) as [Hk Hl].
  split; [|split; [|exact Hl]].
  - intros Hq. now rewrite Hq in Hk.
  - intros content Hq. rewrite Hq in Hk. destruct Hk as (lines & Hk & Hn).
    exists lines. split; [exact Hk|]. intros Hs Hd.
    split; [exact (Hn Hs Hd)|]. rewrite Hk, (Hn Hs Hd). now rewrite append_nil_r.
Qed.

(** A line that is logged leaves the entries that are not the logger's
    as they are. *)
Lemma write_other (l : Level) (ev : Event) (s : State) (q : string) :
  serverLog lg <> Some q -> deviceLogs lg !! deviceName <> Some q ->
  world (snd (write l deviceName ev s)) !! q = world s !! q.
Proof.
  intros Hs Hd. cbn [filelog.write snd world].
  destruct (log_lookup (clock (length (log s))) (filelog.levelName l) deviceName
              (message ev) (world s) q) as (lines & -> & Hn).
  rewrite (Hn Hs Hd). destruct (world s !! q) as [[c|]|]; now rewrite ?append_nil_r.
Qed.

(** A transfer that meets no fault, onto a sound medium, returns nil and
    leaves the bytes of the source at the destination, and the source as
    it was: with the destination directory created, the source a regular
    file other than the destination, the destination not a directory, and
    neither of them a file of the logger. *)
Theorem transferFile_copies (t : FileTransfer) (s : State) (content : string) :
  fst (os.MkdirAll env (filepath.Dir (DestinationPath t)) s) = None ->
  world s !! SourcePath t = Some (File content) ->
  SourcePath t <> DestinationPath t ->
  world (snd (os.MkdirAll env (filepath.Dir (DestinationPath t)) s)) !! DestinationPath t
  <> Some Directory ->
  fault env (OpOpen (SourcePath t)) = false ->
  fault env (OpCreate (DestinationPath t)) = false ->
  fault env (OpCopy (SourcePath t) (DestinationPath t)) = false ->
  fault env (OpReadBack (DestinationPath t)) = false ->
  stored env (DestinationPath t) content = content ->
  serverLog lg <> Some (SourcePath t) -> serverLog lg <> Some (DestinationPath t) ->
  deviceLogs lg !! deviceName <> Some (SourcePath t) ->
  deviceLogs lg !! deviceName <> Some (DestinationPath t) ->
  fst (transferFile t s) = None
  /\ world (snd (transferFile t s)) !! DestinationPath t = Some (File content)
  /\ world (snd (transferFile t s)) !! SourcePath t = Some (File content).
Proof.
  intros Hmk Hsrc Hne Hdst Fopen Fcreate Fcopy Fread Hsound Ls Ld Ds Dd.
  pose proof (MkdirAll_keeps env (filepath.Dir (DestinationPath t)) _ _ s Hsrc) as Hsrc1.
  assert (forall s4,
             world s4 !! DestinationPath t = Some (File content) ->
             world s4 !! SourcePath t = Some (File content) ->
             world (snd (logTransferredWith write deviceName t s4)) !! DestinationPath t
             = Some (File content)
             /\ world (snd (logTransferredWith write deviceName t s4)) !! SourcePath t
                = Some (File content)) as Hlogged.
  { intros s4 H1 H2. unfold logTransferredWith.
    destruct (negb (parser.Matched (FileInfo t)));
      rewrite !write_other by assumption; now split. }
  unfold filelog.transferFile, transferFileWith, bind.
  destruct (os.MkdirAll env (filepath.Dir (DestinationPath t)) s) as [e1 s1].
  simpl in Hmk, Hdst, Hsrc1. subst e1.
  rewrite (Open_ok env _ _ _ Fopen Hsrc1), (Create_ok env _ _ Fcreate Hdst).
  destruct (config.VerifyChecksums (config.Transfer cfg)); cbn beta iota;
    rewrite (Copy_ok env _ _ content), Fcopy
      by (simpl; rewrite lookup_insert_ne by congruence; exact Hsrc1);
    rewrite Hsound; cbn [snd fst].
  - rewrite (ReadBack_ok env _ content) by (try assumption; simpl; apply lookup_insert_eq).
    cbn [snd fst]. rewrite String.eqb_refl. cbn [negb].
    match goal with
    | |- context [logTransferredWith write deviceName t ?s4] =>
        destruct (Hlogged s4) as [H1 H2];
        [simpl; apply lookup_insert_eq
        | simpl; rewrite !lookup_insert_ne by congruence; exact Hsrc1
        | destruct (logTransferredWith write deviceName t s4) as [[] s6];
          repeat split; assumption]
    end.
  - match goal with
    | |- context [logTransferredWith write deviceName t ?s4] =>
        destruct (Hlogged s4) as [H1 H2];
        [simpl; apply lookup_insert_eq
        | simpl; rewrite !lookup_insert_ne by congruence; exact Hsrc1
        | destruct (logTransferredWith write deviceName t s4) as [[] s6];
          repeat split; assumption]
    end.
Qed.

End Transfer.

End logged_transfer.

(** * The monitor *)

Module monitor_facts.

Import device monitor.

Section Monitor.

Variable cfg : config.Config.
Variable EqualFold : string -> string -> bool.
Context {D E : Type}.
Variable DetectDevices : D -> list Device * option E * D.
Variable MountDevice : Device -> D -> Device * option E * D.
Variable WatchForDevices : D -> option E * D.

Local Abbreviation allowed := (IsAllowedDevice cfg EqualFold).
Local Abbreviation handleDeviceAdded :=
  (monitor.handleDeviceAdded cfg EqualFold MountDevice).
Local Abbreviation scanDevices := (monitor.scanDevices cfg EqualFold MountDevice).
Local Abbreviation scanExistingDevices :=
  (monitor.scanExistingDevices cfg EqualFold DetectDevices MountDevice).

(** What [handleDeviceAdded] does with a device of a 64-bit size.  A
    device that the policy rejects is not mounted and not processed: the
    detector is not called.  A device that is allowed is announced with
    its size, and the announcement panics for a size of 2^60 bytes or
    more, before anything is mounted.  Otherwise the device is mounted,
    and [ProcessDevice] is started for it, as the mount left it, exactly
    when the mount succeeded. *)
Theorem handleDeviceAdded_gate (dev : Device) (m : Monitor) :
  (- 2 ^ 63 <= Size dev < 2 ^ 63)%Z ->
  (allowed dev = false ->
   exists m', handleDeviceAdded dev m = Some m'
              /\ detector m' = detector m /\ started m' = started m)
  /\ (allowed dev = true -> (2 ^ 60 <= Size dev)%Z -> handleDeviceAdded dev m = None)
  /\ (allowed dev = true -> (Size dev < 2 ^ 60)%Z ->
      exists m', handleDeviceAdded dev m = Some m'
                 /\ detector m' = snd (MountDevice dev (detector m))
                 /\ started m'
                    = (started m
                       ++ match snd (fst (MountDevice dev (detector m))) with
                          | None => [fst (fst (MountDevice dev (detector m)))]
                          | Some _ => []
                          end)%list).
Proof.
  intros Hrange.
  destruct (sizes_facts.formatSize_defined (Size dev) Hrange) as (Hsome & Hbig).
  unfold monitor.handleDeviceAdded. split; [|split].
  - intros ->. cbn [negb]. eexists. split; [reflexivity|]. split; reflexivity.
  - intros -> Hsize. cbn [negb]. now rewrite (Hbig Hsize).
  - intros -> Hsize. cbn [negb].
    destruct (Hsome Hsize) as [size ->].
    cbn [detector logLine].
    destruct (MountDevice dev (detector m)) as [[dev' err] d]. cbn [fst snd].
    destruct err as [e|]; eexists; (split; [reflexivity|]); cbn; split;
      try reflexivity. now rewrite app_nil_r.
Qed.

Lemma scanDevices_started (devices : list Device) :
  forall m,
    exists news,
      started (scanDevices devices m) = (started m ++ news)%list
      /\ length news <= length (List.filter allowed devices)
      /\ Forall (fun dev' =>
                   exists dev, In dev devices /\ allowed dev = true
                     /\ ((MountPath dev <> "" /\ dev' = dev)
                         \/ (MountPath dev = ""
                             /\ exists d, fst (MountDevice dev d) = (dev', None)))) news.
Proof.
  induction devices as [|dev rest IH]; intros m.
  - exists []. simpl. rewrite app_nil_r. repeat split; [lia | constructor].
  - cbn [monitor.scanDevices List.filter].
    assert (forall news,
               Forall (fun dev' =>
                         exists dev0, In dev0 rest /\ allowed dev0 = true
                           /\ ((MountPath dev0 <> "" /\ dev' = dev0)
                               \/ (MountPath dev0 = ""
                                   /\ exists d,
                                        fst (MountDevice dev0 d) = (dev', None)))) news ->
               Forall (fun dev' =>
                         exists dev0, In dev0 (dev :: rest) /\ allowed dev0 = true
                           /\ ((MountPath dev0 <> "" /\ dev' = dev0)
                               \/ (MountPath dev0 = ""
                                   /\ exists d,
                                        fst (MountDevice dev0 d) = (dev', None)))) news)
      as Hweaken.
    { intros news Hnews. eapply Forall_impl; [exact Hnews|].
      intros dev' (dev0 & Hin & H). exists dev0. split; [now right | exact H]. }
    destruct (allowed dev) eqn:Ea.
    + destruct (String.eqb_spec (MountPath dev) "") as [Hm | Hm].
      * cbn [detector logLine].
        destruct (MountDevice dev (detector m)) as [[dev' err] d] eqn:Emount.
        destruct err as [e|].
        -- destruct (IH (logLine (withDetector
                                    (logLine m (FoundExisting (Name dev) (Label dev))) d)
                           (FailedToMount (Name dev') e))) as (news & Hs & Hl & Hf).
           exists news. cbn in Hs. rewrite Hs. cbn [length].
           repeat split; [lia | now apply Hweaken].
        -- destruct (IH (spawn (withDetector
                                  (logLine m (FoundExisting (Name dev) (Label dev))) d)
                           dev')) as (news & Hs & Hl & Hf).
           exists (dev' :: news). rewrite Hs. cbn. rewrite <- app_assoc.
           repeat split; [lia|]. constructor; [|now apply Hweaken].
           exists dev. split; [now left|]. split; [exact Ea|]. right.
           split; [exact Hm|]. exists (detector m). now rewrite Emount.
      * destruct (IH (spawn (logLine m (FoundExisting (Name dev) (Label dev))) dev))
          as (news & Hs & Hl & Hf).
        exists (dev :: news). rewrite Hs. cbn. rewrite <- app_assoc.
        repeat split; [lia|]. constructor; [|now apply Hweaken].
        exists dev. split; [now left|]. split; [exact Ea|]. left. now split.
    + destruct (IH m) as (news & Hs & Hl & Hf).
      exists news. repeat split; [exact Hs | lia | now apply Hweaken].
Qed.

Lemma scanDevices_none_allowed (devices : list Device) :
  forall m,
    Forall (fun dev => allowed dev = false) devices ->
    scanDevices devices m = m.
Proof.
  induction devices as [|dev rest IH]; intros m Hall; [reflexivity|].
  apply Forall_cons in Hall as [Hdev Hrest].
  cbn [monitor.scanDevices]. rewrite Hdev. now apply IH.
Qed.

(** What the scan does with each allowed device, in order: [Some] is the
    device that [ProcessDevice] is started for, [None] a device that could
    not be mounted. *)
Lemma scanDevices_outcomes (devices : list Device) :
  forall m,
    exists outcomes : list (option Device),
      started (scanDevices devices m) = (started m ++ omap id outcomes)%list
      /\ Forall2 (fun dev outcome =>
                    match outcome with
                    | Some dev' =>
                        (MountPath dev <> "" /\ dev' = dev)
                        \/ (MountPath dev = ""
                            /\ exists d, fst (MountDevice dev d) = (dev', None))
                    | None =>
                        MountPath dev = ""
                        /\ exists d dev' e, fst (MountDevice dev d) = (dev', Some e)
                    end) (List.filter allowed devices) outcomes.
Proof.
  induction devices as [|dev rest IH]; intros m.
  - exists []. cbn. rewrite app_nil_r. split; [reflexivity | constructor].
  - cbn [monitor.scanDevices List.filter].
    destruct (allowed dev) eqn:Ea; [|apply IH].
    destruct (String.eqb_spec (MountPath dev) "") as [Hm | Hm].
    + cbn [detector logLine].
      destruct (MountDevice dev (detector m)) as [[dev' err] d] eqn:Emount.
      destruct err as [e|].
      * destruct (IH (logLine (withDetector
                                 (logLine m (FoundExisting (Name dev) (Label dev))) d)
                        (FailedToMount (Name dev') e))) as (outcomes & Hs & Hf).
        exists (None :: outcomes). cbn in Hs. rewrite Hs. split; [reflexivity|].
        constructor; [|exact Hf]. split; [exact Hm|].
        exists (detector m), dev', e. now rewrite Emount.
      * destruct (IH (spawn (withDetector
                               (logLine m (FoundExisting (Name dev) (Label dev))) d)
                        dev')) as (outcomes & Hs & Hf).
        exists (Some dev' :: outcomes). rewrite Hs. cbn. rewrite <- app_assoc.
        split; [reflexivity|]. constructor; [|exact Hf]. right.
        split; [exact Hm|]. exists (detector m). now rewrite Emount.
    + destruct (IH (spawn (logLine m (FoundExisting (Name dev) (Label dev))) dev))
        as (outcomes & Hs & Hf).
      exists (Some dev :: outcomes). rewrite Hs. cbn. rewrite <- app_assoc.
      split; [reflexivity|]. constructor; [|exact Hf]. left. now split.
Qed.

(** When every device has its mount path, each of them is started as it
    is. *)
Lemma mounted_outcomes (devices : list Device) (outcomes : list (option Device)) :
  Forall (fun dev => MountPath dev <> "") devices ->
  Forall2 (fun dev outcome =>
             match outcome with
             | Some dev' =>
                 (MountPath dev <> "" /\ dev' = dev)
                 \/ (MountPath dev = ""
                     /\ exists d, fst (MountDevice dev d) = (dev', None))
             | None =>
                 MountPath dev = ""
                 /\ exists d dev' e, fst (MountDevice dev d) = (dev', Some e)
             end) devices outcomes ->
  omap id outcomes = devices.
Proof.
  intros Hall H. induction H as [|dev outcome devices outcomes Hdev _ IH]; [reflexivity|].
  apply Forall_cons in Hall as [Hm Hall]. cbn.
  destruct outcome as [dev'|].
  - destruct Hdev as [[_ ->] | [Hno _]]; [|contradiction].
    cbn. now rewrite IH.
  - now destruct Hdev as [Hno _].
Qed.


End Monitor.

End monitor_facts.

(** * The detector on Linux *)

Module linux_facts.

Import device linux.

Section Detector.

Variable autoMount : AutoMountConfig.
Variable env : Env.
Variable cmds : Commands.


Section Monitor.

Variable cfg : config.Config.
Variable EqualFold : string -> string -> bool.
Context {C : Type}.
Variable callback : Device -> C -> C.


End Monitor.

End Detector.

End linux_facts.

(** * The monitor on Windows *)

Module windows_monitor.

Import device windows platforms.

Section Windows.

Variable sys : System.
Variable VolumeName : string -> string.
Variable cfg : config.Config.
Variable EqualFold : string -> string -> bool.

Local Abbreviation removable :=
  (fun drive => (getDriveType sys drive =? DRIVE_REMOVABLE)%Z).
Local Abbreviation deviceOf := (fun drive => fst (GetDeviceInfo sys VolumeName drive)).
Local Abbreviation allowed := (IsAllowedDevice cfg EqualFold).

Lemma detectFrom_spec (drives : list string) :
  forall devices,
    detectFrom sys VolumeName drives devices
    = (devices ++ map deviceOf (List.filter removable drives))%list.
Proof.
  induction drives as [|drive rest IH]; intros devices.
  - simpl. now rewrite app_nil_r.
  - cbn [detectFrom List.filter]. rewrite windows_facts.GetDeviceInfo_nil.
    destruct (removable drive); [|apply IH].
    rewrite IH. cbn [map]. now rewrite <- app_assoc.
Qed.

(** The drives that are listed end with a backslash. *)
Lemma getLogicalDrives_path (drive : string) :
  In drive (getLogicalDrives sys) ->
  statOk sys drive = true /\ strings.HasSuffix drive "\" = true.
Proof.
  unfold getLogicalDrives. rewrite List.filter_In. intros [Hin Hok].
  split; [exact Hok|].
  apply List.in_map_iff in Hin as (c & <- & _). reflexivity.
Qed.

Lemma deviceOf_listed (drive : string) :
  In drive (getLogicalDrives sys) ->
  Path (deviceOf drive) = drive /\ MountPath (deviceOf drive) = "".
Proof.
  intros Hin. destruct (getLogicalDrives_path drive Hin) as [_ Hs].
  unfold GetDeviceInfo. rewrite Hs. cbn [negb].
  destruct (getVolumeInformationW sys drive) as [[label filesystem]|]; split; reflexivity.
Qed.

Lemma scanDevices_windows (devices : list Device) :
  forall m : monitor.Monitor (D := WindowsState) (E := Error),
    Forall (fun dev => MountPath dev = "" /\ statOk sys (Path dev) = true) devices ->
    monitor.started (monitor.scanDevices cfg EqualFold (windowsMount sys) devices m)
    = (monitor.started m ++ map mountedAtPath (List.filter allowed devices))%list.
Proof.
  induction devices as [|dev rest IH]; intros m Hall.
  - simpl. now rewrite app_nil_r.
  - apply Forall_cons in Hall as [[Hm Hok] Hrest].
    cbn [monitor.scanDevices List.filter].
    destruct (allowed dev); [|now apply IH].
    rewrite Hm. cbn [String.eqb]. unfold windowsMount, MountDevice. rewrite Hok.
    cbn [negb]. rewrite IH by assumption. cbn. now rewrite <- app_assoc.
Qed.

(** On Windows the scan for the devices already connected starts
    [ProcessDevice] once for every removable drive that is present and
    that the policy allows, in the order of the drive letters, with the
    drive itself as the mount path, and for nothing else: no such drive is
    left out for a mount that fails, since a drive that is listed can be
    stat'ed. *)
Theorem windows_scan_starts_allowed_drives
    (m : monitor.Monitor (D := WindowsState) (E := Error)) :
  monitor.started
    (monitor.scanExistingDevices cfg EqualFold (windowsDetect sys VolumeName)
       (windowsMount sys) m)
  = (monitor.started m
     ++ map mountedAtPath
          (List.filter allowed
             (map (fun drive => fst (GetDeviceInfo sys VolumeName drive))
                (List.filter (fun drive => (getDriveType sys drive =? DRIVE_REMOVABLE)%Z)
                   (getLogicalDrives sys)))))%list
  /\ Forall (fun dev => MountPath dev = Path dev /\ In (Path dev) (getLogicalDrives sys)
                        /\ getDriveType sys (Path dev) = DRIVE_REMOVABLE
                        /\ allowed dev = true)
       (map mountedAtPath
          (List.filter allowed
             (map (fun drive => fst (GetDeviceInfo sys VolumeName drive))
                (List.filter (fun drive => (getDriveType sys drive =? DRIVE_REMOVABLE)%Z)
                   (getLogicalDrives sys))))).
Proof.
  split.
  - unfold monitor.scanExistingDevices, windowsDetect, DetectDevices.
    cbn [fst snd monitor.detector monitor.logLine].
    rewrite detectFrom_spec. cbn [app].
    rewrite scanDevices_windows; [reflexivity|].
    apply Forall_forall. intros dev Hdev.
    apply list_elem_of_In, List.in_map_iff in Hdev as (drive & <- & Hdrive).
    apply List.filter_In in Hdrive as [Hin _].
    destruct (deviceOf_listed drive Hin) as [Hp Hm].
    destruct (getLogicalDrives_path drive Hin) as [Hok _].
    rewrite Hp. now split.
  - apply Forall_forall. intros dev' Hdev'.
    apply list_elem_of_In, List.in_map_iff in Hdev' as (dev & <- & Hdev).
    apply List.filter_In in Hdev as [Hdev Hallowed].
    apply List.in_map_iff in Hdev as (drive & <- & Hdrive).
    apply List.filter_In in Hdrive as [Hin Hr].
    destruct (deviceOf_listed drive Hin) as [Hp Hm].
    cbn [mountedAtPath MountPath Path]. rewrite Hp.
    split; [reflexivity|]. split; [exact Hin|]. split; [now apply Z.eqb_eq|].
    unfold IsAllowedDevice in *. exact Hallowed.
Qed.

End Windows.

End windows_monitor.

(** * The destination of a file with ordinary tokens *)

Module destination_directory.

Import parser filepath names filepath_facts.

(** A text without opening brace is passed over by a replacement of a
    placeholder. *)
Lemma replaceFrom_skip (c r old new : string) (fuel : nat) :
  strings.Contains c "{" = false ->
  strings.replaceFrom (String.length c + fuel) (c +:+ r) (String "{" old) new
  = c +:+ strings.replaceFrom fuel r (String "{" old) new.
Proof.
  induction c as [|x c IH]; intros Hc; [reflexivity|].
  cbn [strings.Contains] in Hc. apply orb_false_iff in Hc as [Hx Hc].
  assert (Ascii.eqb x "{" = false) as Hne.
  { unfold strings.HasPrefix in Hx. cbn in Hx.
    destruct (Ascii.eqb x "{"); [|reflexivity].
    destruct c; discriminate. }
  cbn [String.length Nat.add strings.replaceFrom String.append].
  assert (strings.HasPrefix (String x (c +:+ r)) (String "{" old) = false) as ->.
  { unfold strings.HasPrefix. cbn [String.length strings.take String.eqb].
    rewrite Hne. now rewrite andb_false_r. }
  now rewrite IH.
Qed.

Lemma ReplaceAll_skip (c r old new : string) :
  strings.Contains c "{" = false ->
  strings.ReplaceAll (c +:+ r) (String "{" old) new
  = c +:+ strings.ReplaceAll r (String "{" old) new.
Proof.
  intros Hc. unfold strings.ReplaceAll. rewrite length_append.
  replace (S (String.length c + String.length r))
    with (String.length c + S (String.length r)) by lia.
  now apply replaceFrom_skip.
Qed.

Lemma Contains_append_false (a b sub : string) :
  String.length sub = 1 ->
  strings.Contains a sub = false -> strings.Contains b sub = false ->
  strings.Contains (a +:+ b) sub = false.
Proof.
  intros Hsub Ha Hb. induction a as [|x a IH]; [exact Hb|].
  cbn [strings.Contains String.append] in *.
  apply orb_false_iff in Ha as [Hx Ha]. rewrite (IH Ha), orb_false_r.
  destruct sub as [|y [|z sub]]; try discriminate.
  unfold strings.HasPrefix in *. cbn in *.
  destruct (Ascii.eqb x y); [|reflexivity].
  destruct a; discriminate.
Qed.

(** The placeholders of the reference template, replaced one after the
    other. *)
Lemma template_replaced (client project camera : string) :
  strings.Contains client "{" = false -> strings.Contains project "{" = false ->
  strings.ReplaceAll
    (strings.ReplaceAll
       (strings.ReplaceAll "{client}/{project}/{camera}" "{client}" client)
       "{project}" project)
    "{camera}" camera
  = client +:+ "/" +:+ project +:+ "/" +:+ camera.
Proof.
  intros Hc Hp.
  assert (strings.ReplaceAll "{client}/{project}/{camera}" "{client}" client
          = client +:+ "/{project}/{camera}") as ->.
  { unfold strings.ReplaceAll. cbn. rewrite ?append_nil_r. reflexivity. }
  rewrite (ReplaceAll_skip client "/{project}/{camera}" "project}" project Hc).
  assert (strings.ReplaceAll "/{project}/{camera}" "{project}" project
          = "/" +:+ project +:+ "/{camera}") as ->.
  { unfold strings.ReplaceAll. cbn. rewrite ?append_nil_r. reflexivity. }
  replace (client +:+ "/" +:+ project +:+ "/{camera}")
    with ((client +:+ "/" +:+ project +:+ "/") +:+ "{camera}")
    by now rewrite !append_assoc.
  rewrite ReplaceAll_skip.
  - assert (strings.ReplaceAll "{camera}" "{camera}" camera = camera) as ->.
    { unfold strings.ReplaceAll. cbn. rewrite ?append_nil_r. reflexivity. }
    now rewrite !append_assoc.
  - apply Contains_append_false; [reflexivity | exact Hc|].
    apply (Contains_append_false "/"); [reflexivity | reflexivity|].
    apply Contains_append_false; [reflexivity | exact Hp | reflexivity].
Qed.

(** [Clean] of a path that ends in an ordinary name, from [Clean] of what
    stands before the name. *)
Lemma Clean_snoc_plain (d n : string) :
  d <> "" -> isPlainName n = true ->
  (Clean d = "/" /\ Clean (d +:+ "/" +:+ n) = "/" +:+ n)
  \/ (Clean d = "." /\ Clean (d +:+ "/" +:+ n) = n)
  \/ Clean (d +:+ "/" +:+ n) = Clean d +:+ "/" +:+ n.
Proof.
  intros Hd H. pose proof (isPlainName_inv n H) as (Hne & Hdot & Hdotdot & Hn).
  destruct d as [|c0 d0]; [contradiction|].
  assert (forall X,
             Clean (String c0 X)
             = if IsPathSeparator c0
               then "/" +:+ strings.Join
                              (rev (cleanElements (IsPathSeparator c0) []
                                      (elements (String c0 X)))) "/"
               else match rev (cleanElements (IsPathSeparator c0) []
                                 (elements (String c0 X))) with
                    | [] => "."
                    | _ => strings.Join
                             (rev (cleanElements (IsPathSeparator c0) []
                                     (elements (String c0 X)))) "/"
                    end) as Hform by reflexivity.
  change (String c0 d0 +:+ "/" +:+ n) with (String c0 (d0 +:+ "/" +:+ n)).
  rewrite !Hform.
  change (String c0 (d0 +:+ "/" +:+ n)) with (String c0 d0 +:+ "/" +:+ n).
  rewrite elements_append_sep, (elements_plain n Hn), cleanElements_app.
  set (rooted := IsPathSeparator c0).
  set (out := cleanElements rooted [] (elements (String c0 d0))).
  rewrite (cleanElements_plain _ _ _ H). simpl rev. rewrite Join_snoc.
  destruct rooted.
  - destruct (rev out) as [|e l].
    + left. split; reflexivity.
    + right. right. now rewrite append_assoc.
  - destruct (rev out) as [|e l] eqn:Eo.
    + right. left. split; reflexivity.
    + right. right. reflexivity.
Qed.

Lemma Clean_extends (d n : string) :
  d <> "" -> Clean d = d -> d <> "/" -> d <> "." -> isPlainName n = true ->
  Clean (d +:+ "/" +:+ n) = d +:+ "/" +:+ n.
Proof.
  intros Hd Hclean Hroot Hdot Hn.
  destruct (Clean_snoc_plain d n Hd Hn) as [[H _] | [[H _] | H]]; try congruence.
Qed.

Lemma extended_path (d n : string) :
  d <> "" -> d +:+ "/" +:+ n <> "" /\ d +:+ "/" +:+ n <> "/" /\ d +:+ "/" +:+ n <> ".".
Proof.
  intros Hd. destruct d as [|c d]; [contradiction|].
  repeat split; try discriminate.
  - intros H. injection H as -> H. destruct d; discriminate.
  - intros H. injection H as -> H. destruct d; discriminate.
Qed.

(** The destination of a matched file under the template
    [{client}/{project}/{camera}].  When the destination root is a clean
    path other than [/] and [.], and the client, project and camera
    tokens are ordinary names (not empty, without separator, neither [.]
    nor [..]) of which the first two hold no opening brace, the
    destination directory is the root followed by the client, the project
    and the camera, and the file, when the clip token with the extension
    is an ordinary name as well, is placed in that directory under that
    name: below the destination root.  (A token [..], which the reference
    pattern lets through, is resolved by the join and can lead out of the
    root.) *)
Theorem GetDestinationPath_ordinary_tokens (p : Parser) (info : FileInfo) :
  config.FolderStructure (config.Parsing (config p)) = "{client}/{project}/{camera}" ->
  Matched info = true ->
  Clean (config.DestinationPath (config p)) = config.DestinationPath (config p) ->
  config.DestinationPath (config p) <> "/" ->
  config.DestinationPath (config p) <> "." ->
  isPlainName (Client info) = true -> isPlainName (ProjectName info) = true ->
  isPlainName (Camera info) = true ->
  strings.Contains (Client info) "{" = false ->
  strings.Contains (ProjectName info) "{" = false ->
  GetDestinationPath p info
  = config.DestinationPath (config p) +:+ "/" +:+ Client info +:+ "/"
    +:+ ProjectName info +:+ "/" +:+ Camera info
  /\ (isPlainName (ClipNumber info +:+ Extension info) = true ->
      GetFullDestinationPath p info
      = config.DestinationPath (config p) +:+ "/" +:+ Client info +:+ "/"
        +:+ ProjectName info +:+ "/" +:+ Camera info +:+ "/"
        +:+ ClipNumber info +:+ Extension info).
Proof.
  intros Htemplate Hm Hclean Hroot Hdot Hc Hp Hcam Hcb Hpb.
  set (root := config.DestinationPath (config p)) in *.
  assert (root <> "") as Hne.
  { intros H. rewrite H in Hclean. discriminate. }
  assert (GetDestinationPath p info
          = root +:+ "/" +:+ Client info +:+ "/" +:+ ProjectName info +:+ "/"
            +:+ Camera info) as Hdir.
  { unfold GetDestinationPath. rewrite Hm, Htemplate. cbn [negb].
    rewrite (template_replaced _ _ _ Hcb Hpb). fold root.
    unfold Join. apply String.eqb_neq in Hne as Hne'. rewrite Hne'.
    change (strings.Join [root; Client info +:+ "/" +:+ ProjectName info +:+ "/"
                                +:+ Camera info] "/")
      with (root +:+ "/" +:+ Client info +:+ "/" +:+ ProjectName info +:+ "/"
            +:+ Camera info).
    pose proof (Clean_extends root (Client info) Hne Hclean Hroot Hdot Hc) as H1.
    destruct (extended_path root (Client info) Hne) as (N1 & R1 & D1).
    pose proof (Clean_extends _ (ProjectName info) N1 H1 R1 D1 Hp) as H2.
    destruct (extended_path _ (ProjectName info) N1) as (N2 & R2 & D2).
    pose proof (Clean_extends _ (Camera info) N2 H2 R2 D2 Hcam) as H3.
    rewrite !append_assoc in H3. exact H3. }
  split; [exact Hdir|].
  intros Hleaf. unfold GetFullDestinationPath. rewrite Hm, Hdir.
  set (dir := root +:+ "/" +:+ Client info +:+ "/" +:+ ProjectName info +:+ "/"
              +:+ Camera info) in *.
  assert (dir <> "" /\ Clean dir = dir /\ dir <> "/" /\ dir <> ".") as (N & C & R & D).
  { pose proof (Clean_extends root (Client info) Hne Hclean Hroot Hdot Hc) as H1.
    destruct (extended_path root (Client info) Hne) as (N1 & R1 & D1).
    pose proof (Clean_extends _ (ProjectName info) N1 H1 R1 D1 Hp) as H2.
    destruct (extended_path _ (ProjectName info) N1) as (N2 & R2 & D2).
    pose proof (Clean_extends _ (Camera info) N2 H2 R2 D2 Hcam) as H3.
    destruct (extended_path _ (Camera info) N2) as (N3 & R3 & D3).
    unfold dir. rewrite !append_assoc in *. repeat split; assumption. }
  unfold Join. apply String.eqb_neq in N as N'. rewrite N'.
  change (strings.Join [dir; ClipNumber info +:+ Extension info] "/")
    with (dir +:+ "/" +:+ ClipNumber info +:+ Extension info).
  rewrite (Clean_extends dir _ N C R D Hleaf). unfold dir.
  now rewrite !append_assoc.
Qed.

(** A client token [..] leads out of the destination root. *)
Example destination_outside_root :
  Matched (Parse testParser "/media/card/a_.._ACam_1.mp4") = true
  /\ GetFullDestinationPath testParser (Parse testParser "/media/card/a_.._ACam_1.mp4")
     = "/mnt/a/ACam/1.mp4".
Proof. split; vm_compute; reflexivity. Qed.

End destination_directory.

(** * The properties on the test card and on other machines *)

Module cases_facts.

Import transfer engine engine_facts scenarios executions cases.

Lemma stuck_iff_returned_witness :
  reachable testConfig testParser soundEnv plainDigest "sdb1" mixedState mixedFiles
    (TransferFiles testConfig testParser soundEnv plainDigest "sdb1" mixedState mixedFiles)
  /\ stuck testConfig testParser soundEnv plainDigest "sdb1"
       (TransferFiles testConfig testParser soundEnv plainDigest "sdb1" mixedState
          mixedFiles).
Proof.
  destruct (TransferFiles_returns testConfig testParser soundEnv plainDigest "sdb1"
              mixedState mixedFiles) as [Hr Hm].
  split; [exact Hr|].
  apply (executions_facts.stuck_iff_returned testConfig testParser soundEnv plainDigest
           "sdb1" mixedState mixedFiles _ Hr).
  exists None. exact Hm.
Defined.

Lemma every_schedule_returns_witness :
  exists n,
    runsIn testConfig testParser soundEnv plainDigest "sdb1" n
      (start mixedState mixedFiles)
      (TransferFiles testConfig testParser soundEnv plainDigest "sdb1" mixedState mixedFiles)
    /\ n <= 7 * length mixedFiles
            + Z.to_nat (config.MaxWorkers (config.Transfer testConfig)) + 5.
Proof.
  destruct (executions_facts.run_runsIn testConfig testParser soundEnv plainDigest "sdb1"
              (bound testConfig mixedFiles) (start mixedState mixedFiles)) as [n Hn].
  exists n. split; [exact Hn|].
  exact (proj1 (executions_facts.every_schedule_returns testConfig testParser soundEnv
                  plainDigest "sdb1" mixedState mixedFiles n _ Hn)).
Defined.

Lemma byte_counters_witness :
  (0 <= TransferredBytes
          (stats (TransferFiles testConfig testParser failingCopies plainDigest "sdb1"
                    mixedState mixedFiles))
   <= TotalBytes
        (stats (TransferFiles testConfig testParser failingCopies plainDigest "sdb1"
                  mixedState mixedFiles)))%Z
  /\ TransferredBytes
       (stats (TransferFiles testConfig testParser soundEnv plainDigest "sdb1" mixedState
                 mixedFiles))
     = wrap64 (bytes (succeeded
                        (outcomes (TransferFiles testConfig testParser soundEnv plainDigest
                                     "sdb1" mixedState mixedFiles)))).
Proof.
  split.
  - destruct (TransferFiles_returns testConfig testParser failingCopies plainDigest "sdb1"
                mixedState mixedFiles) as [Hr _].
    destruct (executions_facts.byte_counters testConfig testParser failingCopies
                plainDigest "sdb1" mixedState mixedFiles _ Hr) as (_ & Hle & _).
    apply Hle. vm_compute. reflexivity.
  - destruct (TransferFiles_returns testConfig testParser soundEnv plainDigest "sdb1"
                mixedState mixedFiles) as [Hr Hm].
    destruct (executions_facts.byte_counters testConfig testParser soundEnv plainDigest
                "sdb1" mixedState mixedFiles _ Hr) as (_ & _ & Hret).
    destruct (Hret None Hm) as [H _]; [vm_compute; discriminate | exact H].
Defined.



Lemma counters_behind_witness :
  SkippedFiles
    (stats (TransferFiles testConfig testParser failingCopies plainDigest "sdb1"
              bracketState ["/media/card/a[.mp4"; "/media/card"])) = 0%Z.
Proof.
  destruct (TransferFiles_returns testConfig testParser failingCopies plainDigest "sdb1"
              bracketState ["/media/card/a[.mp4"; "/media/card"]) as [Hr _].
  exact (proj1 (executions_facts.counters_behind testConfig testParser failingCopies
                  plainDigest "sdb1" bracketState _ _ Hr)).
Defined.

Lemma transferFile_keeps_other_files_witness :
  world (snd (filelog.transferFile testConfig soundEnv plainDigest cardLogger noon wording
                "sdb1" nikeJob loggedState))
  !! "/media/card/random_video.mp4" = Some (File "random")
  /\ exists lines,
       world (snd (filelog.transferFile testConfig soundEnv plainDigest cardLogger noon
                     wording "sdb1" nikeJob loggedState))
       !! "/media/card/ingest_log_20250101_120000_sdb1.txt"
       = Some (File ("scanning;" +:+ lines)).
Proof.
  split.
  - destruct (logged_transfer.transferFile_keeps_other_files testConfig soundEnv
                plainDigest cardLogger noon wording "sdb1" nikeJob loggedState
                "/media/card/random_video.mp4") as (_ & Hfile & _);
      [vm_compute; discriminate|].
    destruct (Hfile "random") as (lines & _ & Hsame); [vm_compute; reflexivity|].
    apply Hsame; vm_compute; discriminate.
  - destruct (logged_transfer.transferFile_keeps_other_files testConfig soundEnv
                plainDigest cardLogger noon wording "sdb1" nikeJob loggedState
                "/media/card/ingest_log_20250101_120000_sdb1.txt") as (_ & Hfile & _);
      [vm_compute; discriminate|].
    destruct (Hfile "scanning;") as (lines & Hgrown & _); [vm_compute; reflexivity|].
    exists lines. exact Hgrown.
Defined.

Lemma transferFile_copies_witness :
  fst (filelog.transferFile testConfig soundEnv plainDigest cardLogger noon wording "sdb1"
         nikeJob loggedState) = None
  /\ world (snd (filelog.transferFile testConfig soundEnv plainDigest cardLogger noon
                   wording "sdb1" nikeJob loggedState))
     !! "/mnt/storage/Nike/BrandVideo/ACam/001.mp4" = Some (File "nike")
  /\ world (snd (filelog.transferFile testConfig soundEnv plainDigest cardLogger noon
                   wording "sdb1" nikeJob loggedState))
     !! "/media/card/BrandVideo_Nike_ACam_001.mp4" = Some (File "nike").
Proof.
  apply (logged_transfer.transferFile_copies testConfig soundEnv plainDigest cardLogger
           noon wording "sdb1" nikeJob loggedState "nike");
    first [vm_compute; reflexivity | vm_compute; discriminate].
Defined.

Lemma transferFile_failed_copy_witness :
  fst (transferFile testConfig failingCopies plainDigest "sdb1" nikeJob cardState)
  = Some (ErrIO (OpCopy "/media/card/BrandVideo_Nike_ACam_001.mp4"
                   "/mnt/storage/Nike/BrandVideo/ACam/001.mp4"))
  /\ world (snd (transferFile testConfig failingCopies plainDigest "sdb1" nikeJob
                   cardState))
     !! "/mnt/storage/Nike/BrandVideo/ACam/001.mp4" = Some (File "ni").
Proof.
  destruct (transfer_file.transferFile_failed_copy testConfig failingCopies plainDigest
              "sdb1" nikeJob cardState "nike") as (Herr & Hpart & _);
    try (vm_compute; reflexivity); try (vm_compute; discriminate).
  split; [exact Herr | exact Hpart].
Defined.

Lemma transferFile_onto_itself_witness :
  fst (transferFile testConfig soundEnv plainDigest "sdb1" selfJob cardState) = None
  /\ world (snd (transferFile testConfig soundEnv plainDigest "sdb1" selfJob cardState))
     !! "/media/card/random_video.mp4" = Some (File "").
Proof.
  apply (transfer_file.transferFile_onto_itself testConfig soundEnv plainDigest "sdb1"
           selfJob cardState "random"); vm_compute; reflexivity.
Defined.

Lemma GetUniqueDestinationPath_result_witness :
  parser.GetUniqueDestinationPath ∅ testParser
    (parser.Parse testParser "/media/card/random_video.mp4")
  = parser.GetUniqueDestinationPath testWorld testParser
      (parser.Parse testParser "/media/card/random_video.mp4").
Proof.
  exact (proj2 (proj2 (proj2 (unique_destination.GetUniqueDestinationPath_result testWorld
                                testParser
                                (parser.Parse testParser "/media/card/random_video.mp4"))))
           ∅).
Defined.

Lemma Validate_accepts_witness : snd (config.Validate testConfig) = None.
Proof.
  apply (validation.Validate_accepts testConfig).
  split; [vm_compute; discriminate|]. split; [vm_compute; discriminate|].
  intros H. vm_compute in H. discriminate.
Defined.

Lemma Validate_repairs_witness :
  config.MaxWorkers (config.Transfer (fst (config.Validate zeroWorkers))) = 1%Z
  /\ (1024 <= config.BufferSize (config.Transfer (fst (config.Validate zeroWorkers))))%Z.
Proof.
  destruct (validation.Validate_repairs zeroWorkers) as (Hrepair & _).
  destruct Hrepair as (Hw & _ & _ & Hb); [vm_compute; discriminate|].
  split; [exact Hw | exact Hb].
Defined.

Lemma ProcessDevice_deregisters_witness :
  snd (fst (fst (device.ProcessDevice testConfig testParser soundEnv plainDigest
                   {["sdb1" := testCard; "sdc1" := unmounted]} testCard cardState)))
  !! "sdc1" = Some unmounted.
Proof.
  destruct (device_facts.ProcessDevice_deregisters testConfig testParser soundEnv
              plainDigest {["sdb1" := testCard; "sdc1" := unmounted]} testCard cardState)
    as (_ & _ & Hother).
  rewrite (Hother "sdc1"); [vm_compute; reflexivity | vm_compute; discriminate].
Defined.

Lemma scanFiles_lists_files_witness :
  "/media/card/random_video.mp4"
  ∈ fst (fst (device.scanFiles soundEnv "/media/card" cardState))
  /\ device.scanFiles soundEnv "/media/reader" cardState
     = (([], Some (ErrIO (OpWalk "/media/reader"))), cardState)
  /\ exists later,
       (fst (fst (device.scanFiles failingWalk "/media/card" cardState)) ++ later)%list
       = fst (fst (device.scanFiles soundEnv "/media/card" cardState)).
Proof.
  destruct (device_facts.scanFiles_lists_files soundEnv "/media/card" cardState)
    as [Hfound _].
  destruct (device_facts.scanFiles_lists_files soundEnv "/media/reader" cardState)
    as (_ & Hmissing & _).
  destruct (device_facts.scanFiles_lists_files failingWalk "/media/card" cardState)
    as (_ & _ & Hfails).
  split; [|split].
  - destruct Hfound as (_ & _ & _ & Hmem);
      [vm_compute; reflexivity | vm_compute; discriminate |].
    apply Hmem. exists "random". split; vm_compute; reflexivity.
  - apply Hmissing; vm_compute; reflexivity.
  - destruct Hfails as (_ & _ & Hfront & _);
      [vm_compute; reflexivity | vm_compute; discriminate |].
    apply Hfront. vm_compute. reflexivity.
Defined.

Lemma IsAllowedDevice_empty_pattern_witness :
  device.IsAllowedDevice emptyPattern strings.EqualFoldASCII testCard = false.
Proof.
  apply device_facts.IsAllowedDevice_empty_pattern. right. left. reflexivity.
Defined.

Lemma Parse_file_name_witness :
  parser.FileName (parser.Parse testParser "/media/card/Spot_Nike_BCam_12.mov")
  = parser.ProjectName (parser.Parse testParser "/media/card/Spot_Nike_BCam_12.mov")
    +:+ "_" +:+ parser.Client (parser.Parse testParser "/media/card/Spot_Nike_BCam_12.mov")
    +:+ "_" +:+ parser.Camera (parser.Parse testParser "/media/card/Spot_Nike_BCam_12.mov")
    +:+ "_"
    +:+ parser.ClipNumber (parser.Parse testParser "/media/card/Spot_Nike_BCam_12.mov")
    +:+ parser.Extension (parser.Parse testParser "/media/card/Spot_Nike_BCam_12.mov").
Proof.
  destruct (file_names.Parse_file_name testParser "/media/card/Spot_Nike_BCam_12.mov")
    as (_ & _ & _ & Href).
  apply Href; reflexivity.
Defined.

Lemma formatSize_units_witness :
  sizes.formatSize (device.Size hugeDevice) = None
  /\ sizes.formatSize 1000 = Some (sizes.InBytes 1000).
Proof.
  split.
  - destruct (sizes_facts.formatSize_units (device.Size hugeDevice)) as (_ & _ & Hbig);
      [vm_compute; split; [discriminate | reflexivity]|].
    apply Hbig. vm_compute. discriminate.
  - destruct (sizes_facts.formatSize_units 1000) as (Hsmall & _);
      [vm_compute; split; [discriminate | reflexivity]|].
    apply Hsmall. reflexivity.
Defined.

Lemma checkForNewDrives_known_witness :
  windows.knownDrives
    (fst (fst (windows.checkForNewDrives cardReader driveOf keep freshDetector [] [])))
  !! "E:\" = Some true.
Proof.
  apply (windows_facts.checkForNewDrives_known cardReader driveOf keep freshDetector [] []).
  split; [vm_compute; right; left; reflexivity | reflexivity].
Defined.

Lemma drives_announced_once_witness :
  snd (windows.checkForNewDrives cardReader driveOf keep
         (fst (fst (windows.WatchForDevices cardReader freshDetector []))) [] [])
  = [].
Proof.
  destruct (windows_facts.drives_announced_once cardReader driveOf keep freshDetector [] [])
    as (_ & Hstart & _).
  destruct Hstart as (_ & _ & Hquiet); [reflexivity | reflexivity |].
  now rewrite Hquiet.
Defined.

Lemma device_log_lifecycle_witness :
  logfiles.deviceLogs
    (fst (fst (logfiles.CreateDeviceLog logToDevice opens "20250101_120000" "sdb1"
                 "/media/card" noLogger testWorld)))
  !! "sdb1" = Some "/media/card/ingest_log_20250101_120000_sdb1.txt"
  /\ logfiles.deviceLogs
       (logfiles.CloseDeviceLog "sdb1"
          (fst (fst (logfiles.CreateDeviceLog logToDevice opens "20250101_120000" "sdb1"
                       "/media/card" noLogger testWorld))))
     = ∅.
Proof.
  destruct (devicelog_facts.device_log_lifecycle logToDevice opens "20250101_120000"
              "sdb1" "/media/card" noLogger testWorld) as (_ & Hon).
  destruct Hon as (_ & Hmap & _ & _ & _ & Hclosed & _);
    [reflexivity | discriminate | reflexivity | vm_compute; discriminate |].
  split.
  - rewrite Hmap. vm_compute. reflexivity.
  - rewrite Hclosed. vm_compute. reflexivity.
Defined.

Lemma device_log_is_scanned_witness :
  "/media/card/ingest_log_20250101_120000_sdb1.txt"
  ∈ fst (fst (device.scanFiles soundEnv "/media/card"
                (devicelog.atScan logToDevice opens "20250101_120000" noLogger testCard
                   cardState)))
  /\ "/media/card/ingest_log_20250101_120000_sdb1.txt"
     ∉ fst (fst (device.scanFiles soundEnv "/media/card" cardState)).
Proof.
  destruct (devicelog_facts.device_log_is_scanned logToDevice soundEnv opens
              "20250101_120000" noLogger testCard cardState) as (_ & Hin & Hnew);
    try (vm_compute; reflexivity); try (vm_compute; discriminate).
  split; [exact Hin|]. apply Hnew. vm_compute. reflexivity.
Defined.

Lemma handleDeviceAdded_gate_witness :
  monitor.handleDeviceAdded testConfig strings.EqualFoldASCII
    (linux.MountDevice ingestBase soundEnv quietCommands) hugeDevice idleMonitor = None.
Proof.
  destruct (monitor_facts.handleDeviceAdded_gate testConfig strings.EqualFoldASCII
              (linux.MountDevice ingestBase soundEnv quietCommands) hugeDevice idleMonitor)
    as (_ & Hpanic & _); [vm_compute; split; [discriminate | reflexivity]|].
  apply Hpanic; [reflexivity | vm_compute; discriminate].
Defined.



Lemma GetDestinationPath_ordinary_tokens_witness :
  parser.GetFullDestinationPath testParser
    (parser.Parse testParser "/media/card/BrandVideo_Nike_ACam_001.mp4")
  = "/mnt/storage" +:+ "/" +:+ "Nike" +:+ "/" +:+ "BrandVideo" +:+ "/" +:+ "ACam" +:+ "/"
    +:+ "001" +:+ ".mp4".
Proof.
  refine (proj2 (destination_directory.GetDestinationPath_ordinary_tokens testParser
                   (parser.Parse testParser "/media/card/BrandVideo_Nike_ACam_001.mp4")
                   _ _ _ _ _ _ _ _ _ _) _);
    first [vm_compute; reflexivity | vm_compute; discriminate].
Defined.

(** The log of the device as a source: its copy holds what the log held
    when it was copied, and the line that reports the transfer is written
    to the log behind it. *)
Example device_log_grows_after_its_copy :
  world (snd (filelog.transferFile testConfig soundEnv plainDigest cardLogger noon wording
                "sdb1" logJob loggedState))
  !! "/mnt/storage/Unsorted/ingest_log_20250101_120000_sdb1.txt" = Some (File "scanning;")
  /\ world (snd (filelog.transferFile testConfig soundEnv plainDigest cardLogger noon
                   wording "sdb1" logJob loggedState))
     !! "/media/card/ingest_log_20250101_120000_sdb1.txt"
     = Some (File ("scanning;"
                   +:+ "[2025-01-01 12:00:00] [INFO] Transferred (unmatched): "
                   +:+ "ingest_log_20250101_120000_sdb1.txt"
                   +:+ String (ascii_of_nat 10) "")).
Proof. split; vm_compute; reflexivity. Qed.

(** A walk of the test card that fails at its third entry returns the
    one clip it has passed, with the error. *)
Example failing_walk_returns_files :
  device.scanFiles failingWalk "/media/card" cardState
  = ((["/media/card/BrandVideo_Nike_ACam_001.mp4"], Some (ErrIO (OpWalk "/media/card"))),
     cardState).
Proof. vm_compute. reflexivity. Qed.

End cases_facts.

